(** * jsonpatch: applying RFC 6902 patches to Go values

    A shallow embedding of [encode.go] (package [jsonpatch]) and of the
    deep-copy engine (package [deep]) over an explicit model of the Go
    run-time: a typed heap, [reflect.Value] handles, panics and error
    returns.

    Modelling boundaries (the parts of Go that are not repository code):
    - strings are byte strings; the case functions are exact on ASCII;
    - numbers in JSON text are integer literals within the exactly
      representable range of a float64; no arithmetic is done on them;
    - patch values are JSON scalars (null, booleans, numbers, strings);
    - map keys are strings; fixed-size arrays, interface-typed data and
      embedded-field promotion are outside the model; [TChan] stands for
      the kinds the program rejects as unsupported. *)

From Stdlib Require Import String Ascii ZArith List Bool Arith Lia.
Import ListNotations.
Set Warnings "-register-all".
Local Open Scope string_scope.
Local Open Scope Z_scope.
Local Open Scope list_scope.

(* ================================================================== *)
(** ** Strings: the [strings], [strconv] and [regexp] calls of the code *)
(* ================================================================== *)

Module Str.

Definition code (c : ascii) : nat := nat_of_ascii c.

Definition between (lo hi : nat) (c : ascii) : bool :=
  (Nat.leb lo (code c)) && (Nat.leb (code c) hi).

Definition is_lower : ascii -> bool := between 97 122.
Definition is_upper : ascii -> bool := between 65 90.
Definition is_digit : ascii -> bool := between 48 57.

Definition lower_char (c : ascii) : ascii :=
  if is_upper c then ascii_of_nat (code c + 32) else c.

Definition upper_char (c : ascii) : ascii :=
  if is_lower c then ascii_of_nat (code c - 32) else c.

(** [strings.ToLower] *)
Fixpoint ToLower (s : string) : string :=
  match s with
  | EmptyString => EmptyString
  | String c r => String (lower_char c) (ToLower r)
  end.

(** [hyphens.ReplaceAllString(s, "")] with [hyphens = `[\-_]`] *)
Fixpoint dropHyphens (s : string) : string :=
  match s with
  | EmptyString => EmptyString
  | String c r =>
      if (Ascii.eqb c "-" || Ascii.eqb c "_")%bool then dropHyphens r
      else String c (dropHyphens r)
  end.

(** [strings.isSeparator]: letters, digits and underscore are not
    separators; every other ASCII character is. *)
Definition isSeparator (c : ascii) : bool :=
  if Nat.leb (code c) 127
  then negb (is_digit c || is_lower c || is_upper c || Ascii.eqb c "_")
  else false.

Fixpoint title_from (prev : ascii) (s : string) : string :=
  match s with
  | EmptyString => EmptyString
  | String c r =>
      String (if isSeparator prev then upper_char c else c) (title_from c r)
  end.

(** [strings.Title]: upper-cases the letters that begin words. *)
Definition Title (s : string) : string := title_from " " s.

(** [strings.Trim(s, "/")] *)
Fixpoint trimLeft (s : string) : string :=
  match s with
  | String c r => if Ascii.eqb c "/" then trimLeft r else s
  | EmptyString => EmptyString
  end.

Fixpoint trimRight (s : string) : string :=
  match s with
  | EmptyString => EmptyString
  | String c r =>
      match trimRight r with
      | EmptyString => if Ascii.eqb c "/" then EmptyString else String c EmptyString
      | r' => String c r'
      end
  end.

Definition Trim (s : string) : string := trimRight (trimLeft s).

(** [strings.SplitN(s, "/", 2)]: the part before the first slash and,
    when there is a slash, the part after it. *)
Fixpoint SplitN2 (s : string) : string * option string :=
  match s with
  | EmptyString => (EmptyString, None)
  | String c r =>
      if Ascii.eqb c "/" then (EmptyString, Some r)
      else let (a, b) := SplitN2 r in (String c a, b)
  end.

(** [strings.Split(s, ",")] *)
Fixpoint Split (s : string) : list string :=
  match s with
  | EmptyString => [EmptyString]
  | String c r =>
      if Ascii.eqb c "," then EmptyString :: Split r
      else match Split r with
           | [] => [String c EmptyString]
           | a :: l => String c a :: l
           end
  end.

Definition int_min : Z := - 2 ^ 63.
Definition int_max : Z := 2 ^ 63 - 1.
Definition in_int (z : Z) : bool := (int_min <=? z) && (z <=? int_max).

Fixpoint digits (acc : Z) (s : string) : option Z :=
  match s with
  | EmptyString => Some acc
  | String c r =>
      if is_digit c then digits (acc * 10 + (Z.of_nat (code c) - 48)) r
      else None
  end.

Definition number (neg : bool) (body : string) : option Z :=
  match body with
  | EmptyString => None
  | _ => match digits 0 body with
         | Some n => let v := if neg then - n else n in
                     if in_int v then Some v else None
         | None => None
         end
  end.

(** [strconv.Atoi]: an optional sign and at least one decimal digit,
    within the range of a 64-bit int; [None] is the error return. *)
Definition Atoi (s : string) : option Z :=
  match s with
  | String c r =>
      if Ascii.eqb c "-" then number true r
      else if Ascii.eqb c "+" then number false r
      else number false s
  | EmptyString => None
  end.

End Str.

(* ================================================================== *)
(** ** Go types and values                                             *)
(* ================================================================== *)

Inductive ty : Type :=
| TBool | TInt | TFloat64 | TString
| TPtr (t : ty)
| TSlice (t : ty)
| TMap (t : ty)            (* map[string]t *)
| TStruct (name : string)  (* a declared struct type *)
| TChan (t : ty).

Fixpoint ty_eqb (a b : ty) : bool :=
  match a, b with
  | TBool, TBool | TInt, TInt | TFloat64, TFloat64 | TString, TString => true
  | TPtr a', TPtr b' | TSlice a', TSlice b' | TMap a', TMap b'
  | TChan a', TChan b' => ty_eqb a' b'
  | TStruct n, TStruct m => String.eqb n m
  | _, _ => false
  end.

Inductive kind : Type :=
| KInvalid | KBool | KInt | KFloat64 | KString
| KPtr | KSlice | KMap | KStruct | KChan.

Definition kind_of_ty (t : ty) : kind :=
  match t with
  | TBool => KBool | TInt => KInt | TFloat64 => KFloat64 | TString => KString
  | TPtr _ => KPtr | TSlice _ => KSlice | TMap _ => KMap
  | TStruct _ => KStruct | TChan _ => KChan
  end.

Definition kind_eqb (a b : kind) : bool :=
  match a, b with
  | KInvalid, KInvalid | KBool, KBool | KInt, KInt | KFloat64, KFloat64
  | KString, KString | KPtr, KPtr | KSlice, KSlice | KMap, KMap
  | KStruct, KStruct | KChan, KChan => true
  | _, _ => false
  end.

(** A struct field declaration: name, the value of its [json] tag (empty
    when there is none), type, and whether it is an embedded field. *)
Record field : Type := mkField {
  fname : string;
  ftag : string;
  fty : ty;
  fanon : bool
}.

(** The declared struct types.  A struct may hold another struct by value
    only when that one is declared later in the list; through a pointer,
    slice or map any declared type may be named. *)
Definition tyenv : Type := list (string * list field).

Fixpoint fields_of (env : tyenv) (n : string) : list field :=
  match env with
  | [] => []
  | (m, fs) :: env' => if String.eqb n m then fs else fields_of env' n
  end.

(** An addressable variable: a heap object and a path of field or element
    indices into it. *)
Record place : Type := mkPlace { ploc : nat; ppath : list nat }.

Definition place_eqb (p q : place) : bool :=
  Nat.eqb (ploc p) (ploc q) &&
  (if list_eq_dec Nat.eq_dec (ppath p) (ppath q) then true else false).

(** A slice header: backing array, offset in it, length and capacity. *)
Record slice_hdr : Type := mkSlice {
  sarr : nat; soff : nat; slen : nat; scap : nat
}.

Inductive val : Type :=
| VBool (b : bool)
| VInt (z : Z)
| VFloat (z : Z)
| VString (s : string)
| VPtr (t : ty) (p : option place)        (* *t; None is nil *)
| VSlice (t : ty) (s : option slice_hdr)  (* []t; None is nil *)
| VMap (t : ty) (m : option nat)          (* map[string]t; None is nil *)
| VStruct (name : string) (fs : list val)
| VChan (t : ty).                         (* a nil channel *)

Definition type_of (v : val) : ty :=
  match v with
  | VBool _ => TBool | VInt _ => TInt | VFloat _ => TFloat64
  | VString _ => TString
  | VPtr t _ => TPtr t | VSlice t _ => TSlice t | VMap t _ => TMap t
  | VStruct n _ => TStruct n | VChan t => TChan t
  end.

(** [reflect.Zero]: the zero value of a type. *)
Fixpoint zero (env : tyenv) (t : ty) {struct env} : val :=
  match t with
  | TBool => VBool false
  | TInt => VInt 0
  | TFloat64 => VFloat 0
  | TString => VString ""
  | TPtr t' => VPtr t' None
  | TSlice t' => VSlice t' None
  | TMap t' => VMap t' None
  | TChan t' => VChan t'
  | TStruct n =>
      match env with
      | [] => VStruct n []
      | (m, fs) :: env' =>
          if String.eqb n m
          then VStruct n (map (fun f => zero env' (fty f)) fs)
          else zero env' t
      end
  end.

(** Heap objects: a variable made by [new], the backing array of a slice,
    or the table of a map. *)
Inductive obj : Type :=
| OVar (v : val)
| OArr (vs : list val)
| OMap (kvs : list (string * val)).

Definition heap : Type := list obj.

Fixpoint list_set {A} (l : list A) (i : nat) (x : A) : option (list A) :=
  match l, i with
  | [], _ => None
  | _ :: r, O => Some (x :: r)
  | a :: r, S i' => option_map (cons a) (list_set r i' x)
  end.

Fixpoint get_path (v : val) (path : list nat) : option val :=
  match path with
  | [] => Some v
  | i :: rest =>
      match v with
      | VStruct _ fs =>
          match nth_error fs i with
          | Some f => get_path f rest
          | None => None
          end
      | _ => None
      end
  end.

Fixpoint set_path (v : val) (path : list nat) (w : val) : option val :=
  match path with
  | [] => Some w
  | i :: rest =>
      match v with
      | VStruct n fs =>
          match nth_error fs i with
          | Some f =>
              match set_path f rest w with
              | Some f' => option_map (VStruct n) (list_set fs i f')
              | None => None
              end
          | None => None
          end
      | _ => None
      end
  end.

Definition load (h : heap) (p : place) : option val :=
  match nth_error h (ploc p) with
  | Some (OVar v) => get_path v (ppath p)
  | Some (OArr vs) =>
      match ppath p with
      | i :: rest =>
          match nth_error vs i with
          | Some v => get_path v rest
          | None => None
          end
      | [] => None
      end
  | _ => None
  end.

Definition store (h : heap) (p : place) (w : val) : option heap :=
  match nth_error h (ploc p) with
  | Some (OVar v) =>
      match set_path v (ppath p) w with
      | Some v' => list_set h (ploc p) (OVar v')
      | None => None
      end
  | Some (OArr vs) =>
      match ppath p with
      | i :: rest =>
          match nth_error vs i with
          | Some v =>
              match set_path v rest w with
              | Some v' =>
                  match list_set vs i v' with
                  | Some vs' => list_set h (ploc p) (OArr vs')
                  | None => None
                  end
              | None => None
              end
          | None => None
          end
      | [] => None
      end
  | _ => None
  end.

(** Map tables: association lists with at most one entry per key. *)
Fixpoint alist_get (kvs : list (string * val)) (k : string) : option val :=
  match kvs with
  | [] => None
  | (k', v) :: r => if String.eqb k k' then Some v else alist_get r k
  end.

Fixpoint alist_put (kvs : list (string * val)) (k : string) (v : val)
  : list (string * val) :=
  match kvs with
  | [] => [(k, v)]
  | (k', v') :: r =>
      if String.eqb k k' then (k, v) :: r else (k', v') :: alist_put r k v
  end.

Fixpoint alist_del (kvs : list (string * val)) (k : string)
  : list (string * val) :=
  match kvs with
  | [] => []
  | (k', v') :: r =>
      if String.eqb k k' then alist_del r k else (k', v') :: alist_del r k
  end.

(* ================================================================== *)
(** ** Outcomes of running Go code                                     *)
(* ================================================================== *)

(** The error values of the two packages and of [encoding/json]. *)
Inductive error : Type :=
| ErrNonPointer | ErrCouldNotCopy | ErrUnmarshal | ErrNodeNil
| ErrIncorrectIndex | ErrGarbage | ErrNotImplemented
| ErrUnsupported (key : string)
| ErrNew (msg : string)            (* errors.New(msg) *)
| JsonSyntaxError                  (* malformed or missing JSON text *)
| JsonTypeError                    (* json.UnmarshalTypeError *)
| DeepNonPointer | DeepDifferentKinds | DeepUnsupported.

(** The run-time panics of [reflect] that the code can reach. *)
Inductive panic : Type :=
| PZeroValue        (* method called on the zero reflect.Value *)
| PKind             (* method called on a value of the wrong kind *)
| PIndexRange       (* slice index or bounds out of range *)
| PNotAssignable    (* Set on an unaddressable or read-only value *)
| PUnaddressable    (* Addr of an unaddressable value *)
| PTypeMismatch     (* value not assignable to the target type *)
| PUnexported       (* value obtained through an unexported field *)
| PNilMap           (* assignment to entry in nil map *)
| PMakeSlice.       (* negative length or capacity *)

Inductive outcome (A : Type) : Type :=
| Ok (a : A) (h : heap)      (* normal return *)
| Err (e : error) (h : heap) (* a non-nil error was returned *)
| Panic (p : panic)          (* the goroutine panicked *)
| OutOfFuel                  (* the recursion bound of the model was hit *)
| Stuck.                     (* the heap is not one Go can produce *)

Arguments Ok {A} a h.
Arguments Err {A} e h.
Arguments Panic {A} p.
Arguments OutOfFuel {A}.
Arguments Stuck {A}.

Definition M (A : Type) : Type := heap -> outcome A.

Definition ret {A} (a : A) : M A := fun h => Ok a h.

Definition bind {A B} (m : M A) (f : A -> M B) : M B :=
  fun h =>
    match m h with
    | Ok a h' => f a h'
    | Err e h' => Err e h'
    | Panic p => Panic p
    | OutOfFuel => OutOfFuel
    | Stuck => Stuck
    end.

Definition fail {A} (e : error) : M A := fun h => Err e h.
Definition throw {A} (p : panic) : M A := fun _ => Panic p.
Definition stuck {A} : M A := fun _ => Stuck.
Definition out_of_fuel {A} : M A := fun _ => OutOfFuel.

(** Calling a function and dropping the error it returns. *)
Definition discard {A} (m : M A) : M unit :=
  fun h =>
    match m h with
    | Ok _ h' => Ok tt h'
    | Err _ h' => Ok tt h'
    | Panic p => Panic p
    | OutOfFuel => OutOfFuel
    | Stuck => Stuck
    end.

(** Calling a function and inspecting the error it returns. *)
Definition try {A} (m : M A) : M (A + error) :=
  fun h =>
    match m h with
    | Ok a h' => Ok (inl a) h'
    | Err e h' => Ok (inr e) h'
    | Panic p => Panic p
    | OutOfFuel => OutOfFuel
    | Stuck => Stuck
    end.

Declare Scope go_scope.
Delimit Scope go_scope with go.
Notation "x <- m ;; k" := (bind m (fun x => k))
  (at level 61, m at next level, right associativity) : go_scope.
Notation "m ;; k" := (bind m (fun _ => k))
  (at level 61, right associativity) : go_scope.
Local Open Scope go_scope.

Definition get_heap : M heap := fun h => Ok h h.

Definition alloc (o : obj) : M nat :=
  fun h => Ok (List.length h) (h ++ [o])%list.

Definition read (p : place) : M val :=
  fun h => match load h p with Some v => Ok v h | None => Stuck end.

Definition write (p : place) (v : val) : M unit :=
  fun h => match store h p v with Some h' => Ok tt h' | None => Stuck end.

Definition read_arr (l : nat) : M (list val) :=
  fun h => match nth_error h l with
           | Some (OArr vs) => Ok vs h
           | _ => Stuck
           end.

Definition read_map (l : nat) : M (list (string * val)) :=
  fun h => match nth_error h l with
           | Some (OMap kvs) => Ok kvs h
           | _ => Stuck
           end.

Definition write_map (l : nat) (kvs : list (string * val)) : M unit :=
  fun h => match nth_error h l with
           | Some (OMap _) =>
               match list_set h l (OMap kvs) with
               | Some h' => Ok tt h'
               | None => Stuck
               end
           | _ => Stuck
           end.

Definition write_arr (l : nat) (vs : list val) : M unit :=
  fun h => match nth_error h l with
           | Some (OArr _) =>
               match list_set h l (OArr vs) with
               | Some h' => Ok tt h'
               | None => Stuck
               end
           | _ => Stuck
           end.

(* ================================================================== *)
(** ** Package [reflect]                                               *)
(* ================================================================== *)

Module reflect.

(** A [reflect.Value]: the zero Value, a handle on an addressable
    variable, or a value held by the handle itself.  [ro] is the
    read-only flag of a value reached through an unexported field. *)
Inductive Value : Type :=
| Invalid
| Var (ro : bool) (p : place)
| Imm (ro : bool) (v : val).

Definition IsValid (x : Value) : bool :=
  match x with Invalid => false | _ => true end.

Definition CanAddr (x : Value) : bool :=
  match x with Var _ _ => true | _ => false end.

Definition flagRO (x : Value) : bool :=
  match x with Invalid => false | Var ro _ | Imm ro _ => ro end.

(** The Go value a handle currently denotes. *)
Definition get (x : Value) : M val :=
  match x with
  | Invalid => throw PZeroValue
  | Var _ p => read p
  | Imm _ v => ret v
  end.

Definition Kind (x : Value) : M kind :=
  match x with
  | Invalid => ret KInvalid
  | _ => v <- get x ;; ret (kind_of_ty (type_of v))
  end.

Definition Type_ (x : Value) : M ty :=
  v <- get x ;; ret (type_of v).

Definition IsNil (x : Value) : M bool :=
  v <- get x ;;
  match v with
  | VPtr _ None | VSlice _ None | VMap _ None | VChan _ => ret true
  | VPtr _ (Some _) | VSlice _ (Some _) | VMap _ (Some _) => ret false
  | _ => throw PKind
  end.

Definition Elem (x : Value) : M Value :=
  v <- get x ;;
  match v with
  | VPtr _ (Some q) => ret (Var (flagRO x) q)
  | VPtr _ None => ret Invalid
  | _ => throw PKind
  end.

Definition Indirect (x : Value) : M Value :=
  k <- Kind x ;;
  match k with
  | KPtr => Elem x
  | _ => ret x
  end.

Definition Addr (x : Value) : M Value :=
  match x with
  | Var ro p => v <- read p ;; ret (Imm ro (VPtr (type_of v) (Some p)))
  | _ => throw PUnaddressable
  end.

(** [v.Set(x)]: [v] must be addressable and not read-only, [x] valid and
    not read-only, and the types identical. *)
Definition Set_ (v x : Value) : M unit :=
  match v with
  | Invalid => throw PZeroValue
  | Imm _ _ => throw PNotAssignable
  | Var true _ => throw PUnexported
  | Var false p =>
      match x with
      | Invalid => throw PZeroValue
      | _ =>
          if flagRO x then throw PUnexported
          else
            old <- read p ;;
            new <- get x ;;
            if ty_eqb (type_of old) (type_of new) then write p new
            else throw PTypeMismatch
      end
  end.

Definition Zero (env : tyenv) (t : ty) : Value := Imm false (zero env t).

Definition New (env : tyenv) (t : ty) : M Value :=
  l <- alloc (OVar (zero env t)) ;;
  ret (Imm false (VPtr t (Some (mkPlace l [])))).

(** [v.Interface()] gives the value as an [interface{}]; [None] is the
    nil interface. *)
Definition Interface (x : Value) : M (option val) :=
  match x with
  | Invalid => throw PZeroValue
  | _ => if flagRO x then throw PUnexported
         else v <- get x ;; ret (Some v)
  end.

Definition ValueOf (i : option val) : Value :=
  match i with
  | None => Invalid
  | Some v => Imm false v
  end.

Definition hdr_len (s : option slice_hdr) : nat :=
  match s with None => O | Some s => slen s end.

Definition hdr_cap (s : option slice_hdr) : nat :=
  match s with None => O | Some s => scap s end.

Definition Len (x : Value) : M Z :=
  v <- get x ;;
  match v with
  | VSlice _ s => ret (Z.of_nat (hdr_len s))
  | VMap _ None => ret 0
  | VMap _ (Some l) => kvs <- read_map l ;; ret (Z.of_nat (List.length kvs))
  | VString s => ret (Z.of_nat (String.length s))
  | _ => throw PKind
  end.

Definition Index (x : Value) (i : Z) : M Value :=
  v <- get x ;;
  match v with
  | VSlice _ s =>
      if (0 <=? i) && (i <? Z.of_nat (hdr_len s)) then
        match s with
        | Some s => ret (Var (flagRO x) (mkPlace (sarr s) [(soff s + Z.to_nat i)%nat]))
        | None => throw PIndexRange
        end
      else throw PIndexRange
  | _ => throw PKind
  end.

(** [v.Slice(i, j)]: bounds are checked against the capacity. *)
Definition Slice (x : Value) (i j : Z) : M Value :=
  v <- get x ;;
  match v with
  | VSlice t s =>
      if (0 <=? i) && (i <=? j) && (j <=? Z.of_nat (hdr_cap s)) then
        match s with
        | Some s =>
            ret (Imm (flagRO x)
                   (VSlice t (Some (mkSlice (sarr s) (soff s + Z.to_nat i)
                                      (Z.to_nat (j - i))
                                      (scap s - Z.to_nat i)))))
        | None => ret (Imm (flagRO x) (VSlice t None))
        end
      else throw PIndexRange
  | _ => throw PKind
  end.

(** [reflect.MakeSlice(typ, len, cap)] *)
Definition MakeSlice (env : tyenv) (typ : ty) (len cap : Z) : M Value :=
  match typ with
  | TSlice e =>
      if (len <? 0) || (cap <? 0) || (cap <? len) then throw PMakeSlice
      else
        l <- alloc (OArr (repeat (zero env e) (Z.to_nat cap))) ;;
        ret (Imm false (VSlice e (Some (mkSlice l O (Z.to_nat len) (Z.to_nat cap)))))
  | _ => throw PKind
  end.

(** The elements a slice header denotes. *)
Definition elems (s : option slice_hdr) : M (list val) :=
  match s with
  | None => ret []
  | Some s => vs <- read_arr (sarr s) ;; ret (firstn (slen s) (skipn (soff s) vs))
  end.

(** Overwrites the elements of the backing array from offset [off] on. *)
Definition blit (arr off : nat) (src : list val) : M unit :=
  match src with
  | [] => ret tt
  | _ =>
      vs <- read_arr arr ;;
      write_arr arr (firstn off vs ++ src
                       ++ skipn (off + List.length src) vs)%list
  end.

(** [reflect.Copy(dst, src)] copies [min(len(dst), len(src))] elements. *)
Definition Copy (dst src : Value) : M Z :=
  d <- get dst ;;
  s <- get src ;;
  match d, s with
  | VSlice td hd, VSlice ts hs =>
      if flagRO dst || flagRO src then throw PUnexported
      else if negb (ty_eqb td ts) then throw PTypeMismatch
      else
        es <- elems hs ;;
        let n := Nat.min (hdr_len hd) (hdr_len hs) in
        match hd with
        | Some hd' => blit (sarr hd') (soff hd') (firstn n es) ;; ret (Z.of_nat n)
        | None => ret 0
        end
  | _, _ => throw PKind
  end.

(** Room for [extra] more elements: the same backing array when the
    capacity allows, a fresh one holding a copy otherwise (the capacity
    Go picks for the fresh array is larger; it is never observed). *)
Definition grow (env : tyenv) (t : ty) (s : option slice_hdr) (extra : nat)
  : M slice_hdr :=
  let n := hdr_len s in
  if Nat.leb (n + extra) (hdr_cap s) then
    match s with
    | Some s => ret (mkSlice (sarr s) (soff s) (n + extra) (scap s))
    | None => l <- alloc (OArr []) ;; ret (mkSlice l O O O)
    end
  else
    es <- elems s ;;
    l <- alloc (OArr (es ++ repeat (zero env t) extra)%list) ;;
    ret (mkSlice l O (n + extra) (n + extra)).

(** [reflect.Append(s, x)] *)
Definition Append (env : tyenv) (s x : Value) : M Value :=
  sv <- get s ;;
  match sv with
  | VSlice t hs =>
      if flagRO s then throw PUnexported
      else
        h' <- grow env t hs 1 ;;
        let s' := Imm false (VSlice t (Some h')) in
        slot <- Index s' (Z.of_nat (hdr_len hs)) ;;
        Set_ slot x ;;
        ret s'
  | _ => throw PKind
  end.

(** [reflect.AppendSlice(s, t)] *)
Definition AppendSlice (env : tyenv) (s t : Value) : M Value :=
  sv <- get s ;;
  tv <- get t ;;
  match sv, tv with
  | VSlice ts hs, VSlice tu ht =>
      if flagRO s || flagRO t then throw PUnexported
      else if negb (ty_eqb ts tu) then throw PTypeMismatch
      else
        h' <- grow env ts hs (hdr_len ht) ;;
        es <- elems ht ;;
        blit (sarr h') (soff h' + hdr_len hs) es ;;
        ret (Imm false (VSlice ts (Some h')))
  | _, _ => throw PKind
  end.

(** [reflect.MakeMap(typ)] *)
Definition MakeMap (typ : ty) : M Value :=
  match typ with
  | TMap e => l <- alloc (OMap []) ;; ret (Imm false (VMap e (Some l)))
  | _ => throw PKind
  end.

(** [v.MapIndex(reflect.ValueOf(key))]: the zero Value when the key is
    absent or the map is nil. *)
Definition MapIndex (x : Value) (key : string) : M Value :=
  v <- get x ;;
  match v with
  | VMap _ None => ret Invalid
  | VMap _ (Some l) =>
      kvs <- read_map l ;;
      match alist_get kvs key with
      | Some e => ret (Imm (flagRO x) e)
      | None => ret Invalid
      end
  | _ => throw PKind
  end.

(** [v.SetMapIndex(reflect.ValueOf(key), elem)]: a zero [elem] deletes
    the key. *)
Definition SetMapIndex (x : Value) (key : string) (elem : Value) : M unit :=
  v <- get x ;;
  match v with
  | VMap t m =>
      if flagRO x then throw PUnexported
      else
        match elem with
        | Invalid =>
            match m with
            | None => ret tt
            | Some l => kvs <- read_map l ;; write_map l (alist_del kvs key)
            end
        | _ =>
            if flagRO elem then throw PUnexported
            else
              e <- get elem ;;
              if negb (ty_eqb (type_of e) t) then throw PTypeMismatch
              else
                match m with
                | None => throw PNilMap
                | Some l => kvs <- read_map l ;; write_map l (alist_put kvs key e)
                end
        end
  | _ => throw PKind
  end.

Definition MapKeys (x : Value) : M (list string) :=
  v <- get x ;;
  match v with
  | VMap _ None => ret []
  | VMap _ (Some l) => kvs <- read_map l ;; ret (map fst kvs)
  | _ => throw PKind
  end.

(** A field is exported when its name starts with an upper-case letter. *)
Definition exported (name : string) : bool :=
  match name with
  | String c _ => Str.is_upper c
  | EmptyString => false
  end.

(** [t.NumField()] *)
Definition NumField (env : tyenv) (t : ty) : M nat :=
  match t with
  | TStruct n => ret (List.length (fields_of env n))
  | _ => throw PKind
  end.

(** [t.Field(i)] on a type *)
Definition TypeField (env : tyenv) (t : ty) (i : nat) : M field :=
  match t with
  | TStruct n =>
      match nth_error (fields_of env n) i with
      | Some f => ret f
      | None => throw PIndexRange
      end
  | _ => throw PKind
  end.

(** [v.Field(i)] on a value *)
Definition Field (env : tyenv) (x : Value) (i : nat) : M Value :=
  v <- get x ;;
  match v with
  | VStruct n fs =>
      match nth_error (fields_of env n) i, nth_error fs i with
      | Some f, Some fv =>
          let ro := flagRO x || negb (exported (fname f)) in
          match x with
          | Var _ p => ret (Var ro (mkPlace (ploc p) (ppath p ++ [i])))
          | _ => ret (Imm ro fv)
          end
      | None, _ => throw PIndexRange
      | Some _, None => stuck
      end
  | _ => throw PKind
  end.

Fixpoint field_index (fs : list field) (name : string) (i : nat) : option nat :=
  match fs with
  | [] => None
  | f :: r => if String.eqb (fname f) name then Some i
              else field_index r name (S i)
  end.

(** [v.FieldByName(name)]: the zero Value when there is no such field. *)
Definition FieldByName (env : tyenv) (x : Value) (name : string) : M Value :=
  v <- get x ;;
  match v with
  | VStruct n _ =>
      match field_index (fields_of env n) name O with
      | Some i => Field env x i
      | None => ret Invalid
      end
  | _ => throw PKind
  end.

End reflect.

(** [t.Elem()] on a type *)
Definition ty_elem (t : ty) : M ty :=
  match t with
  | TPtr e | TSlice e | TMap e | TChan e => ret e
  | _ => throw PKind
  end.

(** A [for] loop over the elements of a list; an error or panic in the
    body ends it. *)
Fixpoint for_each {A} (l : list A) (body : A -> M unit) : M unit :=
  match l with
  | [] => ret tt
  | a :: r => body a ;; for_each r body
  end.

(** [for i := 0; i < n; i++] *)
Definition for_upto (n : nat) (body : nat -> M unit) : M unit :=
  for_each (seq 0 n) body.

(* ================================================================== *)
(** ** Package [encoding/json], on scalar literals                     *)
(* ================================================================== *)

Module json.

Inductive value : Type :=
| Null
| Bool (b : bool)
| Number (z : Z)
| Str (s : string).

(** A [json.RawMessage]; [None] is text that is absent or not JSON. *)
Definition RawMessage : Type := option value.

(** Decoding a literal into the variable of type [t] at [q]: pointers are
    followed, and allocated when nil; [null] resets pointers, slices and
    maps and leaves everything else alone; a literal of the wrong kind is
    an [UnmarshalTypeError]. *)
Fixpoint store_at (env : tyenv) (t : ty) (q : place) (j : value) : M unit :=
  match t with
  | TPtr t' =>
      match j with
      | Null => write q (VPtr t' None)
      | _ =>
          v <- read q ;;
          match v with
          | VPtr _ (Some q') => store_at env t' q' j
          | VPtr _ None =>
              l <- alloc (OVar (zero env t')) ;;
              write q (VPtr t' (Some (mkPlace l []))) ;;
              store_at env t' (mkPlace l []) j
          | _ => stuck
          end
      end
  | TSlice e => match j with Null => write q (VSlice e None) | _ => fail JsonTypeError end
  | TMap e => match j with Null => write q (VMap e None) | _ => fail JsonTypeError end
  | TBool =>
      match j with
      | Null => ret tt
      | Bool b => write q (VBool b)
      | _ => fail JsonTypeError
      end
  | TInt =>
      match j with
      | Null => ret tt
      | Number z => if Str.in_int z then write q (VInt z) else fail JsonTypeError
      | _ => fail JsonTypeError
      end
  | TFloat64 =>
      match j with
      | Null => ret tt
      | Number z => write q (VFloat z)
      | _ => fail JsonTypeError
      end
  | TString =>
      match j with
      | Null => ret tt
      | Str s => write q (VString s)
      | _ => fail JsonTypeError
      end
  | TStruct _ | TChan _ =>
      match j with
      | Null => ret tt
      | _ => fail JsonTypeError
      end
  end.

(** What a literal becomes when decoded into an empty interface. *)
Definition generic (j : value) : option val :=
  match j with
  | Null => None
  | Bool b => Some (VBool b)
  | Number z => Some (VFloat z)
  | Str s => Some (VString s)
  end.

(** [json.Unmarshal(data, v)] where [v] holds a pointer to a variable. *)
Definition Unmarshal (env : tyenv) (data : RawMessage) (v : option val) : M unit :=
  match data with
  | None => fail JsonSyntaxError
  | Some j =>
      match v with
      | Some (VPtr t (Some q)) => store_at env t q j
      | _ => fail JsonTypeError
      end
  end.

(** [json.Unmarshal(data, &n)] where [n] is an [interface{}] variable;
    the result is the new content of [n].  When [n] holds a non-nil
    pointer the literal is decoded into the variable it points to;
    otherwise [n] is overwritten with the generic decoding. *)
Definition UnmarshalIface (env : tyenv) (data : RawMessage) (n : option val)
  : M (option val) :=
  match data with
  | None => fail JsonSyntaxError
  | Some j =>
      match n with
      | Some (VPtr t (Some q)) =>
          match j, t with
          | Null, TPtr _ => store_at env t q j ;; ret n
          | Null, _ => ret None
          | _, _ => store_at env t q j ;; ret n
          end
      | _ => ret (generic j)
      end
  end.

End json.

(* ================================================================== *)
(** ** [reflect.DeepEqual]                                             *)
(* ================================================================== *)

Section DeepEqual.

Variable deep_eq : heap -> val -> val -> option bool.

Fixpoint all2 (h : heap) (l1 l2 : list val) : option bool :=
  match l1, l2 with
  | [], [] => Some true
  | a :: r1, b :: r2 =>
      match deep_eq h a b with
      | Some true => all2 h r1 r2
      | r => r
      end
  | _, _ => Some false
  end.

Fixpoint all_keys (h : heap) (kvs1 kvs2 : list (string * val)) : option bool :=
  match kvs1 with
  | [] => Some true
  | (k, a) :: r =>
      match alist_get kvs2 k with
      | None => Some false
      | Some b =>
          match deep_eq h a b with
          | Some true => all_keys h r kvs2
          | r' => r'
          end
      end
  end.

Definition slice_elems (h : heap) (s : slice_hdr) : option (list val) :=
  match nth_error h (sarr s) with
  | Some (OArr vs) => Some (firstn (slen s) (skipn (soff s) vs))
  | _ => None
  end.

Definition deep_eq_step (h : heap) (a b : val) : option bool :=
  if negb (ty_eqb (type_of a) (type_of b)) then Some false
  else
    match a, b with
    | VBool x, VBool y => Some (Bool.eqb x y)
    | VInt x, VInt y | VFloat x, VFloat y => Some (x =? y)
    | VString x, VString y => Some (String.eqb x y)
    | VChan _, VChan _ => Some true
    | VPtr _ None, VPtr _ None => Some true
    | VPtr _ (Some p), VPtr _ (Some q) =>
        if place_eqb p q then Some true
        else
          match load h p, load h q with
          | Some x, Some y => deep_eq h x y
          | _, _ => None
          end
    | VPtr _ _, VPtr _ _ => Some false
    | VSlice _ None, VSlice _ None => Some true
    | VSlice _ (Some s1), VSlice _ (Some s2) =>
        if negb (Nat.eqb (slen s1) (slen s2)) then Some false
        else if Nat.eqb (sarr s1) (sarr s2) && Nat.eqb (soff s1) (soff s2)
        then Some true
        else
          match slice_elems h s1, slice_elems h s2 with
          | Some l1, Some l2 => all2 h l1 l2
          | _, _ => None
          end
    | VSlice _ _, VSlice _ _ => Some false
    | VMap _ None, VMap _ None => Some true
    | VMap _ (Some m1), VMap _ (Some m2) =>
        match nth_error h m1, nth_error h m2 with
        | Some (OMap kvs1), Some (OMap kvs2) =>
            if negb (Nat.eqb (List.length kvs1) (List.length kvs2)) then Some false
            else if Nat.eqb m1 m2 then Some true
            else all_keys h kvs1 kvs2
        | _, _ => None
        end
    | VMap _ _, VMap _ _ => Some false
    | VStruct _ fs1, VStruct _ fs2 => all2 h fs1 fs2
    | _, _ => Some false
    end.

End DeepEqual.

(** Deep equality of two values of the heap; [None] when the bound on
    the depth of the comparison is reached. *)
Fixpoint deep_eq (fuel : nat) (h : heap) (a b : val) : option bool :=
  match fuel with
  | O => None
  | S fuel' => deep_eq_step (deep_eq fuel') h a b
  end.

(** [reflect.DeepEqual(a, b)] on two [interface{}] values. *)
Definition DeepEqual (fuel : nat) (a b : option val) : M bool :=
  match a, b with
  | None, None => ret true
  | Some x, Some y =>
      fun h => match deep_eq fuel h x y with
               | Some r => Ok r h
               | None => OutOfFuel
               end
  | _, _ => ret false
  end.

(* ================================================================== *)
(** ** Package [deep]: the deep-copy engine                            *)
(* ================================================================== *)

Module deep.
Import reflect.

Section WithTypes.

Variable env : tyenv.

(** [if x.Kind() == reflect.Ptr { x = f(x) }] *)
Definition if_ptr (x : Value) (f : Value -> M Value) : M Value :=
  k <- Kind x ;;
  match k with
  | KPtr => f x
  | _ => ret x
  end.

Definition copyPrimitives (x y : Value) : M unit :=
  x <- if_ptr x Indirect ;;
  y <- if_ptr y Indirect ;;
  Set_ y x.

(** The three container copiers call back into [rcopy]. *)
Section Containers.

Variable rcopy : Value -> Value -> M unit.

Definition copyArray (x y : Value) : M unit :=
  x <- if_ptr x Elem ;;
  y <- if_ptr y Elem ;;
  l <- Len x ;;
  k <- Kind x ;;
  match k with
  | KSlice =>
      t <- Type_ x ;;
      sl <- MakeSlice env t l l ;;
      Set_ y sl
  | _ => ret tt
  end ;;
  for_upto (Z.to_nat l) (fun i =>
    vx <- Index x (Z.of_nat i) ;;
    vy <- Index y (Z.of_nat i) ;;
    kx <- Kind vx ;;
    match kx with
    | KPtr => rcopy vx vy
    | _ =>
        if negb (CanAddr vx) then Set_ vy vx
        else
          (if negb (CanAddr vy)
           then (n <- Interface vx ;; Set_ vy (ValueOf n))
           else ret tt) ;;
          ax <- Addr vx ;;
          ay <- Addr vy ;;
          rcopy ax ay
    end).

Definition copyMap (x y : Value) : M unit :=
  x <- if_ptr x Indirect ;;
  y <- if_ptr y Indirect ;;
  isnil <- IsNil x ;;
  if isnil then ret tt
  else
    keys <- MapKeys x ;;
    t <- Type_ x ;;
    m <- MakeMap t ;;
    Set_ y m ;;
    for_each keys (fun key =>
      vx <- MapIndex x key ;;
      vy <- MapIndex y key ;;
      kx <- Kind vx ;;
      match kx with
      | KPtr =>
          el <- Elem vx ;;
          if negb (IsValid el) then ret tt
          else
            t <- Type_ el ;;
            n <- New env t ;;
            SetMapIndex y key n ;;
            vy <- MapIndex y key ;;
            rcopy vx vy
      | _ =>
          if negb (CanAddr vx) then SetMapIndex y key vx
          else
            let vy := if negb (CanAddr vy) then vx else vy in
            ax <- Addr vx ;;
            ay <- Addr vy ;;
            rcopy ax ay ;;
            SetMapIndex y key vy
      end).

(** [string(st.Name[0]) != strings.ToUpper(string(st.Name[0]))] *)
Definition lowerInitial (name : string) : M bool :=
  match name with
  | String c _ => ret (negb (Ascii.eqb c (Str.upper_char c)))
  | EmptyString => throw PIndexRange
  end.

Definition copyStruct (x y : Value) : M unit :=
  x <- if_ptr x Indirect ;;
  y <- if_ptr y Indirect ;;
  k <- Kind x ;;
  match k with
  | KPtr => rcopy x y
  | _ =>
      t <- Type_ x ;;
      n <- NumField env t ;;
      (if IsValid y then Set_ y x else ret tt) ;;
      for_upto n (fun i =>
        t <- Type_ x ;;
        st <- TypeField env t i ;;
        if fanon st then ret tt
        else
          private <- lowerInitial (fname st) ;;
          if private then ret tt
          else
            vx <- Field env x i ;;
            vy <- Field env y i ;;
            kx <- Kind vx ;;
            match kx with
            | KPtr =>
                el <- Elem vx ;;
                if negb (IsValid el) then ret tt
                else
                  t <- Type_ el ;;
                  n <- New env t ;;
                  Set_ vy n ;;
                  rcopy vx vy
            | _ =>
                if negb (CanAddr vx) then Set_ vy vx
                else
                  let vy := if negb (CanAddr vy) then vx else vy in
                  ax <- Addr vx ;;
                  ay <- Addr vy ;;
                  rcopy ax ay
            end)
  end.

End Containers.

(** [rcopy]; [fuel] bounds the depth of the recursion, which in Go is
    bounded only by the stack. *)
Fixpoint rcopy (fuel : nat) (x y : Value) : M unit :=
  match fuel with
  | O => out_of_fuel
  | S fuel' =>
      x <- if_ptr x Elem ;;
      y <- if_ptr y (fun y =>
             isnil <- IsNil y ;;
             (if isnil
              then (t <- Type_ y ;; e <- ty_elem t ;; n <- New env e ;; Set_ y n)
              else ret tt) ;;
             Elem y) ;;
      k <- Kind x ;;
      match k with
      | KSlice =>
          ax <- Addr x ;; ay <- Addr y ;; copyArray (rcopy fuel') ax ay
      | KMap =>
          ax <- Addr x ;; ay <- Addr y ;; copyMap (rcopy fuel') ax ay
      | KStruct =>
          ax <- Addr x ;; ay <- Addr y ;; copyStruct (rcopy fuel') ax ay
      | KPtr =>
          vx <- Elem x ;;
          t <- Type_ vx ;;
          n <- New env t ;;
          Set_ y n ;;
          vy <- Elem y ;;
          if negb (CanAddr vx) || negb (CanAddr vy) then Set_ vy vx
          else
            ax <- Addr vx ;; ay <- Addr vy ;; rcopy fuel' ax ay
      | KInvalid | KChan => fail DeepUnsupported
      | _ =>
          if negb (CanAddr x) || negb (CanAddr y) then Set_ y x
          else
            ax <- Addr x ;; ay <- Addr y ;; copyPrimitives ax ay
      end
  end.

(** [Copy(x, y)]: both arguments are [interface{}] values. *)
Definition Copy (fuel : nat) (x y : option val) : M unit :=
  let rx := ValueOf x in
  kx <- Kind rx ;;
  match kx with
  | KPtr =>
      isnil <- IsNil rx ;;
      if isnil then ret tt
      else
        let ry := ValueOf y in
        ky <- Kind ry ;;
        match ky with
        | KPtr =>
            if negb (kind_eqb kx ky) then fail DeepDifferentKinds
            else rcopy fuel rx ry
        | _ => fail DeepNonPointer
        end
  | _ => fail DeepNonPointer
  end.

End WithTypes.

End deep.

(* ================================================================== *)
(** ** Package [jsonpatch]                                             *)
(* ================================================================== *)

Module jsonpatch.
Import reflect.

Record patch : Type := mkPatch {
  Op : string;
  Path : string;
  From : string;
  Value : json.RawMessage
}.

Section WithTypes.

Variable env : tyenv.

(** The recursion bound handed to [deep.Copy] and [reflect.DeepEqual]. *)
Variable fuel : nat.

Fixpoint has_flag (name : string) (flags : list string) : bool :=
  match flags with
  | [] => false
  | flag :: r => if String.eqb name flag then true else has_flag name r
  end.

Fixpoint bestMatch_from (name key : string) (fs : list field) : string :=
  match fs with
  | [] => ""
  | f :: r =>
      if String.eqb (fname f) name then fname f
      else if negb (String.eqb (ftag f) "")
              && has_flag name (Str.Split (ftag f)) then fname f
      else if String.eqb key (Str.ToLower (Str.dropHyphens (fname f)))
      then fname f
      else bestMatch_from name key r
  end.

(** [bestMatch] returns the name of the first field, in declaration
    order, that matches [name] exactly, by one of the flags of its [json]
    tag, or after lower-casing and dropping hyphens and underscores; the
    empty string when there is none. *)
Definition bestMatch (name : string) (t : ty) : M string :=
  match t with
  | TStruct n =>
      ret (bestMatch_from name (Str.ToLower (Str.dropHyphens name)) (fields_of env n))
  | _ => throw PKind
  end.

(** [if v.Kind() == reflect.Ptr { v = f(v) }] *)
Definition if_ptr (v : reflect.Value) (f : reflect.Value -> M reflect.Value) : M reflect.Value :=
  k <- Kind v ;;
  match k with
  | KPtr => f v
  | _ => ret v
  end.

(** The nil-to-fresh step at the head of [findNode] and [add]. *)
Definition fresh_if_nil (v : reflect.Value) : M reflect.Value :=
  isnil <- IsNil v ;;
  (if isnil
   then (t <- Type_ v ;; e <- ty_elem t ;; n <- New env e ;; Set_ v n)
   else ret tt) ;;
  Elem v.

Definition add (node : string) (p : patch) (v : reflect.Value) : M unit :=
  v <- if_ptr v fresh_if_nil ;;
  k <- Kind v ;;
  match k with
  | KSlice =>
      l <- Len v ;;
      if String.eqb node "-" then
        t <- Type_ v ;;
        sl <- MakeSlice env t (l + 1) (l + 1) ;;
        Copy sl v ;;
        child <- Index sl l ;;
        n <- Interface child ;;
        n <- json.UnmarshalIface env (Value p) n ;;
        Set_ child (ValueOf n) ;;
        Set_ v sl
      else
        match Str.Atoi node with
        | None => fail ErrIncorrectIndex
        | Some pos =>
            child <- Index v pos ;;
            n <- Interface child ;;
            n <- json.UnmarshalIface env (Value p) n ;;
            t <- Type_ v ;;
            sl <- MakeSlice env t 0 (l + 1) ;;
            front <- Slice v 0 pos ;;
            sl <- AppendSlice env sl front ;;
            sl <- Append env sl (ValueOf n) ;;
            back <- Slice v pos l ;;
            sl <- AppendSlice env sl back ;;
            Set_ v sl
        end
  | KMap =>
      isnil <- IsNil v ;;
      (if isnil then (t <- Type_ v ;; m <- MakeMap t ;; Set_ v m) else ret tt) ;;
      t <- Type_ v ;;
      e <- ty_elem t ;;
      n <- Interface (Zero env e) ;;
      n <- json.UnmarshalIface env (Value p) n ;;
      SetMapIndex v node (ValueOf n)
  | KStruct =>
      child <- FieldByName env v (Str.Title node) ;;
      kc <- Kind child ;;
      isnil <- match kc with KPtr => IsNil child | _ => ret false end ;;
      if isnil then
        t <- Type_ child ;;
        e <- ty_elem t ;;
        n <- New env e ;;
        i <- Interface n ;;
        json.Unmarshal env (Value p) i ;;
        Set_ child n
      else
        t <- Type_ child ;;
        n <- New env t ;;
        i <- Interface n ;;
        json.Unmarshal env (Value p) i ;;
        e <- Elem n ;;
        Set_ child e
  | KPtr =>
      isnil <- IsNil v ;;
      (if isnil
       then (t <- Type_ v ;; e <- ty_elem t ;; child <- New env e ;; Set_ v child)
       else ret tt) ;;
      e <- Elem v ;;
      el <- Interface e ;;
      el <- json.UnmarshalIface env (Value p) el ;;
      a <- Addr (ValueOf el) ;;
      Set_ v a
  | _ => ret tt
  end.

Definition replace (node : string) (p : patch) (v : reflect.Value) : M unit :=
  v <- if_ptr v Elem ;;
  k <- Kind v ;;
  match k with
  | KSlice =>
      match Str.Atoi node with
      | None => fail ErrIncorrectIndex
      | Some pos =>
          l <- Len v ;;
          if l <? pos then fail ErrIncorrectIndex
          else
            child <- Index v pos ;;
            n <- Interface child ;;
            n <- json.UnmarshalIface env (Value p) n ;;
            Set_ child (ValueOf n)
      end
  | KMap =>
      child <- MapIndex v node ;;
      if negb (IsValid child) then fail (ErrNew "map element not found")
      else
        n <- Interface child ;;
        n <- json.UnmarshalIface env (Value p) n ;;
        SetMapIndex v node (ValueOf n)
  | KStruct =>
      child <- FieldByName env v (Str.Title node) ;;
      t <- Type_ child ;;
      n <- New env t ;;
      i <- Interface n ;;
      json.Unmarshal env (Value p) i ;;
      e <- Elem n ;;
      Set_ child e
  | KPtr => fail ErrNotImplemented
  | _ => ret tt
  end.

Definition remove (node : string) (p : patch) (v : reflect.Value) : M unit :=
  v <- if_ptr v Indirect ;;
  k <- Kind v ;;
  match k with
  | KSlice =>
      match Str.Atoi node with
      | None => fail ErrIncorrectIndex
      | Some pos =>
          t <- Type_ v ;;
          l <- Len v ;;
          sl <- MakeSlice env t 0 (l - 1) ;;
          front <- Slice v 0 pos ;;
          sl <- AppendSlice env sl front ;;
          l <- Len v ;;
          back <- Slice v (pos + 1) l ;;
          sl <- AppendSlice env sl back ;;
          Set_ v sl
      end
  | KMap =>
      child <- MapIndex v node ;;
      t <- Type_ child ;;
      SetMapIndex v node (Zero env t)
  | KStruct =>
      child <- FieldByName env v (Str.Title node) ;;
      t <- Type_ child ;;
      Set_ child (Zero env t)
  | KPtr => fail ErrNotImplemented
  | _ => ret tt
  end.

(** The [switch] of [test]: the child to compare, or [None] where the
    function returns nil from inside the switch. *)
Definition test_child (node : string) (v : reflect.Value) : M (option reflect.Value) :=
  k <- Kind v ;;
  match k with
  | KSlice =>
      match Str.Atoi node with
      | None => fail ErrIncorrectIndex
      | Some pos =>
          child <- Index v pos ;;
          kc <- Kind child ;;
          match kc with
          | KPtr =>
              isnil <- IsNil child ;;
              if isnil then ret None
              else (c <- Indirect child ;; ret (Some c))
          | _ => ret (Some child)
          end
      end
  | KMap => child <- MapIndex v node ;; ret (Some child)
  | KStruct => child <- FieldByName env v (Str.Title node) ;; ret (Some child)
  | KPtr => fail ErrNotImplemented
  | _ => ret (Some Invalid)
  end.

Definition test (node : string) (p : patch) (v : reflect.Value) : M unit :=
  v <- if_ptr v Indirect ;;
  c <- test_child node v ;;
  match c with
  | None => ret tt
  | Some child =>
      n <- Interface child ;;
      m <- Interface child ;;
      n <- json.UnmarshalIface env (Value p) n ;;
      eq <- DeepEqual fuel n m ;;
      if negb eq then fail (ErrNew "elements are not equal")
      else ret tt
  end.

(** [applyNode]: the value each operation returns is dropped, and the
    function returns nil for every operation name. *)
Definition applyNode (node : string) (p : patch) (x : reflect.Value) : M unit :=
  (if String.eqb (Op p) "add" then discard (add node p x)
   else if String.eqb (Op p) "replace" then discard (replace node p x)
   else if String.eqb (Op p) "remove" then discard (remove node p x)
   else if String.eqb (Op p) "test" then discard (test node p x)
   else if String.eqb (Op p) "copy" then ret tt
   else if String.eqb (Op p) "move" then ret tt
   else ret tt) ;;
  ret tt.

(** [findNode] descends one level and calls back into [rapply]. *)
Definition findNode (rapply : string -> patch -> reflect.Value -> M unit)
    (root node : string) (p : patch) (x : reflect.Value) : M unit :=
  x <- if_ptr x fresh_if_nil ;;
  k <- Kind x ;;
  child <- match k with
           | KSlice =>
               match Str.Atoi root with
               | None => fail ErrIncorrectIndex
               | Some pos =>
                   l <- Len x ;;
                   if l <=? pos then fail ErrIncorrectIndex
                   else Index x pos
               end
           | KMap => MapIndex x root
           | KStruct =>
               t <- Type_ x ;;
               name <- bestMatch root t ;;
               if String.eqb name "" then fail ErrIncorrectIndex
               else FieldByName env x name
           | KPtr => Elem x
           | KInvalid | KChan => fail (ErrUnsupported root)
           | _ => fail ErrGarbage
           end ;;
  kc <- Kind child ;;
  match kc with
  | KPtr =>
      isnil <- IsNil child ;;
      if negb isnil then rapply node p child
      else
        t <- Type_ child ;;
        e <- ty_elem t ;;
        newval <- New env e ;;
        Set_ child newval ;;
        rapply node p child
  | _ =>
      (if negb (IsValid child)
       then (t <- Type_ child ;;
             e <- ty_elem t ;;
             newval <- New env e ;;
             ne <- Elem newval ;;
             Set_ child ne)
       else ret tt) ;;
      if CanAddr child then (a <- Addr child ;; rapply node p a)
      else fail (ErrUnsupported root)
  end.

(** [rapply]; each call into [findNode] consumes a path segment, and
    [n] bounds the number of segments. *)
Fixpoint rapply_n (n : nat) (path : string) (p : patch) (x : reflect.Value) : M unit :=
  match n with
  | O => out_of_fuel
  | S n' =>
      match Str.SplitN2 path with
      | (root, Some node) => findNode (rapply_n n') root node p x
      | (root, None) => applyNode root p x
      end
  end.

Definition rapply (path : string) (p : patch) (x : reflect.Value) : M unit :=
  rapply_n (S (String.length path)) path p x.

(** [Apply(data, x)].  [data] is the patch document as decoded by
    [json.Unmarshal] into [[]patch], [None] when that fails; [x] is the
    [interface{}] argument. *)
Definition Apply (data : option (list patch)) (x : option val) : M unit :=
  let rx := ValueOf x in
  k <- Kind rx ;;
  isnil <- match k with KPtr => IsNil rx | _ => ret true end ;;
  if isnil then fail ErrNonPointer
  else
    match data with
    | None => fail JsonSyntaxError
    | Some patches =>
        e <- Elem rx ;;
        t <- Type_ e ;;
        ry <- New env t ;;
        y <- Interface ry ;;
        r <- try (deep.Copy env fuel x y) ;;
        match r with
        | inr _ => fail ErrCouldNotCopy
        | inl _ =>
            for_each patches (fun p =>
              let path := Str.Trim (Path p) in
              rapply path p ry) ;;
            e <- Elem rx ;;
            ye <- Elem ry ;;
            Set_ e ye
        end
    end.

End WithTypes.

End jsonpatch.

(* ================================================================== *)
(** ** Observing values: the tree a value denotes in a heap            *)
(* ================================================================== *)

(** The shape [reflect.DeepEqual] compares: nil references, what a
    non-nil pointer points to, the elements of a slice, the entries of a
    map, the fields of a struct. *)
Inductive tree : Type :=
| NBool (b : bool)
| NInt (z : Z)
| NFloat (z : Z)
| NString (s : string)
| NNil (t : ty)                            (* the nil value of type [t] *)
| NRef (t : ty) (tr : tree)                (* a non-nil [*t] *)
| NSlice (t : ty) (l : list tree)          (* a non-nil [[]t] *)
| NMap (t : ty) (kvs : list (string * tree))
| NStruct (name : string) (fs : list tree)
| NChan (t : ty).

Definition tree_type (tr : tree) : ty :=
  match tr with
  | NBool _ => TBool | NInt _ => TInt | NFloat _ => TFloat64
  | NString _ => TString
  | NNil t => t
  | NRef t _ => TPtr t
  | NSlice t _ => TSlice t
  | NMap t _ => TMap t
  | NStruct n _ => TStruct n
  | NChan t => TChan t
  end.

Fixpoint mapM {A B} (f : A -> option B) (l : list A) : option (list B) :=
  match l with
  | [] => Some []
  | a :: r =>
      match f a, mapM f r with
      | Some b, Some r' => Some (b :: r')
      | _, _ => None
      end
  end.

(** No string occurs twice in [l]. *)
Fixpoint nodupb (l : list string) : bool :=
  match l with
  | [] => true
  | k :: r => negb (existsb (String.eqb k) r) && nodupb r
  end.

Definition on_snd {A B C} (f : B -> option C) (kv : A * B) : option (A * C) :=
  match f (snd kv) with
  | Some c => Some (fst kv, c)
  | None => None
  end.

(** [view fuel h v]: the tree of [v] in [h], down to depth [fuel].  There
    is none when the bound is reached, and none in a heap that Go cannot
    produce: a reference to no object, a slice that exceeds its array, a
    table that holds a key twice. *)
Fixpoint view (fuel : nat) (h : heap) (v : val) : option tree :=
  match fuel with
  | O => None
  | S f =>
      match v with
      | VBool b => Some (NBool b)
      | VInt z => Some (NInt z)
      | VFloat z => Some (NFloat z)
      | VString s => Some (NString s)
      | VChan t => Some (NChan t)
      | VPtr _ None | VSlice _ None | VMap _ None => Some (NNil (type_of v))
      | VPtr t (Some p) =>
          match load h p with
          | Some w => option_map (NRef t) (view f h w)
          | None => None
          end
      | VSlice t (Some s) =>
          match slice_elems h s with
          | Some vs =>
              if Nat.eqb (List.length vs) (slen s)
              then option_map (NSlice t) (mapM (view f h) vs)
              else None
          | None => None
          end
      | VMap t (Some l) =>
          match nth_error h l with
          | Some (OMap kvs) =>
              if nodupb (map fst kvs)
              then option_map (NMap t) (mapM (on_snd (view f h)) kvs)
              else None
          | _ => None
          end
      | VStruct n fs => option_map (NStruct n) (mapM (view f h) fs)
      end
  end.

(** What the caller of [Apply] or [Copy] sees behind the pointer [x]. *)
Definition target (fuel : nat) (h : heap) (x : option val) : option tree :=
  match x with
  | Some (VPtr _ (Some p)) =>
      match load h p with
      | Some v => view fuel h v
      | None => None
      end
  | _ => None
  end.

(** The heap an outcome leaves behind. *)
Definition final {A} (o : outcome A) : option heap :=
  match o with
  | Ok _ h | Err _ h => Some h
  | _ => None
  end.

Definition returned_error {A} (o : outcome A) : option error :=
  match o with
  | Err e _ => Some e
  | _ => None
  end.

(* ================================================================== *)
(** ** The values of the repository's tests                            *)
(* ================================================================== *)

Module Ex.

(** [type testUser struct] of encode_test.go, the [Test] struct of
    [TestBestMatch] and the struct [s] of [TestStruct] in
    deepcopy_test.go. *)
Definition env : tyenv :=
  [ ("testUser",
     [ mkField "Name" "" TString false;
       mkField "Age" "" TInt false;
       mkField "Email" "" TString false;
       mkField "Child" "" (TPtr (TStruct "testUser")) false;
       mkField "Phones" "" (TSlice TString) false;
       mkField "M" "" (TMap TString) false ]);
    ("Test", [ mkField "A" "AwesomeName" TString false ]);
    ("s",
     [ mkField "A" "" TString false;
       mkField "B" "" (TPtr (TStruct "s")) false ]) ].

Definition fuel : nat := 16%nat.

Definition user (name : string) (age : Z) (email : string)
    (child : option place) (phones : option slice_hdr) (m : option nat) : val :=
  VStruct "testUser"
    [VString name; VInt age; VString email; VPtr (TStruct "testUser") child;
     VSlice TString phones; VMap TString m].

(** A pointer to the variable held by object [l]. *)
Definition ref (t : ty) (l : nat) : option val :=
  Some (VPtr t (Some (mkPlace l []))).

(** The handle [findNode] passes down for field [i] of the object [l]. *)
Definition field_ref (t : ty) (l i : nat) : reflect.Value :=
  reflect.Imm false (VPtr t (Some (mkPlace l [i]))).

Definition op (name path : string) (v : json.RawMessage) : jsonpatch.patch :=
  jsonpatch.mkPatch name path "" v.

Definition str (s : string) : json.RawMessage := Some (json.Str s).
Definition num (z : Z) : json.RawMessage := Some (json.Number z).

(** [u] of [TestReplace], [TestRemove] and [TestTest]: object 0 is [u],
    1 the array behind [Phones], 2 the child and 3 the table of [M]. *)
Definition hobbes (phone : string) : heap :=
  [ OVar (user "hobbes" 100 "hobbes@calvin.com" (Some (mkPlace 2%nat []))
            (Some (mkSlice 1 0 1 1)) (Some 3%nat));
    OArr [VString phone];
    OVar (user "Susie" 0 "" None None None);
    OMap [("a", VString "hello")] ].

(** [u] of [TestAdd]: only [Phones] is set. *)
Definition calvin : heap :=
  [ OVar (user "" 0 "" None (Some (mkSlice 1 0 1 1)) None);
    OArr [VString "37489239"] ].

Definition u : option val := ref (TStruct "testUser") 0.

(** A variable of type [Test]. *)
Definition awesome : heap := [ OVar (VStruct "Test" [VString ""]) ].

(** [a := map[string][]string{"a": {"x"}}] in object 0, its table in 1
    and the array of the slice in 2; object 3 is the variable [b]. *)
Definition shared : heap :=
  [ OVar (VMap (TSlice TString) (Some 1%nat));
    OMap [("a", VSlice TString (Some (mkSlice 2 0 1 1)))];
    OArr [VString "x"];
    OVar (VMap (TSlice TString) None) ].

(** The tree of a [testUser]; [None] is a nil [Child], [Phones] or [M]. *)
Definition seen (name : string) (age : Z) (email : string)
    (child : option tree) (phones : option (list string))
    (m : option (list (string * string))) : tree :=
  NStruct "testUser"
    [ NString name; NInt age; NString email;
      match child with
      | Some c => NRef (TStruct "testUser") c
      | None => NNil (TPtr (TStruct "testUser"))
      end;
      match phones with
      | Some l => NSlice TString (map NString l)
      | None => NNil (TSlice TString)
      end;
      match m with
      | Some kvs => NMap TString (map (fun kv => (fst kv, NString (snd kv))) kvs)
      | None => NNil (TMap TString)
      end ].

(** The handle on [u] itself and on its fields [Phones] and [M]. *)
Definition on_u : reflect.Value :=
  reflect.Imm false (VPtr (TStruct "testUser") (Some (mkPlace 0 []))).
Definition on_phones : reflect.Value := field_ref (TSlice TString) 0 4.
Definition on_m : reflect.Value := field_ref (TMap TString) 0 5.

(** [var a []string] (nil) in object 0 and [var b []string] in 1. *)
Definition nilslice : heap :=
  [ OVar (VSlice TString None); OVar (VSlice TString None) ].

(** [a := s{A: "hello", B: &s{A: "world"}}] of [TestStruct]: object 0 is
    [a], object 1 what [a.B] points to. *)
Definition nested : heap :=
  [ OVar (VStruct "s" [VString "hello"; VPtr (TStruct "s") (Some (mkPlace 1%nat []))]);
    OVar (VStruct "s" [VString "world"; VPtr (TStruct "s") None]) ].

(** [a := map[string]*[]*s{"k": &l}] with [l := []*s{&s{A: "x"}}], read
    off a variable of type [*map[string]*[]*s] in object 0: the map
    variable is object 1, its table 2, [l] is 3, its array 4 and the
    struct 5. *)
Definition tower : heap :=
  [ OVar (VPtr (TMap (TPtr (TSlice (TPtr (TStruct "s"))))) (Some (mkPlace 1%nat [])));
    OVar (VMap (TPtr (TSlice (TPtr (TStruct "s")))) (Some 2%nat));
    OMap [("k", VPtr (TSlice (TPtr (TStruct "s"))) (Some (mkPlace 3%nat [])))];
    OVar (VSlice (TPtr (TStruct "s")) (Some (mkSlice 4 0 1 1)));
    OArr [VPtr (TStruct "s") (Some (mkPlace 5%nat []))];
    OVar (VStruct "s" [VString "x"; VPtr (TStruct "s") None]) ].

End Ex.

(* ================================================================== *)
(** ** Vocabulary of the statements                                    *)
(* ================================================================== *)

(** The operation names [applyNode] has a case for. *)
Definition known_op (s : string) : bool :=
  existsb (String.eqb s) ["add"; "replace"; "remove"; "test"; "copy"; "move"].

(** A path that is a single segment once its slashes are trimmed, so
    that [rapply] goes straight to [applyNode]. *)
Definition single_segment (path : string) : bool :=
  match snd (Str.SplitN2 (Str.Trim path)) with
  | None => true
  | Some _ => false
  end.

(** The handle on a variable that the navigation hands to an operation:
    a pointer to the place [q] holding a value of type [t]. *)
Definition handle (t : ty) (q : place) : reflect.Value :=
  reflect.Imm false (VPtr t (Some q)).

(** The slice header [s] is backed by an array of [h] and denotes the
    elements [es]; the nil slice denotes none. *)
Definition slice_holds (h : heap) (s : option slice_hdr) (es : list val) : Prop :=
  match s with
  | None => es = []
  | Some hd =>
      exists vs,
        nth_error h (sarr hd) = Some (OArr vs)
        /\ (soff hd + slen hd <= List.length vs)%nat
        /\ (slen hd <= scap hd)%nat
        /\ es = firstn (slen hd) (skipn (soff hd) vs)
  end.

(** What an add on the slice variable at [q] achieves: it returns nil,
    the variable holds a slice denoting [es'], and every other object
    that was in the heap is as before. *)
Definition added (env : tyenv) (node : string) (p : jsonpatch.patch)
    (q : place) (t : ty) (h : heap) (es' : list val) : Prop :=
  exists h' s',
    jsonpatch.add env node p (handle (TSlice t) q) h = Ok tt h'
    /\ load h' q = Some (VSlice t (Some s'))
    /\ slice_holds h' (Some s') es'
    /\ forall l, (l < List.length h)%nat -> l <> ploc q ->
                 nth_error h' l = nth_error h l.

(** Values that hold no reference into the heap. *)
Fixpoint flat (v : val) : bool :=
  match v with
  | VPtr _ (Some _) | VSlice _ (Some _) | VMap _ (Some _) => false
  | VStruct _ fs => forallb flat fs
  | _ => true
  end.

Fixpoint forallb2 {A B} (f : A -> B -> bool) (l : list A) (m : list B) : bool :=
  match l, m with
  | [], [] => true
  | a :: l', b :: m' => f a b && forallb2 f l' m'
  | _, _ => false
  end.

(** The values [Copy] clones faithfully.  [ok] is the same property one
    level down. *)
Section Clonable.

Variable env : tyenv.
Variable h : heap.
Variable ok : val -> bool.

Definition ok_pointee (t : ty) (q : place) : bool :=
  match load h q with
  | Some w => ty_eqb (type_of w) t && ok w
  | None => false
  end.

(** A component the code tests for [Kind() == reflect.Ptr] first:
    a non-nil pointer is followed, [nil_ok] says whether a nil one is
    copied, [other] is the condition on any other value. *)
Definition ok_ref (nil_ok : bool) (other : val -> bool) (v : val) : bool :=
  match v with
  | VPtr t (Some q) => ok_pointee t q
  | VPtr _ None => nil_ok
  | _ => other v
  end.

(** Slice elements: no nil pointer. *)
Definition ok_elem (t : ty) (e : val) : bool :=
  ty_eqb (type_of e) t && ok_ref false ok e.

(** Map values: a non-nil pointer, or a value without references (it is
    copied by assignment). *)
Definition ok_entry (t : ty) (kv : string * val) : bool :=
  ty_eqb (type_of (snd kv)) t && ok_ref false flat (snd kv).

(** Struct fields: exported, not embedded, of the declared type; a nil
    pointer stays nil. *)
Definition ok_field (fd : field) (fv : val) : bool :=
  reflect.exported (fname fd) && negb (fanon fd)
  && ty_eqb (type_of fv) (fty fd) && ok_ref true ok fv.

Definition ok_step (v : val) : bool :=
  match v with
  | VBool _ | VInt _ | VFloat _ | VString _ => true
  | VChan _ => false
  | VPtr t (Some q) => ok_pointee t q
  | VPtr _ None => false
  | VSlice _ None => false
  | VSlice t (Some s) =>
      match nth_error h (sarr s) with
      | Some (OArr vs) =>
          Nat.leb (soff s + slen s) (List.length vs)
          && forallb (ok_elem t) (firstn (slen s) (skipn (soff s) vs))
      | _ => false
      end
  | VMap _ None => true
  | VMap t (Some l) =>
      match nth_error h l with
      | Some (OMap kvs) => nodupb (map fst kvs) && forallb (ok_entry t) kvs
      | _ => false
      end
  | VStruct n fs => forallb2 ok_field (fields_of env n) fs
  end.

End Clonable.

(** [clonable env f h v]: [v] is a value of [h] that [rcopy] clones
    faithfully with the recursion bound [f]: it is built from booleans,
    numbers, strings, non-nil pointers, non-nil slices without nil
    pointers, maps (nil or not) whose values are non-nil pointers or hold
    no references, and structs with exported, non-embedded fields, in
    which a pointer may be nil; and it is well typed. *)
Fixpoint clonable (env : tyenv) (f : nat) (h : heap) (v : val) : bool :=
  match f with
  | O => false
  | S f' => ok_step env h (clonable env f' h) v
  end.

(** The two halves of [rcopy]: what it does to the destination handle
    before the [switch], and the [switch]. *)
Definition rcopy_head (env : tyenv) (y : reflect.Value) : M reflect.Value :=
  deep.if_ptr y (fun y =>
    isnil <- reflect.IsNil y ;;
    (if isnil
     then (t <- reflect.Type_ y ;; e <- ty_elem t ;;
           n <- reflect.New env e ;; reflect.Set_ y n)
     else ret tt) ;;
    reflect.Elem y).

Definition rcopy_switch (env : tyenv) (f : nat) (x y : reflect.Value) : M unit :=
  k <- reflect.Kind x ;;
  match k with
  | KSlice =>
      ax <- reflect.Addr x ;; ay <- reflect.Addr y ;;
      deep.copyArray env (deep.rcopy env f) ax ay
  | KMap =>
      ax <- reflect.Addr x ;; ay <- reflect.Addr y ;;
      deep.copyMap env (deep.rcopy env f) ax ay
  | KStruct =>
      ax <- reflect.Addr x ;; ay <- reflect.Addr y ;;
      deep.copyStruct env (deep.rcopy env f) ax ay
  | KPtr =>
      vx <- reflect.Elem x ;;
      t <- reflect.Type_ vx ;;
      n <- reflect.New env t ;;
      reflect.Set_ y n ;;
      vy <- reflect.Elem y ;;
      if negb (reflect.CanAddr vx) || negb (reflect.CanAddr vy)
      then reflect.Set_ vy vx
      else
        ax <- reflect.Addr vx ;; ay <- reflect.Addr vy ;;
        deep.rcopy env f ax ay
  | KInvalid | KChan => fail DeepUnsupported
  | _ =>
      if negb (reflect.CanAddr x) || negb (reflect.CanAddr y)
      then reflect.Set_ y x
      else
        ax <- reflect.Addr x ;; ay <- reflect.Addr y ;;
        deep.copyPrimitives ax ay
  end.

(** [X] and [Y] hold the same objects at the locations from [lo] up to
    [hi]. *)
Definition agree (lo hi : nat) (X Y : heap) : Prop :=
  forall l, (lo <= l < hi)%nat -> nth_error X l = nth_error Y l.

(** The tree of [cv] is [tr] in every heap that holds the objects of [Y]
    at the locations from [lo] up to [hi], whatever it holds elsewhere. *)
Definition stable (lo hi : nat) (Y : heap) (fv : nat) (cv : val) (tr : tree)
  : Prop :=
  forall X, agree lo hi X Y -> view fv X cv = Some tr.

(** [P] is an initial segment of [X]. *)
Definition prefix (P X : heap) : Prop := exists E, X = P ++ E.

(** The step from [H] to [H'] has stored [cv] at [py], allocated new
    objects and changed nothing else; the tree of [cv] is [tr] and is
    fixed by the new objects alone. *)
Definition cloned (H H' : heap) (py : place) (cv : val) (tr : tree) (fv : nat)
  : Prop :=
  (exists H1, store H py cv = Some H1 /\ prefix H1 H')
  /\ stable (List.length H) (List.length H') H' fv cv tr.

(** The place of the field [i] of the struct at [p]. *)
Definition sub (p : place) (i : nat) : place :=
  mkPlace (ploc p) (ppath p ++ [i]).

(** The bodies of the loops of [copyArray], [copyMap] and [copyStruct],
    for a source [x] and a destination [y]. *)
Definition array_body (rcopy : reflect.Value -> reflect.Value -> M unit)
    (x y : reflect.Value) (i : nat) : M unit :=
  vx <- reflect.Index x (Z.of_nat i) ;;
  vy <- reflect.Index y (Z.of_nat i) ;;
  kx <- reflect.Kind vx ;;
  match kx with
  | KPtr => rcopy vx vy
  | _ =>
      if negb (reflect.CanAddr vx) then reflect.Set_ vy vx
      else
        (if negb (reflect.CanAddr vy)
         then (n <- reflect.Interface vx ;; reflect.Set_ vy (reflect.ValueOf n))
         else ret tt) ;;
        ax <- reflect.Addr vx ;;
        ay <- reflect.Addr vy ;;
        rcopy ax ay
  end.

Definition map_body (env : tyenv)
    (rcopy : reflect.Value -> reflect.Value -> M unit)
    (x y : reflect.Value) (key : string) : M unit :=
  vx <- reflect.MapIndex x key ;;
  vy <- reflect.MapIndex y key ;;
  kx <- reflect.Kind vx ;;
  match kx with
  | KPtr =>
      el <- reflect.Elem vx ;;
      if negb (reflect.IsValid el) then ret tt
      else
        t <- reflect.Type_ el ;;
        n <- reflect.New env t ;;
        reflect.SetMapIndex y key n ;;
        vy <- reflect.MapIndex y key ;;
        rcopy vx vy
  | _ =>
      if negb (reflect.CanAddr vx) then reflect.SetMapIndex y key vx
      else
        let vy := if negb (reflect.CanAddr vy) then vx else vy in
        ax <- reflect.Addr vx ;;
        ay <- reflect.Addr vy ;;
        rcopy ax ay ;;
        reflect.SetMapIndex y key vy
  end.

Definition struct_body (env : tyenv)
    (rcopy : reflect.Value -> reflect.Value -> M unit)
    (x y : reflect.Value) (i : nat) : M unit :=
  t <- reflect.Type_ x ;;
  st <- reflect.TypeField env t i ;;
  if fanon st then ret tt
  else
    private <- deep.lowerInitial (fname st) ;;
    if private then ret tt
    else
      vx <- reflect.Field env x i ;;
      vy <- reflect.Field env y i ;;
      kx <- reflect.Kind vx ;;
      match kx with
      | KPtr =>
          el <- reflect.Elem vx ;;
          if negb (reflect.IsValid el) then ret tt
          else
            t <- reflect.Type_ el ;;
            n <- reflect.New env t ;;
            reflect.Set_ vy n ;;
            rcopy vx vy
      | _ =>
          if negb (reflect.CanAddr vx) then reflect.Set_ vy vx
          else
            let vy := if negb (reflect.CanAddr vy) then vx else vy in
            ax <- reflect.Addr vx ;;
            ay <- reflect.Addr vy ;;
            rcopy ax ay
      end.

(** What the [switch] of [rcopy], run with the bound [g] on a source
    variable holding [v] and a destination variable of the same type,
    achieves: it returns nil, and the destination holds a clone of [v]. *)
Definition clones_at (env : tyenv) (h : heap) (g : nat) (v : val) : Prop :=
  forall fv tr px py H w0,
    view fv h v = Some tr ->
    load h px = Some v ->
    prefix h H ->
    (List.length h <= ploc py)%nat ->
    load H py = Some w0 ->
    type_of w0 = type_of v ->
    (forall t, v = VMap t None -> w0 = v) ->
    exists cv H',
      rcopy_switch env g (reflect.Var false px) (reflect.Var false py) H = Ok tt H'
      /\ cloned H H' py cv tr fv
      /\ type_of cv = type_of v.

(** The three rules of [bestMatch], tried on one field: the declared
    name, a flag of the [json] tag, the name without case, hyphens and
    underscores. *)
Definition field_matches (name : string) (f : field) : bool :=
  String.eqb (fname f) name
  || (negb (String.eqb (ftag f) "")
      && jsonpatch.has_flag name (Str.Split (ftag f)))
  || String.eqb (Str.ToLower (Str.dropHyphens name))
       (Str.ToLower (Str.dropHyphens (fname f))).

(** The second half of [findNode]: what it does with the child it has
    found. *)
Definition findNode_descend (env : tyenv)
    (rapply : string -> jsonpatch.patch -> reflect.Value -> M unit)
    (root node : string) (p : jsonpatch.patch) (child : reflect.Value) : M unit :=
  kc <- reflect.Kind child ;;
  match kc with
  | KPtr =>
      isnil <- reflect.IsNil child ;;
      if negb isnil then rapply node p child
      else
        t <- reflect.Type_ child ;;
        e <- ty_elem t ;;
        newval <- reflect.New env e ;;
        reflect.Set_ child newval ;;
        rapply node p child
  | _ =>
      (if negb (reflect.IsValid child)
       then (t <- reflect.Type_ child ;;
             e <- ty_elem t ;;
             newval <- reflect.New env e ;;
             ne <- reflect.Elem newval ;;
             reflect.Set_ child ne)
       else ret tt) ;;
      if reflect.CanAddr child then (a <- reflect.Addr child ;; rapply node p a)
      else fail (ErrUnsupported root)
  end.

(** Where the navigation goes on from a variable at [c] that holds [e]:
    with a handle on the variable itself when it is a pointer, with a
    pointer to it otherwise. *)
Definition next_handle (c : place) (e : val) : reflect.Value :=
  match e with
  | VPtr _ _ => reflect.Var false c
  | _ => reflect.Imm false (VPtr (type_of e) (Some c))
  end.

(** The heap after the navigation has looked at the variable at [c]
    holding [e]: a nil pointer is made to point to a fresh zero variable,
    anything else leaves the heap alone. *)
Definition materialized (env : tyenv) (h : heap) (c : place) (e : val) : option heap :=
  match e with
  | VPtr t None =>
      match store h c (VPtr t (Some (mkPlace (List.length h) []))) with
      | Some h1 => Some (h1 ++ [OVar (zero env t)])
      | None => None
      end
  | _ => Some h
  end.

(** The errors of the navigation. *)
Definition nav_error (e : error) : Prop :=
  e = ErrIncorrectIndex \/ e = ErrGarbage \/ exists k, e = ErrUnsupported k.

(** The errors [Apply] can return: for a document that does not parse,
    and for one that does. *)
Definition apply_error (data : option (list jsonpatch.patch)) (e : error) : Prop :=
  match data with
  | None => e = ErrNonPointer \/ e = JsonSyntaxError
  | Some _ => e = ErrNonPointer \/ e = ErrCouldNotCopy \/ nav_error e
  end.

(** The errors [deep.Copy] can return. *)
Definition copy_error (e : error) : Prop :=
  e = DeepNonPointer \/ e = DeepUnsupported.

(** The map value [m] denotes the table [kvs]; the nil map has no
    entry. *)
Definition map_holds (h : heap) (m : option nat) (kvs : list (string * val)) : Prop :=
  match m with
  | None => kvs = []
  | Some l => nth_error h l = Some (OMap kvs)
  end.

(** The JSON literal of a scalar value; an int has one when it is within
    the range of the type. *)
Definition literal (w : val) : option json.value :=
  match w with
  | VBool b => Some (json.Bool b)
  | VInt z => if Str.in_int z then Some (json.Number z) else None
  | VFloat z => Some (json.Number z)
  | VString s => Some (json.Str s)
  | _ => None
  end.

(** In [h'] the struct variable at [q], which held the fields [fs] in
    [h], holds [w] in field [i] and its other fields as before; the other
    objects of [h] are unchanged ([h'] may hold more objects). *)
Definition field_set (h : heap) (q : place) (n : string) (fs : list val)
    (i : nat) (w : val) (h' : heap) : Prop :=
  exists fs',
    list_set fs i w = Some fs'
    /\ load h' q = Some (VStruct n fs')
    /\ forall l, (l < List.length h)%nat -> l <> ploc q ->
                 nth_error h' l = nth_error h l.

(** [a := map[string]*string{"a": &x}] of [TestMapPtr], with
    [x := "hello"]: object 0 is [a], 1 its table and 2 is [x]. *)
Definition map_of_pointers : heap :=
  [ OVar (VMap (TPtr TString) (Some 1%nat));
    OMap [("a", VPtr TString (Some (mkPlace 2 [])))];
    OVar (VString "hello") ].

(** [a := []*string{nil}]: object 0 is [a], 1 its array. *)
Definition slice_of_nil : heap :=
  [ OVar (VSlice (TPtr TString) (Some (mkSlice 1 0 1 1)));
    OArr [VPtr TString None] ].

(** Two patches that ask for the same thing: the same operation and
    value, and paths that differ at most in the slashes at their ends. *)
Definition same_request (p p' : jsonpatch.patch) : Prop :=
  jsonpatch.Op p = jsonpatch.Op p'
  /\ jsonpatch.Value p = jsonpatch.Value p'
  /\ Str.Trim (jsonpatch.Path p) = Str.Trim (jsonpatch.Path p').

(** A patch without its [path] and [from]. *)
Definition patch_core (p : jsonpatch.patch) : jsonpatch.patch :=
  jsonpatch.mkPatch (jsonpatch.Op p) "" "" (jsonpatch.Value p).

(** [raises P m]: every error that [m] returns satisfies [P]. *)
Definition raises {A} (P : error -> Prop) (m : M A) : Prop :=
  forall h e h', m h = Err e h' -> P e.

(** The errors of [encoding/json]. *)
Definition json_error (e : error) : Prop :=
  e = JsonSyntaxError \/ e = JsonTypeError.

(* ================================================================== *)
(** ** Basic facts about the run-time model                            *)
(* ================================================================== *)

Lemma ty_eqb_refl (t : ty) : ty_eqb t t = true.
Proof.
  induction t; simpl; auto using String.eqb_refl.
Qed.

Lemma ty_eqb_eq (a b : ty) : ty_eqb a b = true -> a = b.
Proof.
  revert b; induction a; destruct b; simpl; intros H;
    try discriminate; try reflexivity;
    try (f_equal; auto).
  apply String.eqb_eq in H. now subst.
Qed.

Lemma type_of_zero (env : tyenv) (t : ty) : type_of (zero env t) = t.
Proof.
  induction env as [|[m fs] env IH]; destruct t; simpl; try reflexivity.
  destruct (String.eqb name m); [reflexivity | exact IH].
Qed.

Lemma alist_get_put_same kvs k v : alist_get (alist_put kvs k v) k = Some v.
Proof.
  induction kvs as [|[k' v'] r IH]; simpl.
  - now rewrite String.eqb_refl.
  - destruct (String.eqb k k') eqn:E; simpl.
    + now rewrite String.eqb_refl.
    + now rewrite E.
Qed.

Lemma alist_get_put_other kvs k k' v :
  k' <> k -> alist_get (alist_put kvs k v) k' = alist_get kvs k'.
Proof.
  intros N. induction kvs as [|[k0 v0] r IH]; simpl.
  - destruct (String.eqb k' k) eqn:E; [apply String.eqb_eq in E; congruence | reflexivity].
  - destruct (String.eqb k k0) eqn:E; simpl.
    + apply String.eqb_eq in E; subst k0.
      destruct (String.eqb k' k) eqn:E'; [apply String.eqb_eq in E'; congruence | reflexivity].
    + now rewrite IH.
Qed.

Lemma alist_put_keys kvs k v e :
  alist_get kvs k = Some e -> map fst (alist_put kvs k v) = map fst kvs.
Proof.
  induction kvs as [|[k0 v0] r IH]; simpl; [discriminate|].
  destruct (String.eqb k k0) eqn:E; simpl; intros H.
  - apply String.eqb_eq in E. now subst.
  - now rewrite IH.
Qed.

Lemma list_set_length {A} (l : list A) i x l' :
  list_set l i x = Some l' -> List.length l' = List.length l.
Proof.
  revert i l'; induction l as [|a r IH]; intros [|i] l'; simpl; try discriminate.
  - now intros [= <-].
  - destruct (list_set r i x) eqn:E; simpl; [|discriminate].
    intros [= <-]. simpl. f_equal. eauto.
Qed.

Lemma list_set_some {A} (l : list A) i x :
  (i < List.length l)%nat -> exists l', list_set l i x = Some l'.
Proof.
  revert i; induction l as [|a r IH]; intros [|i] H; simpl in *; try lia.
  - eauto.
  - destruct (IH i) as [l' ->]; [lia|]. simpl. eauto.
Qed.

Lemma nth_error_list_set {A} (l : list A) i x l' j :
  list_set l i x = Some l' ->
  nth_error l' j = if Nat.eqb j i then Some x else nth_error l j.
Proof.
  revert i l' j; induction l as [|a r IH]; intros [|i] l' [|j]; simpl;
    try discriminate; try (now intros [= <-]).
  - destruct (list_set r i x); simpl; [|discriminate]. now intros [= <-].
  - destruct (list_set r i x) eqn:E; simpl; [|discriminate].
    intros [= <-]. simpl. eauto.
Qed.

(** The error an operation returns never leaves [applyNode]. *)
Lemma applyNode_returns_nil env fuel node p x h :
  returned_error (jsonpatch.applyNode env fuel node p x h) = None.
Proof.
  unfold jsonpatch.applyNode, bind, discard, ret.
  repeat match goal with
         | |- context [if ?b then _ else _] => destruct b
         end;
    match goal with
    | |- context [match ?m h with _ => _ end] => destruct (m h)
    | _ => idtac
    end; reflexivity.
Qed.

(* ================================================================== *)
(** ** Running the code symbolically                                   *)
(* ================================================================== *)

Lemma bind_ext {A B} (m : M A) (f g : A -> M B) h :
  (forall a h', f a h' = g a h') -> bind m f h = bind m g h.
Proof.
  intros E. unfold bind. destruct (m h); auto.
Qed.

Lemma bind_ok {A B} (m : M A) (f : A -> M B) h a h' :
  m h = Ok a h' -> bind m f h = f a h'.
Proof.
  intros E. unfold bind. now rewrite E.
Qed.

Lemma read_ok h p v : load h p = Some v -> read p h = Ok v h.
Proof.
  intros E. unfold read. now rewrite E.
Qed.

Lemma read_map_ok h l kvs : nth_error h l = Some (OMap kvs) -> read_map l h = Ok kvs h.
Proof.
  intros E. unfold read_map. now rewrite E.
Qed.

Lemma read_arr_ok h l vs : nth_error h l = Some (OArr vs) -> read_arr l h = Ok vs h.
Proof.
  intros E. unfold read_arr. now rewrite E.
Qed.

(** The head of every operation: a pointer handle is followed to the
    variable it points to. *)
Lemma if_ptr_handle t q h v :
  load h q = Some v ->
  jsonpatch.if_ptr (handle t q) reflect.Elem h = Ok (reflect.Var false q) h
  /\ jsonpatch.if_ptr (handle t q) reflect.Indirect h = Ok (reflect.Var false q) h
  /\ reflect.Kind (reflect.Var false q) h = Ok (kind_of_ty (type_of v)) h.
Proof.
  intros E. unfold jsonpatch.if_ptr, reflect.Indirect, reflect.Kind, reflect.Elem,
    handle, reflect.get, bind, ret, read; simpl. now rewrite E.
Qed.

Ltac step E := rewrite (bind_ok _ _ _ _ _ E).

Lemma Type_var h ro q v :
  load h q = Some v -> reflect.Type_ (reflect.Var ro q) h = Ok (type_of v) h.
Proof.
  intros E. unfold reflect.Type_, reflect.get. step (read_ok _ _ _ E). reflexivity.
Qed.

Lemma Kind_var h ro q v :
  load h q = Some v ->
  reflect.Kind (reflect.Var ro q) h = Ok (kind_of_ty (type_of v)) h.
Proof.
  intros E. unfold reflect.Kind, reflect.get. step (read_ok _ _ _ E). reflexivity.
Qed.

Lemma Len_slice h ro q t s :
  load h q = Some (VSlice t s) ->
  reflect.Len (reflect.Var ro q) h = Ok (Z.of_nat (reflect.hdr_len s)) h.
Proof.
  intros E. unfold reflect.Len, reflect.get. step (read_ok _ _ _ E). reflexivity.
Qed.

Lemma MapIndex_var h ro q t l kvs key :
  load h q = Some (VMap t (Some l)) ->
  nth_error h l = Some (OMap kvs) ->
  reflect.MapIndex (reflect.Var ro q) key h =
    Ok (match alist_get kvs key with
        | Some e => reflect.Imm ro e
        | None => reflect.Invalid
        end) h.
Proof.
  intros E El. unfold reflect.MapIndex, reflect.get.
  step (read_ok _ _ _ E). step (read_map_ok _ _ _ El).
  now destruct (alist_get kvs key).
Qed.

Lemma SetMapIndex_var h q t l kvs key e h' :
  load h q = Some (VMap t (Some l)) ->
  nth_error h l = Some (OMap kvs) ->
  type_of e = t ->
  list_set h l (OMap (alist_put kvs key e)) = Some h' ->
  reflect.SetMapIndex (reflect.Var false q) key (reflect.Imm false e) h = Ok tt h'.
Proof.
  intros E El Et Es. unfold reflect.SetMapIndex, reflect.get.
  step (read_ok _ _ _ E). cbn [reflect.flagRO]. cbv iota.
  unfold bind at 1, ret at 1. rewrite Et, ty_eqb_refl. cbn [negb].
  step (read_map_ok _ _ _ El). unfold write_map. now rewrite El, Es.
Qed.

(* ================================================================== *)
(** ** remove on a map                                                 *)
(* ================================================================== *)



(** Scenario 3 of the specification, through [Apply]: after removing
    [/m/a] the map still has the key ["a"], now mapped to [""]. *)
Example remove_map_key_through_Apply :
  exists h',
    jsonpatch.Apply Ex.env Ex.fuel (Some [Ex.op "remove" "/m/a" None]) Ex.u
      (Ex.hobbes "12830921") = Ok tt h'
    /\ target Ex.fuel h' Ex.u =
         Some (Ex.seen "hobbes" 100 "hobbes@calvin.com"
                 (Some (Ex.seen "Susie" 0 "" None (Some []) None))
                 (Some ["12830921"])
                 (Some [("a", "")])).
Proof.
  eexists. split.
  - vm_compute. reflexivity.
  - vm_compute. reflexivity.
Qed.

(* ================================================================== *)
(** ** What [applyNode] does with the result of an operation           *)
(* ================================================================== *)

(** C1.  [Apply] is not atomic.  In the document below the second
    operation fails: [replace] returns "map element not found" for the
    key ["zzz"] of [u.M].  [applyNode] drops that error, so [Apply]
    returns nil and commits the working copy: [u.Name], changed by the
    first operation, is ["Calvin"] afterwards.  (The deep copy also turns
    the nil [Phones] of the child into an empty slice.) *)
Theorem Apply_commits_after_failed_operation :
  let h := Ex.hobbes "12830921" in
  let failing := Ex.op "replace" "/m/zzz" (Ex.str "x") in
  let doc := Some [Ex.op "add" "/name" (Ex.str "Calvin"); failing] in
  returned_error (jsonpatch.replace Ex.env "zzz" failing Ex.on_m h)
    = Some (ErrNew "map element not found")
  /\ target Ex.fuel h Ex.u =
       Some (Ex.seen "hobbes" 100 "hobbes@calvin.com"
               (Some (Ex.seen "Susie" 0 "" None None None))
               (Some ["12830921"]) (Some [("a", "hello")]))
  /\ exists h',
       jsonpatch.Apply Ex.env Ex.fuel doc Ex.u h = Ok tt h'
       /\ returned_error (jsonpatch.replace Ex.env "zzz" failing Ex.on_m h')
            = Some (ErrNew "map element not found")
       /\ target Ex.fuel h' Ex.u =
            Some (Ex.seen "Calvin" 100 "hobbes@calvin.com"
                    (Some (Ex.seen "Susie" 0 "" None (Some []) None))
                    (Some ["12830921"]) (Some [("a", "hello")])).
Proof.
  cbv zeta. split; [vm_compute; reflexivity|]. split; [vm_compute; reflexivity|].
  eexists. split; [vm_compute; reflexivity|].
  split; vm_compute; reflexivity.
Qed.

(** C2.  A [copy] or [move] operation does not fail: [applyNode] has an
    empty case for both names and returns nil, whatever the node, the
    value and the heap, and [Apply] on a document holding one returns nil
    and leaves the target as it was. *)
Theorem copy_and_move_return_nil env fuel node path from value x h :
  jsonpatch.applyNode env fuel node (jsonpatch.mkPatch "copy" path from value) x h
    = Ok tt h
  /\ jsonpatch.applyNode env fuel node (jsonpatch.mkPatch "move" path from value) x h
    = Ok tt h
  /\ returned_error
       (jsonpatch.Apply Ex.env Ex.fuel
          (Some [jsonpatch.mkPatch "copy" "/email" "/name" None]) Ex.u Ex.calvin)
     = None
  /\ option_map (fun h' => target Ex.fuel h' Ex.u)
       (final (jsonpatch.Apply Ex.env Ex.fuel
                 (Some [jsonpatch.mkPatch "copy" "/email" "/name" None])
                 Ex.u Ex.calvin))
     = Some (target Ex.fuel Ex.calvin Ex.u).
Proof.
  split; [reflexivity|]. split; [reflexivity|].
  split; vm_compute; reflexivity.
Qed.

(** C3.  A [replace] on a map without the key does return "map element
    not found", but the error stops at [applyNode]: [Apply] returns nil,
    the next operation of the document runs, and the target is changed
    by it. *)
Theorem replace_missing_key_is_swallowed :
  let h := Ex.hobbes "12830921" in
  let failing := Ex.op "replace" "/m/zzz" (Ex.str "x") in
  let doc := Some [failing; Ex.op "replace" "/name" (Ex.str "Calvin")] in
  jsonpatch.replace Ex.env "zzz" failing Ex.on_m h
    = Err (ErrNew "map element not found") h
  /\ jsonpatch.applyNode Ex.env Ex.fuel "zzz" failing Ex.on_m h = Ok tt h
  /\ exists h',
       jsonpatch.Apply Ex.env Ex.fuel doc Ex.u h = Ok tt h'
       /\ target Ex.fuel h' Ex.u =
            Some (Ex.seen "Calvin" 100 "hobbes@calvin.com"
                    (Some (Ex.seen "Susie" 0 "" None (Some []) None))
                    (Some ["12830921"]) (Some [("a", "hello")])).
Proof.
  cbv zeta. split; [vm_compute; reflexivity|]. split; [vm_compute; reflexivity|].
  eexists. split; [vm_compute; reflexivity|]. vm_compute; reflexivity.
Qed.

(* ================================================================== *)
(** ** Field names at the terminal segment                             *)
(* ================================================================== *)

(** C7.  [add] and [replace] do not consult [bestMatch] for the terminal
    segment: they look up [strings.Title(node)].  For the struct of
    [TestBestMatch], whose field [A] carries the tag ["AwesomeName"],
    [bestMatch] resolves the segment to [A], while [add] and [replace]
    find no field and panic in [child.Type()]; a segment that matches no
    field at all panics the same way instead of returning
    [ErrIncorrectIndex]. *)
Theorem terminal_segment_bypasses_bestMatch :
  let x := handle (TStruct "Test") (mkPlace 0 []) in
  let p := Ex.op "add" "/AwesomeName" (Ex.str "x") in
  let r := Ex.op "replace" "/AwesomeName" (Ex.str "x") in
  jsonpatch.bestMatch Ex.env "AwesomeName" (TStruct "Test") Ex.awesome
    = Ok "A" Ex.awesome
  /\ Str.Title "AwesomeName" = "AwesomeName"
  /\ jsonpatch.add Ex.env "AwesomeName" p x Ex.awesome = Panic PZeroValue
  /\ jsonpatch.replace Ex.env "AwesomeName" r x Ex.awesome = Panic PZeroValue
  /\ jsonpatch.bestMatch Ex.env "nosuch" (TStruct "Test") Ex.awesome
       = Ok "" Ex.awesome
  /\ jsonpatch.add Ex.env "nosuch" p x Ex.awesome = Panic PZeroValue
  /\ jsonpatch.replace Ex.env "nosuch" r x Ex.awesome = Panic PZeroValue
  /\ jsonpatch.Apply Ex.env Ex.fuel (Some [p]) (Ex.ref (TStruct "Test") 0) Ex.awesome
       = Panic PZeroValue.
Proof.
  cbv zeta. repeat split; vm_compute; reflexivity.
Qed.

(* ================================================================== *)
(** ** test                                                            *)
(* ================================================================== *)

(** C8.  [test] compares the decoded literal with the current value
    without converting it: the literal [100] is decoded as a float64 and
    [u.Age] is an int, so [reflect.DeepEqual] is false and [test] returns
    "elements are not equal" although the numbers agree.  [Apply] still
    returns nil for that document, because [applyNode] drops the error;
    for the same reason it returns nil when the values really differ. *)
Theorem test_compares_without_conversion :
  let h := Ex.hobbes "12830921" in
  let same := Ex.op "test" "/age" (Ex.num 100) in
  let differs := Ex.op "test" "/name" (Ex.str "calvin") in
  jsonpatch.test Ex.env Ex.fuel "age" same Ex.on_u h
    = Err (ErrNew "elements are not equal") h
  /\ returned_error (jsonpatch.Apply Ex.env Ex.fuel (Some [same]) Ex.u h) = None
  /\ jsonpatch.test Ex.env Ex.fuel "name" differs Ex.on_u h
    = Err (ErrNew "elements are not equal") h
  /\ returned_error (jsonpatch.Apply Ex.env Ex.fuel (Some [differs]) Ex.u h) = None.
Proof.
  cbv zeta. repeat split; vm_compute; reflexivity.
Qed.

(* ================================================================== *)
(** ** Which errors an operation can return                            *)
(* ================================================================== *)

Lemma raises_bind {A B} P (m : M A) (f : A -> M B) :
  raises P m -> (forall a, raises P (f a)) -> raises P (bind m f).
Proof.
  intros Hm Hf h e h'. unfold bind. destruct (m h) eqn:E; try discriminate.
  - apply Hf.
  - intros [= <- <-]. eapply Hm; eauto.
Qed.

Lemma raises_ret {A} P (a : A) : raises P (ret a).
Proof. intros h e h'; discriminate. Qed.

Lemma raises_throw {A} P p : raises P (@throw A p).
Proof. intros h e h'; discriminate. Qed.

Lemma raises_stuck {A} P : raises P (@stuck A).
Proof. intros h e h'; discriminate. Qed.

Lemma raises_fail {A} (P : error -> Prop) e : P e -> raises P (@fail A e).
Proof. intros H h e' h' [= <- <-]. exact H. Qed.

Lemma raises_read P p : raises P (read p).
Proof. intros h e h'. unfold read. destruct (load h p); discriminate. Qed.

Lemma raises_write P p v : raises P (write p v).
Proof. intros h e h'. unfold write. destruct (store h p v); discriminate. Qed.

Lemma raises_alloc P o : raises P (alloc o).
Proof. intros h e h'; discriminate. Qed.

Lemma raises_read_arr P l : raises P (read_arr l).
Proof. intros h e h'. unfold read_arr. destruct (nth_error h l) as [[]|]; discriminate. Qed.

Lemma raises_read_map P l : raises P (read_map l).
Proof. intros h e h'. unfold read_map. destruct (nth_error h l) as [[]|]; discriminate. Qed.

Ltac raises_step :=
  first
    [ apply raises_ret | apply raises_throw | apply raises_stuck
    | apply raises_read | apply raises_write | apply raises_alloc
    | apply raises_read_arr | apply raises_read_map
    | apply raises_bind; [|intros ?]
    | match goal with
      | |- raises _ (match ?x with _ => _ end) => destruct x
      | |- raises _ (if ?b then _ else _) => destruct b
      end ].

Ltac raises_auto := repeat raises_step.

Lemma raises_get P x : raises P (reflect.get x).
Proof. unfold reflect.get. raises_auto. Qed.

Lemma raises_Interface P x : raises P (reflect.Interface x).
Proof. unfold reflect.Interface. raises_auto; apply raises_get. Qed.

Lemma raises_Set P v x : raises P (reflect.Set_ v x).
Proof. unfold reflect.Set_. raises_auto; apply raises_get. Qed.

Lemma raises_store_at env t q j : raises json_error (json.store_at env t q j).
Proof.
  revert q; induction t; intros q; cbn [json.store_at]; raises_auto;
    try (apply raises_fail; red; auto); auto.
Qed.

Lemma raises_UnmarshalIface env data n : raises json_error (json.UnmarshalIface env data n).
Proof.
  unfold json.UnmarshalIface. raises_auto;
    try (apply raises_fail; red; auto); apply raises_store_at.
Qed.

Lemma raises_weaken {A} (P Q : error -> Prop) (m : M A) :
  (forall e, P e -> Q e) -> raises P m -> raises Q m.
Proof. intros I H h e h' E. eauto. Qed.

(* ================================================================== *)
(** ** replace on a slice                                              *)
(* ================================================================== *)

(** C6.  For a replace on a slice of length [L] with the index [i]:
    [replace] returns [ErrIncorrectIndex] exactly when [i > L]; at
    [i = L] the guard [pos > v.Len()] lets the index through and
    [v.Index(pos)] panics with an index out of range, so the boundary
    case does not complete. *)
Theorem replace_index_guard env node p q t s i h :
  load h q = Some (VSlice t s) ->
  Str.Atoi node = Some i ->
  (returned_error (jsonpatch.replace env node p (handle (TSlice t) q) h)
     = Some ErrIncorrectIndex
   <-> Z.of_nat (reflect.hdr_len s) < i)
  /\ (i = Z.of_nat (reflect.hdr_len s) ->
      jsonpatch.replace env node p (handle (TSlice t) q) h = Panic PIndexRange).
Proof.
  intros Hq Ha.
  unfold jsonpatch.replace.
  destruct (if_ptr_handle (TSlice t) q h _ Hq) as (E1 & _ & E2).
  step E1. step E2. cbn [kind_of_ty type_of]. rewrite Ha.
  step (Len_slice _ false _ _ _ Hq).
  destruct (Z.ltb_spec (Z.of_nat (reflect.hdr_len s)) i) as [Hlt|Hge].
  - split; [split; [intros _; exact Hlt | reflexivity] | intros ->; lia].
  - split.
    + split; [|lia]. intros He. exfalso.
      match type of He with
      | returned_error (?m h) = _ =>
          assert (R : raises json_error m)
      end.
      { raises_auto; try apply raises_get; try apply raises_Interface;
          try apply raises_Set; try apply raises_UnmarshalIface. }
      match type of He with
      | returned_error ?o = _ => destruct o eqn:Eo; try discriminate
      end.
      injection He as ->. apply R in Eo. destruct Eo; discriminate.
    + intros ->.
      assert (EI : reflect.Index (reflect.Var false q) (Z.of_nat (reflect.hdr_len s)) h
                   = Panic PIndexRange).
      { unfold reflect.Index, reflect.get. step (read_ok _ _ _ Hq).
        rewrite Z.ltb_irrefl, andb_false_r. reflexivity. }
      unfold bind at 1. now rewrite EI.
Qed.

(** The same on [u.Phones] of [TestReplace], of length 1, at index 1. *)
Lemma replace_index_guard_witness :
  let h := Ex.hobbes "12830921" in
  let q := mkPlace 0 [4%nat] in
  let s := Some (mkSlice 1 0 1 1) in
  let p := Ex.op "replace" "/phones/1" (Ex.str "8390240670") in
  load h q = Some (VSlice TString s)
  /\ Str.Atoi "1" = Some 1
  /\ (returned_error (jsonpatch.replace Ex.env "1" p (handle (TSlice TString) q) h)
        = Some ErrIncorrectIndex
      <-> Z.of_nat (reflect.hdr_len s) < 1)
  /\ (1 = Z.of_nat (reflect.hdr_len s) ->
      jsonpatch.replace Ex.env "1" p (handle (TSlice TString) q) h = Panic PIndexRange).
Proof.
  cbv zeta. split; [reflexivity|]. split; [reflexivity|].
  apply (replace_index_guard Ex.env "1" (Ex.op "replace" "/phones/1" (Ex.str "8390240670"))
           (mkPlace 0 [4%nat]) TString (Some (mkSlice 1 0 1 1)) 1
           (Ex.hobbes "12830921")); reflexivity.
Defined.

(* ================================================================== *)
(** ** Operation names without a case in [applyNode]                   *)
(* ================================================================== *)

Lemma applyNode_unknown_op env fuel node p x h :
  known_op (jsonpatch.Op p) = false ->
  jsonpatch.applyNode env fuel node p x h = Ok tt h.
Proof.
  unfold known_op. cbn [existsb]. intros H.
  repeat (apply orb_false_elim in H; destruct H as [?E H]).
  unfold jsonpatch.applyNode. rewrite E, E0, E1, E2, E3, E4. reflexivity.
Qed.

Lemma rapply_single_segment env fuel path p x h :
  snd (Str.SplitN2 path) = None ->
  jsonpatch.rapply env fuel path p x h
    = jsonpatch.applyNode env fuel (fst (Str.SplitN2 path)) p x h.
Proof.
  unfold jsonpatch.rapply. cbn [jsonpatch.rapply_n].
  destruct (Str.SplitN2 path) as [root [node|]]; cbn; [discriminate | reflexivity].
Qed.

Lemma for_each_skip {A} (a : A) (r : list A) (body : A -> M unit) h :
  body a h = Ok tt h -> for_each (a :: r) body h = for_each r body h.
Proof.
  intros E. cbn [for_each]. now step E.
Qed.

(** C10, as amended.  For an operation whose name has no case in
    [applyNode], the dispatch returns nil and leaves the heap as it is,
    for every node, handle and heap; and when the path is a single
    segment, so that no navigation precedes the dispatch, [rapply] does
    the same and [Apply] goes on with the rest of the document exactly as
    if the operation were not there. *)
Theorem unknown_op_is_noop env fuel p :
  known_op (jsonpatch.Op p) = false ->
  (forall node y h, jsonpatch.applyNode env fuel node p y h = Ok tt h)
  /\ (single_segment (jsonpatch.Path p) = true ->
      (forall y h, jsonpatch.rapply env fuel (Str.Trim (jsonpatch.Path p)) p y h = Ok tt h)
      /\ (forall rest x h,
            jsonpatch.Apply env fuel (Some (p :: rest)) x h
            = jsonpatch.Apply env fuel (Some rest) x h)).
Proof.
  intros K. split; [intros; now apply applyNode_unknown_op|].
  unfold single_segment. intros S.
  assert (R : forall y h,
             jsonpatch.rapply env fuel (Str.Trim (jsonpatch.Path p)) p y h = Ok tt h).
  { intros y h. rewrite rapply_single_segment.
    - now apply applyNode_unknown_op.
    - destruct (snd (Str.SplitN2 (Str.Trim (jsonpatch.Path p)))); [discriminate | reflexivity]. }
  split; [exact R|].
  intros rest x h. unfold jsonpatch.Apply.
  apply bind_ext; intros k h1. apply bind_ext; intros isnil h2.
  destruct isnil; [reflexivity|].
  apply bind_ext; intros e h3. apply bind_ext; intros t h4.
  apply bind_ext; intros ry h5. apply bind_ext; intros y h6.
  apply bind_ext; intros r h7. destruct r; [|reflexivity].
  unfold bind at 1 3. rewrite for_each_skip by apply R. reflexivity.
Qed.

(** The same for the name ["frob"] with the path ["/name"] on the [u] of
    [TestAdd]. *)
Lemma unknown_op_witness :
  let p := Ex.op "frob" "/name" None in
  let rest := [Ex.op "add" "/name" (Ex.str "Calvin")] in
  known_op (jsonpatch.Op p) = false
  /\ single_segment (jsonpatch.Path p) = true
  /\ jsonpatch.applyNode Ex.env Ex.fuel "name" p Ex.on_u Ex.calvin = Ok tt Ex.calvin
  /\ jsonpatch.rapply Ex.env Ex.fuel (Str.Trim (jsonpatch.Path p)) p Ex.on_u Ex.calvin
       = Ok tt Ex.calvin
  /\ jsonpatch.Apply Ex.env Ex.fuel (Some (p :: rest)) Ex.u Ex.calvin
       = jsonpatch.Apply Ex.env Ex.fuel (Some rest) Ex.u Ex.calvin.
Proof.
  cbv zeta. split; [reflexivity|]. split; [reflexivity|].
  destruct (unknown_op_is_noop Ex.env Ex.fuel (Ex.op "frob" "/name" None) eq_refl)
    as [D S].
  destruct (S eq_refl) as [R A].
  split; [apply D|]. split; [apply R | apply A].
Defined.

(** C10, as stated, fails: with a path of several segments the
    navigation runs before the dispatch.  An operation with an unknown
    name makes [Apply] return [ErrIncorrectIndex] when the first segment
    names no field, and makes it allocate the nil [Child] of the target
    when the path goes through it. *)
Lemma unknown_op_navigation_counterexample :
  known_op "frob" = false
  /\ returned_error
       (jsonpatch.Apply Ex.env Ex.fuel (Some [Ex.op "frob" "/nosuch/x" None])
          Ex.u Ex.calvin)
     = Some ErrIncorrectIndex
  /\ target Ex.fuel Ex.calvin Ex.u =
       Some (Ex.seen "" 0 "" None (Some ["37489239"]) None)
  /\ exists h',
       jsonpatch.Apply Ex.env Ex.fuel (Some [Ex.op "frob" "/child/name" None])
         Ex.u Ex.calvin = Ok tt h'
       /\ target Ex.fuel h' Ex.u =
            Some (Ex.seen "" 0 ""
                    (Some (Ex.seen "" 0 "" None None None))
                    (Some ["37489239"]) None).
Proof.
  split; [reflexivity|]. split; [vm_compute; reflexivity|].
  split; [vm_compute; reflexivity|].
  eexists. split; [vm_compute; reflexivity|]. vm_compute; reflexivity.
Qed.

(* ================================================================== *)
(** ** The heap: loads, stores and allocation                          *)
(* ================================================================== *)

Lemma list_set_app {A} (l e : list A) i x l' :
  list_set l i x = Some l' -> list_set (l ++ e) i x = Some (l' ++ e).
Proof.
  revert i l'; induction l as [|a r IH]; intros [|i] l'; simpl; try discriminate.
  - now intros [= <-].
  - destruct (list_set r i x) eqn:E; simpl; [|discriminate].
    intros [= <-]. now rewrite (IH _ _ E).
Qed.

Lemma list_set_lt {A} (l : list A) i x l' :
  list_set l i x = Some l' -> (i < List.length l)%nat.
Proof.
  revert i l'; induction l as [|a r IH]; intros [|i] l'; simpl; try discriminate.
  - lia.
  - destruct (list_set r i x) eqn:E; [|discriminate]. intros _.
    apply IH in E. lia.
Qed.

Lemma list_set_last {A} (l : list A) (a x : A) :
  list_set (l ++ [a]) (List.length l) x = Some (l ++ [x]).
Proof.
  induction l as [|b r IH]; simpl; [reflexivity|]. now rewrite IH.
Qed.

Lemma list_set_middle {A} (l r : list A) (a x : A) :
  list_set (l ++ a :: r) (List.length l) x = Some (l ++ x :: r).
Proof.
  induction l as [|b l IH]; simpl; [reflexivity|]. now rewrite IH.
Qed.

Lemma nth_error_last {A} (l : list A) (a : A) :
  nth_error (l ++ [a]) (List.length l) = Some a.
Proof.
  rewrite nth_error_app2 by lia. now rewrite Nat.sub_diag.
Qed.

Lemma nth_error_middle {A} (l r : list A) (a : A) :
  nth_error (l ++ a :: r) (List.length l) = Some a.
Proof.
  rewrite nth_error_app2 by lia. now rewrite Nat.sub_diag.
Qed.

Lemma nth_error_old {A} (l e : list A) i a :
  nth_error l i = Some a -> nth_error (l ++ e) i = Some a.
Proof.
  intros E. rewrite nth_error_app1; [exact E|].
  apply nth_error_Some. congruence.
Qed.

Lemma get_set_path v path w v' :
  set_path v path w = Some v' -> get_path v' path = Some w.
Proof.
  revert v v'; induction path as [|i rest IH]; intros v v'; simpl.
  - now intros [= <-].
  - destruct v; try discriminate.
    destruct (nth_error fs i) as [f|] eqn:Ef; [|discriminate].
    destruct (set_path f rest w) as [f'|] eqn:Es; [|discriminate].
    destruct (list_set fs i f') as [fs'|] eqn:El; [|discriminate].
    simpl. intros [= <-]. simpl.
    rewrite (nth_error_list_set _ _ _ _ i El), Nat.eqb_refl. eauto.
Qed.

Lemma set_path_some v path x w :
  get_path v path = Some x -> exists v', set_path v path w = Some v'.
Proof.
  revert v; induction path as [|i rest IH]; intros v; simpl; [eauto|].
  destruct v; try discriminate.
  destruct (nth_error fs i) as [f|] eqn:Ef; [|discriminate].
  intros G. destruct (IH _ G) as [f' ->].
  destruct (list_set_some fs i f') as [fs' ->].
  - apply nth_error_Some. congruence.
  - simpl. eauto.
Qed.

Lemma set_path_type v path w v' :
  set_path v path w = Some v' -> path <> [] -> type_of v' = type_of v.
Proof.
  destruct path as [|i rest]; [congruence|]. simpl.
  destruct v; try discriminate.
  destruct (nth_error fs i); [|discriminate].
  destruct (set_path v rest w); [|discriminate].
  destruct (list_set fs i v0); [|discriminate]. simpl.
  now intros [= <-].
Qed.

Lemma load_lt h p v : load h p = Some v -> (ploc p < List.length h)%nat.
Proof.
  unfold load. intros E. apply nth_error_Some.
  destruct (nth_error h (ploc p)); congruence.
Qed.

Lemma load_app h e p v : load h p = Some v -> load (h ++ e) p = Some v.
Proof.
  unfold load. intros E.
  destruct (nth_error h (ploc p)) as [o|] eqn:N; [|discriminate].
  now rewrite (nth_error_old _ e _ _ N).
Qed.

Lemma store_app h e p w h' :
  store h p w = Some h' -> store (h ++ e) p w = Some (h' ++ e).
Proof.
  unfold store. intros E.
  destruct (nth_error h (ploc p)) as [o|] eqn:N; [|discriminate].
  rewrite (nth_error_old _ e _ _ N).
  destruct o as [v|vs|kvs]; try discriminate.
  - destruct (set_path v (ppath p) w); [|discriminate].
    now apply list_set_app.
  - destruct (ppath p) as [|i rest]; [discriminate|].
    destruct (nth_error vs i); [|discriminate].
    destruct (set_path v rest w); [|discriminate].
    destruct (list_set vs i v0); [|discriminate].
    now apply list_set_app.
Qed.

Lemma store_length h p w h' :
  store h p w = Some h' -> List.length h' = List.length h.
Proof.
  unfold store. intros E.
  destruct (nth_error h (ploc p)) as [[v|vs|kvs]|]; try discriminate.
  - destruct (set_path v (ppath p) w); [|discriminate].
    eapply list_set_length; eauto.
  - destruct (ppath p) as [|i rest]; [discriminate|].
    destruct (nth_error vs i); [|discriminate].
    destruct (set_path v rest w); [|discriminate].
    destruct (list_set vs i v0); [|discriminate].
    eapply list_set_length; eauto.
Qed.

Lemma store_some h p v w :
  load h p = Some v -> exists h', store h p w = Some h'.
Proof.
  unfold load, store. intros E.
  destruct (nth_error h (ploc p)) as [[x|vs|kvs]|] eqn:N; try discriminate.
  - destruct (set_path_some _ _ _ w E) as [x' ->].
    apply list_set_some. apply nth_error_Some. congruence.
  - destruct (ppath p) as [|i rest]; [discriminate|].
    destruct (nth_error vs i) as [x|] eqn:Ni; [|discriminate].
    destruct (set_path_some _ _ _ w E) as [x' ->].
    destruct (list_set_some vs i x') as [vs' ->].
    + apply nth_error_Some. congruence.
    + apply list_set_some. apply nth_error_Some. congruence.
Qed.

Lemma load_store_same h p w h' :
  store h p w = Some h' -> load h' p = Some w.
Proof.
  unfold load, store. intros E.
  destruct (nth_error h (ploc p)) as [[x|vs|kvs]|] eqn:N; try discriminate.
  - destruct (set_path x (ppath p) w) as [x'|] eqn:S; [|discriminate].
    rewrite (nth_error_list_set _ _ _ _ (ploc p) E), Nat.eqb_refl.
    eapply get_set_path; eauto.
  - destruct (ppath p) as [|i rest]; [discriminate|].
    destruct (nth_error vs i) as [x|] eqn:Ni; [|discriminate].
    destruct (set_path x rest w) as [x'|] eqn:S; [|discriminate].
    destruct (list_set vs i x') as [vs'|] eqn:L; [|discriminate].
    rewrite (nth_error_list_set _ _ _ _ (ploc p) E), Nat.eqb_refl.
    rewrite (nth_error_list_set _ _ _ _ i L), Nat.eqb_refl.
    eapply get_set_path; eauto.
Qed.

Lemma nth_error_store_other h p w h' l :
  store h p w = Some h' -> l <> ploc p -> nth_error h' l = nth_error h l.
Proof.
  unfold store. intros E N.
  assert (F : forall o, list_set h (ploc p) o = Some h' ->
                        nth_error h' l = nth_error h l).
  { intros o S. rewrite (nth_error_list_set _ _ _ _ l S).
    destruct (Nat.eqb_spec l (ploc p)); congruence. }
  destruct (nth_error h (ploc p)) as [[x|vs|kvs]|]; try discriminate.
  - destruct (set_path x (ppath p) w); [eauto | discriminate].
  - destruct (ppath p) as [|i rest]; [discriminate|].
    destruct (nth_error vs i); [|discriminate].
    destruct (set_path v rest w); [|discriminate].
    destruct (list_set vs i v0); [eauto | discriminate].
Qed.

Lemma load_store_other h p w h' p' :
  store h p w = Some h' -> ploc p' <> ploc p -> load h' p' = load h p'.
Proof.
  intros S N. unfold load. now rewrite (nth_error_store_other _ _ _ _ _ S N).
Qed.

(** A store keeps the kind of object at every location. *)
Lemma store_keeps_arr h p w h' l vs :
  store h p w = Some h' -> nth_error h l = Some (OArr vs) ->
  exists vs', nth_error h' l = Some (OArr vs')
              /\ List.length vs' = List.length vs
              /\ (l <> ploc p -> vs' = vs).
Proof.
  intros S N. destruct (Nat.eq_dec l (ploc p)) as [->|D].
  - unfold store in S. rewrite N in S.
    destruct (ppath p) as [|i rest]; [discriminate|].
    destruct (nth_error vs i); [|discriminate].
    destruct (set_path v rest w); [|discriminate].
    destruct (list_set vs i v0) as [vs'|] eqn:L; [|discriminate].
    exists vs'. rewrite (nth_error_list_set _ _ _ _ (ploc p) S), Nat.eqb_refl.
    repeat split; [eapply list_set_length; eauto | congruence].
  - exists vs. rewrite (nth_error_store_other _ _ _ _ _ S D). auto.
Qed.

Lemma store_keeps_map h p w h' l kvs :
  store h p w = Some h' -> nth_error h l = Some (OMap kvs) ->
  nth_error h' l = Some (OMap kvs).
Proof.
  intros S N. destruct (Nat.eq_dec l (ploc p)) as [->|D].
  - unfold store in S. now rewrite N in S.
  - now rewrite (nth_error_store_other _ _ _ _ _ S D).
Qed.

(** Stores into the element [i] of an array object. *)
Lemma store_arr_elem h l vs i w vs' :
  nth_error h l = Some (OArr vs) ->
  list_set vs i w = Some vs' ->
  exists h', store h (mkPlace l [i]) w = Some h'
             /\ list_set h l (OArr vs') = Some h'.
Proof.
  intros N L. unfold store; simpl. rewrite N.
  assert (I : (i < List.length vs)%nat) by (eapply list_set_lt; eauto).
  destruct (nth_error vs i) eqn:Ni; [|apply nth_error_None in Ni; lia].
  rewrite L.
  destruct (list_set_some h l (OArr vs')) as [h' E].
  - apply nth_error_Some. congruence.
  - exists h'. now rewrite E.
Qed.

Lemma load_arr_elem h l vs i v :
  nth_error h l = Some (OArr vs) -> nth_error vs i = Some v ->
  load h (mkPlace l [i]) = Some v.
Proof.
  intros N Ni. unfold load; simpl. now rewrite N, Ni.
Qed.
(* ================================================================== *)
(** ** add on a slice                                                  *)
(* ================================================================== *)

Lemma list_set_same {A} (l : list A) i x :
  nth_error l i = Some x -> list_set l i x = Some l.
Proof.
  revert i; induction l as [|a r IH]; intros [|i]; simpl; try discriminate.
  - now intros [= ->].
  - intros E. now rewrite (IH _ E).
Qed.

Lemma zero_scalar env t e j :
  json.generic j = Some e -> type_of e = t ->
  type_of (zero env t) = t
  /\ (forall a b, zero env t <> VPtr a (Some b))
  /\ (forall v a b, type_of v = t -> v <> VPtr a (Some b)).
Proof.
  intros G T. split; [apply type_of_zero|].
  destruct j; simpl in G; try discriminate; injection G as <-; simpl in T; subst t;
    (split; [intros a0 b0; destruct env as [|[]]; discriminate
            | intros v a0 b0 Tv; destruct v; discriminate]).
Qed.

Lemma UnmarshalIface_scalar env j e n h :
  json.generic j = Some e ->
  (forall a b, n <> VPtr a (Some b)) ->
  json.UnmarshalIface env (Some j) (Some n) h = Ok (Some e) h.
Proof.
  intros G N. unfold json.UnmarshalIface.
  destruct n as [| | | |a [b|]| | | |]; try (rewrite <- G; reflexivity).
  now destruct (N a b).
Qed.

Lemma fresh_if_nil_handle env t q h v :
  load h q = Some v ->
  jsonpatch.if_ptr (handle t q) (jsonpatch.fresh_if_nil env) h
    = Ok (reflect.Var false q) h.
Proof.
  intros _. reflexivity.
Qed.

Lemma MakeSlice_ok env t len cap h :
  0 <= len <= cap ->
  reflect.MakeSlice env (TSlice t) len cap h
  = Ok (reflect.Imm false
          (VSlice t (Some (mkSlice (List.length h) 0 (Z.to_nat len) (Z.to_nat cap)))))
       (h ++ [OArr (repeat (zero env t) (Z.to_nat cap))]).
Proof.
  intros [A B]. unfold reflect.MakeSlice.
  destruct (Z.ltb_spec len 0); [lia|].
  destruct (Z.ltb_spec cap 0); [lia|].
  destruct (Z.ltb_spec cap len); [lia|]. reflexivity.
Qed.

Lemma slice_holds_length h s es :
  slice_holds h s es -> List.length es = reflect.hdr_len s.
Proof.
  destruct s as [hd|]; simpl.
  - intros (vs & _ & B & _ & ->). rewrite length_firstn, length_skipn. lia.
  - now intros ->.
Qed.

Lemma slice_holds_app h e s es :
  slice_holds h s es -> slice_holds (h ++ e) s es.
Proof.
  destruct s as [hd|]; simpl; [|auto].
  intros (vs & N & R). exists vs. split; [now apply nth_error_old | exact R].
Qed.

Lemma elems_ok h s es :
  slice_holds h s es -> reflect.elems s h = Ok es h.
Proof.
  destruct s as [hd|]; simpl.
  - intros (vs & N & _ & _ & ->). unfold reflect.elems.
    step (read_arr_ok _ _ _ N). reflexivity.
  - now intros ->.
Qed.

Lemma blit_last h cur off src :
  reflect.blit (List.length h) off src (h ++ [OArr cur])
  = Ok tt (h ++ [OArr (firstn off cur ++ src ++ skipn (off + List.length src) cur)]).
Proof.
  unfold reflect.blit. destruct src as [|a src].
  - simpl. rewrite Nat.add_0_r, firstn_skipn. reflexivity.
  - step (read_arr_ok _ _ _ (nth_error_last h (OArr cur))).
    unfold write_arr. now rewrite nth_error_last, list_set_last.
Qed.

Lemma Set_var h p old new h' :
  load h p = Some old ->
  type_of old = type_of new ->
  store h p new = Some h' ->
  reflect.Set_ (reflect.Var false p) (reflect.Imm false new) h = Ok tt h'.
Proof.
  intros L T S. unfold reflect.Set_. cbn [reflect.flagRO].
  step (read_ok _ _ _ L). unfold reflect.get at 1, bind at 1, ret at 1.
  rewrite T, ty_eqb_refl. unfold write. now rewrite S.
Qed.

Lemma Index_ok h ro x t s i :
  reflect.get x h = Ok (VSlice t (Some s)) h ->
  reflect.flagRO x = ro ->
  (i < slen s)%nat ->
  reflect.Index x (Z.of_nat i) h
  = Ok (reflect.Var ro (mkPlace (sarr s) [(soff s + i)%nat])) h.
Proof.
  intros G R I. unfold reflect.Index. step G. cbn [reflect.hdr_len].
  destruct (Z.leb_spec 0 (Z.of_nat i)); [|lia].
  destruct (Z.ltb_spec (Z.of_nat i) (Z.of_nat (slen s))); [|lia].
  cbn [andb]. rewrite Nat2Z.id, R. reflexivity.
Qed.

Lemma Index_out h x t s i :
  reflect.get x h = Ok (VSlice t s) h ->
  i < 0 \/ Z.of_nat (reflect.hdr_len s) <= i ->
  reflect.Index x i h = Panic PIndexRange.
Proof.
  intros G R. unfold reflect.Index. step G.
  destruct (Z.leb_spec 0 i); destruct (Z.ltb_spec i (Z.of_nat (reflect.hdr_len s)));
    cbn [andb]; try reflexivity. lia.
Qed.

Lemma get_var h ro p v : load h p = Some v -> reflect.get (reflect.Var ro p) h = Ok v h.
Proof. intros E. unfold reflect.get. now apply read_ok. Qed.

Lemma Interface_var h p v :
  load h p = Some v -> reflect.Interface (reflect.Var false p) h = Ok (Some v) h.
Proof.
  intros E. unfold reflect.Interface. cbn [reflect.flagRO].
  step (get_var _ false _ _ E). reflexivity.
Qed.

Lemma Slice_ok h x t hd i j :
  reflect.get x h = Ok (VSlice t (Some hd)) h ->
  reflect.flagRO x = false ->
  0 <= i <= j -> j <= Z.of_nat (scap hd) ->
  reflect.Slice x i j h
  = Ok (reflect.Imm false
          (VSlice t (Some (mkSlice (sarr hd) (soff hd + Z.to_nat i)
                             (Z.to_nat (j - i)) (scap hd - Z.to_nat i))))) h.
Proof.
  intros G R A B. unfold reflect.Slice. step G. cbn [reflect.hdr_cap].
  destruct (Z.leb_spec 0 i); [|lia].
  destruct (Z.leb_spec i j); [|lia].
  destruct (Z.leb_spec j (Z.of_nat (scap hd))); [|lia].
  cbn [andb]. rewrite R. reflexivity.
Qed.

Lemma slice_holds_sub h hd es i j :
  slice_holds h (Some hd) es ->
  (i <= j)%nat -> (j <= slen hd)%nat ->
  slice_holds h (Some (mkSlice (sarr hd) (soff hd + i) (j - i) (scap hd - i)))
    (firstn (j - i) (skipn i es)).
Proof.
  intros (vs & N & B & C & ->) I J. exists vs. cbn [sarr soff slen scap].
  split; [exact N|]. split; [lia|]. split; [lia|].
  rewrite skipn_firstn_comm, firstn_firstn, skipn_skipn.
  rewrite Nat.min_l by lia. now rewrite (Nat.add_comm i).
Qed.

Lemma slice_holds_nth h hd es i :
  slice_holds h (Some hd) es -> (i < slen hd)%nat ->
  exists v, nth_error es i = Some v
            /\ load h (mkPlace (sarr hd) [(soff hd + i)%nat]) = Some v.
Proof.
  intros (vs & N & B & C & ->) I.
  destruct (nth_error vs (soff hd + i)) as [v|] eqn:E;
    [|apply nth_error_None in E; lia].
  exists v. split.
  - rewrite nth_error_firstn.
    destruct (Nat.ltb_spec i (slen hd)); [|lia].
    now rewrite nth_error_skipn.
  - eapply load_arr_elem; eauto.
Qed.
Lemma bind_ret {A B} (a : A) (f : A -> M B) h : bind (ret a) f h = f a h.
Proof. reflexivity. Qed.

Lemma bind_assoc {A B C} (m : M A) (f : A -> M B) (g : B -> M C) h :
  bind (bind m f) g h = bind m (fun a => bind (f a) g) h.
Proof. unfold bind. destruct (m h); reflexivity. Qed.

Lemma skipn_repeat {A} (z : A) n k : skipn n (repeat z (n + k)) = repeat z k.
Proof. induction n; simpl; auto. Qed.

Lemma firstn_repeat {A} (z : A) n k : firstn n (repeat z (n + k)) = repeat z n.
Proof. induction n; simpl; f_equal; auto. Qed.

Lemma store_last_elem h cur i w cur' :
  list_set cur i w = Some cur' ->
  store (h ++ [OArr cur]) (mkPlace (List.length h) [i]) w = Some (h ++ [OArr cur']).
Proof.
  intros L. unfold store; simpl. rewrite nth_error_last.
  destruct (nth_error cur i) eqn:N.
  - now rewrite L, list_set_last.
  - apply list_set_lt in L. apply nth_error_None in N. lia.
Qed.

Lemma load_last_elem h cur i v :
  nth_error cur i = Some v ->
  load (h ++ [OArr cur]) (mkPlace (List.length h) [i]) = Some v.
Proof.
  intros N. eapply load_arr_elem; eauto using nth_error_last.
Qed.

Lemma add_append env p q t s es j e h :
  load h q = Some (VSlice t s) ->
  slice_holds h s es ->
  jsonpatch.Value p = Some j ->
  json.generic j = Some e ->
  type_of e = t ->
  exists h0,
    store h q (VSlice t (Some (mkSlice (List.length h) 0
                                  (S (List.length es)) (S (List.length es)))))
      = Some h0
    /\ jsonpatch.add env "-" p (handle (TSlice t) q) h
       = Ok tt (h0 ++ [OArr (es ++ [e])]).
Proof.
  intros Hq Hs Hv Hg Ht.
  destruct (store_some h q _ (VSlice t (Some (mkSlice (List.length h) 0
              (S (List.length es)) (S (List.length es))))) Hq) as [h0 Hst].
  exists h0. split; [exact Hst|].
  destruct (zero_scalar env t e j Hg Ht) as (Tz & Nz & _).
  pose proof (slice_holds_length _ _ _ Hs) as HL.
  set (z := zero env t) in *.
  unfold jsonpatch.add.
  step (fresh_if_nil_handle env (TSlice t) q h _ Hq).
  step (Kind_var _ false _ _ Hq). cbn [kind_of_ty type_of].
  step (Len_slice _ false _ _ _ Hq). cbn [String.eqb Ascii.eqb Bool.eqb].
  step (Type_var _ false _ _ Hq). cbn [type_of].
  rewrite <- HL.
  erewrite bind_ok by (apply MakeSlice_ok; lia).
  replace (Z.to_nat (Z.of_nat (List.length es) + 1)) with (S (List.length es)) by lia.
  fold z.
  set (H1 := h ++ [OArr (repeat z (S (List.length es)))]).
  set (sl := VSlice t (Some (mkSlice (List.length h) 0 (S (List.length es)) (S (List.length es))))).
  assert (Hq1 : load H1 q = Some (VSlice t s)) by (apply load_app; exact Hq).
  subst H1.
  (* reflect.Copy(sl, v) *)
  unfold reflect.Copy at 1. rewrite bind_assoc.
  unfold reflect.get at 1. rewrite bind_ret. rewrite bind_assoc.
  step (get_var _ false _ _ Hq1). unfold sl at 1. cbn [reflect.flagRO orb].
  rewrite ty_eqb_refl. cbn [negb]. rewrite bind_assoc.
  step (elems_ok _ _ _ (slice_holds_app _ [OArr (repeat z (S (List.length es)))] _ _ Hs)).
  cbn [reflect.hdr_len slen sarr soff]. rewrite <- HL.
  rewrite Nat.min_r by lia. rewrite firstn_all.
  rewrite bind_assoc.
  step (blit_last h (repeat z (S (List.length es))) 0 es).
  rewrite bind_ret.
  cbn [firstn app Nat.add].
  replace (S (List.length es)) with (List.length es + 1)%nat at 1 by lia.
  rewrite skipn_repeat. cbn [repeat].
  assert (Hi : reflect.Index (reflect.Imm false sl) (Z.of_nat (List.length es))
                 (h ++ [OArr (es ++ [z])])
               = Ok (reflect.Var false (mkPlace (List.length h) [List.length es]))
                    (h ++ [OArr (es ++ [z])])).
  { apply (Index_ok _ false (reflect.Imm false sl) t
             (mkSlice (List.length h) 0 (S (List.length es)) (S (List.length es)))
             (List.length es)); [reflexivity | reflexivity | simpl; lia]. }
  step Hi.
  step (Interface_var _ _ _ (load_last_elem h (es ++ [z]) _ _ (nth_error_middle es [] z))).
  rewrite Hv. step (UnmarshalIface_scalar env j e z (h ++ [OArr (es ++ [z])]) Hg Nz).
  cbn [reflect.ValueOf].
  step (Set_var _ _ z e _
          (load_last_elem h (es ++ [z]) _ _ (nth_error_middle es [] z))
          (eq_trans Tz (eq_sym Ht))
          (store_last_elem h _ _ e _ (list_set_last es z e))).
  eapply Set_var.
  - apply load_app. exact Hq.
  - reflexivity.
  - apply store_app. exact Hst.
Qed.
(** [AppendSlice] and [Append] on a slice that is alone in the last
    object of the heap and has room. *)
Lemma AppendSlice_fresh env h cur t n c src xs :
  slice_holds h src xs ->
  (n + List.length xs <= c)%nat ->
  reflect.AppendSlice env
    (reflect.Imm false (VSlice t (Some (mkSlice (List.length h) 0 n c))))
    (reflect.Imm false (VSlice t src)) (h ++ [OArr cur])
  = Ok (reflect.Imm false
          (VSlice t (Some (mkSlice (List.length h) 0 (n + List.length xs) c))))
       (h ++ [OArr (firstn n cur ++ xs ++ skipn (n + List.length xs) cur)]).
Proof.
  intros Hs Hc. pose proof (slice_holds_length _ _ _ Hs) as HL.
  unfold reflect.AppendSlice, reflect.get. rewrite !bind_ret.
  cbn [reflect.flagRO orb]. rewrite ty_eqb_refl. cbn [negb].
  unfold reflect.grow. cbn [reflect.hdr_len reflect.hdr_cap slen scap].
  rewrite <- HL.
  destruct (Nat.leb_spec (n + List.length xs) c); [|lia].
  rewrite bind_ret.
  step (elems_ok _ _ _ (slice_holds_app _ [OArr cur] _ _ Hs)).
  cbn [sarr soff Nat.add].
  step (blit_last h cur n xs). reflexivity.
Qed.

Lemma Append_fresh env h cur cur' t n c old e :
  (n < c)%nat ->
  nth_error cur n = Some old ->
  type_of old = type_of e ->
  list_set cur n e = Some cur' ->
  reflect.Append env
    (reflect.Imm false (VSlice t (Some (mkSlice (List.length h) 0 n c))))
    (reflect.Imm false e) (h ++ [OArr cur])
  = Ok (reflect.Imm false (VSlice t (Some (mkSlice (List.length h) 0 (n + 1) c))))
       (h ++ [OArr cur']).
Proof.
  intros Hc Hn Ht Hl.
  unfold reflect.Append, reflect.get. rewrite bind_ret.
  cbn [reflect.flagRO]. unfold reflect.grow.
  cbn [reflect.hdr_len reflect.hdr_cap slen scap].
  destruct (Nat.leb_spec (n + 1) c); [|lia].
  rewrite bind_ret. cbn [sarr soff].
  erewrite bind_ok.
  2:{ apply (Index_ok _ false _ t (mkSlice (List.length h) 0 (n + 1) c) n);
        [reflexivity | reflexivity | simpl; lia]. }
  cbn [sarr soff Nat.add].
  step (Set_var _ _ old e _ (load_last_elem h cur _ _ Hn) Ht
          (store_last_elem h _ _ e _ Hl)).
  reflexivity.
Qed.

Lemma nth_error_at {A} (l r : list A) (a : A) n :
  List.length l = n -> nth_error (l ++ a :: r) n = Some a.
Proof. intros <-. apply nth_error_middle. Qed.

Lemma list_set_at {A} (l r : list A) (a x : A) n :
  List.length l = n -> list_set (l ++ a :: r) n x = Some (l ++ x :: r).
Proof. intros <-. apply list_set_middle. Qed.

Lemma Atoi_dash : Str.Atoi "-" = None.
Proof. reflexivity. Qed.

Lemma list_set_app_r {A} (l r : list A) (a x : A) :
  list_set (l ++ a :: r) (List.length l) x = Some (l ++ x :: r).
Proof. apply list_set_middle. Qed.

Lemma add_insert env p q t s es j e h node i :
  load h q = Some (VSlice t s) ->
  slice_holds h s es ->
  Forall (fun v => type_of v = t) es ->
  jsonpatch.Value p = Some j ->
  json.generic j = Some e ->
  type_of e = t ->
  Str.Atoi node = Some (Z.of_nat i) ->
  (i < List.length es)%nat ->
  exists h0,
    store h q (VSlice t (Some (mkSlice (List.length h) 0
                                  (S (List.length es)) (S (List.length es)))))
      = Some h0
    /\ jsonpatch.add env node p (handle (TSlice t) q) h
       = Ok tt (h0 ++ [OArr (firstn i es ++ e :: skipn i es)]).
Proof.
  intros Hq Hs Hty Hv Hg Ht Ha Hi.
  destruct (store_some h q _ (VSlice t (Some (mkSlice (List.length h) 0
              (S (List.length es)) (S (List.length es))))) Hq) as [h0 Hst].
  exists h0. split; [exact Hst|].
  destruct (zero_scalar env t e j Hg Ht) as (Tz & _ & Np).
  pose proof (slice_holds_length _ _ _ Hs) as HL.
  destruct s as [hd|]; [|simpl in HL; lia]. cbn [reflect.hdr_len] in HL.
  assert (Hnode : String.eqb node "-" = false).
  { destruct (String.eqb_spec node "-"); [subst; discriminate | reflexivity]. }
  destruct (slice_holds_nth _ _ _ i Hs) as (xi & Hxi & Lxi); [lia|].
  assert (Txi : type_of xi = t).
  { rewrite Forall_forall in Hty. apply Hty. eapply nth_error_In; eauto. }
  set (z := zero env t) in *.
  set (L := List.length es) in *.
  unfold jsonpatch.add.
  step (fresh_if_nil_handle env (TSlice t) q h _ Hq).
  step (Kind_var _ false _ _ Hq). cbn [kind_of_ty type_of].
  step (Len_slice _ false _ _ _ Hq). rewrite Hnode, Ha.
  cbn [reflect.hdr_len]. rewrite <- HL.
  erewrite bind_ok.
  2:{ apply (Index_ok _ false _ t hd i); [apply get_var; exact Hq | reflexivity | lia]. }
  step (Interface_var _ _ _ Lxi).
  rewrite Hv. step (UnmarshalIface_scalar env j e xi h Hg (fun a b => Np xi a b Txi)).
  step (Type_var _ false _ _ Hq). cbn [type_of].
  erewrite bind_ok by (apply MakeSlice_ok; lia).
  replace (Z.to_nat (Z.of_nat L + 1)) with (S L) by lia.
  change (Z.to_nat 0) with 0%nat. fold z.
  assert (Hq1 : forall cur, load (h ++ [OArr cur]) q = Some (VSlice t (Some hd)))
    by (intros; apply load_app; exact Hq).
  (* front := v.Slice(0, pos) *)
  erewrite bind_ok.
  2:{ apply (Slice_ok _ _ t hd); [apply get_var; apply Hq1 | reflexivity | lia |].
      destruct Hs as (vs & _ & _ & C & _). lia. }
  change (Z.to_nat 0) with 0%nat.
  rewrite Z.sub_0_r, Nat2Z.id, Nat.add_0_r, Nat.sub_0_r.
  pose proof (slice_holds_sub h hd es 0 i Hs ltac:(lia) ltac:(lia)) as Hfront.
  rewrite Nat.add_0_r, !Nat.sub_0_r in Hfront. cbn [skipn] in Hfront.
  erewrite bind_ok.
  2:{ apply (AppendSlice_fresh env h _ t 0 (S L) _ _ Hfront).
      rewrite length_firstn. lia. }
  assert (Lf : List.length (firstn i es) = i) by (rewrite length_firstn; lia).
  rewrite Lf. cbn [firstn app Nat.add].
  replace (skipn i (repeat z (S L))) with (z :: repeat z (L - i)).
  2:{ replace (S L) with (i + S (L - i))%nat by lia. now rewrite skipn_repeat. }
  (* sl = reflect.Append(sl, reflect.ValueOf(n)) *)
  cbn [reflect.ValueOf].
  erewrite bind_ok.
  2:{ apply (Append_fresh env h _ (firstn i es ++ e :: repeat z (L - i)) t i (S L) z e).
      - lia.
      - now apply nth_error_at.
      - now rewrite Tz, Ht.
      - now apply list_set_at. }
  (* back := v.Slice(pos, l) *)
  erewrite bind_ok.
  2:{ apply (Slice_ok _ _ t hd); [apply get_var; apply Hq1 | reflexivity | lia |].
      destruct Hs as (vs & _ & _ & C & _). lia. }
  rewrite Nat2Z.id. replace (Z.to_nat (Z.of_nat L - Z.of_nat i)) with (L - i)%nat by lia.
  pose proof (slice_holds_sub h hd es i L Hs ltac:(lia) ltac:(lia)) as Hback.
  assert (Lb : List.length (skipn i es) = (L - i)%nat) by (rewrite length_skipn; reflexivity).
  rewrite <- Lb, firstn_all in Hback. rewrite Lb in Hback.
  erewrite bind_ok.
  2:{ apply (AppendSlice_fresh env h _ t (i + 1) (S L) _ _ Hback). rewrite Lb. lia. }
  rewrite Lb.
  replace (firstn (i + 1) (firstn i es ++ e :: repeat z (L - i))
             ++ skipn i es
             ++ skipn (i + 1 + (L - i)) (firstn i es ++ e :: repeat z (L - i)))
    with (firstn i es ++ e :: skipn i es).
  2:{ rewrite firstn_app, Lf. replace (i + 1 - i)%nat with 1%nat by lia.
      rewrite (firstn_all2 (n := i + 1)) by (rewrite Lf; lia).
      rewrite (skipn_all2 (n := i + 1 + (L - i))).
      2:{ rewrite length_app, Lf. simpl. rewrite repeat_length. lia. }
      cbn [firstn]. rewrite app_nil_r, <- app_assoc. reflexivity. }
  replace (i + 1 + (L - i))%nat with (S L) by lia.
  eapply Set_var.
  - apply Hq1.
  - reflexivity.
  - apply store_app. exact Hst.
Qed.
Lemma add_out_of_range env p q t s es h node i :
  load h q = Some (VSlice t s) ->
  slice_holds h s es ->
  Str.Atoi node = Some i ->
  i < 0 \/ Z.of_nat (List.length es) <= i ->
  jsonpatch.add env node p (handle (TSlice t) q) h = Panic PIndexRange.
Proof.
  intros Hq Hs Ha Hi.
  pose proof (slice_holds_length _ _ _ Hs) as HL.
  assert (Hnode : String.eqb node "-" = false).
  { destruct (String.eqb_spec node "-"); [subst; discriminate | reflexivity]. }
  unfold jsonpatch.add.
  step (fresh_if_nil_handle env (TSlice t) q h _ Hq).
  step (Kind_var _ false _ _ Hq). cbn [kind_of_ty type_of].
  step (Len_slice _ false _ _ _ Hq). rewrite Hnode, Ha.
  unfold bind at 1.
  rewrite (Index_out _ _ t s i (get_var _ false _ _ Hq)); [reflexivity|].
  rewrite <- HL. exact Hi.
Qed.

Lemma added_from_store env node p q t h h0 es' :
  store h q (VSlice t (Some (mkSlice (List.length h) 0
                                (List.length es') (List.length es')))) = Some h0 ->
  jsonpatch.add env node p (handle (TSlice t) q) h = Ok tt (h0 ++ [OArr es']) ->
  added env node p q t h es'.
Proof.
  intros Hst Hadd.
  pose proof (store_length _ _ _ _ Hst) as Hlen.
  exists (h0 ++ [OArr es']), (mkSlice (List.length h) 0 (List.length es') (List.length es')).
  split; [exact Hadd|]. split; [|split].
  - apply load_app. eapply load_store_same; eauto.
  - exists es'. cbn [sarr soff slen scap]. rewrite <- Hlen.
    split; [apply nth_error_last|]. split; [lia|]. split; [lia|].
    cbn [skipn]. now rewrite firstn_all.
  - intros l Hl Hne. rewrite nth_error_app1 by lia.
    eapply nth_error_store_other; eauto.
Qed.

(** C5.  [add] on a slice does not check the index.  For a slice of
    length [L] holding [es]: an index [i >= L] (or a negative one) panics
    in [v.Index(pos)], whatever the value of the patch, where the claim
    has an append at [i = L] and [ErrIncorrectIndex] at [i > L].  The rest
    of the claim holds when the value decodes to the element type (a
    string, a boolean or a float64): the segment ["-"] makes the slice
    [es] followed by the decoded value, an index [i < L] makes it the
    first [i] elements, the value, then the elements from [i] on; the
    slice is rebuilt in a fresh array and nothing else in the heap
    changes. *)
Theorem add_on_slice env node p q t s es h :
  load h q = Some (VSlice t s) ->
  slice_holds h s es ->
  (forall i, Str.Atoi node = Some i ->
     i < 0 \/ Z.of_nat (List.length es) <= i ->
     jsonpatch.add env node p (handle (TSlice t) q) h = Panic PIndexRange)
  /\ (forall j e,
        Forall (fun v => type_of v = t) es ->
        jsonpatch.Value p = Some j ->
        json.generic j = Some e ->
        type_of e = t ->
        (node = "-" -> added env node p q t h (es ++ [e]))
        /\ (forall i, Str.Atoi node = Some (Z.of_nat i) -> (i < List.length es)%nat ->
              added env node p q t h (firstn i es ++ e :: skipn i es))).
Proof.
  intros Hq Hs. split.
  - intros i Ha Hi. eapply add_out_of_range; eauto.
  - intros j e Hty Hv Hg Ht. split.
    + intros ->.
      destruct (add_append env p q t s es j e h Hq Hs Hv Hg Ht) as (h0 & Hst & Hadd).
      apply (added_from_store _ _ _ _ _ _ h0); [|exact Hadd].
      rewrite length_app. cbn [List.length]. rewrite Nat.add_1_r. exact Hst.
    + intros i Ha Hi.
      destruct (add_insert env p q t s es j e h node i Hq Hs Hty Hv Hg Ht Ha Hi)
        as (h0 & Hst & Hadd).
      apply (added_from_store _ _ _ _ _ _ h0); [|exact Hadd].
      replace (List.length (firstn i es ++ e :: skipn i es)) with (S (List.length es));
        [exact Hst|].
      rewrite length_app, length_firstn. cbn [List.length]. rewrite length_skipn. lia.
Qed.

(** On [u.Phones] of [TestAdd] after its first add, of length 2: the
    index [2] panics, ["-"] appends and the index [1] inserts; and on
    [u.Phones] as [TestAdd] starts, of length 1, the index [1] panics. *)
Lemma add_on_slice_witness :
  let q := mkPlace 0 [4%nat] in
  let s := Some (mkSlice 1 0 2 2) in
  let h := [ OVar (Ex.user "" 0 "" None s None);
             OArr [VString "37489239"; VString "8390240670"] ] in
  let es := [VString "37489239"; VString "8390240670"] in
  let p := Ex.op "add" "/phones/1" (Ex.str "9096040676") in
  let e := VString "9096040676" in
  load h q = Some (VSlice TString s)
  /\ slice_holds h s es
  /\ Forall (fun v => type_of v = TString) es
  /\ jsonpatch.Value p = Some (json.Str "9096040676")
  /\ json.generic (json.Str "9096040676") = Some e
  /\ type_of e = TString
  /\ Str.Atoi "1" = Some (Z.of_nat 1)
  /\ (1 < List.length es)%nat
  /\ added Ex.env "-" p q TString h (es ++ [e])
  /\ added Ex.env "1" p q TString h
       [VString "37489239"; VString "9096040676"; VString "8390240670"]
  /\ jsonpatch.add Ex.env "2" p (handle (TSlice TString) q) h = Panic PIndexRange
  /\ jsonpatch.add Ex.env "1" p (handle (TSlice TString) q) Ex.calvin = Panic PIndexRange.
Proof.
  cbv zeta.
  assert (Hs : slice_holds
                 [ OVar (Ex.user "" 0 "" None (Some (mkSlice 1 0 2 2)) None);
                   OArr [VString "37489239"; VString "8390240670"] ]
                 (Some (mkSlice 1 0 2 2))
                 [VString "37489239"; VString "8390240670"]).
  { exists [VString "37489239"; VString "8390240670"]. simpl. repeat split; lia. }
  assert (Hty : Forall (fun v => type_of v = TString)
                  [VString "37489239"; VString "8390240670"])
    by (repeat constructor).
  split; [reflexivity|]. split; [exact Hs|]. split; [exact Hty|].
  split; [reflexivity|]. split; [reflexivity|]. split; [reflexivity|].
  split; [reflexivity|]. split; [simpl; lia|].
  assert (Hq : load
                 [ OVar (Ex.user "" 0 "" None (Some (mkSlice 1 0 2 2)) None);
                   OArr [VString "37489239"; VString "8390240670"] ]
                 (mkPlace 0 [4%nat])
               = Some (VSlice TString (Some (mkSlice 1 0 2 2)))) by reflexivity.
  pose (p := Ex.op "add" "/phones/1" (Ex.str "9096040676")).
  split; [|split; [|split]].
  - destruct (add_on_slice Ex.env "-" p _ _ _ _ _ Hq Hs) as (_ & A).
    destruct (A (json.Str "9096040676") _ Hty eq_refl eq_refl eq_refl) as (A1 & _).
    apply A1. reflexivity.
  - destruct (add_on_slice Ex.env "1" p _ _ _ _ _ Hq Hs) as (_ & B).
    destruct (B (json.Str "9096040676") _ Hty eq_refl eq_refl eq_refl) as (_ & B2).
    apply (B2 1%nat); [reflexivity | simpl; lia].
  - destruct (add_on_slice Ex.env "2" p _ _ _ _ _ Hq Hs) as (C & _).
    apply (C 2); [reflexivity | simpl; lia].
  - assert (Hc : slice_holds Ex.calvin (Some (mkSlice 1 0 1 1)) [VString "37489239"]).
    { exists [VString "37489239"]. simpl. repeat split; lia. }
    destruct (add_on_slice Ex.env "1" p (mkPlace 0 [4%nat]) TString _ _ Ex.calvin
                eq_refl Hc) as (C & _).
    apply (C 1); [reflexivity | simpl; lia].
Defined.

(** Scenario 1 of the specification, through [Apply]: append, then
    insert before index 1. *)
Example add_scenario_through_Apply :
  exists h',
    jsonpatch.Apply Ex.env Ex.fuel
      (Some [Ex.op "add" "/phones/-" (Ex.str "8390240670");
             Ex.op "add" "/phones/1" (Ex.str "9096040676")])
      Ex.u Ex.calvin = Ok tt h'
    /\ target Ex.fuel h' Ex.u =
         Some (Ex.seen "" 0 "" None
                 (Some ["37489239"; "9096040676"; "8390240670"])
                 None).
Proof.
  eexists. split.
  - vm_compute. reflexivity.
  - vm_compute. reflexivity.
Qed.

(** On [Phones] of [TestAdd], of length 1: an add at index 1 does not
    append and an add at index 2 does not return [ErrIncorrectIndex];
    both panic, and [Apply] with them. *)
Example add_at_length_through_Apply :
  let p := Ex.op "add" "/phones/1" (Ex.str "9096040676") in
  let p2 := Ex.op "add" "/phones/2" (Ex.str "9096040676") in
  load Ex.calvin (mkPlace 0 [4%nat]) = Some (VSlice TString (Some (mkSlice 1 0 1 1)))
  /\ jsonpatch.add Ex.env "1" p Ex.on_phones Ex.calvin = Panic PIndexRange
  /\ jsonpatch.add Ex.env "2" p2 Ex.on_phones Ex.calvin = Panic PIndexRange
  /\ jsonpatch.Apply Ex.env Ex.fuel (Some [p]) Ex.u Ex.calvin = Panic PIndexRange
  /\ jsonpatch.Apply Ex.env Ex.fuel (Some [p2]) Ex.u Ex.calvin = Panic PIndexRange.
Proof.
  cbv zeta. repeat split; vm_compute; reflexivity.
Qed.

(* ================================================================== *)
(** ** Deep copy: the functions unfolded                               *)
(* ================================================================== *)

Lemma rcopy_unfold env f x y :
  deep.rcopy env (S f) x y
  = (x' <- deep.if_ptr x reflect.Elem ;;
     y' <- rcopy_head env y ;;
     rcopy_switch env f x' y')%go.
Proof. reflexivity. Qed.

Lemma copyArray_unfold env rc x y :
  deep.copyArray env rc x y
  = (x <- deep.if_ptr x reflect.Elem ;;
     y <- deep.if_ptr y reflect.Elem ;;
     l <- reflect.Len x ;;
     k <- reflect.Kind x ;;
     match k with
     | KSlice =>
         t <- reflect.Type_ x ;;
         sl <- reflect.MakeSlice env t l l ;;
         reflect.Set_ y sl
     | _ => ret tt
     end ;;
     for_each (seq 0 (Z.to_nat l)) (array_body rc x y))%go.
Proof. reflexivity. Qed.

Lemma copyMap_unfold env rc x y :
  deep.copyMap env rc x y
  = (x <- deep.if_ptr x reflect.Indirect ;;
     y <- deep.if_ptr y reflect.Indirect ;;
     isnil <- reflect.IsNil x ;;
     if isnil then ret tt
     else
       keys <- reflect.MapKeys x ;;
       t <- reflect.Type_ x ;;
       m <- reflect.MakeMap t ;;
       reflect.Set_ y m ;;
       for_each keys (map_body env rc x y))%go.
Proof. reflexivity. Qed.

Lemma copyStruct_unfold env rc x y :
  deep.copyStruct env rc x y
  = (x <- deep.if_ptr x reflect.Indirect ;;
     y <- deep.if_ptr y reflect.Indirect ;;
     k <- reflect.Kind x ;;
     match k with
     | KPtr => rc x y
     | _ =>
         t <- reflect.Type_ x ;;
         n <- reflect.NumField env t ;;
         (if reflect.IsValid y then reflect.Set_ y x else ret tt) ;;
         for_each (seq 0 n) (struct_body env rc x y)
     end)%go.
Proof. reflexivity. Qed.

(* ================================================================== *)
(** ** Deep copy: heaps that grow                                      *)
(* ================================================================== *)

Lemma prefix_refl H : prefix H H.
Proof. exists []. now rewrite app_nil_r. Qed.

Lemma prefix_app P X E : prefix P X -> prefix P (X ++ E).
Proof. intros [E0 ->]. exists (E0 ++ E). now rewrite app_assoc. Qed.

Lemma prefix_trans P Q X : prefix P Q -> prefix Q X -> prefix P X.
Proof. intros [E1 ->] [E2 ->]. exists (E1 ++ E2). now rewrite app_assoc. Qed.

Lemma prefix_length P X : prefix P X -> (List.length P <= List.length X)%nat.
Proof. intros [E ->]. rewrite length_app. lia. Qed.

Lemma prefix_nth P X l o :
  prefix P X -> nth_error P l = Some o -> nth_error X l = Some o.
Proof. intros [E ->]. apply nth_error_old. Qed.

Lemma prefix_nth_lt P X l :
  prefix P X -> (l < List.length P)%nat -> nth_error X l = nth_error P l.
Proof. intros [E ->] L. now apply nth_error_app1. Qed.

Lemma prefix_load P X p v : prefix P X -> load P p = Some v -> load X p = Some v.
Proof. intros [E ->]. apply load_app. Qed.

Lemma list_set_firstn {A} (l : list A) i x l' n :
  list_set l i x = Some l' -> (n <= i)%nat -> firstn n l' = firstn n l.
Proof.
  revert i l' n; induction l as [|a r IH]; intros [|i] l' [|n]; simpl;
    try discriminate; try reflexivity; try lia.
  destruct (list_set r i x) eqn:E; simpl; [|discriminate].
  intros [= <-] L. simpl. f_equal. eapply IH; eauto. lia.
Qed.

Lemma store_loc h p w h' :
  store h p w = Some h' -> exists o, list_set h (ploc p) o = Some h'.
Proof.
  unfold store.
  destruct (nth_error h (ploc p)) as [[x|vs|kvs]|]; try discriminate.
  - destruct (set_path x (ppath p) w); [eauto | discriminate].
  - destruct (ppath p) as [|i rest]; [discriminate|].
    destruct (nth_error vs i); [|discriminate].
    destruct (set_path v rest w); [|discriminate].
    destruct (list_set vs i v0); [eauto | discriminate].
Qed.

Lemma prefix_store P X p w X' :
  prefix P X -> (List.length P <= ploc p)%nat -> store X p w = Some X' ->
  prefix P X'.
Proof.
  intros [E ->] L S. destruct (store_loc _ _ _ _ S) as [o So].
  pose proof (list_set_firstn _ _ _ _ (List.length P) So L) as F.
  rewrite firstn_app, Nat.sub_diag, firstn_all, firstn_O, app_nil_r in F.
  exists (skipn (List.length P) X'). rewrite <- F at 1. now rewrite firstn_skipn.
Qed.

Lemma agree_refl lo hi X : agree lo hi X X.
Proof. intros l _. reflexivity. Qed.

Lemma agree_sym lo hi X Y : agree lo hi X Y -> agree lo hi Y X.
Proof. intros A l L. symmetry. now apply A. Qed.

Lemma agree_trans lo hi X Y Z : agree lo hi X Y -> agree lo hi Y Z -> agree lo hi X Z.
Proof. intros A B l L. rewrite (A l L). now apply B. Qed.

Lemma agree_narrow lo hi lo' hi' X Y :
  agree lo hi X Y -> (lo <= lo')%nat -> (hi' <= hi)%nat -> agree lo' hi' X Y.
Proof. intros A L1 L2 l L. apply A. lia. Qed.

Lemma agree_app lo hi X E : (hi <= List.length X)%nat -> agree lo hi (X ++ E) X.
Proof. intros L l Hl. apply nth_error_app1. lia. Qed.

Lemma agree_prefix lo hi P X :
  prefix P X -> (hi <= List.length P)%nat -> agree lo hi X P.
Proof. intros [E ->]. apply agree_app. Qed.

Lemma agree_store lo hi X p w X' :
  store X p w = Some X' -> (ploc p < lo \/ hi <= ploc p)%nat -> agree lo hi X' X.
Proof.
  intros S D l L. eapply nth_error_store_other; eauto. lia.
Qed.

(** A tree that is fixed by a range of objects stays fixed when the range
    widens and the heap changes outside it. *)
Lemma stable_widen lo hi Y fv cv tr lo' hi' Y' :
  stable lo hi Y fv cv tr ->
  (lo' <= lo)%nat -> (hi <= hi')%nat ->
  agree lo hi Y' Y ->
  stable lo' hi' Y' fv cv tr.
Proof.
  intros S L1 L2 A X AX. apply S.
  eapply agree_trans; [|exact A]. eapply agree_narrow; eauto.
Qed.

(** *** Trees that do not depend on the heap *)

Lemma mapM_ext {A B} (f g : A -> option B) l :
  (forall a, In a l -> f a = g a) -> mapM f l = mapM g l.
Proof.
  induction l as [|a r IH]; simpl; intros E; [reflexivity|].
  rewrite (E a) by auto. rewrite IH by auto. reflexivity.
Qed.

Lemma flat_forallb n fs : flat (VStruct n fs) = forallb flat fs.
Proof. reflexivity. Qed.

Lemma view_flat f X Y v : flat v = true -> view f X v = view f Y v.
Proof.
  revert v; induction f as [|f IH]; intros v F; [reflexivity|].
  destruct v as [| | | |t [p|]|t [s|]|t [m|]|n fs|]; simpl in *;
    try discriminate; try reflexivity.
  f_equal. apply mapM_ext. intros a Ia. apply IH.
  rewrite forallb_forall in F. auto.
Qed.

Lemma stable_flat lo hi Y fv cv tr :
  flat cv = true -> view fv Y cv = Some tr -> stable lo hi Y fv cv tr.
Proof.
  intros F V X _. now rewrite (view_flat fv X Y).
Qed.

(** *** The tree of a value of the source survives in larger heaps *)

Lemma slice_elems_prefix P X s vs :
  prefix P X -> slice_elems P s = Some vs -> slice_elems X s = Some vs.
Proof.
  intros Pf. unfold slice_elems.
  destruct (nth_error P (sarr s)) as [[| |]|] eqn:N; try discriminate.
  now rewrite (prefix_nth _ _ _ _ Pf N).
Qed.

Lemma mapM_some_ext {A B} (f g : A -> option B) l r :
  (forall a b, In a l -> f a = Some b -> g a = Some b) ->
  mapM f l = Some r -> mapM g l = Some r.
Proof.
  revert r; induction l as [|a l IH]; simpl; intros r E; [auto|].
  destruct (f a) as [b|] eqn:Fa; [|discriminate].
  destruct (mapM f l) as [r'|] eqn:Fl; [|discriminate].
  intros [= <-]. rewrite (E a b) by auto. rewrite (IH r') by auto. reflexivity.
Qed.

Lemma view_prefix f P X v tr :
  prefix P X -> view f P v = Some tr -> view f X v = Some tr.
Proof.
  intros Pf. revert v tr; induction f as [|f IH]; intros v tr; [discriminate|].
  destruct v as [| | | |t [p|]|t [s|]|t [m|]|n fs|]; simpl; auto.
  - destruct (load P p) as [w|] eqn:L; [|discriminate].
    rewrite (prefix_load _ _ _ _ Pf L).
    destruct (view f P w) as [tw|] eqn:V; [|discriminate].
    now rewrite (IH _ _ V).
  - destruct (slice_elems P s) as [vs|] eqn:L; [|discriminate].
    rewrite (slice_elems_prefix _ _ _ _ Pf L).
    destruct (Nat.eqb (List.length vs) (slen s)); [|discriminate].
    destruct (mapM (view f P) vs) as [r|] eqn:V; [|discriminate].
    rewrite (mapM_some_ext _ (view f X) _ _ (fun a b _ => IH a b) V). auto.
  - destruct (nth_error P m) as [[| |kvs]|] eqn:L; try discriminate.
    rewrite (prefix_nth _ _ _ _ Pf L).
    destruct (nodupb (map fst kvs)); [|discriminate].
    destruct (mapM (on_snd (view f P)) kvs) as [r|] eqn:V; [|discriminate].
    assert (E : forall (a : string * val) (b : string * tree),
               In a kvs -> on_snd (view f P) a = Some b ->
               on_snd (view f X) a = Some b).
    { intros [k a] b _. unfold on_snd; simpl.
      destruct (view f P a) as [ta|] eqn:Va; [|discriminate].
      now rewrite (IH _ _ Va). }
    rewrite (mapM_some_ext _ (on_snd (view f X)) _ _ E V). auto.
  - destruct (mapM (view f P) fs) as [r|] eqn:V; [|discriminate].
    rewrite (mapM_some_ext _ (view f X) _ _ (fun a b _ => IH a b) V). auto.
Qed.

(* ================================================================== *)
(** ** Deep copy: running the reflect calls                            *)
(* ================================================================== *)

Tactic Notation "stepby" tactic(t) := erewrite bind_ok; [| solve [t]].

Lemma if_ptr_imm_Elem t p H :
  deep.if_ptr (reflect.Imm false (VPtr t (Some p))) reflect.Elem H
  = Ok (reflect.Var false p) H.
Proof. reflexivity. Qed.

Lemma if_ptr_imm_Indirect t p H :
  deep.if_ptr (reflect.Imm false (VPtr t (Some p))) reflect.Indirect H
  = Ok (reflect.Var false p) H.
Proof. reflexivity. Qed.

Lemma deep_if_ptr_var p v f H :
  load H p = Some v ->
  deep.if_ptr (reflect.Var false p) f H
  = match kind_of_ty (type_of v) with
    | KPtr => f (reflect.Var false p) H
    | _ => Ok (reflect.Var false p) H
    end.
Proof.
  intros L. unfold deep.if_ptr. step (Kind_var _ false _ _ L).
  now destruct (kind_of_ty (type_of v)).
Qed.

Lemma Elem_imm ro t p H :
  reflect.Elem (reflect.Imm ro (VPtr t (Some p))) H = Ok (reflect.Var ro p) H.
Proof. reflexivity. Qed.

Lemma Indirect_imm ro t p H :
  reflect.Indirect (reflect.Imm ro (VPtr t (Some p))) H = Ok (reflect.Var ro p) H.
Proof. reflexivity. Qed.

Lemma Elem_var ro p t q H :
  load H p = Some (VPtr t q) ->
  reflect.Elem (reflect.Var ro p) H
  = Ok (match q with Some q' => reflect.Var ro q' | None => reflect.Invalid end) H.
Proof.
  intros L. unfold reflect.Elem. step (get_var _ ro _ _ L). now destruct q.
Qed.

Lemma IsNil_ptr_var ro p t q H :
  load H p = Some (VPtr t q) ->
  reflect.IsNil (reflect.Var ro p) H
  = Ok (match q with Some _ => false | None => true end) H.
Proof.
  intros L. unfold reflect.IsNil. step (get_var _ ro _ _ L). now destruct q.
Qed.

Lemma Addr_var ro p v H :
  load H p = Some v ->
  reflect.Addr (reflect.Var ro p) H
  = Ok (reflect.Imm ro (VPtr (type_of v) (Some p))) H.
Proof.
  intros L. unfold reflect.Addr. step (read_ok _ _ _ L). reflexivity.
Qed.

Lemma New_ok env t H :
  reflect.New env t H
  = Ok (reflect.Imm false (VPtr t (Some (mkPlace (List.length H) []))))
       (H ++ [OVar (zero env t)]).
Proof. reflexivity. Qed.

Lemma Set_from_var H p old p' new H' :
  load H p = Some old ->
  load H p' = Some new ->
  type_of old = type_of new ->
  store H p new = Some H' ->
  reflect.Set_ (reflect.Var false p) (reflect.Var false p') H = Ok tt H'.
Proof.
  intros L L' T S. unfold reflect.Set_. cbn [reflect.flagRO].
  step (read_ok _ _ _ L). step (get_var _ false _ _ L').
  rewrite T, ty_eqb_refl. unfold write. now rewrite S.
Qed.

Lemma load_fresh_var H v E :
  load (H ++ OVar v :: E) (mkPlace (List.length H) []) = Some v.
Proof.
  unfold load; simpl. now rewrite nth_error_middle.
Qed.

Lemma store_fresh_var H v E w :
  store (H ++ OVar v :: E) (mkPlace (List.length H) []) w = Some (H ++ OVar w :: E).
Proof.
  unfold store; simpl. rewrite nth_error_middle. simpl. apply list_set_middle.
Qed.

Lemma zero_nil_map env t w u :
  w = VMap u None -> type_of w = t -> zero env t = w.
Proof.
  intros -> <-. simpl. now destruct env as [|[]].
Qed.

Lemma store_same_path v path x :
  get_path v path = Some x -> set_path v path x = Some v.
Proof.
  revert v; induction path as [|i rest IH]; intros v; simpl; [now intros [= ->]|].
  destruct v; try discriminate.
  destruct (nth_error fs i) as [fi|] eqn:N; [|discriminate].
  intros G. rewrite (IH _ G). now rewrite (list_set_same _ _ _ N).
Qed.

Lemma store_same H p v : load H p = Some v -> store H p v = Some H.
Proof.
  unfold load, store.
  destruct (nth_error H (ploc p)) as [[x|vs|kvs]|] eqn:N; try discriminate.
  - intros G. rewrite (store_same_path _ _ _ G). now apply list_set_same.
  - destruct (ppath p) as [|i rest]; [discriminate|].
    destruct (nth_error vs i) as [x|] eqn:Ni; [|discriminate].
    intros G. rewrite (store_same_path _ _ _ G), (list_set_same _ _ _ Ni).
    now apply list_set_same.
Qed.

(** The tree of a scalar does not depend on the heap. *)
Lemma scalar_flat v :
  match kind_of_ty (type_of v) with
  | KBool | KInt | KFloat64 | KString => flat v = true
  | _ => True
  end.
Proof. now destruct v. Qed.

Lemma IsNil_map_var ro p t m H :
  load H p = Some (VMap t m) ->
  reflect.IsNil (reflect.Var ro p) H
  = Ok (match m with Some _ => false | None => true end) H.
Proof.
  intros L. unfold reflect.IsNil. step (get_var _ ro _ _ L). now destruct m.
Qed.

Lemma zero_ptr env t : zero env (TPtr t) = VPtr t None.
Proof. now destruct env as [|[]]. Qed.

Lemma zero_slice env t : zero env (TSlice t) = VSlice t None.
Proof. now destruct env as [|[]]. Qed.

Lemma zero_map env t : zero env (TMap t) = VMap t None.
Proof. now destruct env as [|[]]. Qed.

Lemma if_ptr_var_Elem p t q H :
  load H p = Some (VPtr t (Some q)) ->
  deep.if_ptr (reflect.Var false p) reflect.Elem H = Ok (reflect.Var false q) H.
Proof.
  intros L. rewrite (deep_if_ptr_var _ _ _ _ L). cbn [kind_of_ty type_of].
  now rewrite (Elem_var false _ _ _ _ L).
Qed.

(** The head of [rcopy] on a pointer variable: a nil pointer is made to
    point to a fresh zero variable. *)
Lemma rcopy_head_nil env p t H H1 :
  load H p = Some (VPtr t None) ->
  store H p (VPtr t (Some (mkPlace (List.length H) []))) = Some H1 ->
  rcopy_head env (reflect.Var false p) H
  = Ok (reflect.Var false (mkPlace (List.length H) [])) (H1 ++ [OVar (zero env t)]).
Proof.
  intros L S. unfold rcopy_head.
  rewrite (deep_if_ptr_var _ _ _ _ L). cbn [kind_of_ty type_of].
  step (IsNil_ptr_var false _ _ _ _ L). cbv iota. rewrite !bind_assoc.
  step (Type_var _ false _ _ L). cbn [type_of ty_elem].
  rewrite ?bind_assoc, bind_ret, ?bind_assoc.
  step (New_ok env t H).
  step (Set_var _ _ (VPtr t None) (VPtr t (Some (mkPlace (List.length H) []))) _
          (load_app _ [OVar (zero env t)] _ _ L) eq_refl
          (store_app _ [OVar (zero env t)] _ _ _ S)).
  now rewrite (Elem_var false _ _ _ _
                 (load_app _ [OVar (zero env t)] _ _ (load_store_same _ _ _ _ S))).
Qed.

Lemma rcopy_head_set env p t q H :
  load H p = Some (VPtr t (Some q)) ->
  rcopy_head env (reflect.Var false p) H = Ok (reflect.Var false q) H.
Proof.
  intros L. unfold rcopy_head.
  rewrite (deep_if_ptr_var _ _ _ _ L). cbn [kind_of_ty type_of].
  step (IsNil_ptr_var false _ _ _ _ L). cbv iota. rewrite bind_ret.
  now rewrite (Elem_var false _ _ _ _ L).
Qed.

Lemma mapM_length {A B} (f : A -> option B) l r :
  mapM f l = Some r -> List.length r = List.length l.
Proof.
  revert r; induction l as [|a l IH]; simpl; intros r.
  - now intros [= <-].
  - destruct (f a); [|discriminate]. destruct (mapM f l); [|discriminate].
    intros [= <-]. simpl. f_equal. auto.
Qed.

Lemma mapM_nth {A B} (f : A -> option B) l r i a :
  mapM f l = Some r -> nth_error l i = Some a ->
  exists b, nth_error r i = Some b /\ f a = Some b.
Proof.
  revert r i; induction l as [|x l IH]; simpl; intros r i; [now destruct i|].
  destruct (f x) as [y|] eqn:Fx; [|discriminate].
  destruct (mapM f l) as [r'|] eqn:Fl; [|discriminate].
  intros [= <-]. destruct i as [|i]; simpl.
  - intros [= <-]. eauto.
  - intros N. eapply IH; eauto.
Qed.

Lemma mapM_app {A B} (f : A -> option B) l1 l2 r1 r2 :
  mapM f l1 = Some r1 -> mapM f l2 = Some r2 -> mapM f (l1 ++ l2) = Some (r1 ++ r2).
Proof.
  revert r1; induction l1 as [|a l IH]; simpl; intros r1.
  - now intros [= <-].
  - destruct (f a); [|discriminate]. destruct (mapM f l) as [r|]; [|discriminate].
    intros [= <-] E. now rewrite (IH r eq_refl E).
Qed.

Lemma store_arr_elem_inv H l vs i w H' :
  nth_error H l = Some (OArr vs) ->
  store H (mkPlace l [i]) w = Some H' ->
  exists vs', list_set vs i w = Some vs' /\ nth_error H' l = Some (OArr vs').
Proof.
  intros N S. unfold store in S; cbn [ploc ppath] in S. rewrite N in S.
  destruct (nth_error vs i); [|discriminate]. cbn [set_path] in S.
  destruct (list_set vs i w) as [vs'|]; [|discriminate].
  exists vs'. split; [reflexivity|].
  rewrite (nth_error_list_set _ _ _ _ l S). now rewrite Nat.eqb_refl.
Qed.

Lemma firstn_succ_nth {A} (l : list A) i a :
  nth_error l i = Some a -> firstn (S i) l = firstn i l ++ [a].
Proof.
  revert i; induction l as [|x l IH]; intros [|i]; try discriminate.
  - cbn. now intros [= ->].
  - intros N. cbn [nth_error] in N. change (firstn (S (S i)) (x :: l)) with (x :: firstn (S i) l).
    rewrite (IH _ N). reflexivity.
Qed.

(* ================================================================== *)
(** ** Deep copy: the cases of [rcopy]                                 *)
(* ================================================================== *)

Lemma cloned_by_store H py cv tr fv H1 :
  store H py cv = Some H1 ->
  flat cv = true ->
  view fv H cv = Some tr ->
  cloned H H1 py cv tr fv.
Proof.
  intros S F V. split.
  - exists H1. split; [exact S | apply prefix_refl].
  - apply stable_flat; [exact F|]. now rewrite (view_flat fv H1 H).
Qed.

Lemma clones_scalar env h g v :
  match kind_of_ty (type_of v) with
  | KBool | KInt | KFloat64 | KString => True
  | _ => False
  end ->
  clones_at env h g v.
Proof.
  intros K fv tr px py H w0 V Lx Pf Lp Ly T _.
  pose proof (prefix_load _ _ _ _ Pf Lx) as Lx'.
  destruct (store_some H py w0 v Ly) as [H1 S].
  pose proof (scalar_flat v) as F.
  exists v, H1. split; [|split; [|reflexivity]].
  - unfold rcopy_switch. step (Kind_var _ false _ _ Lx').
    destruct v; try contradiction; cbn [kind_of_ty type_of reflect.CanAddr negb orb];
      step (Addr_var false _ _ _ Lx'); step (Addr_var false _ _ _ Ly);
      unfold deep.copyPrimitives;
      (stepby (apply if_ptr_imm_Indirect));
      (stepby (apply if_ptr_imm_Indirect));
      (eapply Set_from_var; [exact Ly | exact Lx' | exact T | exact S]).
  - apply cloned_by_store; [exact S| |].
    + destruct v; try contradiction; reflexivity.
    + rewrite (view_flat fv H h); [exact V|].
      destruct v; try contradiction; reflexivity.
Qed.

Lemma clones_nil_map env h g t : clones_at env h g (VMap t None).
Proof.
  intros fv tr px py H w0 V Lx Pf Lp Ly T N.
  pose proof (prefix_load _ _ _ _ Pf Lx) as Lx'.
  rewrite (N t eq_refl) in Ly.
  exists (VMap t None), H. split; [|split; [|reflexivity]].
  - unfold rcopy_switch. step (Kind_var _ false _ _ Lx'). cbn [kind_of_ty type_of].
    step (Addr_var false _ _ _ Lx'). step (Addr_var false _ _ _ Ly).
    unfold deep.copyMap.
    stepby (apply if_ptr_imm_Indirect).
    stepby (apply if_ptr_imm_Indirect).
    step (IsNil_map_var false _ _ _ _ Lx'). reflexivity.
  - apply cloned_by_store; [now apply store_same | reflexivity |].
    rewrite (view_flat fv H h); [exact V | reflexivity].
Qed.

(** A pointer to a fresh variable that holds a clone. *)
Lemma cloned_pointee H1 z H' cw trw fv t :
  cloned (H1 ++ [OVar z]) H' (mkPlace (List.length H1) []) cw trw fv ->
  prefix H1 H'
  /\ stable (List.length H1) (List.length H') H' (S fv)
       (VPtr t (Some (mkPlace (List.length H1) []))) (NRef t trw).
Proof.
  intros [(H4 & S4 & P4) St].
  rewrite (store_fresh_var H1 z [] cw) in S4. injection S4 as <-.
  assert (P1 : prefix H1 H').
  { eapply prefix_trans; [|exact P4]. now exists [OVar cw]. }
  split; [exact P1|].
  intros X A. cbn [view].
  assert (Lw : load X (mkPlace (List.length H1) []) = Some cw).
  { unfold load; cbn [ploc ppath]. rewrite A.
    - rewrite (prefix_nth _ _ _ _ P4 (nth_error_middle H1 [] (OVar cw))). reflexivity.
    - pose proof (prefix_length _ _ P4) as L. rewrite length_app in L. simpl in L. lia. }
  rewrite Lw. rewrite (St X); [reflexivity|].
  eapply agree_narrow; [exact A | | lia].
  rewrite length_app. simpl. lia.
Qed.

(* ================================================================== *)
(** ** Deep copy: the fields of a struct variable                      *)
(* ================================================================== *)

Lemma get_path_snoc v path i n fs :
  get_path v path = Some (VStruct n fs) ->
  get_path v (path ++ [i]) = nth_error fs i.
Proof.
  revert v; induction path as [|j rest IH]; intros v; cbn [app get_path].
  - intros [= ->]. now destruct (nth_error fs i).
  - destruct v; try discriminate.
    destruct (nth_error fs0 j); [|discriminate]. apply IH.
Qed.

Lemma set_path_snoc v path i n fs w fs' :
  get_path v path = Some (VStruct n fs) ->
  list_set fs i w = Some fs' ->
  set_path v (path ++ [i]) w = set_path v path (VStruct n fs').
Proof.
  revert v; induction path as [|j rest IH]; intros v; cbn [app get_path set_path].
  - intros [= ->] L.
    destruct (nth_error fs i) eqn:N.
    + now rewrite L.
    + apply list_set_lt in L. apply nth_error_None in N. lia.
  - destruct v; try discriminate.
    destruct (nth_error fs0 j); [|discriminate].
    intros G L. now rewrite (IH _ G L).
Qed.

Lemma load_sub H p n fs i :
  load H p = Some (VStruct n fs) -> load H (sub p i) = nth_error fs i.
Proof.
  unfold load, sub. cbn [ploc ppath].
  destruct (nth_error H (ploc p)) as [[v|vs|kvs]|]; try discriminate.
  - apply get_path_snoc.
  - destruct (ppath p) as [|j rest]; [discriminate|]. cbn [app].
    destruct (nth_error vs j); [|discriminate]. apply get_path_snoc.
Qed.

Lemma store_sub H p n fs i w fs' :
  load H p = Some (VStruct n fs) ->
  list_set fs i w = Some fs' ->
  store H (sub p i) w = store H p (VStruct n fs').
Proof.
  unfold load, store, sub. cbn [ploc ppath].
  destruct (nth_error H (ploc p)) as [[v|vs|kvs]|]; try discriminate.
  - intros G L. now rewrite (set_path_snoc _ _ _ _ _ _ _ G L).
  - destruct (ppath p) as [|j rest]; [discriminate|]. cbn [app].
    destruct (nth_error vs j); [|discriminate].
    intros G L. now rewrite (set_path_snoc _ _ _ _ _ _ _ G L).
Qed.

Lemma list_set_twice {A} (l : list A) i x y l' :
  list_set l i x = Some l' -> list_set l' i y = list_set l i y.
Proof.
  revert i l'; induction l as [|a r IH]; intros [|i] l'; simpl; try discriminate.
  - now intros [= <-].
  - destruct (list_set r i x) eqn:E; [|discriminate]. simpl.
    intros [= <-]. simpl. now rewrite (IH _ _ E).
Qed.

Lemma set_path_twice v path x y v' :
  set_path v path x = Some v' -> set_path v' path y = set_path v path y.
Proof.
  revert v v'; induction path as [|i rest IH]; intros v v'; cbn [set_path].
  - reflexivity.
  - destruct v; try discriminate.
    destruct (nth_error fs i) as [fi|] eqn:N; [|discriminate].
    destruct (set_path fi rest x) as [fi'|] eqn:E; [|discriminate].
    destruct (list_set fs i fi') as [fs'|] eqn:L; [|discriminate].
    cbn. intros [= <-]. cbn [set_path].
    rewrite (nth_error_list_set _ _ _ _ i L), Nat.eqb_refl.
    rewrite (IH _ _ E). destruct (set_path fi rest y); [|reflexivity].
    now rewrite (list_set_twice _ _ _ _ _ L).
Qed.

Lemma store_twice H p x y H1 :
  store H p x = Some H1 -> store H1 p y = store H p y.
Proof.
  unfold store.
  destruct (nth_error H (ploc p)) as [[v|vs|kvs]|] eqn:N; try discriminate.
  - destruct (set_path v (ppath p) x) as [v'|] eqn:E; [|discriminate].
    intros L. rewrite (nth_error_list_set _ _ _ _ (ploc p) L), Nat.eqb_refl.
    rewrite (set_path_twice _ _ _ _ _ E).
    destruct (set_path v (ppath p) y); [|reflexivity].
    now rewrite (list_set_twice _ _ _ _ _ L).
  - destruct (ppath p) as [|i rest]; [discriminate|].
    destruct (nth_error vs i) as [e|] eqn:Ni; [|discriminate].
    destruct (set_path e rest x) as [e'|] eqn:E; [|discriminate].
    destruct (list_set vs i e') as [vs'|] eqn:Lv; [|discriminate].
    intros L. rewrite (nth_error_list_set _ _ _ _ (ploc p) L), Nat.eqb_refl.
    rewrite (nth_error_list_set _ _ _ _ i Lv), Nat.eqb_refl.
    rewrite (set_path_twice _ _ _ _ _ E).
    destruct (set_path e rest y); [|reflexivity].
    rewrite (list_set_twice _ _ _ _ _ Lv).
    destruct (list_set vs i v); [|reflexivity].
    now rewrite (list_set_twice _ _ _ _ _ L).
Qed.

Lemma set_path_defined v path w v' :
  set_path v path w = Some v' -> exists x, get_path v path = Some x.
Proof.
  revert v v'; induction path as [|i rest IH]; intros v v'; cbn; [eauto|].
  destruct v; try discriminate.
  destruct (nth_error fs i); [|discriminate].
  destruct (set_path v rest w) eqn:E; [|discriminate]. intros _. eauto.
Qed.

Lemma store_defined H p w H1 :
  store H p w = Some H1 -> exists x, load H p = Some x.
Proof.
  unfold load, store.
  destruct (nth_error H (ploc p)) as [[v|vs|kvs]|]; try discriminate.
  - destruct (set_path v (ppath p) w) eqn:E; [|discriminate].
    intros _. eapply set_path_defined; eauto.
  - destruct (ppath p) as [|j rest]; [discriminate|].
    destruct (nth_error vs j); [|discriminate].
    destruct (set_path v rest w) eqn:E; [|discriminate].
    intros _. eapply set_path_defined; eauto.
Qed.

(** A store into a field, seen from the struct variable. *)
Lemma store_field H p n cur i w H1 :
  load H p = Some (VStruct n cur) ->
  store H (sub p i) w = Some H1 ->
  exists cur',
    list_set cur i w = Some cur'
    /\ store H p (VStruct n cur') = Some H1
    /\ load H1 p = Some (VStruct n cur').
Proof.
  intros L S.
  assert (Li : (i < List.length cur)%nat).
  { destruct (store_defined _ _ _ _ S) as [x Lx].
    rewrite (load_sub _ _ _ _ i L) in Lx. apply nth_error_Some. congruence. }
  destruct (list_set_some cur i w Li) as [cur' Lc].
  exists cur'. split; [exact Lc|].
  rewrite <- (store_sub _ _ _ _ _ _ _ L Lc). split; [exact S|].
  rewrite (store_sub _ _ _ _ _ _ _ L Lc) in S.
  eapply load_store_same; eauto.
Qed.

(** A store that happened below a prefix happened in the prefix. *)
Lemma store_in_prefix P E p w H1 v :
  load P p = Some v ->
  store (P ++ E) p w = Some H1 ->
  exists P', store P p w = Some P' /\ H1 = P' ++ E.
Proof.
  intros L S. destruct (store_some P p v w L) as [P' SP].
  exists P'. split; [exact SP|].
  rewrite (store_app _ E _ _ _ SP) in S. now injection S as <-.
Qed.

Lemma exported_not_lower name :
  reflect.exported name = true -> deep.lowerInitial name = ret false.
Proof.
  destruct name as [|c r]; [discriminate|]. cbn [reflect.exported deep.lowerInitial].
  intros U. unfold Str.upper_char.
  assert (Str.is_lower c = false) as ->.
  { unfold Str.is_upper, Str.is_lower, Str.between in *.
    apply andb_prop in U as [A B]. apply Nat.leb_le in A, B.
    apply andb_false_iff. left. apply Nat.leb_gt. lia. }
  now rewrite Ascii.eqb_refl.
Qed.

Lemma Field_var env H p n fs i fd fv :
  load H p = Some (VStruct n fs) ->
  nth_error (fields_of env n) i = Some fd ->
  nth_error fs i = Some fv ->
  reflect.exported (fname fd) = true ->
  reflect.Field env (reflect.Var false p) i H = Ok (reflect.Var false (sub p i)) H.
Proof.
  intros L Nf Nv E. unfold reflect.Field. step (get_var _ false _ _ L).
  rewrite Nf, Nv. cbn [reflect.flagRO orb]. now rewrite E.
Qed.

Lemma forallb2_length {A B} (p : A -> B -> bool) l m :
  forallb2 p l m = true -> List.length l = List.length m.
Proof.
  revert m; induction l as [|a l IH]; intros [|b m]; simpl; try discriminate; auto.
  intros E. apply andb_prop in E as [_ E]. f_equal. auto.
Qed.

Lemma forallb2_nth {A B} (p : A -> B -> bool) l m i a b :
  forallb2 p l m = true -> nth_error l i = Some a -> nth_error m i = Some b ->
  p a b = true.
Proof.
  revert m i; induction l as [|x l IH]; intros [|y m] [|i]; simpl; try discriminate.
  - intros E [= <-] [= <-]. now apply andb_prop in E as [E _].
  - intros E. apply andb_prop in E as [_ E]. eauto.
Qed.

Lemma skipn_nth {A} (l : list A) i a :
  nth_error l i = Some a -> skipn i l = a :: skipn (S i) l.
Proof.
  revert i; induction l as [|x l IH]; intros [|i]; try discriminate.
  - cbn. now intros [= ->].
  - cbn [nth_error]. intros N. change (skipn (S i) (x :: l)) with (skipn i l).
    rewrite (IH _ N). reflexivity.
Qed.

Lemma view_struct_inv fv h0 n fs tr :
  view fv h0 (VStruct n fs) = Some tr ->
  exists fv' trs,
    fv = S fv' /\ mapM (view fv' h0) fs = Some trs /\ tr = NStruct n trs.
Proof.
  destruct fv as [|fv']; [discriminate|]. cbn [view].
  destruct (mapM (view fv' h0) fs) as [trs|] eqn:V; [|discriminate].
  intros [= <-]. exists fv', trs. auto.
Qed.

(** *** Map tables *)

Lemma nodupb_app_notin l1 k l2 :
  nodupb (l1 ++ k :: l2) = true -> existsb (String.eqb k) l1 = false.
Proof.
  induction l1 as [|a l1 IH]; simpl; [reflexivity|].
  intros N. apply andb_prop in N as [Na N].
  rewrite (IH N), orb_false_r.
  destruct (String.eqb k a) eqn:E; [|reflexivity].
  apply String.eqb_eq in E. subst a.
  apply negb_true_iff in Na. rewrite existsb_app in Na. simpl in Na.
  rewrite String.eqb_refl, orb_true_r in Na. discriminate.
Qed.

Lemma alist_get_notin kvs k :
  existsb (String.eqb k) (map fst kvs) = false -> alist_get kvs k = None.
Proof.
  induction kvs as [|[k' v] r IH]; simpl; [reflexivity|].
  intros E. apply orb_false_elim in E as [E1 E2]. rewrite E1. auto.
Qed.

Lemma alist_get_middle done k e rest :
  existsb (String.eqb k) (map fst done) = false ->
  alist_get (done ++ (k, e) :: rest) k = Some e.
Proof.
  induction done as [|[k' v] r IH]; simpl.
  - now rewrite String.eqb_refl.
  - intros E. apply orb_false_elim in E as [E1 E2]. rewrite E1. auto.
Qed.

Lemma alist_put_notin kvs k v :
  existsb (String.eqb k) (map fst kvs) = false ->
  alist_put kvs k v = kvs ++ [(k, v)].
Proof.
  induction kvs as [|[k' v'] r IH]; simpl; [reflexivity|].
  intros E. apply orb_false_elim in E as [E1 E2]. rewrite E1. now rewrite IH.
Qed.

Lemma MapKeys_var ro p t l kvs H :
  load H p = Some (VMap t (Some l)) ->
  nth_error H l = Some (OMap kvs) ->
  reflect.MapKeys (reflect.Var ro p) H = Ok (map fst kvs) H.
Proof.
  intros L N. unfold reflect.MapKeys. step (get_var _ ro _ _ L).
  step (read_map_ok _ _ _ N). reflexivity.
Qed.

Lemma MakeMap_ok t H :
  reflect.MakeMap (TMap t) H
  = Ok (reflect.Imm false (VMap t (Some (List.length H)))) (H ++ [OMap []]).
Proof. reflexivity. Qed.

Lemma Kind_imm ro v H :
  reflect.Kind (reflect.Imm ro v) H = Ok (kind_of_ty (type_of v)) H.
Proof. reflexivity. Qed.

Lemma view_map_inv fv h0 t l tr :
  view fv h0 (VMap t (Some l)) = Some tr ->
  exists fv' kvs trs,
    fv = S fv' /\ nth_error h0 l = Some (OMap kvs)
    /\ nodupb (map fst kvs) = true
    /\ mapM (on_snd (view fv' h0)) kvs = Some trs /\ tr = NMap t trs.
Proof.
  destruct fv as [|fv']; [discriminate|]. cbn [view].
  destruct (nth_error h0 l) as [[v|vs|kvs]|]; try discriminate.
  destruct (nodupb (map fst kvs)) eqn:N; [|discriminate].
  destruct (mapM (on_snd (view fv' h0)) kvs) as [trs|] eqn:V; [|discriminate].
  intros [= <-]. now exists fv', kvs, trs.
Qed.

(** Changing the table of the map at the end of [P] and allocating more
    objects leaves the objects after the table as they were. *)
Lemma agree_table (P : heap) c c' E F lo hi :
  (List.length P < lo)%nat -> (hi <= S (List.length P) + List.length E)%nat ->
  agree lo hi (P ++ OMap c' :: E ++ F) (P ++ OMap c :: E).
Proof.
  intros L1 L2 l Hl.
  rewrite !nth_error_app2 by lia.
  destruct (l - List.length P)%nat as [|j] eqn:J; [lia|]. simpl.
  apply nth_error_app1. lia.
Qed.

(* ================================================================== *)
(** ** Deep copy: one level of the recursion                           *)
(* ================================================================== *)

Lemma view_ptr_inv fv h t q tr :
  view fv h (VPtr t (Some q)) = Some tr ->
  exists fv' w trw,
    fv = S fv' /\ load h q = Some w /\ view fv' h w = Some trw /\ tr = NRef t trw.
Proof.
  destruct fv as [|fv']; [discriminate|]. cbn [view].
  destruct (load h q) as [w|]; [|discriminate].
  destruct (view fv' h w) as [trw|] eqn:V; [|discriminate].
  intros [= <-]. now exists fv', w, trw.
Qed.

Lemma ok_pointee_inv h ok t q :
  ok_pointee h ok t q = true ->
  exists w, load h q = Some w /\ type_of w = t /\ ok w = true.
Proof.
  unfold ok_pointee. destruct (load h q) as [w|]; [|discriminate].
  intros E. apply andb_prop in E as [A B]. apply ty_eqb_eq in A. eauto.
Qed.

Section Step.

Variable env : tyenv.
Variable h : heap.
Variable f : nat.

(** The recursive calls, made with the bound [f], clone what is clonable
    with that bound. *)
Hypothesis IH :
  forall w, clonable env f h w = true -> exists g, f = S g /\ clones_at env h g w.

(** The recursive call on two handles that point to the source variable
    and to a destination variable. *)
Lemma rcopy_addr w tx tz px py H w0 fv tr :
  clonable env f h w = true ->
  view fv h w = Some tr ->
  load h px = Some w ->
  prefix h H ->
  (List.length h <= ploc py)%nat ->
  load H py = Some w0 ->
  type_of w0 = type_of w ->
  (forall t, w = VMap t None -> w0 = w) ->
  exists cv H',
    deep.rcopy env f (reflect.Imm false (VPtr tx (Some px)))
      (reflect.Imm false (VPtr tz (Some py))) H = Ok tt H'
    /\ cloned H H' py cv tr fv
    /\ type_of cv = type_of w.
Proof.
  intros C V Lx Pf Lp Ly T N.
  destruct (IH w C) as (g & -> & Cg).
  destruct (Cg fv tr px py H w0 V Lx Pf Lp Ly T N) as (cv & H' & R & Cl & Tc).
  exists cv, H'. split; [|auto].
  rewrite rcopy_unfold. stepby (apply if_ptr_imm_Elem).
  erewrite bind_ok; [exact R | reflexivity].
Qed.

(** The switch, run by a recursive call, clones the variable at [q] into
    the fresh variable at the end of the heap. *)
Lemma switch_into_fresh w t q H fv trw :
  clonable env f h w = true ->
  type_of w = t ->
  load h q = Some w ->
  view fv h w = Some trw ->
  prefix h H ->
  exists g H',
    f = S g
    /\ rcopy_switch env g (reflect.Var false q)
         (reflect.Var false (mkPlace (List.length H) []))
         (H ++ [OVar (zero env t)]) = Ok tt H'
    /\ prefix H H'
    /\ (List.length H < List.length H')%nat
    /\ stable (List.length H) (List.length H') H' (S fv)
         (VPtr t (Some (mkPlace (List.length H) []))) (NRef t trw).
Proof.
  intros C T Lq V Pf.
  destruct (IH w C) as (g & -> & Cg).
  destruct (Cg fv trw q (mkPlace (List.length H) []) (H ++ [OVar (zero env t)])
              (zero env t) V Lq) as (cv & H' & R & Cl & _).
  - now apply prefix_app.
  - apply prefix_length in Pf. exact Pf.
  - apply load_fresh_var.
  - rewrite type_of_zero. now symmetry.
  - intros u E. eapply zero_nil_map; eauto.
  - exists g, H'. split; [reflexivity|]. split; [exact R|].
    destruct (cloned_pointee H (zero env t) H' cv trw fv t Cl) as [P St].
    split; [exact P|]. split; [|exact St].
    destruct Cl as [(H4 & S4 & P4) _].
    apply store_length in S4. apply prefix_length in P4.
    rewrite S4, length_app in P4. simpl in P4. lia.
Qed.

(** The recursive call that clones the variable at [q] into the fresh
    variable at the end of the heap. *)
Lemma rcopy_into_fresh w t tx tz q H fv trw :
  clonable env f h w = true ->
  type_of w = t ->
  load h q = Some w ->
  view fv h w = Some trw ->
  prefix h H ->
  exists H',
    deep.rcopy env f (reflect.Imm false (VPtr tx (Some q)))
      (reflect.Imm false (VPtr tz (Some (mkPlace (List.length H) []))))
      (H ++ [OVar (zero env t)]) = Ok tt H'
    /\ prefix H H'
    /\ (List.length H < List.length H')%nat
    /\ stable (List.length H) (List.length H') H' (S fv)
         (VPtr t (Some (mkPlace (List.length H) []))) (NRef t trw).
Proof.
  intros C T Lq V Pf.
  destruct (switch_into_fresh w t q H fv trw C T Lq V Pf)
    as (g & H' & -> & R & Rest).
  exists H'. split; [|exact Rest].
  rewrite rcopy_unfold. stepby (apply if_ptr_imm_Elem).
  erewrite bind_ok; [exact R | reflexivity].
Qed.

(** [case reflect.Ptr] of the switch: a pointer to a pointer. *)
Lemma clones_ptr t q :
  ok_pointee h (clonable env f h) t q = true ->
  clones_at env h f (VPtr t (Some q)).
Proof.
  intros O fv tr px py H w0 V Lx Pf Lp Ly T _.
  destruct (ok_pointee_inv _ _ _ _ O) as (w & Lq & Tw & C).
  destruct (view_ptr_inv _ _ _ _ _ V) as (fv' & w' & trw & -> & Lq' & Vw & ->).
  rewrite Lq in Lq'. injection Lq' as <-.
  pose proof (prefix_load _ _ _ _ Pf Lx) as Lx'.
  pose proof (prefix_load _ _ _ _ Pf Lq) as Lq'.
  set (cv := VPtr t (Some (mkPlace (List.length H) []))).
  destruct (store_some H py w0 cv Ly) as [H1 S].
  pose proof (store_length _ _ _ _ S) as L1.
  assert (Pf1 : prefix h H1) by (eapply prefix_store; eauto).
  destruct (rcopy_into_fresh w t t t q H1 fv' trw C Tw Lq Vw Pf1)
    as (H' & R & P1 & Lt & St).
  rewrite L1 in R, St. fold cv in St.
  exists cv, H'. split; [|split; [|reflexivity]].
  - unfold rcopy_switch. step (Kind_var _ false _ _ Lx'). cbn [kind_of_ty type_of].
    step (Elem_var false _ _ _ _ Lx'). step (Type_var _ false _ _ Lq'). rewrite Tw.
    step (New_ok env t H).
    step (Set_var _ _ w0 cv _ (load_app _ [OVar (zero env t)] _ _ Ly) T
            (store_app _ [OVar (zero env t)] _ _ _ S)).
    step (Elem_var false _ _ _ _
            (load_app _ [OVar (zero env t)] _ _ (load_store_same _ _ _ _ S))).
    cbn [reflect.CanAddr negb orb].
    step (Addr_var false _ _ _ (prefix_load _ _ _ _ (prefix_app _ _ [OVar (zero env t)] Pf1) Lq)).
    rewrite Tw.
    assert (Lz : load (H1 ++ [OVar (zero env t)]) (mkPlace (List.length H) [])
                 = Some (zero env t)).
    { rewrite <- L1. apply load_fresh_var. }
    step (Addr_var false _ _ _ Lz). rewrite type_of_zero.
    exact R.
  - split; [exists H1; split; [exact S | exact P1] | rewrite L1 in Lt; exact St].
Qed.

(** A pointer held by a slice element: the destination element is nil,
    the head of [rcopy] makes it point to a fresh variable and the switch
    clones the pointee into it. *)
Lemma ptr_elem_cloned pe pd t q fv tr Hc :
  load h pe = Some (VPtr t (Some q)) ->
  ok_pointee h (clonable env f h) t q = true ->
  view fv h (VPtr t (Some q)) = Some tr ->
  prefix h Hc ->
  (List.length h <= ploc pd)%nat ->
  load Hc pd = Some (VPtr t None) ->
  exists Hn,
    deep.rcopy env f (reflect.Var false pe) (reflect.Var false pd) Hc = Ok tt Hn
    /\ cloned Hc Hn pd (VPtr t (Some (mkPlace (List.length Hc) []))) tr fv.
Proof.
  intros Le O V Pf Lp Ld.
  destruct (ok_pointee_inv _ _ _ _ O) as (w & Lq & Tw & C).
  destruct (view_ptr_inv _ _ _ _ _ V) as (fv' & w' & trw & -> & Lq' & Vw & ->).
  rewrite Lq in Lq'. injection Lq' as <-.
  set (cv := VPtr t (Some (mkPlace (List.length Hc) []))).
  destruct (store_some Hc pd _ cv Ld) as [H1 S].
  pose proof (store_length _ _ _ _ S) as L1.
  assert (Pf1 : prefix h H1) by (eapply prefix_store; eauto).
  destruct (switch_into_fresh w t q H1 fv' trw C Tw Lq Vw Pf1)
    as (g & Hn & Ef & R & P1 & Lt & St).
  rewrite L1 in R, St, Lt. fold cv in St.
  exists Hn. split.
  - rewrite Ef, rcopy_unfold.
    step (if_ptr_var_Elem _ _ _ _ (prefix_load _ _ _ _ Pf Le)).
    step (rcopy_head_nil env _ _ _ _ Ld S). exact R.
  - split; [exists H1; split; [exact S | exact P1] | exact St].
Qed.

Lemma clonable_not_nil_ptr g t : clonable env g h (VPtr t None) = false.
Proof. now destruct g. Qed.

(** One turn of the loop of [copyArray]. *)
Lemma elem_cloned px py t s la L i e fv tre Hc :
  load h px = Some (VSlice t (Some s)) ->
  (i < slen s)%nat ->
  load h (mkPlace (sarr s) [(soff s + i)%nat]) = Some e ->
  ok_elem h (clonable env f h) t e = true ->
  view fv h e = Some tre ->
  prefix h Hc ->
  load Hc py = Some (VSlice t (Some (mkSlice la 0 L L))) ->
  (i < L)%nat ->
  (List.length h <= la)%nat ->
  load Hc (mkPlace la [i]) = Some (zero env t) ->
  exists cv Hn,
    array_body (deep.rcopy env f) (reflect.Var false px) (reflect.Var false py) i Hc
      = Ok tt Hn
    /\ cloned Hc Hn (mkPlace la [i]) cv tre fv
    /\ type_of cv = t.
Proof.
  intros Lx Hi Le O V Pf Ly HiL Hla Lz.
  apply andb_prop in O as [Te O]. apply ty_eqb_eq in Te.
  pose proof (prefix_load _ _ _ _ Pf Lx) as Lx'.
  pose proof (prefix_load _ _ _ _ Pf Le) as Le'.
  assert (Common :
    clonable env f h e = true ->
    exists cv Hn,
      (ax <- reflect.Addr (reflect.Var false (mkPlace (sarr s) [(soff s + i)%nat])) ;;
       ay <- reflect.Addr (reflect.Var false (mkPlace la [i])) ;;
       deep.rcopy env f ax ay) Hc = Ok tt Hn
      /\ cloned Hc Hn (mkPlace la [i]) cv tre fv
      /\ type_of cv = t).
  { intros C.
    destruct (rcopy_addr e (type_of e) (type_of (zero env t))
                (mkPlace (sarr s) [(soff s + i)%nat]) (mkPlace la [i]) Hc (zero env t)
                fv tre C V Le Pf Hla Lz) as (cv & Hn & R & Cl & Tc).
    - rewrite type_of_zero. now symmetry.
    - intros u E. eapply zero_nil_map; eauto.
    - exists cv, Hn. split; [|split; [exact Cl | congruence]].
      step (Addr_var false _ _ _ Le'). step (Addr_var false _ _ _ Lz). exact R. }
  unfold array_body.
  stepby (apply (Index_ok _ false _ t s i);
            [apply get_var; exact Lx' | reflexivity | exact Hi]).
  stepby (apply (Index_ok _ false _ t (mkSlice la 0 L L) i);
            [apply get_var; exact Ly | reflexivity | exact HiL]).
  cbn [sarr soff Nat.add].
  step (Kind_var _ false _ _ Le').
  destruct e as [b|z|z|str|t' [q|]|t' sl|t' m|n fs|t'];
    cbn [kind_of_ty type_of reflect.CanAddr negb ok_ref] in *;
    try (rewrite bind_ret; apply Common; exact O);
    try discriminate.
  subst t. rewrite zero_ptr in Lz.
  destruct (ptr_elem_cloned _ (mkPlace la [i]) t' q fv tre Hc Le O V Pf Hla Lz)
    as (Hn & R & Cl).
  eexists _, Hn. split; [exact R|]. split; [exact Cl | reflexivity].
Qed.

Lemma nth_error_window {A} (vs : list A) off len i :
  (i < len)%nat ->
  nth_error (firstn len (skipn off vs)) i = nth_error vs (off + i).
Proof.
  intros I. rewrite nth_error_firstn.
  destruct (Nat.ltb_spec i len); [|lia]. apply nth_error_skipn.
Qed.

Lemma agree_after_clone lo Hc Hn p cv tr fv :
  cloned Hc Hn p cv tr fv ->
  (ploc p < lo)%nat ->
  agree lo (List.length Hc) Hn Hc.
Proof.
  intros [(H1 & S & P) _] L l Hl.
  rewrite (prefix_nth_lt _ _ l P) by (rewrite (store_length _ _ _ _ S); lia).
  eapply nth_error_store_other; eauto. lia.
Qed.

Lemma cloned_length Hc Hn p cv tr fv :
  cloned Hc Hn p cv tr fv -> (List.length Hc <= List.length Hn)%nat.
Proof.
  intros [(H1 & S & P) _]. apply prefix_length in P.
  now rewrite (store_length _ _ _ _ S) in P.
Qed.

Lemma cloned_prefix P Hc Hn p cv tr fv :
  cloned Hc Hn p cv tr fv ->
  prefix P Hc -> (List.length P <= ploc p)%nat ->
  prefix P Hn.
Proof.
  intros [(H1 & S & P1) _] Pc L.
  eapply prefix_trans; [|exact P1]. eapply prefix_store; eauto.
Qed.

(** The loop of [copyArray], from the turn [i] on: [cvs] are the clones
    made so far, in the first [i] elements of the new array. *)
Lemma array_loop px py t s vs trs fv la L H1 :
  load h px = Some (VSlice t (Some s)) ->
  nth_error h (sarr s) = Some (OArr vs) ->
  L = slen s ->
  forallb (ok_elem h (clonable env f h) t) (firstn L (skipn (soff s) vs)) = true ->
  mapM (view fv h) (firstn L (skipn (soff s) vs)) = Some trs ->
  List.length (firstn L (skipn (soff s) vs)) = L ->
  prefix h H1 ->
  la = List.length H1 ->
  load H1 py = Some (VSlice t (Some (mkSlice la 0 L L))) ->
  forall k i cvs Hc,
    (i + k = L)%nat ->
    prefix H1 Hc ->
    nth_error Hc la = Some (OArr (cvs ++ repeat (zero env t) k)) ->
    List.length cvs = i ->
    (forall X, agree (S la) (List.length Hc) X Hc ->
               mapM (view fv X) cvs = Some (firstn i trs)) ->
    exists cvs' H',
      for_each (seq i k)
        (array_body (deep.rcopy env f) (reflect.Var false px) (reflect.Var false py)) Hc
        = Ok tt H'
      /\ prefix H1 H'
      /\ nth_error H' la = Some (OArr cvs')
      /\ List.length cvs' = L
      /\ (forall X, agree (S la) (List.length H') X H' ->
                    mapM (view fv X) cvs' = Some trs).
Proof.
  intros Lx Na EL O V Les Pf Ela Ly.
  pose proof (mapM_length _ _ _ V) as Ltrs. rewrite Les in Ltrs.
  induction k as [|k IHk]; intros i cvs Hc Eik Pc Nc Lc Inv.
  - exists cvs, Hc. cbn [seq for_each]. split; [reflexivity|]. split; [exact Pc|].
    cbn [repeat] in Nc. rewrite app_nil_r in Nc. split; [exact Nc|].
    split; [lia|]. intros X A. rewrite (Inv X A).
    rewrite firstn_all2 by lia. reflexivity.
  - assert (Hi : (i < L)%nat) by lia.
    destruct (nth_error (firstn L (skipn (soff s) vs)) i) as [e|] eqn:Ne;
      [|apply nth_error_None in Ne; lia].
    pose proof Ne as Ne'. rewrite nth_error_window in Ne' by exact Hi.
    assert (Oe : ok_elem h (clonable env f h) t e = true).
    { rewrite forallb_forall in O. apply O. eapply nth_error_In; eauto. }
    destruct (mapM_nth _ _ _ _ _ V Ne) as (tre & Ntre & Ve).
    assert (Lla : (la < List.length Hc)%nat).
    { apply nth_error_Some. congruence. }
    assert (Lz : load Hc (mkPlace la [i]) = Some (zero env t)).
    { eapply load_arr_elem; [exact Nc|]. now apply nth_error_at. }
    destruct (elem_cloned px py t s la L i e fv tre Hc Lx ltac:(lia)
                (load_arr_elem _ _ _ _ _ Na Ne') Oe Ve
                (prefix_trans _ _ _ Pf Pc) (prefix_load _ _ _ _ Pc Ly) Hi
                ltac:(apply prefix_length in Pf; lia) Lz)
      as (cv & Hn & R & Cl & Tc).
    pose proof Cl as [(H1' & S' & P') St].
    destruct (store_arr_elem_inv _ _ _ _ _ _ Nc S') as (vs' & Ls & N1').
    cbn [repeat] in Ls. rewrite (list_set_at cvs _ _ cv i Lc) in Ls.
    injection Ls as <-.
    pose proof (cloned_length _ _ _ _ _ _ Cl) as Lcn.
    destruct (IHk (S i) (cvs ++ [cv]) Hn) as (cvs' & H' & R' & Rest).
    + lia.
    + eapply cloned_prefix; eauto. cbn [ploc]. lia.
    + rewrite <- app_assoc. cbn [app]. eapply prefix_nth; eauto.
    + rewrite length_app. cbn [List.length]. lia.
    + intros X A. rewrite (firstn_succ_nth _ _ _ Ntre).
      apply mapM_app.
      * apply Inv. eapply agree_trans.
        -- eapply agree_narrow; [exact A | lia | lia].
        -- eapply agree_after_clone; [exact Cl|]. cbn [ploc]. lia.
      * cbn [mapM]. rewrite (St X); [reflexivity|].
        eapply agree_narrow; [exact A | lia | lia].
    + exists cvs', H'. split; [|exact Rest].
      cbn [seq for_each]. step R. exact R'.
Qed.

Lemma view_slice_inv fv h0 t s tr :
  view fv h0 (VSlice t (Some s)) = Some tr ->
  exists fv' vs trs,
    fv = S fv' /\ nth_error h0 (sarr s) = Some (OArr vs)
    /\ mapM (view fv' h0) (firstn (slen s) (skipn (soff s) vs)) = Some trs
    /\ tr = NSlice t trs.
Proof.
  destruct fv as [|fv']; [discriminate|]. cbn [view]. unfold slice_elems.
  destruct (nth_error h0 (sarr s)) as [[|vs|]|]; try discriminate.
  destruct (Nat.eqb _ _); [|discriminate].
  destruct (mapM (view fv' h0) _) as [trs|] eqn:V; [|discriminate].
  intros [= <-]. now exists fv', vs, trs.
Qed.

(** [case reflect.Slice] of the switch. *)
Lemma clones_slice t s :
  ok_step env h (clonable env f h) (VSlice t (Some s)) = true ->
  clones_at env h f (VSlice t (Some s)).
Proof.
  intros O fv tr px py H w0 V Lx Pf Lp Ly T _.
  destruct (view_slice_inv _ _ _ _ _ V) as (fv' & vs & trs & -> & Na & Vs & ->).
  cbn [ok_step] in O. rewrite Na in O. apply andb_prop in O as [Ob Oe].
  apply Nat.leb_le in Ob.
  set (L := slen s) in *.
  assert (Les : List.length (firstn L (skipn (soff s) vs)) = L).
  { rewrite length_firstn, length_skipn. lia. }
  pose proof (prefix_load _ _ _ _ Pf Lx) as Lx'.
  set (la := List.length H).
  set (sl := VSlice t (Some (mkSlice la 0 L L))).
  destruct (store_some H py w0 sl Ly) as [H1 Sy].
  pose proof (store_length _ _ _ _ Sy) as L1.
  assert (Pf1 : prefix h H1) by (eapply prefix_store; eauto).
  destruct (array_loop px py t s vs trs fv' la L H1
              Lx Na eq_refl Oe Vs Les Pf1 (eq_sym L1)
              (load_store_same _ _ _ _ Sy)) with (k := L) (i := 0%nat) (cvs := @nil val)
              (Hc := H1 ++ [OArr (repeat (zero env t) L)])
    as (cvs' & H' & R & P' & N' & Lc' & Inv').
  - reflexivity.
  - now apply prefix_app, prefix_refl.
  - cbn [app]. unfold la. rewrite <- L1. apply nth_error_last.
  - reflexivity.
  - intros X _. reflexivity.
  - assert (Lla : (la < List.length H')%nat).
    { apply nth_error_Some. congruence. }
    exists sl, H'. split; [|split; [|reflexivity]].
    + unfold rcopy_switch. step (Kind_var _ false _ _ Lx'). cbn [kind_of_ty type_of].
      step (Addr_var false _ _ _ Lx'). step (Addr_var false _ _ _ Ly).
      rewrite copyArray_unfold.
      stepby (apply if_ptr_imm_Elem). stepby (apply if_ptr_imm_Elem).
      step (Len_slice _ false _ _ _ Lx'). cbn [reflect.hdr_len]. fold L.
      step (Kind_var _ false _ _ Lx'). cbn [kind_of_ty type_of].
      rewrite ?bind_assoc.
      step (Type_var _ false _ _ Lx'). cbn [type_of]. rewrite ?bind_assoc.
      stepby (apply MakeSlice_ok; lia). rewrite !Nat2Z.id.
      step (Set_var _ _ w0 sl _ (load_app _ [OArr (repeat (zero env t) L)] _ _ Ly) T
              (store_app _ [OArr (repeat (zero env t) L)] _ _ _ Sy)).
      exact R.
    + split; [exists H1; split; [exact Sy | exact P']|].
      subst sl la.
      intros X A. cbn [view]. unfold slice_elems. cbn [sarr soff slen].
      rewrite (A (List.length H)) by lia. rewrite N'. cbn [skipn].
      rewrite firstn_all2 by lia. rewrite Lc', Nat.eqb_refl.
      rewrite (Inv' X); [reflexivity|].
      eapply agree_narrow; [exact A | lia | lia].
Qed.

(** One turn of the loop of [copyStruct]: the field [i] of the
    destination still holds what the assignment [y.Set(x)] put there. *)
Lemma field_cloned px py n fs i fd fv fvw tre Hc cur :
  load h px = Some (VStruct n fs) ->
  nth_error (fields_of env n) i = Some fd ->
  nth_error fs i = Some fv ->
  ok_field h (clonable env f h) fd fv = true ->
  view fvw h fv = Some tre ->
  prefix h Hc ->
  (List.length h <= ploc py)%nat ->
  load Hc py = Some (VStruct n cur) ->
  nth_error cur i = Some fv ->
  exists cv Hn,
    struct_body env (deep.rcopy env f) (reflect.Var false px) (reflect.Var false py) i Hc
      = Ok tt Hn
    /\ cloned Hc Hn (sub py i) cv tre fvw
    /\ type_of cv = type_of fv.
Proof.
  intros Lx Nf Nv O V Pf Lp Ly Nc.
  unfold ok_field in O.
  apply andb_prop in O as [O Or]. apply andb_prop in O as [O Ot].
  apply andb_prop in O as [Oe Oa]. apply negb_true_iff in Oa.
  pose proof (prefix_load _ _ _ _ Pf Lx) as Lx'.
  assert (Lfx : load h (sub px i) = Some fv) by (rewrite (load_sub _ _ _ _ i Lx); exact Nv).
  pose proof (prefix_load _ _ _ _ Pf Lfx) as Lfx'.
  assert (Lfy : load Hc (sub py i) = Some fv) by (rewrite (load_sub _ _ _ _ i Ly); exact Nc).
  unfold struct_body.
  step (Type_var _ false _ _ Lx'). cbn [type_of].
  unfold reflect.TypeField at 1. rewrite Nf, bind_ret, Oa.
  rewrite (exported_not_lower _ Oe), bind_ret.
  step (Field_var env _ _ _ _ _ _ _ Lx' Nf Nv Oe).
  step (Field_var env _ _ _ _ _ _ _ Ly Nf Nc Oe).
  step (Kind_var _ false _ _ Lfx').
  assert (Common :
    clonable env f h fv = true ->
    exists cv Hn,
      (ax <- reflect.Addr (reflect.Var false (sub px i)) ;;
       ay <- reflect.Addr (reflect.Var false (sub py i)) ;;
       deep.rcopy env f ax ay) Hc = Ok tt Hn
      /\ cloned Hc Hn (sub py i) cv tre fvw
      /\ type_of cv = type_of fv).
  { intros C.
    destruct (rcopy_addr fv (type_of fv) (type_of fv) (sub px i) (sub py i) Hc fv
                fvw tre C V Lfx Pf Lp Lfy eq_refl (fun _ _ => eq_refl))
      as (cv & Hn & R & Cl & Tc).
    exists cv, Hn. split; [|split; [exact Cl | exact Tc]].
    step (Addr_var false _ _ _ Lfx'). step (Addr_var false _ _ _ Lfy). exact R. }
  destruct fv as [b|z|z|str|t' [q|]|t' sl|t' m|n' fs'|t'];
    cbn [kind_of_ty type_of reflect.CanAddr negb ok_ref] in *;
    try (apply Common; exact Or).
  - (* a non-nil pointer *)
    destruct (ok_pointee_inv _ _ _ _ Or) as (w & Lq & Tw & C).
    destruct (view_ptr_inv _ _ _ _ _ V) as (fv' & w' & trw & -> & Lq' & Vw & ->).
    rewrite Lq in Lq'. injection Lq' as <-.
    set (cv := VPtr t' (Some (mkPlace (List.length Hc) []))).
    destruct (store_some Hc (sub py i) _ cv Lfy) as [H1 Sy].
    pose proof (store_length _ _ _ _ Sy) as L1.
    assert (Pf1 : prefix h H1).
    { exact (prefix_store h Hc (sub py i) cv H1 Pf Lp Sy). }
    destruct (switch_into_fresh w t' q H1 fv' trw C Tw Lq Vw Pf1)
      as (g & Hn & Ef & R & P1 & Lt & St).
    rewrite L1 in R, St, Lt. fold cv in St.
    exists cv, Hn. split; [|split; [|reflexivity]].
    + step (Elem_var false _ _ _ _ Lfx'). cbn [reflect.IsValid negb].
      step (Type_var _ false _ _ (prefix_load _ _ _ _ Pf Lq)). rewrite Tw.
      step (New_ok env t' Hc).
      step (Set_var _ _ _ cv _ (load_app _ [OVar (zero env t')] _ _ Lfy) eq_refl
              (store_app _ [OVar (zero env t')] _ _ _ Sy)).
      rewrite Ef, rcopy_unfold.
      step (if_ptr_var_Elem _ _ _ _
              (prefix_load _ _ _ _ (prefix_app _ _ [OVar (zero env t')] Pf1) Lfx)).
      step (rcopy_head_set env _ _ _ _
              (load_app _ [OVar (zero env t')] _ _ (load_store_same _ _ _ _ Sy))).
      exact R.
    + split; [exists H1; split; [exact Sy | exact P1] | exact St].
  - (* a nil pointer stays nil *)
    exists (VPtr t' None), Hc. split; [|split; [|reflexivity]].
    + step (Elem_var false _ _ _ _ Lfx'). reflexivity.
    + apply cloned_by_store; [now apply store_same | reflexivity |].
      rewrite (view_flat fvw Hc h); [exact V | reflexivity].
Qed.

(** The loop of [copyStruct], from the field [i] on: [cvs] are the clones
    of the first [i] fields. *)
Lemma struct_loop px py n fs trs fvw H :
  load h px = Some (VStruct n fs) ->
  forallb2 (ok_field h (clonable env f h)) (fields_of env n) fs = true ->
  mapM (view fvw h) fs = Some trs ->
  prefix h H ->
  (List.length h <= ploc py)%nat ->
  (ploc py < List.length H)%nat ->
  forall k i cvs Hc P,
    (i + k = List.length fs)%nat ->
    store H py (VStruct n (cvs ++ skipn i fs)) = Some P ->
    prefix P Hc ->
    List.length cvs = i ->
    (forall X, agree (List.length H) (List.length Hc) X Hc ->
               mapM (view fvw X) cvs = Some (firstn i trs)) ->
    exists cvs' H' P',
      for_each (seq i k)
        (struct_body env (deep.rcopy env f) (reflect.Var false px) (reflect.Var false py))
        Hc = Ok tt H'
      /\ store H py (VStruct n cvs') = Some P'
      /\ prefix P' H'
      /\ (forall X, agree (List.length H) (List.length H') X H' ->
                    mapM (view fvw X) cvs' = Some trs).
Proof.
  intros Lx O V Pf Lp Lpy.
  pose proof (mapM_length _ _ _ V) as Ltrs.
  pose proof (forallb2_length _ _ _ O) as Lfs.
  induction k as [|k IHk]; intros i cvs Hc P Eik SP Pc Lc Inv.
  - exists cvs, Hc, P. cbn [seq for_each]. split; [reflexivity|].
    rewrite skipn_all2, app_nil_r in SP by lia. split; [exact SP|].
    split; [exact Pc|]. intros X A. rewrite (Inv X A).
    rewrite firstn_all2 by lia. reflexivity.
  - assert (Hi : (i < List.length fs)%nat) by lia.
    destruct (nth_error fs i) as [fv|] eqn:Nv; [|apply nth_error_None in Nv; lia].
    destruct (nth_error (fields_of env n) i) as [fd|] eqn:Nf;
      [|apply nth_error_None in Nf; lia].
    pose proof (forallb2_nth _ _ _ _ _ _ O Nf Nv) as Of.
    destruct (mapM_nth _ _ _ _ _ V Nv) as (tre & Ntre & Ve).
    pose proof (load_store_same _ _ _ _ SP) as LP.
    pose proof (prefix_load _ _ _ _ Pc LP) as Ly.
    pose proof (store_length _ _ _ _ SP) as LenP.
    assert (Pfc : prefix h Hc).
    { eapply prefix_trans; [|exact Pc]. eapply prefix_store; eauto. }
    rewrite (skipn_nth _ _ _ Nv) in Ly, LP.
    destruct (field_cloned px py n fs i fd fv fvw tre Hc _ Lx Nf Nv Of Ve Pfc Lp Ly
                (nth_error_at cvs _ fv i Lc))
      as (cv & Hn & R & Cl & Tc).
    pose proof Cl as [(H1' & S' & Pn) St].
    destruct (store_field _ _ _ _ _ _ _ Ly S') as (cur' & Ls & Sy' & _).
    rewrite (list_set_at cvs _ _ cv i Lc) in Ls. injection Ls as <-.
    destruct Pc as [E ->].
    destruct (store_in_prefix P E py _ _ _ LP Sy') as (P'' & SP'' & ->).
    rewrite (store_twice _ _ _ _ _ SP) in SP''.
    pose proof (cloned_length _ _ _ _ _ _ Cl) as Lcn.
    pose proof (prefix_length _ _ Pn) as LPn.
    rewrite !length_app in Lcn, LPn.
    destruct (IHk (S i) (cvs ++ [cv]) Hn P'') as (cvs' & H' & P' & R' & Rest).
    + lia.
    + rewrite <- app_assoc. exact SP''.
    + eapply prefix_trans; [|exact Pn]. now exists E.
    + rewrite length_app. cbn [List.length]. lia.
    + intros X A. rewrite (firstn_succ_nth _ _ _ Ntre).
      apply mapM_app.
      * apply Inv. rewrite length_app. eapply agree_trans.
        -- eapply agree_narrow; [exact A | lia | lia].
        -- pose proof (agree_after_clone (List.length H) _ _ _ _ _ _ Cl) as AC.
           rewrite length_app in AC. apply AC. cbn [sub ploc]. exact Lpy.
      * cbn [mapM]. rewrite (St X); [reflexivity|].
        rewrite length_app. eapply agree_narrow; [exact A | lia | lia].
    + exists cvs', H', P'. split; [|exact Rest].
      cbn [seq for_each]. step R. exact R'.
Qed.

(** [case reflect.Struct] of the switch. *)
Lemma clones_struct n fs :
  ok_step env h (clonable env f h) (VStruct n fs) = true ->
  clones_at env h f (VStruct n fs).
Proof.
  intros O fv tr px py H w0 V Lx Pf Lp Ly T _.
  destruct (view_struct_inv _ _ _ _ _ V) as (fv' & trs & -> & Vs & ->).
  cbn [ok_step] in O.
  pose proof (forallb2_length _ _ _ O) as Lfs.
  pose proof (prefix_load _ _ _ _ Pf Lx) as Lx'.
  destruct (store_some H py w0 (VStruct n fs) Ly) as [H1 Sy].
  destruct (struct_loop px py n fs trs fv' H Lx O Vs Pf Lp (load_lt _ _ _ Ly))
    with (k := List.length fs) (i := 0%nat) (cvs := @nil val) (Hc := H1) (P := H1)
    as (cvs' & H' & P' & R & SP' & PP' & Inv').
  - reflexivity.
  - exact Sy.
  - apply prefix_refl.
  - reflexivity.
  - intros X _. reflexivity.
  - exists (VStruct n cvs'), H'. split; [|split; [|reflexivity]].
    + unfold rcopy_switch. step (Kind_var _ false _ _ Lx'). cbn [kind_of_ty type_of].
      step (Addr_var false _ _ _ Lx'). step (Addr_var false _ _ _ Ly).
      rewrite copyStruct_unfold.
      stepby (apply if_ptr_imm_Indirect). stepby (apply if_ptr_imm_Indirect).
      step (Kind_var _ false _ _ Lx'). cbn [kind_of_ty type_of].
      step (Type_var _ false _ _ Lx'). cbn [type_of reflect.NumField].
      rewrite bind_ret. cbn [reflect.IsValid].
      step (Set_from_var _ _ _ _ _ _ Ly Lx' T Sy).
      rewrite Lfs. exact R.
    + split; [exists P'; split; [exact SP' | exact PP']|].
      intros X A. cbn [view]. rewrite (Inv' X A). reflexivity.
Qed.

(** One turn of the loop of [copyMap], for a key that the destination
    table [cur] does not hold yet. *)
Lemma entry_cloned px py t l kvs k e fv tre P cur E :
  load h px = Some (VMap t (Some l)) ->
  nth_error h l = Some (OMap kvs) ->
  alist_get kvs k = Some e ->
  ok_entry h (clonable env f h) t (k, e) = true ->
  view fv h e = Some tre ->
  prefix h P ->
  load P py = Some (VMap t (Some (List.length P))) ->
  existsb (String.eqb k) (map fst cur) = false ->
  exists cv F,
    map_body env (deep.rcopy env f) (reflect.Var false px) (reflect.Var false py) k
      (P ++ OMap cur :: E) = Ok tt (P ++ OMap (cur ++ [(k, cv)]) :: E ++ F)
    /\ stable (S (List.length P)) (S (List.length P) + List.length (E ++ F))
         (P ++ OMap (cur ++ [(k, cv)]) :: E ++ F) fv cv tre.
Proof.
  intros Lx Nl G O V Pf Ly Nk.
  unfold ok_entry in O; cbn [snd] in O.
  apply andb_prop in O as [Te O]. apply ty_eqb_eq in Te.
  assert (Pc : prefix h (P ++ OMap cur :: E)) by (apply prefix_app; exact Pf).
  pose proof (prefix_load _ _ _ _ Pc Lx) as Lx'.
  pose proof (prefix_nth _ _ _ _ Pc Nl) as Nl'.
  pose proof (load_app _ (OMap cur :: E) _ _ Ly) as Ly'.
  pose proof (nth_error_middle P E (OMap cur)) as Nm.
  unfold map_body.
  step (MapIndex_var _ false _ _ _ _ k Lx' Nl'). rewrite G.
  step (MapIndex_var _ false _ _ _ _ k Ly' Nm).
  step (Kind_imm false e (P ++ OMap cur :: E)).
  assert (Flat :
    flat e = true ->
    exists cv F,
      reflect.SetMapIndex (reflect.Var false py) k (reflect.Imm false e)
        (P ++ OMap cur :: E) = Ok tt (P ++ OMap (cur ++ [(k, cv)]) :: E ++ F)
      /\ stable (S (List.length P)) (S (List.length P) + List.length (E ++ F))
           (P ++ OMap (cur ++ [(k, cv)]) :: E ++ F) fv cv tre).
  { intros Fl. exists e, []. rewrite app_nil_r. split.
    - apply (SetMapIndex_var _ _ _ _ _ _ _ _ Ly' Nm Te).
      rewrite (alist_put_notin _ _ _ Nk). apply list_set_middle.
    - apply stable_flat; [exact Fl|]. now rewrite (view_flat fv _ h). }
  destruct e as [b|z|z|str|t' [q|]|t' sl|t' m|n fs|t'];
    cbn [kind_of_ty type_of reflect.CanAddr negb ok_ref] in *;
    try (apply Flat; exact O); try discriminate.
  destruct (ok_pointee_inv _ _ _ _ O) as (w & Lq & Tw & C).
  destruct (view_ptr_inv _ _ _ _ _ V) as (fv' & w' & trw & -> & Lq' & Vw & ->).
  rewrite Lq in Lq'. injection Lq' as <-.
  set (n := List.length (P ++ OMap cur :: E)).
  set (cv := VPtr t' (Some (mkPlace n []))).
  set (Hm := P ++ OMap (cur ++ [(k, cv)]) :: E).
  assert (Ln : List.length Hm = n).
  { unfold Hm, n. rewrite !length_app. reflexivity. }
  assert (Pm : prefix h Hm) by (apply prefix_app; exact Pf).
  destruct (rcopy_into_fresh w t' t' t' q Hm fv' trw C Tw Lq Vw Pm)
    as (H' & R & [F ->] & Lt & St).
  rewrite Ln in R, St.
  exists cv, F. split.
  - step (Elem_imm false t' q (P ++ OMap cur :: E)). cbn [reflect.IsValid negb].
    step (Type_var _ false _ _ (prefix_load _ _ _ _ Pc Lq)). rewrite Tw.
    step (New_ok env t' (P ++ OMap cur :: E)). fold n. fold cv.
    assert (Sm : reflect.SetMapIndex (reflect.Var false py) k (reflect.Imm false cv)
                   ((P ++ OMap cur :: E) ++ [OVar (zero env t')])
                 = Ok tt (Hm ++ [OVar (zero env t')])).
    { apply (SetMapIndex_var _ _ t (List.length P) cur).
      - apply load_app. exact Ly'.
      - apply nth_error_old. exact Nm.
      - exact Te.
      - rewrite (alist_put_notin _ _ _ Nk). unfold Hm.
        rewrite <- !app_assoc, <- !app_comm_cons. apply list_set_middle. }
    step Sm.
    assert (Mi : reflect.MapIndex (reflect.Var false py) k (Hm ++ [OVar (zero env t')])
                 = Ok (reflect.Imm false cv) (Hm ++ [OVar (zero env t')])).
    { rewrite (MapIndex_var _ false py t (List.length P) (cur ++ [(k, cv)])).
      - now rewrite (alist_get_middle _ _ _ [] Nk).
      - apply load_app. unfold Hm. apply load_app. exact Ly.
      - apply nth_error_old. unfold Hm. apply nth_error_middle. }
    step Mi. unfold cv at 1. rewrite R. unfold Hm. now rewrite <- app_assoc, <- app_comm_cons.
  - intros X A. apply St. unfold Hm. rewrite <- app_assoc, <- app_comm_cons.
    eapply agree_narrow; [exact A | |].
    + unfold n. rewrite length_app. simpl. lia.
    + rewrite !length_app. simpl. rewrite !length_app. lia.
Qed.

(** The loop of [copyMap]: [done] are the entries already copied, [cur]
    their clones. *)
Lemma map_loop px py t l kvs trs fv P :
  load h px = Some (VMap t (Some l)) ->
  nth_error h l = Some (OMap kvs) ->
  nodupb (map fst kvs) = true ->
  forallb (ok_entry h (clonable env f h) t) kvs = true ->
  mapM (on_snd (view fv h)) kvs = Some trs ->
  prefix h P ->
  load P py = Some (VMap t (Some (List.length P))) ->
  forall rest done cur E,
    kvs = done ++ rest ->
    map fst cur = map fst done ->
    (forall X,
       agree (S (List.length P)) (S (List.length P) + List.length E) X
         (P ++ OMap cur :: E) ->
       mapM (on_snd (view fv X)) cur = Some (firstn (List.length done) trs)) ->
    exists cur' E',
      for_each (map fst rest)
        (map_body env (deep.rcopy env f) (reflect.Var false px) (reflect.Var false py))
        (P ++ OMap cur :: E) = Ok tt (P ++ OMap cur' :: E')
      /\ map fst cur' = map fst kvs
      /\ (forall X,
            agree (S (List.length P)) (S (List.length P) + List.length E') X
              (P ++ OMap cur' :: E') ->
            mapM (on_snd (view fv X)) cur' = Some trs).
Proof.
  intros Lx Nl Nd O V Pf Ly.
  induction rest as [|[k e] rest IHr]; intros done cur E Ek Ec Inv.
  - rewrite app_nil_r in Ek. subst done.
    exists cur, E. split; [reflexivity|]. split; [exact Ec|].
    intros X A. rewrite (Inv X A).
    rewrite <- (mapM_length _ _ _ V). now rewrite firstn_all.
  - cbn [map fst for_each].
    assert (Nk : existsb (String.eqb k) (map fst done) = false).
    { subst kvs. rewrite map_app in Nd. cbn [map fst] in Nd.
      eapply nodupb_app_notin; eauto. }
    assert (G : alist_get kvs k = Some e) by (subst kvs; now apply alist_get_middle).
    assert (Ne : nth_error kvs (List.length done) = Some (k, e))
      by (subst kvs; apply nth_error_middle).
    destruct (mapM_nth _ _ _ _ _ V Ne) as ([k' tre] & Ntre & Ve).
    unfold on_snd in Ve; cbn [fst snd] in Ve.
    destruct (view fv h e) as [tre'|] eqn:Vw; [|discriminate].
    injection Ve as <- <-.
    assert (Oe : ok_entry h (clonable env f h) t (k, e) = true).
    { rewrite forallb_forall in O. apply O. subst kvs. apply in_elt. }
    destruct (entry_cloned px py t l kvs k e fv tre' P cur E Lx Nl G Oe Vw Pf Ly)
      as (cv & F & R & St).
    { rewrite Ec. exact Nk. }
    destruct (IHr (done ++ [(k, e)]) (cur ++ [(k, cv)]) (E ++ F))
      as (cur' & E' & R' & Ek' & Inv').
    + rewrite <- app_assoc. exact Ek.
    + rewrite !map_app, Ec. reflexivity.
    + intros X A. rewrite length_app. cbn [List.length]. rewrite Nat.add_1_r.
      rewrite (firstn_succ_nth _ _ _ Ntre). apply mapM_app.
      * apply Inv. eapply agree_trans.
        -- eapply agree_narrow; [exact A | lia | rewrite length_app; lia].
        -- apply agree_table; lia.
      * cbn [mapM]. unfold on_snd; cbn [fst snd]. rewrite (St X A). reflexivity.
    + exists cur', E'. split; [|split; [exact Ek' | exact Inv']]. step R. exact R'.
Qed.

(** [case reflect.Map] of the switch, for a map that is not nil. *)
Lemma clones_map t l :
  ok_step env h (clonable env f h) (VMap t (Some l)) = true ->
  clones_at env h f (VMap t (Some l)).
Proof.
  intros O fv tr px py H w0 V Lx Pf Lp Ly T _.
  destruct (view_map_inv _ _ _ _ _ V) as (fv' & kvs & trs & -> & Nl & _ & Vs & ->).
  cbn [ok_step] in O. rewrite Nl in O. apply andb_prop in O as [Nd O].
  pose proof (prefix_load _ _ _ _ Pf Lx) as Lx'.
  pose proof (prefix_nth _ _ _ _ Pf Nl) as Nl'.
  set (cv := VMap t (Some (List.length H))).
  destruct (store_some H py w0 cv Ly) as [P Sy].
  pose proof (store_length _ _ _ _ Sy) as LP.
  assert (PfP : prefix h P) by (eapply prefix_store; eauto).
  pose proof (load_store_same _ _ _ _ Sy) as LyP.
  destruct (map_loop px py t l kvs trs fv' P Lx Nl Nd O Vs PfP)
    with (rest := kvs) (done := @nil (string * val)) (cur := @nil (string * val))
         (E := @nil obj)
    as (cur' & E' & R & Ek & Inv).
  - rewrite LP. exact LyP.
  - reflexivity.
  - reflexivity.
  - intros X _. reflexivity.
  - exists cv, (P ++ OMap cur' :: E'). split; [|split; [|reflexivity]].
    + unfold rcopy_switch. step (Kind_var _ false _ _ Lx'). cbn [kind_of_ty type_of].
      step (Addr_var false _ _ _ Lx'). step (Addr_var false _ _ _ Ly).
      rewrite copyMap_unfold.
      stepby (apply if_ptr_imm_Indirect). stepby (apply if_ptr_imm_Indirect).
      step (IsNil_map_var false _ _ _ _ Lx'). cbv iota.
      step (MapKeys_var false _ _ _ _ _ Lx' Nl').
      step (Type_var _ false _ _ Lx'). cbn [type_of].
      step (MakeMap_ok t H).
      step (Set_var _ _ w0 cv _ (load_app _ [OMap []] _ _ Ly) T
              (store_app _ [OMap []] _ _ _ Sy)).
      exact R.
    + split.
      * exists P. split; [exact Sy|]. now exists (OMap cur' :: E').
      * intros X A. unfold cv. cbn [view].
        rewrite (A (List.length H)) by (rewrite length_app; simpl; lia).
        rewrite <- LP, nth_error_middle. rewrite Ek, Nd.
        rewrite (Inv X); [reflexivity|].
        eapply agree_narrow; [exact A | lia | rewrite length_app; simpl; lia].
Qed.

(** The switch of [rcopy] with the bound [f], on a value that is
    clonable with the bound [S f]. *)
Lemma clones_step v :
  ok_step env h (clonable env f h) v = true -> clones_at env h f v.
Proof.
  intros O.
  destruct v as [b|z|z|s|t [q|]|t [s|]|t [m|]|n fs|t]; try discriminate O.
  - now apply clones_scalar.
  - now apply clones_scalar.
  - now apply clones_scalar.
  - now apply clones_scalar.
  - now apply clones_ptr.
  - now apply clones_slice.
  - now apply clones_map.
  - apply clones_nil_map.
  - now apply clones_struct.
Qed.


End Step.

(* ================================================================== *)
(** ** Equal trees are deeply equal                                    *)
(* ================================================================== *)

Lemma view_type f h v tr : view f h v = Some tr -> tree_type tr = type_of v.
Proof.
  destruct f as [|f]; [discriminate|].
  destruct v as [| | | |t [p|]|t [s|]|t [m|]|n fs|]; cbn [view];
    try (intros [= <-]; reflexivity).
  - destruct (load h p) as [w|]; [|discriminate].
    destruct (view f h w); [|discriminate]. now intros [= <-].
  - destruct (slice_elems h s) as [vs|]; [|discriminate].
    destruct (Nat.eqb _ _); [|discriminate].
    destruct (mapM (view f h) vs); [|discriminate]. now intros [= <-].
  - destruct (nth_error h m) as [[| |kvs]|]; try discriminate.
    destruct (nodupb _); [|discriminate].
    destruct (mapM _ kvs); [|discriminate]. now intros [= <-].
  - destruct (mapM (view f h) fs); [|discriminate]. now intros [= <-].
Qed.

Lemma mapM_nth_inv {A B} (f : A -> option B) l r i b :
  mapM f l = Some r -> nth_error r i = Some b ->
  exists a, nth_error l i = Some a /\ f a = Some b.
Proof.
  revert r i; induction l as [|x l IH]; simpl; intros r i.
  - intros [= <-]. now destruct i.
  - destruct (f x) as [y|] eqn:Fx; [|discriminate].
    destruct (mapM f l) as [r'|] eqn:Fl; [|discriminate].
    intros [= <-]. destruct i as [|i]; simpl.
    + intros [= <-]. eauto.
    + intros N. eapply IH; eauto.
Qed.

Section Views.

Variable eq : heap -> val -> val -> option bool.
Variable vw : val -> option tree.
Variable h : heap.

Hypothesis eq_vw :
  forall a b tr, vw a = Some tr -> vw b = Some tr -> eq h a b = Some true.

Lemma all2_views l1 l2 trs :
  mapM vw l1 = Some trs -> mapM vw l2 = Some trs -> all2 eq h l1 l2 = Some true.
Proof.
  revert l2 trs; induction l1 as [|a l1 IH]; intros [|b l2] trs; simpl.
  - reflexivity.
  - intros [= <-]. destruct (vw b); [|discriminate].
    destruct (mapM vw l2); discriminate.
  - destruct (vw a); [|discriminate]. destruct (mapM vw l1); [|discriminate].
    intros [= <-]. discriminate.
  - destruct (vw a) as [ta|] eqn:Va; [|discriminate].
    destruct (mapM vw l1) as [r1|] eqn:M1; [|discriminate].
    intros [= <-].
    destruct (vw b) as [tb|] eqn:Vb; [|discriminate].
    destruct (mapM vw l2) as [r2|] eqn:M2; [|discriminate].
    intros [= -> ->].
    rewrite (eq_vw a b ta Va Vb). eapply IH; eauto.
Qed.

Lemma entry_views kvs1 kvs2 trs k a :
  nodupb (map fst kvs2) = true ->
  mapM (on_snd vw) kvs1 = Some trs -> mapM (on_snd vw) kvs2 = Some trs ->
  In (k, a) kvs1 ->
  exists b, alist_get kvs2 k = Some b /\ eq h a b = Some true.
Proof.
  intros Nd M1 M2 I.
  apply In_nth_error in I as [i Ni].
  destruct (mapM_nth _ _ _ _ _ M1 Ni) as ([k1 ta] & Nt & Va).
  unfold on_snd in Va; cbn [fst snd] in Va.
  destruct (vw a) as [ta'|] eqn:Va'; [|discriminate]. injection Va as <- <-.
  destruct (mapM_nth_inv _ _ _ _ _ M2 Nt) as ([k2 b] & Nb & Vb).
  unfold on_snd in Vb; cbn [fst snd] in Vb.
  destruct (vw b) as [tb|] eqn:Vb'; [|discriminate]. injection Vb as -> ->.
  exists b. split; [|eapply eq_vw; eauto].
  apply nth_error_split in Nb as (d & r & -> & _).
  apply alist_get_middle.
  rewrite map_app in Nd. cbn [map fst] in Nd.
  eapply nodupb_app_notin; eauto.
Qed.

Lemma all_keys_views kvs1 kvs2 :
  (forall k a, In (k, a) kvs1 ->
     exists b, alist_get kvs2 k = Some b /\ eq h a b = Some true) ->
  all_keys eq h kvs1 kvs2 = Some true.
Proof.
  induction kvs1 as [|[k a] r IH]; intros E; simpl; [reflexivity|].
  destruct (E k a (or_introl eq_refl)) as (b & -> & ->).
  apply IH. intros k' a' I. apply E. now right.
Qed.

End Views.

(** Two values that denote the same tree are deeply equal. *)
Lemma view_deep_eq f h a b tr :
  view f h a = Some tr -> view f h b = Some tr -> deep_eq f h a b = Some true.
Proof.
  revert a b tr. induction f as [|f IH]; intros a b tr Va Vb; [discriminate|].
  assert (Tab : type_of a = type_of b).
  { rewrite <- (view_type _ _ _ _ Va). apply (view_type _ _ _ _ Vb). }
  cbn [deep_eq]. unfold deep_eq_step. rewrite Tab, ty_eqb_refl. cbn [negb].
  destruct a as [x|x|x|x|t [p|]|t [s1|]|t [m1|]|n fs1|t];
    destruct b as [y|y|y|y|t' [q|]|t' [s2|]|t' [m2|]|n' fs2|t'];
    cbn [type_of] in Tab; try discriminate Tab; cbn [view] in Va, Vb; cbv iota.
  - injection Va as <-. injection Vb as ->. now rewrite Bool.eqb_reflx.
  - injection Va as <-. injection Vb as ->. now rewrite Z.eqb_refl.
  - injection Va as <-. injection Vb as ->. now rewrite Z.eqb_refl.
  - injection Va as <-. injection Vb as ->. now rewrite String.eqb_refl.
  - destruct (place_eqb p q); [reflexivity|].
    destruct (load h p) as [w1|]; [|discriminate].
    destruct (load h q) as [w2|]; [|discriminate].
    destruct (view f h w1) as [t1|] eqn:V1; [|discriminate].
    destruct (view f h w2) as [t2|] eqn:V2; [|discriminate].
    injection Va as <-. injection Vb as _ ->. eapply IH; eauto.
  - destruct (load h p) as [w1|]; [|discriminate].
    destruct (view f h w1); [|discriminate].
    injection Va as <-. discriminate.
  - destruct (load h q) as [w2|]; [|discriminate].
    destruct (view f h w2); [|discriminate].
    injection Vb as <-. discriminate.
  - reflexivity.
  - destruct (slice_elems h s1) as [l1|]; [|discriminate].
    destruct (Nat.eqb (List.length l1) (slen s1)) eqn:E1; [|discriminate].
    destruct (mapM (view f h) l1) as [r1|] eqn:M1; [|discriminate].
    destruct (slice_elems h s2) as [l2|]; [|discriminate].
    destruct (Nat.eqb (List.length l2) (slen s2)) eqn:E2; [|discriminate].
    destruct (mapM (view f h) l2) as [r2|] eqn:M2; [|discriminate].
    injection Va as <-. injection Vb as _ ->.
    apply Nat.eqb_eq in E1, E2.
    pose proof (mapM_length _ _ _ M1) as L1. pose proof (mapM_length _ _ _ M2) as L2.
    replace (Nat.eqb (slen s1) (slen s2)) with true
      by (symmetry; apply Nat.eqb_eq; lia).
    cbn [negb].
    destruct (Nat.eqb (sarr s1) (sarr s2) && Nat.eqb (soff s1) (soff s2));
      [reflexivity|].
    eapply all2_views; eauto.
  - destruct (slice_elems h s1) as [l1|]; [|discriminate].
    destruct (Nat.eqb _ _); [|discriminate].
    destruct (mapM (view f h) l1); [|discriminate].
    injection Va as <-. discriminate.
  - destruct (slice_elems h s2) as [l2|]; [|discriminate].
    destruct (Nat.eqb _ _); [|discriminate].
    destruct (mapM (view f h) l2); [|discriminate].
    injection Vb as <-. discriminate.
  - reflexivity.
  - destruct (nth_error h m1) as [[| |kvs1]|]; try discriminate.
    destruct (nodupb (map fst kvs1)) eqn:N1; [|discriminate].
    destruct (mapM (on_snd (view f h)) kvs1) as [r1|] eqn:M1; [|discriminate].
    destruct (nth_error h m2) as [[| |kvs2]|]; try discriminate.
    destruct (nodupb (map fst kvs2)) eqn:N2; [|discriminate].
    destruct (mapM (on_snd (view f h)) kvs2) as [r2|] eqn:M2; [|discriminate].
    injection Va as <-. injection Vb as _ ->.
    pose proof (mapM_length _ _ _ M1) as L1. pose proof (mapM_length _ _ _ M2) as L2.
    replace (Nat.eqb (List.length kvs1) (List.length kvs2)) with true
      by (symmetry; apply Nat.eqb_eq; lia).
    cbn [negb].
    destruct (Nat.eqb m1 m2); [reflexivity|].
    apply all_keys_views. intros k a I.
    exact (entry_views (deep_eq f) (view f h) h IH kvs1 kvs2 r1 k a N2 M1 M2 I).
  - destruct (nth_error h m1) as [[| |kvs1]|]; try discriminate.
    destruct (nodupb _); [|discriminate].
    destruct (mapM _ kvs1); [|discriminate].
    injection Va as <-. discriminate.
  - destruct (nth_error h m2) as [[| |kvs2]|]; try discriminate.
    destruct (nodupb _); [|discriminate].
    destruct (mapM _ kvs2); [|discriminate].
    injection Vb as <-. discriminate.
  - reflexivity.
  - destruct (mapM (view f h) fs1) as [r1|] eqn:M1; [|discriminate].
    destruct (mapM (view f h) fs2) as [r2|] eqn:M2; [|discriminate].
    injection Va as <-. injection Vb as _ ->. eapply all2_views; eauto.
  - reflexivity.
Qed.

(** [reflect.DeepEqual(x, y)] on two pointers whose targets denote the
    same tree. *)
Lemma DeepEqual_targets f h t p q tr :
  target f h (Some (VPtr t (Some p))) = Some tr ->
  target f h (Some (VPtr t (Some q))) = Some tr ->
  DeepEqual (S f) (Some (VPtr t (Some p))) (Some (VPtr t (Some q))) h = Ok true h.
Proof.
  unfold target. intros Vp Vq.
  destruct (load h p) as [v|] eqn:Lp; [|discriminate].
  destruct (load h q) as [w|] eqn:Lq; [|discriminate].
  unfold DeepEqual.
  rewrite (view_deep_eq (S f) h _ _ (NRef t tr)); [reflexivity| |];
    cbn [view]; [rewrite Lp, Vp | rewrite Lq, Vq]; reflexivity.
Qed.

(* ================================================================== *)
(** ** Deep copy: what [Copy] guarantees                               *)
(* ================================================================== *)

(** [rcopy] clones every clonable value. *)
Lemma rcopy_clones env h f v :
  clonable env (S f) h v = true -> clones_at env h f v.
Proof.
  revert v. induction f as [|g IHg]; intros v C; apply clones_step; try exact C.
  - intros w Cw. discriminate Cw.
  - intros w Cw. exists g. split; [reflexivity|]. now apply IHg.
Qed.

(** What does hold.  [deep.Copy(&a, &b)] on a clonable value [a] and a fresh
    zero variable [b], as [Apply] calls it: it returns nil and leaves the
    objects of the heap as they were; [reflect.DeepEqual(&a, &b)] holds
    afterwards; [b] denotes the tree that [a] denoted in every heap that
    holds the objects [Copy] has allocated, whatever the old objects have
    become; and [a] denotes its tree in every heap that holds the old
    objects, whatever the new ones have become. *)
Theorem Copy_clones_clonable_values env h g t p v fv tr :
  load h p = Some v ->
  type_of v = t ->
  clonable env (S g) h v = true ->
  view fv h v = Some tr ->
  exists H',
    deep.Copy env (S g) (Some (VPtr t (Some p)))
      (Some (VPtr t (Some (mkPlace (List.length h) []))))
      (h ++ [OVar (zero env t)]) = Ok tt H'
    /\ prefix h H'
    /\ DeepEqual (S fv) (Some (VPtr t (Some p)))
         (Some (VPtr t (Some (mkPlace (List.length h) [])))) H' = Ok true H'
    /\ (forall X, agree (List.length h) (List.length H') X H' ->
                  target fv X (Some (VPtr t (Some (mkPlace (List.length h) []))))
                  = Some tr)
    /\ (forall X, prefix h X -> target fv X (Some (VPtr t (Some p))) = Some tr).
Proof.
  intros L T C V.
  pose proof (rcopy_clones env h g v C) as Cg.
  destruct (Cg fv tr p (mkPlace (List.length h) []) (h ++ [OVar (zero env t)])
              (zero env t) V L) as (cv & H' & R & Cl & Tc).
  - now exists [OVar (zero env t)].
  - cbn [ploc]. lia.
  - apply load_fresh_var.
  - rewrite type_of_zero. now symmetry.
  - intros u E. eapply zero_nil_map; eauto.
  - destruct (cloned_pointee h (zero env t) H' cv tr fv t Cl) as [P St].
    assert (Ty : forall X, agree (List.length h) (List.length H') X H' ->
                   target fv X (Some (VPtr t (Some (mkPlace (List.length h) []))))
                   = Some tr).
    { intros X A. specialize (St X A). cbn [view] in St. unfold target.
      destruct (load X (mkPlace (List.length h) [])) as [w|]; [|discriminate].
      destruct (view fv X w); [|discriminate]. now injection St as ->. }
    assert (Tx : forall X, prefix h X -> target fv X (Some (VPtr t (Some p))) = Some tr).
    { intros X PX. unfold target. rewrite (prefix_load _ _ _ _ PX L).
      now apply (view_prefix fv h X). }
    exists H'. split; [|split; [exact P|split; [|split; [exact Ty | exact Tx]]]].
    + unfold deep.Copy, reflect.ValueOf.
      step (Kind_imm false (VPtr t (Some p)) (h ++ [OVar (zero env t)])).
      cbn [kind_of_ty type_of].
      erewrite bind_ok; [|reflexivity]. cbv iota.
      step (Kind_imm false (VPtr t (Some (mkPlace (List.length h) [])))
              (h ++ [OVar (zero env t)])).
      cbn [kind_of_ty type_of kind_eqb negb].
      rewrite rcopy_unfold. stepby (apply if_ptr_imm_Elem).
      erewrite bind_ok; [exact R | reflexivity].
    + apply (DeepEqual_targets fv H' t p _ tr).
      * apply Tx, P.
      * apply Ty, agree_refl.
Qed.

(** The theorem at [a := s{A: "hello", B: &s{A: "world"}}] of
    [TestStruct]. *)
Lemma Copy_clones_witness :
  let a := VStruct "s" [VString "hello"; VPtr (TStruct "s") (Some (mkPlace 1%nat []))] in
  let tr := NStruct "s" [NString "hello";
              NRef (TStruct "s") (NStruct "s" [NString "world"; NNil (TPtr (TStruct "s"))])] in
  (load Ex.nested (mkPlace 0 []) = Some a
   /\ type_of a = TStruct "s"
   /\ clonable Ex.env 3 Ex.nested a = true
   /\ view Ex.fuel Ex.nested a = Some tr)
  /\ exists H',
       deep.Copy Ex.env 3 (Some (VPtr (TStruct "s") (Some (mkPlace 0 []))))
         (Some (VPtr (TStruct "s") (Some (mkPlace (List.length Ex.nested) []))))
         (Ex.nested ++ [OVar (zero Ex.env (TStruct "s"))]) = Ok tt H'
       /\ prefix Ex.nested H'
       /\ DeepEqual (S Ex.fuel) (Some (VPtr (TStruct "s") (Some (mkPlace 0 []))))
            (Some (VPtr (TStruct "s") (Some (mkPlace (List.length Ex.nested) [])))) H'
          = Ok true H'
       /\ (forall X, agree (List.length Ex.nested) (List.length H') X H' ->
             target Ex.fuel X
               (Some (VPtr (TStruct "s") (Some (mkPlace (List.length Ex.nested) []))))
             = Some tr)
       /\ (forall X, prefix Ex.nested X ->
             target Ex.fuel X (Some (VPtr (TStruct "s") (Some (mkPlace 0 [])))) = Some tr).
Proof.
  cbv zeta. split.
  - repeat split; vm_compute; reflexivity.
  - apply (Copy_clones_clonable_values Ex.env Ex.nested 2 (TStruct "s") (mkPlace 0 [])
             (VStruct "s" [VString "hello"; VPtr (TStruct "s") (Some (mkPlace 1%nat []))])
             Ex.fuel);
      vm_compute; reflexivity.
Defined.

(** [Copy] run on a map of pointers to slices of pointers to structs: the
    clone is built from new objects only. *)
Example Copy_of_a_tower :
  exists H',
    deep.Copy Ex.env Ex.fuel (Ex.ref (TMap (TPtr (TSlice (TPtr (TStruct "s"))))) 1)
      (Ex.ref (TMap (TPtr (TSlice (TPtr (TStruct "s"))))) 6)
      (Ex.tower ++ [OVar (VMap (TPtr (TSlice (TPtr (TStruct "s")))) None)]) = Ok tt H'
    /\ H' = (Ex.tower ++
             [ OVar (VMap (TPtr (TSlice (TPtr (TStruct "s")))) (Some 7%nat));
               OMap [("k", VPtr (TSlice (TPtr (TStruct "s"))) (Some (mkPlace 8%nat [])))];
               OVar (VSlice (TPtr (TStruct "s")) (Some (mkSlice 9 0 1 1)));
               OArr [VPtr (TStruct "s") (Some (mkPlace 10%nat []))];
               OVar (VStruct "s" [VString "x"; VPtr (TStruct "s") None]) ])%list
    /\ clonable Ex.env Ex.fuel Ex.tower (VMap (TPtr (TSlice (TPtr (TStruct "s")))) (Some 2%nat))
       = true.
Proof.
  eexists. split.
  - vm_compute. reflexivity.
  - split; vm_compute; reflexivity.
Qed.

(* ================================================================== *)
(** ** Deep copy: what [Copy] leaves shared                            *)
(* ================================================================== *)

(** The loop of [copyMap] on a map whose values are not pointers: every
    turn takes the branch [!vx.CanAddr()] and assigns. *)
Lemma assign_loop env rc px py t l kvs P :
  load P px = Some (VMap t (Some l)) ->
  nth_error P l = Some (OMap kvs) ->
  load P py = Some (VMap t (Some (List.length P))) ->
  nodupb (map fst kvs) = true ->
  Forall (fun kv => type_of (snd kv) = t) kvs ->
  (forall a, t <> TPtr a) ->
  forall rest done,
    kvs = done ++ rest ->
    for_each (map fst rest)
      (map_body env rc (reflect.Var false px) (reflect.Var false py))
      (P ++ [OMap done]) = Ok tt (P ++ [OMap (done ++ rest)]).
Proof.
  intros Lx Nl Ly Nd Ty Np.
  induction rest as [|[k e] rest IH]; intros done Ek.
  - now rewrite app_nil_r.
  - cbn [map fst for_each].
    assert (Nk : existsb (String.eqb k) (map fst done) = false).
    { subst kvs. rewrite map_app in Nd. cbn [map fst] in Nd.
      eapply nodupb_app_notin; eauto. }
    assert (G : alist_get kvs k = Some e) by (subst kvs; now apply alist_get_middle).
    assert (Te : type_of e = t).
    { rewrite Forall_forall in Ty. apply (Ty (k, e)). subst kvs. apply in_elt. }
    pose proof (load_app _ [OMap done] _ _ Lx) as Lx'.
    pose proof (load_app _ [OMap done] _ _ Ly) as Ly'.
    pose proof (nth_error_old _ [OMap done] _ _ Nl) as Nl'.
    pose proof (nth_error_last P (OMap done)) as Nm.
    assert (Body :
      map_body env rc (reflect.Var false px) (reflect.Var false py) k (P ++ [OMap done])
      = Ok tt (P ++ [OMap (done ++ [(k, e)])])).
    { unfold map_body.
      step (MapIndex_var _ false _ _ _ _ k Lx' Nl'). rewrite G.
      step (MapIndex_var _ false _ _ _ _ k Ly' Nm).
      step (Kind_imm false e (P ++ [OMap done])). rewrite Te.
      assert (Sm : reflect.SetMapIndex (reflect.Var false py) k (reflect.Imm false e)
                     (P ++ [OMap done]) = Ok tt (P ++ [OMap (done ++ [(k, e)])])).
      { apply (SetMapIndex_var _ _ _ _ _ _ _ _ Ly' Nm Te).
        rewrite (alist_put_notin _ _ _ Nk). apply list_set_last. }
      destruct t; cbn [kind_of_ty reflect.CanAddr negb]; try exact Sm.
      now destruct (Np t). }
    step Body. rewrite (IH (done ++ [(k, e)])); [now rewrite <- app_assoc|].
    now rewrite <- app_assoc.
Qed.

(** C4.  [Copy] is not deep below a map.  For every map [a] whose element
    type is not a pointer type, [Copy(&a, &b)] into a fresh zero variable
    [b] returns nil and makes [b] a new table with the very bindings of
    [a]: each value is assigned, the branch of [copyMap] that would
    recurse into it is never taken, a value got from [MapIndex] not being
    addressable.  So a slice held in [a] is held in [b] with the same
    header, over the same array: an element written through [a] is
    written in [b], where the claim has a clone that no change to [a] can
    reach. *)
Theorem Copy_assigns_map_values env g t p l kvs h :
  load h p = Some (VMap t (Some l)) ->
  nth_error h l = Some (OMap kvs) ->
  nodupb (map fst kvs) = true ->
  Forall (fun kv => type_of (snd kv) = t) kvs ->
  (forall a, t <> TPtr a) ->
  let c := mkPlace (List.length h) [] in
  let H' := h ++ [OVar (VMap t (Some (S (List.length h)))); OMap kvs] in
  deep.Copy env (S g) (Some (VPtr (TMap t) (Some p))) (Some (VPtr (TMap t) (Some c)))
    (h ++ [OVar (zero env (TMap t))]) = Ok tt H'
  /\ (forall k u s,
        alist_get kvs k = Some (VSlice u (Some s)) ->
        reflect.MapIndex (reflect.Var false p) k H'
        = Ok (reflect.Imm false (VSlice u (Some s))) H'
        /\ reflect.MapIndex (reflect.Var false c) k H'
           = Ok (reflect.Imm false (VSlice u (Some s))) H'
        /\ forall i w H'',
             store H' (mkPlace (sarr s) [i]) w = Some H'' ->
             reflect.MapIndex (reflect.Var false c) k H''
             = Ok (reflect.Imm false (VSlice u (Some s))) H''
             /\ load H'' (mkPlace (sarr s) [i]) = Some w).
Proof.
  intros L Nl Nd Ty Np c H'.
  set (h1 := h ++ [OVar (zero env (TMap t))]).
  set (l' := S (List.length h)) in *.
  set (P := h ++ [OVar (VMap t (Some l'))]).
  assert (LP : List.length P = l').
  { unfold P, l'. rewrite length_app. simpl. lia. }
  assert (L1 : load h1 p = Some (VMap t (Some l))) by (now apply load_app).
  assert (N1 : nth_error h1 l = Some (OMap kvs)) by (now apply nth_error_old).
  assert (Lc : load h1 c = Some (VMap t None)).
  { unfold h1, c. rewrite zero_map. apply (load_fresh_var h _ []). }
  assert (Len1 : List.length h1 = l').
  { unfold h1, l'. rewrite length_app. simpl. lia. }
  assert (HP : H' = P ++ [OMap kvs]).
  { unfold H', P. now rewrite <- app_assoc. }
  assert (LpP : load P p = Some (VMap t (Some l))) by (now apply load_app).
  assert (NlP : nth_error P l = Some (OMap kvs)) by (now apply nth_error_old).
  assert (LcP : load P c = Some (VMap t (Some (List.length P)))).
  { rewrite LP. apply (load_fresh_var h _ []). }
  assert (Lp' : load H' p = Some (VMap t (Some l))) by (rewrite HP; now apply load_app).
  assert (Nl' : nth_error H' l = Some (OMap kvs)) by (rewrite HP; now apply nth_error_old).
  assert (Lc' : load H' c = Some (VMap t (Some l'))).
  { rewrite HP, <- LP. now apply load_app. }
  assert (Nt' : nth_error H' l' = Some (OMap kvs)).
  { rewrite HP, <- LP. apply nth_error_last. }
  split.
  - unfold deep.Copy, reflect.ValueOf.
    step (Kind_imm false (VPtr (TMap t) (Some p)) h1). cbn [kind_of_ty type_of].
    erewrite bind_ok; [|reflexivity]. cbv iota.
    step (Kind_imm false (VPtr (TMap t) (Some c)) h1).
    cbn [kind_of_ty type_of kind_eqb negb].
    rewrite rcopy_unfold. stepby (apply if_ptr_imm_Elem).
    erewrite bind_ok; [|reflexivity].
    unfold rcopy_switch. step (Kind_var _ false _ _ L1). cbn [kind_of_ty type_of].
    step (Addr_var false _ _ _ L1). step (Addr_var false _ _ _ Lc).
    rewrite copyMap_unfold.
    stepby (apply if_ptr_imm_Indirect). stepby (apply if_ptr_imm_Indirect).
    step (IsNil_map_var false _ _ _ _ L1). cbv iota.
    step (MapKeys_var false _ _ _ _ _ L1 N1).
    step (Type_var _ false _ _ L1). cbn [type_of].
    step (MakeMap_ok t h1). rewrite Len1.
    erewrite bind_ok.
    2:{ apply (Set_var _ _ (VMap t None) (VMap t (Some l')) (P ++ [OMap []]));
          [now apply load_app | reflexivity |].
        unfold h1, c, P. rewrite zero_map, <- !app_assoc.
        apply (store_fresh_var h _ [OMap []]). }
    rewrite HP.
    exact (assign_loop env (deep.rcopy env g) p c t l kvs P LpP NlP LcP Nd Ty Np
             kvs [] eq_refl).
  - intros k u s G. split; [|split].
    + rewrite (MapIndex_var _ false _ _ _ _ k Lp' Nl'). now rewrite G.
    + rewrite (MapIndex_var _ false _ _ _ _ k Lc' Nt'). now rewrite G.
    + intros i w H'' S. split; [|eapply load_store_same; eauto].
      assert (Dc : sarr s <> List.length h).
      { intros E. unfold store in S. cbn [ploc ppath] in S. rewrite E in S.
        unfold H' in S. rewrite nth_error_middle in S. discriminate S. }
      assert (Dt : sarr s <> l').
      { intros E. unfold store in S. cbn [ploc ppath] in S. rewrite E in S.
        rewrite Nt' in S. discriminate S. }
      rewrite (MapIndex_var H'' false c t l' kvs k).
      * now rewrite G.
      * rewrite (load_store_other _ _ _ _ c S); [exact Lc'|].
        unfold c. cbn [ploc]. congruence.
      * rewrite (nth_error_store_other _ _ _ _ l' S); [exact Nt'|].
        cbn [ploc]. congruence.
Qed.

(** The theorem at [a := map[string][]string{"a": {"x"}}]: after
    [Copy(&a, &b)] the assignment [a["a"][0] = "y"] is seen through
    [b]. *)
Lemma Copy_assigns_map_values_witness :
  let h := [ OVar (VMap (TSlice TString) (Some 1%nat));
             OMap [("a", VSlice TString (Some (mkSlice 2 0 1 1)))];
             OArr [VString "x"] ] in
  let a := Some (VPtr (TMap (TSlice TString)) (Some (mkPlace 0 []))) in
  let b := Some (VPtr (TMap (TSlice TString)) (Some (mkPlace 3 []))) in
  exists H' H'',
    deep.Copy Ex.env Ex.fuel a b Ex.shared = Ok tt H'
    /\ target Ex.fuel H' b
       = Some (NMap (TSlice TString) [("a", NSlice TString [NString "x"])])
    /\ store H' (mkPlace 2 [0%nat]) (VString "y") = Some H''
    /\ reflect.MapIndex (reflect.Var false (mkPlace 3 [])) "a" H''
       = Ok (reflect.Imm false (VSlice TString (Some (mkSlice 2 0 1 1)))) H''
    /\ load H'' (mkPlace 2 [0%nat]) = Some (VString "y")
    /\ target Ex.fuel H'' b
       = Some (NMap (TSlice TString) [("a", NSlice TString [NString "y"])]).
Proof.
  cbv zeta.
  destruct (Copy_assigns_map_values Ex.env 15 (TSlice TString) (mkPlace 0 []) 1%nat
              [("a", VSlice TString (Some (mkSlice 2 0 1 1)))]
              [ OVar (VMap (TSlice TString) (Some 1%nat));
                OMap [("a", VSlice TString (Some (mkSlice 2 0 1 1)))];
                OArr [VString "x"] ]
              eq_refl eq_refl eq_refl
              ltac:(repeat constructor) ltac:(discriminate)) as [R A].
  destruct (A "a" TString (mkSlice 2 0 1 1) eq_refl) as (_ & _ & W).
  eexists. eexists. split; [exact R|]. split; [reflexivity|].
  split; [reflexivity|].
  destruct (W 0%nat (VString "y") _ eq_refl) as [M Ld].
  split; [exact M|]. split; [exact Ld | reflexivity].
Defined.

(** The same run seen through the trees of [a] and [b]; and [Copy] of a
    nil [a []string], whose clone is an empty slice that is not nil, which
    [reflect.DeepEqual] tells from [a]. *)
Example Copy_sharing_evaluated :
  (exists H' H'',
     deep.Copy Ex.env Ex.fuel (Ex.ref (TMap (TSlice TString)) 0)
       (Ex.ref (TMap (TSlice TString)) 3) Ex.shared = Ok tt H'
     /\ target Ex.fuel H' (Ex.ref (TMap (TSlice TString)) 0)
        = Some (NMap (TSlice TString) [("a", NSlice TString [NString "x"])])
     /\ target Ex.fuel H' (Ex.ref (TMap (TSlice TString)) 3)
        = Some (NMap (TSlice TString) [("a", NSlice TString [NString "x"])])
     /\ store H' (mkPlace 2 [0%nat]) (VString "y") = Some H''
     /\ target Ex.fuel H'' (Ex.ref (TMap (TSlice TString)) 3)
        = Some (NMap (TSlice TString) [("a", NSlice TString [NString "y"])]))
  /\ (exists H',
        deep.Copy Ex.env Ex.fuel (Ex.ref (TSlice TString) 0)
          (Ex.ref (TSlice TString) 1) Ex.nilslice = Ok tt H'
        /\ target Ex.fuel H' (Ex.ref (TSlice TString) 0) = Some (NNil (TSlice TString))
        /\ target Ex.fuel H' (Ex.ref (TSlice TString) 1) = Some (NSlice TString [])
        /\ DeepEqual Ex.fuel (Ex.ref (TSlice TString) 0) (Ex.ref (TSlice TString) 1) H'
           = Ok false H').
Proof.
  split.
  - eexists. eexists. split; [vm_compute; reflexivity|].
    split; [vm_compute; reflexivity|].
    split; [vm_compute; reflexivity|].
    split; [vm_compute; reflexivity|].
    vm_compute; reflexivity.
  - eexists. split; [vm_compute; reflexivity|].
    repeat split; vm_compute; reflexivity.
Qed.

(* ================================================================== *)
(** ** The field resolver                                              *)
(* ================================================================== *)

Lemma bestMatch_from_find name fs :
  jsonpatch.bestMatch_from name (Str.ToLower (Str.dropHyphens name)) fs
  = match find (field_matches name) fs with
    | Some f => fname f
    | None => ""
    end.
Proof.
  induction fs as [|f r IH]; [reflexivity|].
  cbn [jsonpatch.bestMatch_from find]. unfold field_matches at 1.
  destruct (String.eqb (fname f) name); [reflexivity|].
  destruct (negb (String.eqb (ftag f) "")
            && jsonpatch.has_flag name (Str.Split (ftag f))); [reflexivity|].
  cbn [orb].
  destruct (String.eqb _ _); [reflexivity | exact IH].
Qed.

(** [bestMatch] goes through the fields in declaration order and stops at
    the first one that satisfies any of the three rules: the order of the
    fields decides, not the order of the rules.  What it returns is the
    name of a declared field, or the empty string when no field satisfies
    a rule. *)
Theorem bestMatch_first_matching_field env name n h :
  exists r,
    jsonpatch.bestMatch env name (TStruct n) h = Ok r h
    /\ r = match find (field_matches name) (fields_of env n) with
           | Some f => fname f
           | None => ""
           end
    /\ (r = "" \/ In r (map fname (fields_of env n)))
    /\ (forallb (fun f => negb (field_matches name f)) (fields_of env n) = true
        -> r = "").
Proof.
  eexists. split; [reflexivity|]. rewrite bestMatch_from_find.
  split; [reflexivity|].
  destruct (find (field_matches name) (fields_of env n)) as [f|] eqn:F.
  - apply find_some in F as [I M]. split.
    + right. apply in_map. exact I.
    + intros N. rewrite forallb_forall in N. specialize (N f I).
      rewrite M in N. discriminate.
  - split; [now left | reflexivity].
Qed.

(** On a struct without [json] tags the segment is resolved up to case,
    hyphens and underscores: two segments with the same normal form
    resolve to the same field. *)
Theorem bestMatch_ignores_case_and_separators env a b n h :
  (forall f, In f (fields_of env n) -> ftag f = "") ->
  Str.ToLower (Str.dropHyphens a) = Str.ToLower (Str.dropHyphens b) ->
  jsonpatch.bestMatch env a (TStruct n) h = jsonpatch.bestMatch env b (TStruct n) h.
Proof.
  intros T K. unfold jsonpatch.bestMatch, ret. f_equal. rewrite <- K.
  induction (fields_of env n) as [|f r IH]; [reflexivity|].
  cbn [jsonpatch.bestMatch_from].
  rewrite (T f (or_introl eq_refl)). cbn [String.eqb negb andb].
  rewrite IH by (intros g I; apply T; now right).
  destruct (String.eqb_spec (fname f) a) as [Ea|Na];
    destruct (String.eqb_spec (fname f) b) as [Eb|Nb]; try reflexivity.
  - rewrite <- Ea, String.eqb_refl. reflexivity.
  - rewrite K, <- Eb, String.eqb_refl. reflexivity.
Qed.

(** The same on [testUser]: ["E-Mail"] and ["e_mail"] both name [Email]. *)
Lemma bestMatch_ignores_case_witness :
  (forall f, In f (fields_of Ex.env "testUser") -> ftag f = "")
  /\ Str.ToLower (Str.dropHyphens "E-Mail") = Str.ToLower (Str.dropHyphens "e_mail")
  /\ jsonpatch.bestMatch Ex.env "E-Mail" (TStruct "testUser") []
     = jsonpatch.bestMatch Ex.env "e_mail" (TStruct "testUser") []
  /\ jsonpatch.bestMatch Ex.env "e_mail" (TStruct "testUser") [] = Ok "Email" [].
Proof.
  assert (T : forall f, In f (fields_of Ex.env "testUser") -> ftag f = "").
  { intros f I. simpl in I.
    repeat (destruct I as [<-|I]; [reflexivity|]). destruct I. }
  split; [exact T|]. split; [reflexivity|]. split; [|reflexivity].
  apply (bestMatch_ignores_case_and_separators Ex.env "E-Mail" "e_mail" "testUser" [] T).
  reflexivity.
Defined.

(* ================================================================== *)
(** ** Navigation: one step of [findNode]                              *)
(* ================================================================== *)

Lemma findNode_unfold env r root node p x :
  jsonpatch.findNode env r root node p x
  = (x <- jsonpatch.if_ptr x (jsonpatch.fresh_if_nil env) ;;
     k <- reflect.Kind x ;;
     child <- match k with
              | KSlice =>
                  match Str.Atoi root with
                  | None => fail ErrIncorrectIndex
                  | Some pos =>
                      l <- reflect.Len x ;;
                      if l <=? pos then fail ErrIncorrectIndex
                      else reflect.Index x pos
                  end
              | KMap => reflect.MapIndex x root
              | KStruct =>
                  t <- reflect.Type_ x ;;
                  name <- jsonpatch.bestMatch env root t ;;
                  if String.eqb name "" then fail ErrIncorrectIndex
                  else reflect.FieldByName env x name
              | KPtr => reflect.Elem x
              | KInvalid | KChan => fail (ErrUnsupported root)
              | _ => fail ErrGarbage
              end ;;
     findNode_descend env r root node p child)%go.
Proof. reflexivity. Qed.

(** From a variable on, the navigation continues with [next_handle] in
    the heap [materialized]. *)
Lemma descend_var env r root node p c e h h' :
  load h c = Some e ->
  materialized env h c e = Some h' ->
  findNode_descend env r root node p (reflect.Var false c) h
  = r node p (next_handle c e) h'.
Proof.
  intros L Mz. unfold findNode_descend.
  step (Kind_var _ false _ _ L).
  destruct e as [b|z|z|s|t [q'|]|t sl|t m|n fs|t];
    cbn [kind_of_ty type_of next_handle materialized] in *;
    try (injection Mz as <-; cbn [reflect.IsValid negb]; rewrite bind_ret;
         cbn [reflect.CanAddr];
         step (Addr_var false _ _ _ L); reflexivity).
  - injection Mz as <-. step (IsNil_ptr_var false _ _ _ _ L). reflexivity.
  - destruct (store h c _) as [h1|] eqn:S; [|discriminate]. injection Mz as <-.
    step (IsNil_ptr_var false _ _ _ _ L). cbn [negb]. step (Type_var _ false _ _ L). cbn [type_of ty_elem].
    rewrite bind_ret. step (New_ok env t h).
    step (Set_var _ _ (VPtr t None) (VPtr t (Some (mkPlace (List.length h) []))) _
            (load_app _ [OVar (zero env t)] _ _ L) eq_refl
            (store_app _ [OVar (zero env t)] _ _ _ S)).
    reflexivity.
Qed.

Lemma FieldByName_var env H p n fs name i fd fv :
  load H p = Some (VStruct n fs) ->
  reflect.field_index (fields_of env n) name 0 = Some i ->
  nth_error (fields_of env n) i = Some fd ->
  nth_error fs i = Some fv ->
  reflect.exported (fname fd) = true ->
  reflect.FieldByName env (reflect.Var false p) name H
  = Ok (reflect.Var false (sub p i)) H.
Proof.
  intros L Fi Nf Nv E. unfold reflect.FieldByName.
  step (get_var _ false _ _ L). rewrite Fi.
  exact (Field_var env H p n fs i fd fv L Nf Nv E).
Qed.

Lemma exported_nonempty name : reflect.exported name = true -> String.eqb name "" = false.
Proof. now destruct name. Qed.

(** [findNode] on a slice.  A segment that is not a number, and an index
    that is not below the length, give [ErrIncorrectIndex] and leave the
    heap alone; a negative index is not caught and panics in
    [x.Index(pos)]; an index in range goes on from that element, which is
    allocated when it is a nil pointer. *)
Theorem findNode_on_slice env r root node p q t s h :
  load h q = Some (VSlice t s) ->
  (Str.Atoi root = None ->
   jsonpatch.findNode env r root node p (handle (TSlice t) q) h
   = Err ErrIncorrectIndex h)
  /\ (forall pos, Str.Atoi root = Some pos ->
        (Z.of_nat (reflect.hdr_len s) <= pos ->
         jsonpatch.findNode env r root node p (handle (TSlice t) q) h
         = Err ErrIncorrectIndex h)
        /\ (pos < 0 ->
            jsonpatch.findNode env r root node p (handle (TSlice t) q) h
            = Panic PIndexRange)
        /\ (forall hd e h',
              s = Some hd -> 0 <= pos < Z.of_nat (slen hd) ->
              load h (mkPlace (sarr hd) [(soff hd + Z.to_nat pos)%nat]) = Some e ->
              materialized env h (mkPlace (sarr hd) [(soff hd + Z.to_nat pos)%nat]) e
              = Some h' ->
              jsonpatch.findNode env r root node p (handle (TSlice t) q) h
              = r node p (next_handle (mkPlace (sarr hd) [(soff hd + Z.to_nat pos)%nat]) e)
                  h')).
Proof.
  intros L.
  assert (Head :
    jsonpatch.findNode env r root node p (handle (TSlice t) q) h
    = (child <- match Str.Atoi root with
                | None => fail ErrIncorrectIndex
                | Some pos =>
                    l <- reflect.Len (reflect.Var false q) ;;
                    if l <=? pos then fail ErrIncorrectIndex
                    else reflect.Index (reflect.Var false q) pos
                end ;;
       findNode_descend env r root node p child)%go h).
  { rewrite findNode_unfold.
    step (fresh_if_nil_handle env (TSlice t) q h _ L).
    step (Kind_var _ false _ _ L). reflexivity. }
  rewrite Head. clear Head. split.
  - intros ->. reflexivity.
  - intros pos ->. rewrite bind_assoc. step (Len_slice _ false _ _ _ L).
    split; [|split].
    + intros G. destruct (Z.leb_spec (Z.of_nat (reflect.hdr_len s)) pos); [reflexivity | lia].
    + intros G. destruct (Z.leb_spec (Z.of_nat (reflect.hdr_len s)) pos); [lia|].
      unfold bind.
      rewrite (Index_out h _ t s pos (get_var _ false _ _ L)); [reflexivity | lia].
    + intros hd e h' -> R Le Mz. cbn [reflect.hdr_len].
      destruct (Z.leb_spec (Z.of_nat (slen hd)) pos); [lia|].
      assert (Ei : reflect.Index (reflect.Var false q) pos h
                   = Ok (reflect.Var false
                           (mkPlace (sarr hd) [(soff hd + Z.to_nat pos)%nat])) h).
      { unfold reflect.Index. step (get_var _ false _ _ L). cbn [reflect.hdr_len].
        destruct (Z.leb_spec 0 pos); [|lia].
        destruct (Z.ltb_spec pos (Z.of_nat (slen hd))); [|lia]. reflexivity. }
      step Ei. now apply descend_var.
Qed.

(** The same on [u.Phones] of [TestReplace]: ["x"] and the index 1 are
    refused, the index 0 leads to the element. *)
Lemma findNode_on_slice_witness :
  let h := Ex.hobbes "12830921" in
  let q := mkPlace 0 [4%nat] in
  let r := jsonpatch.rapply Ex.env Ex.fuel in
  let p := Ex.op "replace" "/phones/0/x" (Ex.str "y") in
  load h q = Some (VSlice TString (Some (mkSlice 1 0 1 1)))
  /\ jsonpatch.findNode Ex.env r "x" "x" p (handle (TSlice TString) q) h
     = Err ErrIncorrectIndex h
  /\ jsonpatch.findNode Ex.env r "1" "x" p (handle (TSlice TString) q) h
     = Err ErrIncorrectIndex h
  /\ jsonpatch.findNode Ex.env r "0" "x" p (handle (TSlice TString) q) h
     = r "x" p (handle TString (mkPlace 1 [0%nat])) h.
Proof.
  cbv zeta.
  destruct (findNode_on_slice Ex.env (jsonpatch.rapply Ex.env Ex.fuel) "x" "x"
              (Ex.op "replace" "/phones/0/x" (Ex.str "y")) (mkPlace 0 [4%nat])
              TString (Some (mkSlice 1 0 1 1)) (Ex.hobbes "12830921") eq_refl)
    as [A _].
  destruct (findNode_on_slice Ex.env (jsonpatch.rapply Ex.env Ex.fuel) "1" "x"
              (Ex.op "replace" "/phones/0/x" (Ex.str "y")) (mkPlace 0 [4%nat])
              TString (Some (mkSlice 1 0 1 1)) (Ex.hobbes "12830921") eq_refl)
    as [_ B].
  destruct (findNode_on_slice Ex.env (jsonpatch.rapply Ex.env Ex.fuel) "0" "x"
              (Ex.op "replace" "/phones/0/x" (Ex.str "y")) (mkPlace 0 [4%nat])
              TString (Some (mkSlice 1 0 1 1)) (Ex.hobbes "12830921") eq_refl)
    as [_ C].
  split; [reflexivity|]. split; [exact (A eq_refl)|]. split.
  - destruct (B 1 eq_refl) as [B1 _]. apply B1. simpl. lia.
  - destruct (C 0 eq_refl) as (_ & _ & C3).
    apply (C3 (mkSlice 1 0 1 1) (VString "12830921") (Ex.hobbes "12830921") eq_refl);
      [simpl; lia | reflexivity | reflexivity].
Defined.

(** [findNode] on a struct.  A segment that [bestMatch] does not resolve
    gives [ErrIncorrectIndex] and leaves the heap alone; a resolved one
    goes on from the field, which is allocated when it is a nil
    pointer. *)
Theorem findNode_on_struct env r root node p q n fs h :
  load h q = Some (VStruct n fs) ->
  (find (field_matches root) (fields_of env n) = None ->
   jsonpatch.findNode env r root node p (handle (TStruct n) q) h
   = Err ErrIncorrectIndex h)
  /\ (forall fd i fv h',
        find (field_matches root) (fields_of env n) = Some fd ->
        reflect.field_index (fields_of env n) (fname fd) 0 = Some i ->
        nth_error (fields_of env n) i = Some fd ->
        reflect.exported (fname fd) = true ->
        nth_error fs i = Some fv ->
        materialized env h (sub q i) fv = Some h' ->
        jsonpatch.findNode env r root node p (handle (TStruct n) q) h
        = r node p (next_handle (sub q i) fv) h').
Proof.
  intros L.
  assert (Head :
    jsonpatch.findNode env r root node p (handle (TStruct n) q) h
    = (name <- jsonpatch.bestMatch env root (TStruct n) ;;
       child <- (if String.eqb name "" then fail ErrIncorrectIndex
                 else reflect.FieldByName env (reflect.Var false q) name) ;;
       findNode_descend env r root node p child)%go h).
  { rewrite findNode_unfold.
    step (fresh_if_nil_handle env (TStruct n) q h _ L).
    step (Kind_var _ false _ _ L). cbn [kind_of_ty type_of].
    rewrite bind_assoc. step (Type_var _ false _ _ L). cbn [type_of].
    rewrite bind_assoc. reflexivity. }
  rewrite Head. clear Head.
  unfold jsonpatch.bestMatch. rewrite bind_ret, bestMatch_from_find. split.
  - intros ->. reflexivity.
  - intros fd i fv h' -> Fi Nf E Nv Mz.
    rewrite (exported_nonempty _ E).
    step (FieldByName_var env h q n fs _ i fd fv L Fi Nf Nv E).
    apply descend_var; [|exact Mz].
    rewrite (load_sub _ _ _ _ i L). exact Nv.
Qed.

(** The same on the [u] of [TestAdd]: ["nosuch"] is refused, ["phones"]
    leads to the field [Phones], and ["child"], a nil pointer, is made to
    point to a fresh [testUser]. *)
Lemma findNode_on_struct_witness :
  let q := mkPlace 0 [] in
  let r := jsonpatch.rapply Ex.env Ex.fuel in
  let p := Ex.op "add" "/child/name" (Ex.str "mr. bunny") in
  load Ex.calvin q = Some (Ex.user "" 0 "" None (Some (mkSlice 1 0 1 1)) None)
  /\ jsonpatch.findNode Ex.env r "nosuch" "x" p (handle (TStruct "testUser") q) Ex.calvin
     = Err ErrIncorrectIndex Ex.calvin
  /\ jsonpatch.findNode Ex.env r "phones" "-" p (handle (TStruct "testUser") q) Ex.calvin
     = r "-" p (handle (TSlice TString) (mkPlace 0 [4%nat])) Ex.calvin
  /\ jsonpatch.findNode Ex.env r "child" "name" p (handle (TStruct "testUser") q) Ex.calvin
     = r "name" p (reflect.Var false (mkPlace 0 [3%nat]))
         [ OVar (Ex.user "" 0 "" (Some (mkPlace 2 [])) (Some (mkSlice 1 0 1 1)) None);
           OArr [VString "37489239"];
           OVar (Ex.user "" 0 "" None None None) ].
Proof.
  cbv zeta.
  pose proof (fun root node =>
    findNode_on_struct Ex.env (jsonpatch.rapply Ex.env Ex.fuel) root node
      (Ex.op "add" "/child/name" (Ex.str "mr. bunny")) (mkPlace 0 []) "testUser"
      _ Ex.calvin eq_refl) as T.
  split; [reflexivity|]. split; [|split].
  - apply (proj1 (T "nosuch" "x")). reflexivity.
  - apply (proj2 (T "phones" "-")
             (mkField "Phones" "" (TSlice TString) false) 4%nat
             (VSlice TString (Some (mkSlice 1 0 1 1))) Ex.calvin); reflexivity.
  - apply (proj2 (T "child" "name")
             (mkField "Child" "" (TPtr (TStruct "testUser")) false) 3%nat
             (VPtr (TStruct "testUser") None)); reflexivity.
Defined.

(** [findNode] on a map goes on only through an entry that is a pointer
    and not nil.  A value of any other kind is not addressable and gives
    [ErrUnsupported] with the heap untouched; a key that is absent (or a
    nil map) panics in [child.Type()] on the zero Value, and a nil
    pointer panics in [child.Set]: nothing is allocated inside a map. *)
Theorem findNode_on_map env r root node p q t m h :
  load h q = Some (VMap t m) ->
  (m = None ->
   jsonpatch.findNode env r root node p (handle (TMap t) q) h = Panic PZeroValue)
  /\ (forall l kvs,
        m = Some l -> nth_error h l = Some (OMap kvs) ->
        jsonpatch.findNode env r root node p (handle (TMap t) q) h
        = match alist_get kvs root with
          | None => Panic PZeroValue
          | Some (VPtr t' (Some c)) => r node p (reflect.Imm false (VPtr t' (Some c))) h
          | Some (VPtr _ None) => Panic PNotAssignable
          | Some _ => Err (ErrUnsupported root) h
          end).
Proof.
  intros L.
  assert (Head :
    jsonpatch.findNode env r root node p (handle (TMap t) q) h
    = (child <- reflect.MapIndex (reflect.Var false q) root ;;
       findNode_descend env r root node p child)%go h).
  { rewrite findNode_unfold.
    step (fresh_if_nil_handle env (TMap t) q h _ L).
    step (Kind_var _ false _ _ L). reflexivity. }
  rewrite Head. clear Head. split.
  - intros ->. unfold reflect.MapIndex. rewrite bind_assoc.
    step (get_var _ false _ _ L). reflexivity.
  - intros l kvs -> N. step (MapIndex_var h false q t l kvs root L N).
    destruct (alist_get kvs root) as [e|]; [|reflexivity].
    destruct e as [b|z|z|s|t' [c|]|t' sl|t' m|n fs|t']; reflexivity.
Qed.

(** The same on [u.M] of [TestReplace], a [map[string]string]: the
    present key ["a"] gives [ErrUnsupported], an absent key panics. *)
Lemma findNode_on_map_witness :
  let h := Ex.hobbes "12830921" in
  let r := jsonpatch.rapply Ex.env Ex.fuel in
  let p := Ex.op "replace" "/m/a/x" (Ex.str "y") in
  load h (mkPlace 0 [5%nat]) = Some (VMap TString (Some 3%nat))
  /\ jsonpatch.findNode Ex.env r "a" "x" p (handle (TMap TString) (mkPlace 0 [5%nat])) h
     = Err (ErrUnsupported "a") h
  /\ jsonpatch.findNode Ex.env r "zzz" "x" p (handle (TMap TString) (mkPlace 0 [5%nat])) h
     = Panic PZeroValue.
Proof.
  cbv zeta.
  pose proof (fun root =>
    proj2 (findNode_on_map Ex.env (jsonpatch.rapply Ex.env Ex.fuel) root "x"
             (Ex.op "replace" "/m/a/x" (Ex.str "y")) (mkPlace 0 [5%nat]) TString
             (Some 3%nat) (Ex.hobbes "12830921") eq_refl)
          3%nat [("a", VString "hello")] eq_refl eq_refl) as T.
  split; [reflexivity|]. split; [exact (T "a") | exact (T "zzz")].
Defined.

(** [findNode] on a variable that has nothing below it: a boolean, a
    number or a string gives [ErrGarbage], a channel [ErrUnsupported]
    naming the segment; the heap is left alone. *)
Theorem findNode_on_leaf env r root node p q v h :
  load h q = Some v ->
  match v with
  | VBool _ | VInt _ | VFloat _ | VString _ =>
      jsonpatch.findNode env r root node p (handle (type_of v) q) h = Err ErrGarbage h
  | VChan _ =>
      jsonpatch.findNode env r root node p (handle (type_of v) q) h
      = Err (ErrUnsupported root) h
  | _ => True
  end.
Proof.
  intros L.
  destruct v as [b|z|z|s|t' c|t' sl|t' m|n fs|t']; try exact I;
    rewrite findNode_unfold;
    (stepby (apply (fresh_if_nil_handle env _ q h _ L)));
    step (Kind_var _ false _ _ L); reflexivity.
Qed.

(** The same on [u.Name] of [TestReplace]: the path ["/name/x"] goes
    below a string. *)
Lemma findNode_on_leaf_witness :
  let h := Ex.hobbes "12830921" in
  load h (mkPlace 0 [0%nat]) = Some (VString "hobbes")
  /\ jsonpatch.findNode Ex.env (jsonpatch.rapply Ex.env Ex.fuel) "x" "y"
       (Ex.op "add" "/name/x/y" (Ex.str "z")) (handle TString (mkPlace 0 [0%nat])) h
     = Err ErrGarbage h
  /\ returned_error
       (jsonpatch.Apply Ex.env Ex.fuel (Some [Ex.op "add" "/name/x/y" (Ex.str "z")])
          Ex.u h)
     = Some ErrGarbage.
Proof.
  cbv zeta. split; [reflexivity|]. split.
  - exact (findNode_on_leaf Ex.env (jsonpatch.rapply Ex.env Ex.fuel) "x" "y"
             (Ex.op "add" "/name/x/y" (Ex.str "z")) (mkPlace 0 [0%nat])
             (VString "hobbes") (Ex.hobbes "12830921") eq_refl).
  - vm_compute. reflexivity.
Defined.

(* ================================================================== *)
(** ** Which errors [Apply] and [Copy] can return                      *)
(* ================================================================== *)

Lemma raises_try {A} P (m : M A) : raises P (try m).
Proof. intros h e h'. unfold try. destruct (m h); discriminate. Qed.

Lemma raises_discard {A} P (m : M A) : raises P (discard m).
Proof. intros h e h'. unfold discard. destruct (m h); discriminate. Qed.

Lemma raises_out_of_fuel {A} P : raises P (@out_of_fuel A).
Proof. intros h e h'; discriminate. Qed.

Lemma raises_for_each {A} P (l : list A) body :
  (forall a, raises P (body a)) -> raises P (for_each l body).
Proof.
  intros B. induction l as [|a l IH]; cbn [for_each].
  - apply raises_ret.
  - apply raises_bind; [apply B | intros _; exact IH].
Qed.

(** No call into [reflect] returns an error: they return or panic. *)
Ltac raises_reflect :=
  raises_auto;
  try apply raises_get; try apply raises_Interface; try apply raises_Set.

Lemma raises_Kind P x : raises P (reflect.Kind x).
Proof. unfold reflect.Kind. raises_reflect. Qed.

Lemma raises_Type P x : raises P (reflect.Type_ x).
Proof. unfold reflect.Type_. raises_reflect. Qed.

Lemma raises_IsNil P x : raises P (reflect.IsNil x).
Proof. unfold reflect.IsNil. raises_reflect. Qed.

Lemma raises_Elem P x : raises P (reflect.Elem x).
Proof. unfold reflect.Elem. raises_reflect. Qed.

Lemma raises_Indirect P x : raises P (reflect.Indirect x).
Proof.
  unfold reflect.Indirect. apply raises_bind; [apply raises_Kind|].
  intros k. destruct k; try apply raises_ret; apply raises_Elem.
Qed.

Lemma raises_Addr P x : raises P (reflect.Addr x).
Proof. unfold reflect.Addr. raises_reflect. Qed.

Lemma raises_New P env t : raises P (reflect.New env t).
Proof. unfold reflect.New. raises_reflect. Qed.

Lemma raises_Len P x : raises P (reflect.Len x).
Proof. unfold reflect.Len. raises_reflect. Qed.

Lemma raises_Index P x i : raises P (reflect.Index x i).
Proof. unfold reflect.Index. raises_reflect. Qed.

Lemma raises_MakeSlice P env t l c : raises P (reflect.MakeSlice env t l c).
Proof. unfold reflect.MakeSlice. raises_reflect. Qed.

Lemma raises_MakeMap P t : raises P (reflect.MakeMap t).
Proof. unfold reflect.MakeMap. raises_reflect. Qed.

Lemma raises_MapIndex P x k : raises P (reflect.MapIndex x k).
Proof. unfold reflect.MapIndex. raises_reflect. Qed.

Lemma raises_MapKeys P x : raises P (reflect.MapKeys x).
Proof. unfold reflect.MapKeys. raises_reflect. Qed.

Lemma raises_write_map P l kvs : raises P (write_map l kvs).
Proof.
  intros h e h'. unfold write_map.
  destruct (nth_error h l) as [[]|]; try discriminate.
  destruct (list_set h l (OMap kvs)); discriminate.
Qed.

Lemma raises_SetMapIndex P x k e : raises P (reflect.SetMapIndex x k e).
Proof.
  unfold reflect.SetMapIndex. raises_reflect; apply raises_write_map.
Qed.

Lemma raises_Field P env x i : raises P (reflect.Field env x i).
Proof. unfold reflect.Field. raises_reflect. Qed.

Lemma raises_FieldByName P env x name : raises P (reflect.FieldByName env x name).
Proof.
  unfold reflect.FieldByName. apply raises_bind; [apply raises_get|].
  intros v. destruct v; try apply raises_throw.
  destruct (reflect.field_index _ _ _); [apply raises_Field | apply raises_ret].
Qed.

Lemma raises_ty_elem P t : raises P (ty_elem t).
Proof. unfold ty_elem. raises_auto. Qed.

Lemma raises_bestMatch P env name t : raises P (jsonpatch.bestMatch env name t).
Proof. unfold jsonpatch.bestMatch. raises_auto. Qed.

Lemma raises_fresh_if_nil P env v : raises P (jsonpatch.fresh_if_nil env v).
Proof.
  unfold jsonpatch.fresh_if_nil.
  apply raises_bind; [apply raises_IsNil | intros b].
  apply raises_bind; [|intros _; apply raises_Elem].
  destruct b; [|apply raises_ret].
  apply raises_bind; [apply raises_Type | intros t].
  apply raises_bind; [apply raises_ty_elem | intros e].
  apply raises_bind; [apply raises_New | intros n]. apply raises_Set.
Qed.

Lemma raises_if_ptr P v f :
  (forall x, raises P (f x)) -> raises P (jsonpatch.if_ptr v f).
Proof.
  intros F. unfold jsonpatch.if_ptr.
  apply raises_bind; [apply raises_Kind | intros k].
  destruct k; try apply raises_ret. apply F.
Qed.

Lemma raises_applyNode P env fuel node p x : raises P (jsonpatch.applyNode env fuel node p x).
Proof.
  intros h e h' E. pose proof (applyNode_returns_nil env fuel node p x h) as N.
  rewrite E in N. discriminate.
Qed.

Lemma raises_descend env r root node p child :
  (forall n' p' x', raises nav_error (r n' p' x')) ->
  raises nav_error (findNode_descend env r root node p child).
Proof.
  intros R. unfold findNode_descend.
  apply raises_bind; [apply raises_Kind | intros kc].
  assert (Other :
    raises nav_error
      ((if negb (reflect.IsValid child)
        then (t <- reflect.Type_ child ;;
              e <- ty_elem t ;;
              newval <- reflect.New env e ;;
              ne <- reflect.Elem newval ;;
              reflect.Set_ child ne)
        else ret tt) ;;
       if reflect.CanAddr child then (a <- reflect.Addr child ;; r node p a)
       else fail (ErrUnsupported root))%go).
  { apply raises_bind.
    - destruct (negb (reflect.IsValid child)); [|apply raises_ret].
      apply raises_bind; [apply raises_Type | intros t].
      apply raises_bind; [apply raises_ty_elem | intros e].
      apply raises_bind; [apply raises_New | intros n].
      apply raises_bind; [apply raises_Elem | intros ne]. apply raises_Set.
    - intros _. destruct (reflect.CanAddr child).
      + apply raises_bind; [apply raises_Addr | intros a; apply R].
      + apply raises_fail. right. right. now exists root. }
  destruct kc; try exact Other.
  apply raises_bind; [apply raises_IsNil | intros b].
  destruct (negb b); [apply R|].
  apply raises_bind; [apply raises_Type | intros t].
  apply raises_bind; [apply raises_ty_elem | intros e].
  apply raises_bind; [apply raises_New | intros n].
  apply raises_bind; [apply raises_Set | intros _; apply R].
Qed.

Lemma raises_findNode env r root node p x :
  (forall n' p' x', raises nav_error (r n' p' x')) ->
  raises nav_error (jsonpatch.findNode env r root node p x).
Proof.
  intros R. rewrite findNode_unfold.
  apply raises_bind; [apply raises_if_ptr; intros; apply raises_fresh_if_nil | intros v].
  apply raises_bind; [apply raises_Kind | intros k].
  apply raises_bind; [|intros child; now apply raises_descend].
  destruct k;
    try (apply raises_fail; first [ now left | now (right; left)
                                  | right; right; now exists root ]).
  - apply raises_Elem.
  - destruct (Str.Atoi root); [|apply raises_fail; now left].
    apply raises_bind; [apply raises_Len | intros l].
    destruct (l <=? z); [apply raises_fail; now left | apply raises_Index].
  - apply raises_MapIndex.
  - apply raises_bind; [apply raises_Type | intros t].
    apply raises_bind; [apply raises_bestMatch | intros name].
    destruct (String.eqb name ""); [apply raises_fail; now left|].
    apply raises_FieldByName.
Qed.

Lemma raises_rapply_n env fuel n path p x :
  raises nav_error (jsonpatch.rapply_n env fuel n path p x).
Proof.
  revert path p x. induction n as [|n IH]; intros path p x; cbn [jsonpatch.rapply_n].
  - apply raises_out_of_fuel.
  - destruct (Str.SplitN2 path) as [root [node|]].
    + apply raises_findNode. exact IH.
    + apply raises_applyNode.
Qed.

(** Whatever the target, an error that [Apply] returns for a document
    that does not parse is [ErrNonPointer] or the error of decoding the
    document; for a document that parses it is [ErrNonPointer],
    [ErrCouldNotCopy] or an error of the navigation ([ErrIncorrectIndex],
    [ErrGarbage], [ErrUnsupported]).  So the errors of the operations
    themselves never reach the caller: not [ErrNotImplemented], not "map
    element not found" or "elements are not equal", and not an error of
    decoding a value, be it a syntax error or a type error. *)
Theorem Apply_returns_only_navigation_errors env fuel data x :
  raises (apply_error data) (jsonpatch.Apply env fuel data x)
  /\ (forall ps h e h',
        jsonpatch.Apply env fuel (Some ps) x h = Err e h' ->
        e <> ErrNotImplemented /\ e <> JsonSyntaxError /\ e <> JsonTypeError
        /\ forall msg, e <> ErrNew msg).
Proof.
  assert (R : forall d, raises (apply_error d) (jsonpatch.Apply env fuel d x)).
  { intros d. unfold jsonpatch.Apply.
    apply raises_bind; [apply raises_Kind | intros k].
    apply raises_bind.
    { destruct k; try apply raises_ret. apply raises_IsNil. }
    intros b. destruct b; [apply raises_fail; destruct d; now left|].
    destruct d as [patches|]; [|apply raises_fail; now right].
    cbn [apply_error].
    apply raises_bind; [apply raises_Elem | intros e].
    apply raises_bind; [apply raises_Type | intros t].
    apply raises_bind; [apply raises_New | intros ry].
    apply raises_bind; [apply raises_Interface | intros y].
    apply raises_bind; [apply raises_try | intros c].
    destruct c as [u|e']; [|apply raises_fail; right; now left].
    apply raises_bind.
    - apply raises_for_each. intros p.
      apply (raises_weaken nav_error); [intros e' N; right; now right|].
      apply raises_rapply_n.
    - intros _.
      apply raises_bind; [apply raises_Elem | intros e1].
      apply raises_bind; [apply raises_Elem | intros e2]. apply raises_Set. }
  split; [apply R|].
  intros ps h e h' E. apply (R (Some ps)) in E. cbn [apply_error] in E.
  destruct E as [->|[->|[->|[->|[k ->]]]]]; repeat split; discriminate.
Qed.

(** A replace below a field that does not exist: the navigation error
    is returned. *)
Lemma Apply_returns_witness :
  exists h',
    jsonpatch.Apply Ex.env Ex.fuel (Some [Ex.op "replace" "/nosuch/x" (Ex.str "y")])
      Ex.u Ex.calvin = Err ErrIncorrectIndex h'
    /\ ErrIncorrectIndex <> ErrNotImplemented.
Proof.
  assert (E : returned_error
                (jsonpatch.Apply Ex.env Ex.fuel
                   (Some [Ex.op "replace" "/nosuch/x" (Ex.str "y")]) Ex.u Ex.calvin)
              = Some ErrIncorrectIndex) by (vm_compute; reflexivity).
  destruct (jsonpatch.Apply Ex.env Ex.fuel
              (Some [Ex.op "replace" "/nosuch/x" (Ex.str "y")]) Ex.u Ex.calvin)
    as [u h'|e h'| | |] eqn:R; try discriminate E.
  cbn [returned_error] in E. injection E as ->.
  exists h'. split; [reflexivity|].
  exact (proj1 (proj2 (Apply_returns_only_navigation_errors Ex.env Ex.fuel
                         (Some [Ex.op "replace" "/nosuch/x" (Ex.str "y")]) Ex.u)
                  _ Ex.calvin ErrIncorrectIndex h' R)).
Defined.

Lemma raises_deep_if_ptr P v f :
  (forall x, raises P (f x)) -> raises P (deep.if_ptr v f).
Proof.
  intros F. unfold deep.if_ptr.
  apply raises_bind; [apply raises_Kind | intros k].
  destruct k; try apply raises_ret. apply F.
Qed.

Lemma raises_copyPrimitives P x y : raises P (deep.copyPrimitives x y).
Proof.
  unfold deep.copyPrimitives.
  apply raises_bind; [apply raises_deep_if_ptr; intros; apply raises_Indirect | intros a].
  apply raises_bind; [apply raises_deep_if_ptr; intros; apply raises_Indirect | intros b].
  apply raises_Set.
Qed.

Section CopyErrors.

Variable env : tyenv.
Variable P : error -> Prop.
Variable rc : reflect.Value -> reflect.Value -> M unit.
Hypothesis rc_raises : forall x y, raises P (rc x y).

Lemma raises_copyArray x y : raises P (deep.copyArray env rc x y).
Proof.
  rewrite copyArray_unfold.
  apply raises_bind; [apply raises_deep_if_ptr; intros; apply raises_Elem | intros a].
  apply raises_bind; [apply raises_deep_if_ptr; intros; apply raises_Elem | intros b].
  apply raises_bind; [apply raises_Len | intros l].
  apply raises_bind; [apply raises_Kind | intros k].
  apply raises_bind.
  { destruct k; try apply raises_ret.
    apply raises_bind; [apply raises_Type | intros t].
    apply raises_bind; [apply raises_MakeSlice | intros sl]. apply raises_Set. }
  intros _. apply raises_for_each. intros i. unfold array_body.
  apply raises_bind; [apply raises_Index | intros vx].
  apply raises_bind; [apply raises_Index | intros vy].
  apply raises_bind; [apply raises_Kind | intros kx].
  assert (Other :
    raises P
      (if negb (reflect.CanAddr vx) then reflect.Set_ vy vx
       else
         (if negb (reflect.CanAddr vy)
          then (n <- reflect.Interface vx ;; reflect.Set_ vy (reflect.ValueOf n))
          else ret tt) ;;
         ax <- reflect.Addr vx ;;
         ay <- reflect.Addr vy ;;
         rc ax ay)%go).
  { destruct (negb (reflect.CanAddr vx)); [apply raises_Set|].
    apply raises_bind.
    - destruct (negb (reflect.CanAddr vy)); [|apply raises_ret].
      apply raises_bind; [apply raises_Interface | intros n; apply raises_Set].
    - intros _. apply raises_bind; [apply raises_Addr | intros ax].
      apply raises_bind; [apply raises_Addr | intros ay]. apply rc_raises. }
  destruct kx; try exact Other. apply rc_raises.
Qed.

Lemma raises_copyMap x y : raises P (deep.copyMap env rc x y).
Proof.
  rewrite copyMap_unfold.
  apply raises_bind; [apply raises_deep_if_ptr; intros; apply raises_Indirect | intros a].
  apply raises_bind; [apply raises_deep_if_ptr; intros; apply raises_Indirect | intros b].
  apply raises_bind; [apply raises_IsNil | intros isnil].
  destruct isnil; [apply raises_ret|].
  apply raises_bind; [apply raises_MapKeys | intros keys].
  apply raises_bind; [apply raises_Type | intros t].
  apply raises_bind; [apply raises_MakeMap | intros m].
  apply raises_bind; [apply raises_Set | intros _].
  apply raises_for_each. intros key. unfold map_body.
  apply raises_bind; [apply raises_MapIndex | intros vx].
  apply raises_bind; [apply raises_MapIndex | intros vy].
  apply raises_bind; [apply raises_Kind | intros kx].
  assert (Other :
    raises P
      (if negb (reflect.CanAddr vx) then reflect.SetMapIndex b key vx
       else
         let vy := if negb (reflect.CanAddr vy) then vx else vy in
         ax <- reflect.Addr vx ;;
         ay <- reflect.Addr vy ;;
         rc ax ay ;;
         reflect.SetMapIndex b key vy)%go).
  { destruct (negb (reflect.CanAddr vx)); [apply raises_SetMapIndex|]. cbv zeta.
    apply raises_bind; [apply raises_Addr | intros ax].
    apply raises_bind; [apply raises_Addr | intros ay].
    apply raises_bind; [apply rc_raises | intros _; apply raises_SetMapIndex]. }
  destruct kx; try exact Other.
  apply raises_bind; [apply raises_Elem | intros el].
  destruct (negb (reflect.IsValid el)); [apply raises_ret|].
  apply raises_bind; [apply raises_Type | intros t'].
  apply raises_bind; [apply raises_New | intros n].
  apply raises_bind; [apply raises_SetMapIndex | intros _].
  apply raises_bind; [apply raises_MapIndex | intros vy']. apply rc_raises.
Qed.

Lemma raises_lowerInitial name : raises P (deep.lowerInitial name).
Proof. unfold deep.lowerInitial. destruct name; [apply raises_throw | apply raises_ret]. Qed.

Lemma raises_copyStruct x y : raises P (deep.copyStruct env rc x y).
Proof.
  rewrite copyStruct_unfold.
  apply raises_bind; [apply raises_deep_if_ptr; intros; apply raises_Indirect | intros a].
  apply raises_bind; [apply raises_deep_if_ptr; intros; apply raises_Indirect | intros b].
  apply raises_bind; [apply raises_Kind | intros k].
  assert (Other :
    raises P
      (t <- reflect.Type_ a ;;
       n <- reflect.NumField env t ;;
       (if reflect.IsValid b then reflect.Set_ b a else ret tt) ;;
       for_each (seq 0 n) (struct_body env rc a b))%go).
  { apply raises_bind; [apply raises_Type | intros t].
    apply raises_bind.
    { unfold reflect.NumField. destruct t; try apply raises_throw. apply raises_ret. }
    intros n. apply raises_bind.
    { destruct (reflect.IsValid b); [apply raises_Set | apply raises_ret]. }
    intros _. apply raises_for_each. intros i. unfold struct_body.
    apply raises_bind; [apply raises_Type | intros t'].
    apply raises_bind.
    { unfold reflect.TypeField. destruct t'; try apply raises_throw.
      destruct (nth_error _ _); [apply raises_ret | apply raises_throw]. }
    intros st. destruct (fanon st); [apply raises_ret|].
    apply raises_bind; [apply raises_lowerInitial | intros private].
    destruct private; [apply raises_ret|].
    apply raises_bind; [apply raises_Field | intros vx].
    apply raises_bind; [apply raises_Field | intros vy].
    apply raises_bind; [apply raises_Kind | intros kx].
    assert (Rest :
      raises P
        (if negb (reflect.CanAddr vx) then reflect.Set_ vy vx
         else
           let vy := if negb (reflect.CanAddr vy) then vx else vy in
           ax <- reflect.Addr vx ;;
           ay <- reflect.Addr vy ;;
           rc ax ay)%go).
    { destruct (negb (reflect.CanAddr vx)); [apply raises_Set|]. cbv zeta.
      apply raises_bind; [apply raises_Addr | intros ax].
      apply raises_bind; [apply raises_Addr | intros ay]. apply rc_raises. }
    destruct kx; try exact Rest.
    apply raises_bind; [apply raises_Elem | intros el].
    destruct (negb (reflect.IsValid el)); [apply raises_ret|].
    apply raises_bind; [apply raises_Type | intros t''].
    apply raises_bind; [apply raises_New | intros n'].
    apply raises_bind; [apply raises_Set | intros _]. apply rc_raises. }
  destruct k; try exact Other. apply rc_raises.
Qed.

End CopyErrors.

Lemma raises_rcopy env fuel x y : raises copy_error (deep.rcopy env fuel x y).
Proof.
  revert x y. induction fuel as [|f IH]; intros x y.
  - apply raises_out_of_fuel.
  - rewrite rcopy_unfold.
    apply raises_bind; [apply raises_deep_if_ptr; intros; apply raises_Elem | intros a].
    apply raises_bind.
    { unfold rcopy_head. apply raises_deep_if_ptr. intros y'.
      apply raises_bind; [apply raises_IsNil | intros b].
      apply raises_bind; [|intros _; apply raises_Elem].
      destruct b; [|apply raises_ret].
      apply raises_bind; [apply raises_Type | intros t].
      apply raises_bind; [apply raises_ty_elem | intros e].
      apply raises_bind; [apply raises_New | intros n]. apply raises_Set. }
    intros b. unfold rcopy_switch.
    apply raises_bind; [apply raises_Kind | intros k].
    assert (Prim :
      raises copy_error
        (if negb (reflect.CanAddr a) || negb (reflect.CanAddr b)
         then reflect.Set_ b a
         else (ax <- reflect.Addr a ;; ay <- reflect.Addr b ;;
               deep.copyPrimitives ax ay))%go).
    { destruct (negb (reflect.CanAddr a) || negb (reflect.CanAddr b));
        [apply raises_Set|].
      apply raises_bind; [apply raises_Addr | intros ax].
      apply raises_bind; [apply raises_Addr | intros ay]. apply raises_copyPrimitives. }
    destruct k; try exact Prim; try (apply raises_fail; now right).
    + apply raises_bind; [apply raises_Elem | intros vx].
      apply raises_bind; [apply raises_Type | intros t].
      apply raises_bind; [apply raises_New | intros n].
      apply raises_bind; [apply raises_Set | intros _].
      apply raises_bind; [apply raises_Elem | intros vy].
      destruct (negb (reflect.CanAddr vx) || negb (reflect.CanAddr vy));
        [apply raises_Set|].
      apply raises_bind; [apply raises_Addr | intros ax].
      apply raises_bind; [apply raises_Addr | intros ay]. apply IH.
    + apply raises_bind; [apply raises_Addr | intros ax].
      apply raises_bind; [apply raises_Addr | intros ay].
      apply raises_copyArray. exact IH.
    + apply raises_bind; [apply raises_Addr | intros ax].
      apply raises_bind; [apply raises_Addr | intros ay].
      apply raises_copyMap. exact IH.
    + apply raises_bind; [apply raises_Addr | intros ax].
      apply raises_bind; [apply raises_Addr | intros ay].
      apply raises_copyStruct. exact IH.
Qed.

(** Whatever its arguments, an error that [Copy] returns is
    [ErrNonPointer] or [ErrUnsupported]: [ErrDifferentKinds] is never
    returned, the check that would return it comes after both kinds have
    been found to be [Ptr]. *)
Theorem Copy_never_returns_ErrDifferentKinds env fuel x y :
  raises copy_error (deep.Copy env fuel x y).
Proof.
  unfold deep.Copy.
  apply raises_bind; [apply raises_Kind | intros kx].
  destruct kx; try (apply raises_fail; now left).
  apply raises_bind; [apply raises_IsNil | intros b].
  destruct b; [apply raises_ret|].
  apply raises_bind; [apply raises_Kind | intros ky].
  destruct ky; try (apply raises_fail; now left).
  cbn [kind_eqb negb]. apply raises_rcopy.
Qed.

(* ================================================================== *)
(** ** add and replace on a map                                        *)
(* ================================================================== *)

Lemma alist_get_del_same kvs k : alist_get (alist_del kvs k) k = None.
Proof.
  induction kvs as [|[k' v] r IH]; simpl; [reflexivity|].
  destruct (String.eqb k k') eqn:E; [exact IH|]. simpl. now rewrite E.
Qed.

Lemma alist_get_del_other kvs k k' :
  k' <> k -> alist_get (alist_del kvs k) k' = alist_get kvs k'.
Proof.
  intros N. induction kvs as [|[k0 v0] r IH]; simpl; [reflexivity|].
  destruct (String.eqb k k0) eqn:E; simpl.
  - apply String.eqb_eq in E. subst k0.
    destruct (String.eqb k' k) eqn:E'; [apply String.eqb_eq in E'; congruence | exact IH].
  - now rewrite IH.
Qed.

Lemma SetMapIndex_delete h q t l kvs key h' :
  load h q = Some (VMap t (Some l)) ->
  nth_error h l = Some (OMap kvs) ->
  list_set h l (OMap (alist_del kvs key)) = Some h' ->
  reflect.SetMapIndex (reflect.Var false q) key reflect.Invalid h = Ok tt h'.
Proof.
  intros E El Es. unfold reflect.SetMapIndex.
  step (get_var _ false _ _ E). cbn [reflect.flagRO].
  step (read_map_ok _ _ _ El). unfold write_map. now rewrite El, Es.
Qed.

Lemma Interface_imm v h :
  reflect.Interface (reflect.Imm false v) h = Ok (Some v) h.
Proof. reflexivity. Qed.

(** The head of [add] on a map: a nil map is replaced by a fresh empty
    one; afterwards the variable holds a map with the table [kvs]. *)
Lemma add_map_head q t m kvs h :
  load h q = Some (VMap t m) ->
  map_holds h m kvs ->
  exists h1 l,
    (isnil <- reflect.IsNil (reflect.Var false q) ;;
     (if isnil
      then (t <- reflect.Type_ (reflect.Var false q) ;;
            m <- reflect.MakeMap t ;; reflect.Set_ (reflect.Var false q) m)
      else ret tt))%go h = Ok tt h1
    /\ load h1 q = Some (VMap t (Some l))
    /\ nth_error h1 l = Some (OMap kvs)
    /\ (forall l', (l' < List.length h)%nat -> l' <> ploc q ->
                   nth_error h1 l' = nth_error h l')
    /\ (match m with Some l0 => h1 = h /\ l = l0 | None => l = List.length h end).
Proof.
  intros L Mh. destruct m as [l|]; cbn [map_holds] in Mh.
  - exists h, l. split; [|auto].
    step (IsNil_map_var false _ _ _ _ L). reflexivity.
  - subst kvs.
    destruct (store_some h q _ (VMap t (Some (List.length h))) L) as [h0 S].
    exists (h0 ++ [OMap []]), (List.length h). split; [|split; [|split; [|split]]].
    + step (IsNil_map_var false _ _ _ _ L). cbv iota.
      step (Type_var _ false _ _ L). cbn [type_of].
      step (MakeMap_ok t h).
      exact (Set_var _ _ _ (VMap t (Some (List.length h))) _
               (load_app _ [OMap []] _ _ L) eq_refl (store_app _ [OMap []] _ _ _ S)).
    + apply load_app. eapply load_store_same; eauto.
    + rewrite <- (store_length _ _ _ _ S). apply nth_error_last.
    + intros l' Hl Hq. rewrite nth_error_app1 by (rewrite (store_length _ _ _ _ S); lia).
      eapply nth_error_store_other; eauto.
    + reflexivity.
Qed.

(** [add] on a map, nil or not, with a value of the element type (a
    string, a boolean or a float64): afterwards the variable holds a map
    in which the key is bound to the decoded value and every other key is
    bound as before; a nil map has been replaced by a fresh one; no other
    object of the heap has changed. *)
Theorem add_on_map env node p q t m kvs j e h :
  load h q = Some (VMap t m) ->
  map_holds h m kvs ->
  jsonpatch.Value p = Some j ->
  json.generic j = Some e ->
  type_of e = t ->
  exists h' l,
    jsonpatch.add env node p (handle (TMap t) q) h = Ok tt h'
    /\ load h' q = Some (VMap t (Some l))
    /\ nth_error h' l = Some (OMap (alist_put kvs node e))
    /\ alist_get (alist_put kvs node e) node = Some e
    /\ (forall k, k <> node -> alist_get (alist_put kvs node e) k = alist_get kvs k)
    /\ (forall l', (l' < List.length h)%nat -> l' <> ploc q -> l' <> l ->
                   nth_error h' l' = nth_error h l').
Proof.
  intros L Mh Hv G T.
  destruct (add_map_head q t m kvs h L Mh) as (h1 & l & Hd & L1 & N1 & Fr & _).
  destruct (zero_scalar env t e j G T) as (Tz & Nz & _).
  destruct (list_set_some h1 l (OMap (alist_put kvs node e))) as [h' S].
  { apply nth_error_Some. congruence. }
  exists h', l. split; [|split; [|split; [|split; [|split]]]].
  - unfold jsonpatch.add.
    step (fresh_if_nil_handle env (TMap t) q h _ L).
    step (Kind_var _ false _ _ L). cbn [kind_of_ty type_of].
    rewrite <- bind_assoc. step Hd.
    step (Type_var _ false _ _ L1). cbn [type_of ty_elem]. rewrite bind_ret.
    unfold reflect.Zero. step (Interface_imm (zero env t) h1). rewrite Hv.
    step (UnmarshalIface_scalar env j e (zero env t) h1 G Nz).
    exact (SetMapIndex_var h1 q t l kvs node e h' L1 N1 T S).
  - unfold load in *. rewrite (nth_error_list_set _ _ _ _ (ploc q) S).
    destruct (Nat.eqb_spec (ploc q) l) as [E|E]; [|exact L1].
    rewrite E, N1 in L1. discriminate.
  - rewrite (nth_error_list_set _ _ _ _ l S), Nat.eqb_refl. reflexivity.
  - apply alist_get_put_same.
  - intros k Hk. now apply alist_get_put_other.
  - intros l' Hl Hq Hn. rewrite (nth_error_list_set _ _ _ _ l' S).
    destruct (Nat.eqb_spec l' l); [contradiction|]. now apply Fr.
Qed.

(** The add of [TestAdd] on the nil [u.M]: [{"op": "add", "path": "/m/a",
    "value": "hello world"}]. *)
Lemma add_on_map_witness :
  let q := mkPlace 0 [5%nat] in
  let p := Ex.op "add" "/m/a" (Ex.str "hello world") in
  load Ex.calvin q = Some (VMap TString None)
  /\ map_holds Ex.calvin None []
  /\ jsonpatch.Value p = Some (json.Str "hello world")
  /\ json.generic (json.Str "hello world") = Some (VString "hello world")
  /\ exists h' l,
       jsonpatch.add Ex.env "a" p (handle (TMap TString) q) Ex.calvin = Ok tt h'
       /\ load h' q = Some (VMap TString (Some l))
       /\ nth_error h' l = Some (OMap [("a", VString "hello world")]).
Proof.
  cbv zeta. split; [reflexivity|]. split; [reflexivity|].
  split; [reflexivity|]. split; [reflexivity|].
  destruct (add_on_map Ex.env "a" (Ex.op "add" "/m/a" (Ex.str "hello world"))
              (mkPlace 0 [5%nat]) TString None [] (json.Str "hello world")
              (VString "hello world") Ex.calvin eq_refl eq_refl eq_refl eq_refl eq_refl)
    as (h' & l & A & B & C & _).
  exists h', l. auto.
Defined.

Lemma UnmarshalIface_null env n h :
  (forall a b, n <> VPtr a (Some b)) ->
  json.UnmarshalIface env (Some json.Null) (Some n) h = Ok None h.
Proof.
  intros N. unfold json.UnmarshalIface.
  destruct n as [| | | |a [b|]| | | |]; try reflexivity. now destruct (N a b).
Qed.

Lemma zero_not_pointer env t a b : zero env t <> VPtr a (Some b).
Proof.
  destruct t; try (destruct env as [|[]]; discriminate).
  revert name. induction env as [|[m fs] env' IH]; intros name; cbn [zero].
  - discriminate.
  - destruct (String.eqb name m); [discriminate|].
    destruct env' as [|[m' fs'] env'']; [discriminate|]. apply IH.
Qed.

(** The literal [null] deletes.  [add] on a map with the value [null]
    removes the key from the table, whatever the element type, and so does
    [replace] on a key whose value is not a pointer: the decoded [nil]
    reaches [SetMapIndex] as the zero Value.  ([remove], for its part,
    keeps the key.) *)
Theorem null_deletes_map_key env node p q t l kvs h :
  load h q = Some (VMap t (Some l)) ->
  nth_error h l = Some (OMap kvs) ->
  jsonpatch.Value p = Some json.Null ->
  exists h',
    list_set h l (OMap (alist_del kvs node)) = Some h'
    /\ alist_get (alist_del kvs node) node = None
    /\ (forall k, k <> node -> alist_get (alist_del kvs node) k = alist_get kvs k)
    /\ jsonpatch.add env node p (handle (TMap t) q) h = Ok tt h'
    /\ (forall e, alist_get kvs node = Some e ->
                  (forall a b, e <> VPtr a (Some b)) ->
                  jsonpatch.replace env node p (handle (TMap t) q) h = Ok tt h').
Proof.
  intros L N Hv.
  destruct (list_set_some h l (OMap (alist_del kvs node))) as [h' S].
  { apply nth_error_Some. congruence. }
  exists h'. split; [exact S|]. split; [apply alist_get_del_same|].
  split; [intros k Hk; now apply alist_get_del_other|]. split.
  - unfold jsonpatch.add.
    step (fresh_if_nil_handle env (TMap t) q h _ L).
    step (Kind_var _ false _ _ L). cbn [kind_of_ty type_of].
    step (IsNil_map_var false _ _ _ _ L). cbv iota. rewrite bind_ret.
    step (Type_var _ false _ _ L). cbn [type_of ty_elem]. rewrite bind_ret.
    unfold reflect.Zero. step (Interface_imm (zero env t) h). rewrite Hv.
    step (UnmarshalIface_null env (zero env t) h (zero_not_pointer env t)).
    exact (SetMapIndex_delete h q t l kvs node h' L N S).
  - intros e G Ne. unfold jsonpatch.replace.
    destruct (if_ptr_handle (TMap t) q h _ L) as (E1 & _ & E2).
    step E1. step E2. cbn [kind_of_ty type_of].
    step (MapIndex_var h false q t l kvs node L N). rewrite G.
    cbn [reflect.IsValid negb]. step (Interface_imm e h). rewrite Hv.
    step (UnmarshalIface_null env e h Ne).
    exact (SetMapIndex_delete h q t l kvs node h' L N S).
Qed.

(** The same on [u.M] of [TestReplace]: [{"op": "add", "path": "/m/a",
    "value": null}] empties the map. *)
Lemma null_deletes_map_key_witness :
  let h := Ex.hobbes "12830921" in
  let q := mkPlace 0 [5%nat] in
  let p := Ex.op "add" "/m/a" (Some json.Null) in
  load h q = Some (VMap TString (Some 3%nat))
  /\ nth_error h 3 = Some (OMap [("a", VString "hello")])
  /\ jsonpatch.Value p = Some json.Null
  /\ exists h',
       jsonpatch.add Ex.env "a" p (handle (TMap TString) q) h = Ok tt h'
       /\ jsonpatch.replace Ex.env "a" p (handle (TMap TString) q) h = Ok tt h'
       /\ nth_error h' 3 = Some (OMap []).
Proof.
  cbv zeta. split; [reflexivity|]. split; [reflexivity|]. split; [reflexivity|].
  destruct (null_deletes_map_key Ex.env "a" (Ex.op "add" "/m/a" (Some json.Null))
              (mkPlace 0 [5%nat]) TString 3%nat [("a", VString "hello")]
              (Ex.hobbes "12830921") eq_refl eq_refl eq_refl)
    as (h' & S & _ & _ & A & R).
  exists h'. split; [exact A|]. split.
  - apply (R (VString "hello")); [reflexivity | discriminate].
  - rewrite (nth_error_list_set _ _ _ _ 3%nat S). reflexivity.
Defined.

(** [replace] on a map.  When the key is bound to a value that is not a
    pointer and the literal decodes to a value of the element type, the
    key is bound to that value afterwards, the keys of the table and the
    other bindings are as before, and no other object has changed.  When
    the key is not bound (or the map is nil), [replace] returns "map
    element not found" and leaves the heap as it is. *)
Theorem replace_on_map env node p q t m kvs h :
  load h q = Some (VMap t m) ->
  map_holds h m kvs ->
  (alist_get kvs node = None ->
   jsonpatch.replace env node p (handle (TMap t) q) h
   = Err (ErrNew "map element not found") h)
  /\ (forall old j e l,
        alist_get kvs node = Some old ->
        (forall a b, old <> VPtr a (Some b)) ->
        jsonpatch.Value p = Some j ->
        json.generic j = Some e ->
        type_of e = t ->
        m = Some l ->
        exists h',
          jsonpatch.replace env node p (handle (TMap t) q) h = Ok tt h'
          /\ list_set h l (OMap (alist_put kvs node e)) = Some h'
          /\ alist_get (alist_put kvs node e) node = Some e
          /\ map fst (alist_put kvs node e) = map fst kvs
          /\ (forall k, k <> node ->
                alist_get (alist_put kvs node e) k = alist_get kvs k)).
Proof.
  intros L Mh.
  destruct (if_ptr_handle (TMap t) q h _ L) as (E1 & _ & E2).
  split.
  - intros G. unfold jsonpatch.replace. step E1. step E2. cbn [kind_of_ty type_of].
    destruct m as [l|]; cbn [map_holds] in Mh.
    + step (MapIndex_var h false q t l kvs node L Mh). rewrite G. reflexivity.
    + unfold reflect.MapIndex. rewrite bind_assoc.
      step (get_var _ false _ _ L). reflexivity.
  - intros old j e l G Ne Hv Gj T ->. cbn [map_holds] in Mh.
    destruct (list_set_some h l (OMap (alist_put kvs node e))) as [h' S].
    { apply nth_error_Some. congruence. }
    exists h'. split; [|split; [exact S|split; [apply alist_get_put_same|split]]].
    + unfold jsonpatch.replace. step E1. step E2. cbn [kind_of_ty type_of].
      step (MapIndex_var h false q t l kvs node L Mh). rewrite G.
      cbn [reflect.IsValid negb]. step (Interface_imm old h). rewrite Hv.
      step (UnmarshalIface_scalar env j e old h Gj Ne).
      exact (SetMapIndex_var h q t l kvs node e h' L Mh T S).
    + eapply alist_put_keys; eauto.
    + intros k Hk. now apply alist_get_put_other.
Qed.

(** The replace of [TestReplace] on [u.M], and a replace of a key that is
    not there. *)
Lemma replace_on_map_witness :
  let h := Ex.hobbes "12830921" in
  let q := mkPlace 0 [5%nat] in
  let p := Ex.op "replace" "/m/a" (Ex.str "hello world") in
  load h q = Some (VMap TString (Some 3%nat))
  /\ map_holds h (Some 3%nat) [("a", VString "hello")]
  /\ jsonpatch.replace Ex.env "zzz" p (handle (TMap TString) q) h
     = Err (ErrNew "map element not found") h
  /\ exists h',
       jsonpatch.replace Ex.env "a" p (handle (TMap TString) q) h = Ok tt h'
       /\ nth_error h' 3 = Some (OMap [("a", VString "hello world")]).
Proof.
  cbv zeta.
  pose proof (fun node =>
    replace_on_map Ex.env node (Ex.op "replace" "/m/a" (Ex.str "hello world"))
      (mkPlace 0 [5%nat]) TString (Some 3%nat) [("a", VString "hello")]
      (Ex.hobbes "12830921") eq_refl eq_refl) as T.
  split; [reflexivity|]. split; [reflexivity|]. split.
  - apply (proj1 (T "zzz")). reflexivity.
  - destruct (proj2 (T "a") (VString "hello") (json.Str "hello world")
                (VString "hello world") 3%nat eq_refl) as (h' & R & S & _);
      try reflexivity; [discriminate|].
    exists h'. split; [exact R|].
    rewrite (nth_error_list_set _ _ _ _ 3%nat S). reflexivity.
Defined.

(* ================================================================== *)
(** ** The operations on a struct field                                *)
(* ================================================================== *)

Lemma store_at_literal env w j h z :
  literal w = Some j ->
  json.store_at env (type_of w) (mkPlace (List.length h) []) j (h ++ [OVar z])
  = Ok tt (h ++ [OVar w]).
Proof.
  intros Lw.
  destruct w as [b|x|x|s| | | | |]; cbn [literal] in Lw; try discriminate;
    try (injection Lw as <-; cbn [type_of json.store_at]; unfold write;
         now rewrite store_fresh_var).
  destruct (Str.in_int x) eqn:I; [|discriminate]. injection Lw as <-.
  cbn [type_of json.store_at]. rewrite I. unfold write. now rewrite store_fresh_var.
Qed.

Lemma store_at_null env t h :
  json.store_at env t (mkPlace (List.length h) []) json.Null (h ++ [OVar (zero env t)])
  = Ok tt (h ++ [OVar (zero env t)]).
Proof.
  destruct t; cbn [json.store_at]; try reflexivity;
    unfold write; rewrite store_fresh_var;
    first [rewrite zero_ptr | rewrite zero_slice | rewrite zero_map]; reflexivity.
Qed.

Lemma store_at_mismatch env old j h :
  (forall a b, old <> VPtr a b) ->
  j <> json.Null ->
  (forall w, literal w = Some j -> type_of w <> type_of old) ->
  json.store_at env (type_of old) (mkPlace (List.length h) []) j
    (h ++ [OVar (zero env (type_of old))])
  = Err JsonTypeError (h ++ [OVar (zero env (type_of old))]).
Proof.
  intros Np Nn Nl.
  destruct old as [b|x|x|s|a c| | | |]; cbn [type_of json.store_at];
    try (now destruct (Np a c));
    destruct j as [|b'|z'|s']; try reflexivity; try congruence.
  - now destruct (Nl (VBool b') eq_refl).
  - destruct (Str.in_int z') eqn:I; [|reflexivity].
    destruct (Nl (VInt z')); [cbn [literal]; now rewrite I | reflexivity].
  - now destruct (Nl (VFloat z') eq_refl).
  - now destruct (Nl (VString s') eq_refl).
Qed.

Lemma field_set_by_store h q n fs i w h1 E :
  load h q = Some (VStruct n fs) ->
  store h (sub q i) w = Some h1 ->
  field_set h q n fs i w (h1 ++ E).
Proof.
  intros L S. destruct (store_field _ _ _ _ _ _ _ L S) as (fs' & Ls & _ & L1).
  exists fs'. split; [exact Ls|]. split; [now apply load_app|].
  intros l Hl Hq. rewrite nth_error_app1 by (rewrite (store_length _ _ _ _ S); lia).
  eapply nth_error_store_other; eauto.
Qed.

(** [replace] on an exported struct field, found under
    [strings.Title(node)].  The literal of a scalar value of the field's
    type makes the field that value; the literal [null] makes it the zero
    value of its type; any other literal, on a field that is not a
    pointer, is refused with a type error of [encoding/json] and the
    struct is left as it was. *)
Theorem replace_on_struct_field env node p q n fs i fd old h :
  load h q = Some (VStruct n fs) ->
  reflect.field_index (fields_of env n) (Str.Title node) 0 = Some i ->
  nth_error (fields_of env n) i = Some fd ->
  reflect.exported (fname fd) = true ->
  nth_error fs i = Some old ->
  (forall w j,
     literal w = Some j -> type_of w = type_of old -> jsonpatch.Value p = Some j ->
     exists h',
       jsonpatch.replace env node p (handle (TStruct n) q) h = Ok tt h'
       /\ field_set h q n fs i w h')
  /\ (jsonpatch.Value p = Some json.Null ->
      exists h',
        jsonpatch.replace env node p (handle (TStruct n) q) h = Ok tt h'
        /\ field_set h q n fs i (zero env (type_of old)) h')
  /\ (forall j,
        jsonpatch.Value p = Some j -> j <> json.Null ->
        (forall a b, old <> VPtr a b) ->
        (forall w, literal w = Some j -> type_of w <> type_of old) ->
        exists h',
          jsonpatch.replace env node p (handle (TStruct n) q) h = Err JsonTypeError h'
          /\ load h' q = Some (VStruct n fs)).
Proof.
  intros L Fi Nf Ex Nv.
  assert (Lc : load h (sub q i) = Some old) by (rewrite (load_sub _ _ _ _ i L); exact Nv).
  set (t := type_of old).
  assert (Head : forall j,
    jsonpatch.Value p = Some j ->
    jsonpatch.replace env node p (handle (TStruct n) q) h
    = (json.store_at env t (mkPlace (List.length h) []) j ;;
       e <- reflect.Elem (reflect.Imm false (VPtr t (Some (mkPlace (List.length h) [])))) ;;
       reflect.Set_ (reflect.Var false (sub q i)) e)%go (h ++ [OVar (zero env t)])).
  { intros j Hv. unfold jsonpatch.replace.
    destruct (if_ptr_handle (TStruct n) q h _ L) as (E1 & _ & E2).
    step E1. step E2. cbn [kind_of_ty type_of].
    step (FieldByName_var env h q n fs _ i fd old L Fi Nf Nv Ex).
    step (Type_var _ false _ _ Lc). fold t.
    step (New_ok env t h).
    step (Interface_imm (VPtr t (Some (mkPlace (List.length h) [])))
            (h ++ [OVar (zero env t)])).
    rewrite Hv. reflexivity. }
  assert (Tail : forall w,
    type_of w = t ->
    exists h',
      (e <- reflect.Elem (reflect.Imm false (VPtr t (Some (mkPlace (List.length h) [])))) ;;
       reflect.Set_ (reflect.Var false (sub q i)) e)%go (h ++ [OVar w]) = Ok tt h'
      /\ field_set h q n fs i w h').
  { intros w Tw.
    destruct (store_some h (sub q i) old w Lc) as [h1 S].
    exists (h1 ++ [OVar w]). split; [|now apply field_set_by_store].
    step (Elem_imm false t (mkPlace (List.length h) []) (h ++ [OVar w])).
    apply (Set_from_var _ _ old _ w).
    - now apply load_app.
    - apply load_fresh_var.
    - now rewrite Tw.
    - now apply store_app. }
  split; [|split].
  - intros w j Lw Tw Hv. rewrite (Head j Hv).
    destruct (Tail w Tw) as (h' & R & Fs). exists h'. split; [|exact Fs].
    rewrite <- Tw. step (store_at_literal env w j h (zero env (type_of w)) Lw).
    rewrite Tw. exact R.
  - intros Hv. rewrite (Head _ Hv).
    destruct (Tail (zero env t) (type_of_zero env t)) as (h' & R & Fs).
    exists h'. split; [|exact Fs]. step (store_at_null env t h). exact R.
  - intros j Hv Nn Np Nl. rewrite (Head j Hv).
    exists (h ++ [OVar (zero env t)]). split; [|now apply load_app].
    unfold bind. subst t. now rewrite (store_at_mismatch env old j h Np Nn Nl).
Qed.

(** The replaces of [TestReplace] on [u.Name] and [u.Age], a replace with
    [null], and a replace of [u.Age] with a string. *)
Lemma replace_on_struct_field_witness :
  let h := Ex.hobbes "12830921" in
  let x := handle (TStruct "testUser") (mkPlace 0 []) in
  (exists h',
     jsonpatch.replace Ex.env "name" (Ex.op "replace" "/name" (Ex.str "Calvin")) x h
     = Ok tt h'
     /\ load h' (mkPlace 0 [0%nat]) = Some (VString "Calvin"))
  /\ (exists h',
        jsonpatch.replace Ex.env "age" (Ex.op "replace" "/age" (Ex.num 6)) x h = Ok tt h'
        /\ load h' (mkPlace 0 [1%nat]) = Some (VInt 6))
  /\ (exists h',
        jsonpatch.replace Ex.env "name" (Ex.op "replace" "/name" (Some json.Null)) x h
        = Ok tt h'
        /\ load h' (mkPlace 0 [0%nat]) = Some (VString ""))
  /\ (exists h',
        jsonpatch.replace Ex.env "age" (Ex.op "replace" "/age" (Ex.str "six")) x h
        = Err JsonTypeError h'
        /\ load h' (mkPlace 0 [1%nat]) = Some (VInt 100)).
Proof.
  cbv zeta.
  pose proof (fun node p i fd old =>
    replace_on_struct_field Ex.env node p (mkPlace 0 []) "testUser" _ i fd old
      (Ex.hobbes "12830921") eq_refl) as T.
  assert (F : forall h' fs' w i,
            load h' (mkPlace 0 []) = Some (VStruct "testUser" fs') ->
            nth_error fs' i = Some w -> load h' (mkPlace 0 [i]) = Some w).
  { intros h' fs' w i Lq N. rewrite <- N. exact (load_sub h' (mkPlace 0 []) _ _ i Lq). }
  split; [|split; [|split]].
  - destruct (proj1 (T "name" (Ex.op "replace" "/name" (Ex.str "Calvin")) 0%nat
                       (mkField "Name" "" TString false) (VString "hobbes")
                       eq_refl eq_refl eq_refl eq_refl)
                (VString "Calvin") (json.Str "Calvin") eq_refl eq_refl eq_refl)
      as (h' & R & fs' & Ls & Lq & _).
    exists h'. split; [exact R|]. injection Ls as <-. exact (F _ _ _ 0%nat Lq eq_refl).
  - destruct (proj1 (T "age" (Ex.op "replace" "/age" (Ex.num 6)) 1%nat
                       (mkField "Age" "" TInt false) (VInt 100)
                       eq_refl eq_refl eq_refl eq_refl)
                (VInt 6) (json.Number 6) eq_refl eq_refl eq_refl)
      as (h' & R & fs' & Ls & Lq & _).
    exists h'. split; [exact R|]. injection Ls as <-. exact (F _ _ _ 1%nat Lq eq_refl).
  - destruct (proj1 (proj2 (T "name" (Ex.op "replace" "/name" (Some json.Null)) 0%nat
                       (mkField "Name" "" TString false) (VString "hobbes")
                       eq_refl eq_refl eq_refl eq_refl)) eq_refl)
      as (h' & R & fs' & Ls & Lq & _).
    exists h'. split; [exact R|]. injection Ls as <-. exact (F _ _ _ 0%nat Lq eq_refl).
  - destruct (proj2 (proj2 (T "age" (Ex.op "replace" "/age" (Ex.str "six")) 1%nat
                       (mkField "Age" "" TInt false) (VInt 100)
                       eq_refl eq_refl eq_refl eq_refl)) (json.Str "six") eq_refl)
      as (h' & R & Lq); try discriminate.
    + intros w Lw. destruct w; try discriminate Lw; try discriminate.
      cbn [literal] in Lw. destruct (Str.in_int z); discriminate Lw.
    + exists h'. split; [exact R|]. exact (F _ _ _ 1%nat Lq eq_refl).
Defined.

(** [remove] on an exported struct field, found under
    [strings.Title(node)]: the field is reset to the zero value of its
    type, the other fields and the other objects are left as they are,
    and nothing is allocated. *)
Theorem remove_on_struct_field env node p q n fs i fd old h :
  load h q = Some (VStruct n fs) ->
  reflect.field_index (fields_of env n) (Str.Title node) 0 = Some i ->
  nth_error (fields_of env n) i = Some fd ->
  reflect.exported (fname fd) = true ->
  nth_error fs i = Some old ->
  exists h',
    jsonpatch.remove env node p (handle (TStruct n) q) h = Ok tt h'
    /\ store h (sub q i) (zero env (type_of old)) = Some h'
    /\ field_set h q n fs i (zero env (type_of old)) h'.
Proof.
  intros L Fi Nf Ex Nv.
  assert (Lc : load h (sub q i) = Some old) by (rewrite (load_sub _ _ _ _ i L); exact Nv).
  destruct (store_some h (sub q i) old (zero env (type_of old)) Lc) as [h1 S].
  exists h1. split; [|split; [exact S|]].
  - unfold jsonpatch.remove.
    destruct (if_ptr_handle (TStruct n) q h _ L) as (_ & E1 & E2).
    step E1. step E2. cbn [kind_of_ty type_of].
    step (FieldByName_var env h q n fs _ i fd old L Fi Nf Nv Ex).
    step (Type_var _ false _ _ Lc). unfold reflect.Zero.
    apply (Set_var _ _ old); [exact Lc | now rewrite type_of_zero | exact S].
  - rewrite <- (app_nil_r h1). now apply field_set_by_store.
Qed.

(** The removes of [TestRemove] on [u.Name] and [u.Age]. *)
Lemma remove_on_struct_field_witness :
  let h := Ex.hobbes "12830921" in
  let x := handle (TStruct "testUser") (mkPlace 0 []) in
  (exists h',
     jsonpatch.remove Ex.env "name" (Ex.op "remove" "/name" None) x h = Ok tt h'
     /\ store h (mkPlace 0 [0%nat]) (VString "") = Some h')
  /\ (exists h',
        jsonpatch.remove Ex.env "age" (Ex.op "remove" "/age" None) x h = Ok tt h'
        /\ store h (mkPlace 0 [1%nat]) (VInt 0) = Some h').
Proof.
  cbv zeta. split.
  - destruct (remove_on_struct_field Ex.env "name" (Ex.op "remove" "/name" None)
                (mkPlace 0 []) "testUser" _ 0%nat (mkField "Name" "" TString false)
                (VString "hobbes") (Ex.hobbes "12830921")
                eq_refl eq_refl eq_refl eq_refl eq_refl) as (h' & R & S & _).
    exists h'. split; [exact R | exact S].
  - destruct (remove_on_struct_field Ex.env "age" (Ex.op "remove" "/age" None)
                (mkPlace 0 []) "testUser" _ 1%nat (mkField "Age" "" TInt false)
                (VInt 100) (Ex.hobbes "12830921")
                eq_refl eq_refl eq_refl eq_refl eq_refl) as (h' & R & S & _).
    exists h'. split; [exact R | exact S].
Defined.

(** The four operations look the terminal segment up under
    [strings.Title(node)] only.  When the struct has no field of that
    name, each of them takes the zero Value for the field and panics on
    it: none returns [ErrIncorrectIndex]. *)
Theorem unresolved_field_panics env fuel node p q n fs h :
  load h q = Some (VStruct n fs) ->
  reflect.field_index (fields_of env n) (Str.Title node) 0 = None ->
  jsonpatch.add env node p (handle (TStruct n) q) h = Panic PZeroValue
  /\ jsonpatch.replace env node p (handle (TStruct n) q) h = Panic PZeroValue
  /\ jsonpatch.remove env node p (handle (TStruct n) q) h = Panic PZeroValue
  /\ jsonpatch.test env fuel node p (handle (TStruct n) q) h = Panic PZeroValue.
Proof.
  intros L Fi.
  assert (F : reflect.FieldByName env (reflect.Var false q) (Str.Title node) h
              = Ok reflect.Invalid h).
  { unfold reflect.FieldByName. step (get_var _ false _ _ L). now rewrite Fi. }
  destruct (if_ptr_handle (TStruct n) q h _ L) as (E1 & E2 & E3).
  split; [|split; [|split]].
  - unfold jsonpatch.add.
    step (fresh_if_nil_handle env (TStruct n) q h _ L).
    step E3. cbn [kind_of_ty type_of]. step F. reflexivity.
  - unfold jsonpatch.replace. step E1. step E3. cbn [kind_of_ty type_of].
    step F. reflexivity.
  - unfold jsonpatch.remove. step E2. step E3. cbn [kind_of_ty type_of].
    step F. reflexivity.
  - unfold jsonpatch.test. step E2. unfold jsonpatch.test_child.
    rewrite bind_assoc. step E3. cbn [kind_of_ty type_of].
    rewrite bind_assoc. step F. reflexivity.
Qed.

(** The same on the [u] of [TestReplace] with the segment ["e-mail"],
    which [bestMatch] resolves to [Email]. *)
Lemma unresolved_field_panics_witness :
  let h := Ex.hobbes "12830921" in
  let x := handle (TStruct "testUser") (mkPlace 0 []) in
  let p := Ex.op "replace" "/e-mail" (Ex.str "x") in
  jsonpatch.bestMatch Ex.env "e-mail" (TStruct "testUser") h = Ok "Email" h
  /\ reflect.field_index (fields_of Ex.env "testUser") (Str.Title "e-mail") 0 = None
  /\ jsonpatch.add Ex.env "e-mail" p x h = Panic PZeroValue
  /\ jsonpatch.replace Ex.env "e-mail" p x h = Panic PZeroValue
  /\ jsonpatch.remove Ex.env "e-mail" p x h = Panic PZeroValue
  /\ jsonpatch.test Ex.env Ex.fuel "e-mail" p x h = Panic PZeroValue.
Proof.
  cbv zeta. split; [reflexivity|]. split; [reflexivity|].
  exact (unresolved_field_panics Ex.env Ex.fuel "e-mail"
           (Ex.op "replace" "/e-mail" (Ex.str "x")) (mkPlace 0 []) "testUser" _
           (Ex.hobbes "12830921") eq_refl eq_refl).
Defined.

(** On a struct field that is not a nil pointer, [add] is [replace]: the
    two functions differ only in what they do with a nil pointer. *)
Theorem add_is_replace_on_struct_field env node p q n fs i fd old h :
  load h q = Some (VStruct n fs) ->
  reflect.field_index (fields_of env n) (Str.Title node) 0 = Some i ->
  nth_error (fields_of env n) i = Some fd ->
  nth_error fs i = Some old ->
  (forall t, old <> VPtr t None) ->
  jsonpatch.add env node p (handle (TStruct n) q) h
  = jsonpatch.replace env node p (handle (TStruct n) q) h.
Proof.
  intros L Fi Nf Nv Nn.
  assert (Lc : load h (sub q i) = Some old) by (rewrite (load_sub _ _ _ _ i L); exact Nv).
  set (ro := negb (reflect.exported (fname fd))).
  assert (F : reflect.FieldByName env (reflect.Var false q) (Str.Title node) h
              = Ok (reflect.Var ro (sub q i)) h).
  { unfold reflect.FieldByName. step (get_var _ false _ _ L). rewrite Fi.
    unfold reflect.Field. step (get_var _ false _ _ L). now rewrite Nf, Nv. }
  destruct (if_ptr_handle (TStruct n) q h _ L) as (E1 & _ & E3).
  unfold jsonpatch.add, jsonpatch.replace.
  step (fresh_if_nil_handle env (TStruct n) q h _ L). step E1.
  step E3. step E3. cbn [kind_of_ty type_of]. step F. step F.
  step (Kind_var _ ro _ _ Lc).
  destruct old as [b|z|z|s|t [c|]|t sl|t m|n' fs'|t]; cbn [kind_of_ty type_of];
    try (rewrite bind_ret; reflexivity).
  - step (IsNil_ptr_var ro _ _ _ _ Lc). reflexivity.
  - now destruct (Nn t).
Qed.

(** The same on [u.Name] of [TestReplace]. *)
Lemma add_is_replace_witness :
  let h := Ex.hobbes "12830921" in
  let x := handle (TStruct "testUser") (mkPlace 0 []) in
  let p := Ex.op "add" "/name" (Ex.str "Calvin") in
  (forall t, VString "hobbes" <> VPtr t None)
  /\ jsonpatch.add Ex.env "name" p x h = jsonpatch.replace Ex.env "name" p x h.
Proof.
  cbv zeta. split; [discriminate|].
  eapply (add_is_replace_on_struct_field Ex.env "name"
            (Ex.op "add" "/name" (Ex.str "Calvin")) (mkPlace 0 []) "testUser")
    with (i := 0%nat) (fd := mkField "Name" "" TString false) (old := VString "hobbes");
    try reflexivity. discriminate.
Defined.

(* ================================================================== *)
(** ** test                                                            *)
(* ================================================================== *)

Lemma place_eqb_refl p : place_eqb p p = true.
Proof.
  unfold place_eqb. rewrite Nat.eqb_refl.
  now destruct (list_eq_dec Nat.eq_dec (ppath p) (ppath p)).
Qed.

Lemma deep_eq_generic fuel h j x e :
  json.generic j = Some x ->
  (forall a b, e <> VPtr a (Some b)) ->
  deep_eq (S fuel) h x e = Some true <-> x = e.
Proof.
  intros G Ne. cbn [deep_eq]. unfold deep_eq_step.
  destruct j as [|b|z|s]; cbn [json.generic] in G; try discriminate;
    injection G as <-;
    destruct e as [b'|z'|z'|s'|t [c|]|t sl|t m|n fs|t]; cbn [type_of ty_eqb negb];
    try (split; [discriminate | discriminate]).
  - destruct (Bool.eqb b b') eqn:E.
    + apply Bool.eqb_prop in E. subst. now split.
    + split; [discriminate|]. intros [= ->]. now rewrite Bool.eqb_reflx in E.
  - destruct (Z.eqb_spec z z'); [subst; now split|].
    split; [discriminate | congruence].
  - destruct (String.eqb_spec s s'); [subst; now split|].
    split; [discriminate | congruence].
Qed.

Lemma deep_eq_generic_total fuel h j x e :
  json.generic j = Some x ->
  (forall a b, e <> VPtr a (Some b)) ->
  exists r, deep_eq (S fuel) h x e = Some r.
Proof.
  intros G Ne. cbn [deep_eq]. unfold deep_eq_step.
  destruct j as [|b|z|s]; cbn [json.generic] in G; try discriminate;
    injection G as <-;
    destruct e as [b'|z'|z'|s'|t [c|]|t sl|t m|n fs|t]; cbn [type_of ty_eqb negb];
    eauto.
Qed.

(** The comparison at the end of [test], on a child that holds [e]. *)
Lemma test_compare env fuel p child e j h :
  reflect.Interface child h = Ok (Some e) h ->
  (forall a b, e <> VPtr a (Some b)) ->
  jsonpatch.Value p = Some j ->
  (n <- reflect.Interface child ;;
   m <- reflect.Interface child ;;
   n <- json.UnmarshalIface env (jsonpatch.Value p) n ;;
   eq <- DeepEqual (S fuel) n m ;;
   if negb eq then fail (ErrNew "elements are not equal") else ret tt)%go h
  = match json.generic j with
    | Some x =>
        match deep_eq (S fuel) h x e with
        | Some true => Ok tt h
        | Some false => Err (ErrNew "elements are not equal") h
        | None => OutOfFuel
        end
    | None => Err (ErrNew "elements are not equal") h
    end.
Proof.
  intros I Ne Hv. step I. step I. rewrite Hv.
  destruct (json.generic j) as [x|] eqn:G.
  - step (UnmarshalIface_scalar env j x e h G Ne).
    unfold DeepEqual, bind.
    destruct (deep_eq (S fuel) h x e) as [[|]|]; reflexivity.
  - destruct j; try discriminate G.
    step (UnmarshalIface_null env e h Ne). reflexivity.
Qed.

(** [test] on a map entry or on an exported struct field whose value is
    not a pointer: it returns nil exactly when the literal decodes, as
    into an [interface{}], to the very value held (so never for an int,
    the literal being decoded as a float64), "elements are not equal"
    otherwise; the heap is left as it is either way. *)
Theorem test_compares_generic_decoding env fuel node p j h e :
  jsonpatch.Value p = Some j ->
  (forall a b, e <> VPtr a (Some b)) ->
  (forall q t l kvs,
     load h q = Some (VMap t (Some l)) ->
     nth_error h l = Some (OMap kvs) ->
     alist_get kvs node = Some e ->
     (json.generic j = Some e ->
      jsonpatch.test env (S fuel) node p (handle (TMap t) q) h = Ok tt h)
     /\ (json.generic j <> Some e ->
         jsonpatch.test env (S fuel) node p (handle (TMap t) q) h
         = Err (ErrNew "elements are not equal") h))
  /\ (forall q n fs i fd,
        load h q = Some (VStruct n fs) ->
        reflect.field_index (fields_of env n) (Str.Title node) 0 = Some i ->
        nth_error (fields_of env n) i = Some fd ->
        reflect.exported (fname fd) = true ->
        nth_error fs i = Some e ->
        (json.generic j = Some e ->
         jsonpatch.test env (S fuel) node p (handle (TStruct n) q) h = Ok tt h)
        /\ (json.generic j <> Some e ->
            jsonpatch.test env (S fuel) node p (handle (TStruct n) q) h
            = Err (ErrNew "elements are not equal") h)).
Proof.
  intros Hv Ne.
  assert (Verdict :
    (json.generic j = Some e ->
     match json.generic j with
     | Some x =>
         match deep_eq (S fuel) h x e with
         | Some true => Ok tt h
         | Some false => Err (ErrNew "elements are not equal") h
         | None => OutOfFuel
         end
     | None => Err (ErrNew "elements are not equal") h
     end = Ok tt h)
    /\ (json.generic j <> Some e ->
        match json.generic j with
        | Some x =>
            match deep_eq (S fuel) h x e with
            | Some true => Ok tt h
            | Some false => Err (ErrNew "elements are not equal") h
            | None => OutOfFuel
            end
        | None => Err (ErrNew "elements are not equal") h
        end = Err (ErrNew "elements are not equal") h)).
  { destruct (json.generic j) as [x|] eqn:G; [|split; [discriminate | reflexivity]].
    pose proof (deep_eq_generic fuel h j x e G Ne) as [D1 D2].
    destruct (deep_eq_generic_total fuel h j x e G Ne) as [[|] R]; rewrite R.
    - split; [reflexivity|]. intros N. destruct N. f_equal. now apply D1.
    - split; [|reflexivity]. intros [= ->]. rewrite (D2 eq_refl) in R. discriminate. }
  split.
  - intros q t l kvs L N G.
    assert (E : jsonpatch.test env (S fuel) node p (handle (TMap t) q) h
                = match json.generic j with
                  | Some x =>
                      match deep_eq (S fuel) h x e with
                      | Some true => Ok tt h
                      | Some false => Err (ErrNew "elements are not equal") h
                      | None => OutOfFuel
                      end
                  | None => Err (ErrNew "elements are not equal") h
                  end).
    { unfold jsonpatch.test.
      destruct (if_ptr_handle (TMap t) q h _ L) as (_ & E2 & E3).
      step E2. unfold jsonpatch.test_child. rewrite bind_assoc. step E3.
      cbn [kind_of_ty type_of]. rewrite bind_assoc.
      step (MapIndex_var h false q t l kvs node L N). rewrite G, bind_ret.
      apply (test_compare env fuel p _ e j h (Interface_imm e h) Ne Hv). }
    rewrite E. exact Verdict.
  - intros q n fs i fd L Fi Nf Ex Nv.
    assert (Lc : load h (sub q i) = Some e)
      by (rewrite (load_sub _ _ _ _ i L); exact Nv).
    assert (E : jsonpatch.test env (S fuel) node p (handle (TStruct n) q) h
                = match json.generic j with
                  | Some x =>
                      match deep_eq (S fuel) h x e with
                      | Some true => Ok tt h
                      | Some false => Err (ErrNew "elements are not equal") h
                      | None => OutOfFuel
                      end
                  | None => Err (ErrNew "elements are not equal") h
                  end).
    { unfold jsonpatch.test.
      destruct (if_ptr_handle (TStruct n) q h _ L) as (_ & E2 & E3).
      step E2. unfold jsonpatch.test_child. rewrite bind_assoc. step E3.
      cbn [kind_of_ty type_of]. rewrite bind_assoc.
      step (FieldByName_var env h q n fs _ i fd e L Fi Nf Nv Ex). rewrite bind_ret.
      apply (test_compare env fuel p _ e j h (Interface_var h _ e Lc) Ne Hv). }
    rewrite E. exact Verdict.
Qed.

(** The same on the [u] of [TestTest]: the tests of [u.M["a"]] and of
    [u.Name] pass, the test of [u.Age] against [100] does not. *)
Lemma test_compares_witness :
  let h := Ex.hobbes "8390240670" in
  jsonpatch.test Ex.env Ex.fuel "a" (Ex.op "test" "/m/a" (Ex.str "hello"))
    (handle (TMap TString) (mkPlace 0 [5%nat])) h = Ok tt h
  /\ jsonpatch.test Ex.env Ex.fuel "name" (Ex.op "test" "/name" (Ex.str "hobbes"))
       (handle (TStruct "testUser") (mkPlace 0 [])) h = Ok tt h
  /\ jsonpatch.test Ex.env Ex.fuel "age" (Ex.op "test" "/age" (Ex.num 100))
       (handle (TStruct "testUser") (mkPlace 0 [])) h
     = Err (ErrNew "elements are not equal") h.
Proof.
  cbv zeta. split; [|split].
  - refine (proj1 (proj1 (test_compares_generic_decoding Ex.env 15 "a"
                            (Ex.op "test" "/m/a" (Ex.str "hello")) (json.Str "hello")
                            (Ex.hobbes "8390240670") (VString "hello") eq_refl _)
                     (mkPlace 0 [5%nat]) TString 3%nat [("a", VString "hello")]
                     eq_refl eq_refl eq_refl) eq_refl).
    discriminate.
  - refine (proj1 (proj2 (test_compares_generic_decoding Ex.env 15 "name"
                            (Ex.op "test" "/name" (Ex.str "hobbes")) (json.Str "hobbes")
                            (Ex.hobbes "8390240670") (VString "hobbes") eq_refl _)
                     (mkPlace 0 []) "testUser" _ 0%nat (mkField "Name" "" TString false)
                     eq_refl eq_refl eq_refl eq_refl eq_refl) eq_refl).
    discriminate.
  - refine (proj2 (proj2 (test_compares_generic_decoding Ex.env 15 "age"
                            (Ex.op "test" "/age" (Ex.num 100)) (json.Number 100)
                            (Ex.hobbes "8390240670") (VInt 100) eq_refl _)
                     (mkPlace 0 []) "testUser" _ 1%nat (mkField "Age" "" TInt false)
                     eq_refl eq_refl eq_refl eq_refl eq_refl) _);
      discriminate.
Defined.

Lemma bind_ret_tt (m : M unit) h : (m ;; ret tt)%go h = m h.
Proof. unfold bind, ret. destruct (m h) as [[] h'| | | |]; reflexivity. Qed.

(** The comparison at the end of [test], on a child that holds a pointer
    that is not nil: the literal is decoded into the variable the pointer
    points to, and the pointer is then compared with itself. *)
Lemma test_through_pointer env fuel p child t r j h :
  (forall h', reflect.Interface child h' = Ok (Some (VPtr t (Some r))) h') ->
  jsonpatch.Value p = Some j ->
  j <> json.Null ->
  (n <- reflect.Interface child ;;
   m <- reflect.Interface child ;;
   n <- json.UnmarshalIface env (jsonpatch.Value p) n ;;
   eq <- DeepEqual (S fuel) n m ;;
   if negb eq then fail (ErrNew "elements are not equal") else ret tt)%go h
  = json.store_at env t r j h.
Proof.
  intros I Hv Nn. step (I h). step (I h). rewrite Hv.
  rewrite <- (bind_ret_tt (json.store_at env t r j) h).
  unfold json.UnmarshalIface.
  assert (E : forall (k : option val -> M unit),
    (n <- match j, t with
          | json.Null, TPtr _ => json.store_at env t r j ;; ret (Some (VPtr t (Some r)))
          | json.Null, _ => ret None
          | _, _ => json.store_at env t r j ;; ret (Some (VPtr t (Some r)))
          end ;; k n)%go h
    = (json.store_at env t r j ;; k (Some (VPtr t (Some r))))%go h).
  { intros k. destruct j; try congruence; destruct t; now rewrite bind_assoc. }
  rewrite E. unfold bind at 1. unfold bind at 2.
  destruct (json.store_at env t r j h) as [[] h'| | | |]; try reflexivity.
  unfold DeepEqual, bind. cbn [deep_eq]. unfold deep_eq_step.
  cbn [type_of]. rewrite ty_eqb_refl. cbn [negb]. rewrite place_eqb_refl. reflexivity.
Qed.

(** [test] on a map entry or on an exported struct field that is a
    pointer, not nil, with a literal other than [null], does not compare
    anything: it is the decoding of the literal into the variable the
    pointer points to.  It overwrites that variable and returns nil
    whenever the literal can be decoded. *)
Theorem test_writes_through_pointer env fuel node p j t r h :
  jsonpatch.Value p = Some j ->
  j <> json.Null ->
  (forall q tm l kvs,
     load h q = Some (VMap tm (Some l)) ->
     nth_error h l = Some (OMap kvs) ->
     alist_get kvs node = Some (VPtr t (Some r)) ->
     jsonpatch.test env (S fuel) node p (handle (TMap tm) q) h
     = json.store_at env t r j h)
  /\ (forall q n fs i fd,
        load h q = Some (VStruct n fs) ->
        reflect.field_index (fields_of env n) (Str.Title node) 0 = Some i ->
        nth_error (fields_of env n) i = Some fd ->
        reflect.exported (fname fd) = true ->
        nth_error fs i = Some (VPtr t (Some r)) ->
        jsonpatch.test env (S fuel) node p (handle (TStruct n) q) h
        = json.store_at env t r j h).
Proof.
  intros Hv Nn. split.
  - intros q tm l kvs L N G. unfold jsonpatch.test.
    destruct (if_ptr_handle (TMap tm) q h _ L) as (_ & E2 & E3).
    step E2. unfold jsonpatch.test_child. rewrite bind_assoc. step E3.
    cbn [kind_of_ty type_of]. rewrite bind_assoc.
    step (MapIndex_var h false q tm l kvs node L N). rewrite G, bind_ret.
    apply (test_through_pointer env fuel p _ t r j h); auto.
  - intros q n fs i fd L Fi Nf Ex Nv.
    assert (Lc : load h (sub q i) = Some (VPtr t (Some r)))
      by (rewrite (load_sub _ _ _ _ i L); exact Nv).
    unfold jsonpatch.test.
    destruct (if_ptr_handle (TStruct n) q h _ L) as (_ & E2 & E3).
    step E2. unfold jsonpatch.test_child. rewrite bind_assoc. step E3.
    cbn [kind_of_ty type_of]. rewrite bind_assoc.
    step (FieldByName_var env h q n fs _ i fd _ L Fi Nf Nv Ex). rewrite bind_ret.
    step (Interface_var h _ _ Lc). step (Interface_var h _ _ Lc).
    rewrite <- (test_through_pointer env fuel p
                  (reflect.Imm false (VPtr t (Some r))) t r j h
                  (fun h' => Interface_imm _ h') Hv Nn).
    step (Interface_imm (VPtr t (Some r)) h). step (Interface_imm (VPtr t (Some r)) h).
    reflexivity.
Qed.

(** The same on the map of [TestMapPtr]: the test of ["/a"] against
    ["world"] returns nil, and [x] is ["world"] afterwards. *)
Lemma test_writes_through_pointer_witness :
  let p := Ex.op "test" "/a" (Ex.str "world") in
  jsonpatch.Value p = Some (json.Str "world")
  /\ json.Str "world" <> json.Null
  /\ jsonpatch.test Ex.env Ex.fuel "a" p (handle (TMap (TPtr TString)) (mkPlace 0 []))
       map_of_pointers
     = Ok tt [ OVar (VMap (TPtr TString) (Some 1%nat));
               OMap [("a", VPtr TString (Some (mkPlace 2 [])))];
               OVar (VString "world") ].
Proof.
  cbv zeta. split; [reflexivity|]. split; [discriminate|].
  etransitivity.
  - exact (proj1 (test_writes_through_pointer Ex.env 15 "a"
                    (Ex.op "test" "/a" (Ex.str "world")) (json.Str "world")
                    TString (mkPlace 2 []) map_of_pointers eq_refl ltac:(discriminate))
             (mkPlace 0 []) (TPtr TString) 1%nat
             [("a", VPtr TString (Some (mkPlace 2 [])))] eq_refl eq_refl eq_refl).
  - reflexivity.
Defined.

(** [test] on a slice.  A segment that is not a number gives
    [ErrIncorrectIndex]; an index out of range panics; an element that is
    a nil pointer makes [test] return nil whatever the patch says; an
    element that is not a pointer is compared like a map entry. *)
Theorem test_on_slice env fuel node p q t s h :
  load h q = Some (VSlice t s) ->
  (Str.Atoi node = None ->
   jsonpatch.test env (S fuel) node p (handle (TSlice t) q) h = Err ErrIncorrectIndex h)
  /\ (forall pos, Str.Atoi node = Some pos ->
        (pos < 0 \/ Z.of_nat (reflect.hdr_len s) <= pos ->
         jsonpatch.test env (S fuel) node p (handle (TSlice t) q) h = Panic PIndexRange)
        /\ (forall hd e,
              s = Some hd -> 0 <= pos < Z.of_nat (slen hd) ->
              load h (mkPlace (sarr hd) [(soff hd + Z.to_nat pos)%nat]) = Some e ->
              (forall t', e = VPtr t' None ->
                 jsonpatch.test env (S fuel) node p (handle (TSlice t) q) h = Ok tt h)
              /\ (forall j, (forall a b, e <> VPtr a b) ->
                    jsonpatch.Value p = Some j ->
                    (json.generic j = Some e ->
                     jsonpatch.test env (S fuel) node p (handle (TSlice t) q) h = Ok tt h)
                    /\ (json.generic j <> Some e ->
                        jsonpatch.test env (S fuel) node p (handle (TSlice t) q) h
                        = Err (ErrNew "elements are not equal") h)))).
Proof.
  intros L.
  assert (Head :
    jsonpatch.test env (S fuel) node p (handle (TSlice t) q) h
    = (c <- match Str.Atoi node with
            | None => fail ErrIncorrectIndex
            | Some pos =>
                child <- reflect.Index (reflect.Var false q) pos ;;
                kc <- reflect.Kind child ;;
                match kc with
                | KPtr =>
                    isnil <- reflect.IsNil child ;;
                    if isnil then ret None
                    else (c <- reflect.Indirect child ;; ret (Some c))
                | _ => ret (Some child)
                end
            end ;;
       match c with
       | None => ret tt
       | Some child =>
           n <- reflect.Interface child ;;
           m <- reflect.Interface child ;;
           n <- json.UnmarshalIface env (jsonpatch.Value p) n ;;
           eq <- DeepEqual (S fuel) n m ;;
           if negb eq then fail (ErrNew "elements are not equal") else ret tt
       end)%go h).
  { unfold jsonpatch.test.
    destruct (if_ptr_handle (TSlice t) q h _ L) as (_ & E2 & E3).
    step E2. unfold jsonpatch.test_child. rewrite bind_assoc. step E3. reflexivity. }
  rewrite Head. clear Head. split.
  - intros ->. reflexivity.
  - intros pos ->. split.
    + intros R. unfold bind.
      now rewrite (Index_out h _ t s pos (get_var _ false _ _ L) R).
    + intros hd e -> R Le.
      assert (Ei : reflect.Index (reflect.Var false q) pos h
                   = Ok (reflect.Var false
                           (mkPlace (sarr hd) [(soff hd + Z.to_nat pos)%nat])) h).
      { unfold reflect.Index. step (get_var _ false _ _ L). cbn [reflect.hdr_len].
        destruct (Z.leb_spec 0 pos); [|lia].
        destruct (Z.ltb_spec pos (Z.of_nat (slen hd))); [|lia]. reflexivity. }
      rewrite !bind_assoc. step Ei. rewrite bind_assoc.
      step (Kind_var _ false _ _ Le). split.
      * intros t' ->. cbn [kind_of_ty type_of]. rewrite bind_assoc.
        step (IsNil_ptr_var false _ _ _ _ Le). reflexivity.
      * intros j Ne Hv.
        assert (K : forall A (a b : M A) ,
                  match kind_of_ty (type_of e) with KPtr => a | _ => b end = b).
        { intros A a b. destruct e; try reflexivity. now destruct (Ne t0 p0). }
        rewrite K, bind_ret.
        rewrite (test_compare env fuel p _ e j h (Interface_var h _ e Le)
                   (fun a b => Ne a (Some b)) Hv).
        destruct (json.generic j) as [x|] eqn:G; [|split; [discriminate | reflexivity]].
        pose proof (deep_eq_generic fuel h j x e G (fun a b => Ne a (Some b))) as [D1 D2].
        destruct (deep_eq_generic_total fuel h j x e G (fun a b => Ne a (Some b)))
          as [[|] Rr]; rewrite Rr.
        -- split; [reflexivity|]. intros N. destruct N. f_equal. now apply D1.
        -- split; [|reflexivity]. intros [= ->]. rewrite (D2 eq_refl) in Rr. discriminate.
Qed.

(** The test of [TestTest] on [u.Phones], and the same index on a slice
    of one nil pointer. *)
Lemma test_on_slice_witness :
  let h := Ex.hobbes "8390240670" in
  let p := Ex.op "test" "/phones/0" (Ex.str "8390240670") in
  load h (mkPlace 0 [4%nat]) = Some (VSlice TString (Some (mkSlice 1 0 1 1)))
  /\ jsonpatch.test Ex.env Ex.fuel "0" p (handle (TSlice TString) (mkPlace 0 [4%nat])) h
     = Ok tt h
  /\ jsonpatch.test Ex.env Ex.fuel "1" p (handle (TSlice TString) (mkPlace 0 [4%nat])) h
     = Panic PIndexRange
  /\ jsonpatch.test Ex.env Ex.fuel "0" p (handle (TSlice (TPtr TString)) (mkPlace 0 []))
       slice_of_nil
     = Ok tt slice_of_nil.
Proof.
  cbv zeta. split; [reflexivity|].
  pose proof (fun node =>
    proj2 (test_on_slice Ex.env 15 node (Ex.op "test" "/phones/0" (Ex.str "8390240670"))
             (mkPlace 0 [4%nat]) TString (Some (mkSlice 1 0 1 1))
             (Ex.hobbes "8390240670") eq_refl)) as T.
  split; [|split].
  - destruct (T "0" 0 eq_refl) as [_ T0].
    destruct (T0 (mkSlice 1 0 1 1) (VString "8390240670") eq_refl) as [_ C];
      [simpl; lia | reflexivity |].
    apply (C (json.Str "8390240670")); [discriminate | reflexivity | reflexivity].
  - destruct (T "1" 1 eq_refl) as [T1 _]. apply T1. right. simpl. lia.
  - destruct (proj2 (test_on_slice Ex.env 15 "0"
                       (Ex.op "test" "/phones/0" (Ex.str "8390240670"))
                       (mkPlace 0 []) (TPtr TString) (Some (mkSlice 1 0 1 1))
                       slice_of_nil eq_refl) 0 eq_refl) as [_ T0].
    destruct (T0 (mkSlice 1 0 1 1) (VPtr TString None) eq_refl) as [N _];
      [simpl; lia | reflexivity |].
    exact (N TString eq_refl).
Defined.

(* ================================================================== *)
(** ** remove and replace on a slice                                   *)
(* ================================================================== *)

Lemma remove_in_range env p q t hd es h node i :
  load h q = Some (VSlice t (Some hd)) ->
  slice_holds h (Some hd) es ->
  Str.Atoi node = Some (Z.of_nat i) ->
  (i < List.length es)%nat ->
  exists h0,
    store h q (VSlice t (Some (mkSlice (List.length h) 0
                                  (List.length es - 1) (List.length es - 1))))
      = Some h0
    /\ jsonpatch.remove env node p (handle (TSlice t) q) h
       = Ok tt (h0 ++ [OArr (firstn i es ++ skipn (S i) es)]).
Proof.
  intros Hq Hs Ha Hi.
  destruct (store_some h q _ (VSlice t (Some (mkSlice (List.length h) 0
              (List.length es - 1) (List.length es - 1)))) Hq) as [h0 Hst].
  exists h0. split; [exact Hst|].
  pose proof (slice_holds_length _ _ _ Hs) as HL. cbn [reflect.hdr_len] in HL.
  assert (Hcap : (slen hd <= scap hd)%nat) by (destruct Hs as (vs & _ & _ & C & _); exact C).
  set (z := zero env t).
  set (L := List.length es) in *.
  assert (Hq1 : forall cur, load (h ++ [OArr cur]) q = Some (VSlice t (Some hd)))
    by (intros; apply load_app; exact Hq).
  unfold jsonpatch.remove.
  destruct (if_ptr_handle (TSlice t) q h _ Hq) as (_ & E2 & E3).
  step E2. step E3. cbn [kind_of_ty type_of]. rewrite Ha.
  step (Type_var _ false _ _ Hq). cbn [type_of].
  step (Len_slice _ false _ _ _ Hq). cbn [reflect.hdr_len]. rewrite <- HL.
  erewrite bind_ok by (apply MakeSlice_ok; lia).
  replace (Z.to_nat (Z.of_nat L - 1)) with (L - 1)%nat by lia.
  change (Z.to_nat 0) with 0%nat. fold z.
  (* front := v.Slice(0, pos) *)
  erewrite bind_ok.
  2:{ apply (Slice_ok _ _ t hd); [apply get_var; apply Hq1 | reflexivity | lia | lia]. }
  change (Z.to_nat 0) with 0%nat.
  rewrite Z.sub_0_r, Nat2Z.id, Nat.add_0_r, Nat.sub_0_r.
  pose proof (slice_holds_sub h hd es 0 i Hs ltac:(lia) ltac:(lia)) as Hfront.
  rewrite Nat.add_0_r, !Nat.sub_0_r in Hfront. cbn [skipn] in Hfront.
  assert (Lf : List.length (firstn i es) = i) by (rewrite length_firstn; lia).
  erewrite bind_ok.
  2:{ apply (AppendSlice_fresh env h _ t 0 (L - 1) _ _ Hfront). rewrite Lf. lia. }
  rewrite Lf. cbn [firstn app Nat.add].
  (* back := v.Slice(pos+1, v.Len()) *)
  stepby (apply (Len_slice _ false q t (Some hd)); apply Hq1).
  cbn [reflect.hdr_len]. rewrite <- HL.
  erewrite bind_ok.
  2:{ apply (Slice_ok _ _ t hd); [apply get_var; apply Hq1 | reflexivity | lia | lia]. }
  replace (Z.to_nat (Z.of_nat i + 1)) with (S i) by lia.
  replace (Z.to_nat (Z.of_nat L - (Z.of_nat i + 1))) with (L - S i)%nat by lia.
  pose proof (slice_holds_sub h hd es (S i) L Hs ltac:(lia) ltac:(lia)) as Hback.
  assert (Lb : List.length (skipn (S i) es) = (L - S i)%nat)
    by (rewrite length_skipn; reflexivity).
  rewrite <- Lb, firstn_all in Hback. rewrite Lb in Hback.
  erewrite bind_ok.
  2:{ apply (AppendSlice_fresh env h _ t i (L - 1) _ _ Hback). rewrite Lb. lia. }
  rewrite Lb.
  replace (firstn i (firstn i es ++ skipn i (repeat z (L - 1)))
             ++ skipn (S i) es
             ++ skipn (i + (L - S i)) (firstn i es ++ skipn i (repeat z (L - 1))))
    with (firstn i es ++ skipn (S i) es).
  2:{ rewrite firstn_app, Lf, Nat.sub_diag. cbn [firstn]. rewrite app_nil_r.
      rewrite (firstn_all2 (n := i) (firstn i es)) by (rewrite Lf; lia).
      rewrite (skipn_all2 (n := i + (L - S i))).
      2:{ rewrite length_app, Lf, length_skipn, repeat_length. lia. }
      now rewrite app_nil_r. }
  replace (i + (L - S i))%nat with (L - 1)%nat by lia.
  eapply Set_var.
  - apply Hq1.
  - reflexivity.
  - apply store_app. exact Hst.
Qed.

Lemma Slice_out h x t s i j :
  reflect.get x h = Ok (VSlice t s) h ->
  i < 0 \/ j < i \/ Z.of_nat (reflect.hdr_cap s) < j ->
  reflect.Slice x i j h = Panic PIndexRange.
Proof.
  intros G R. unfold reflect.Slice. step G.
  destruct (Z.leb_spec 0 i); destruct (Z.leb_spec i j);
    destruct (Z.leb_spec j (Z.of_nat (reflect.hdr_cap s)));
    cbn [andb]; try reflexivity. lia.
Qed.

(** [AppendSlice] of a slice of [h] to a slice that is alone in the last
    object of the heap: it returns, and what was in [h] is still there. *)
Lemma AppendSlice_returns env h cur t n c hdf vs :
  nth_error h (sarr hdf) = Some (OArr vs) ->
  exists r E,
    reflect.AppendSlice env
      (reflect.Imm false (VSlice t (Some (mkSlice (List.length h) 0 n c))))
      (reflect.Imm false (VSlice t (Some hdf))) (h ++ [OArr cur])
    = Ok r (h ++ E).
Proof.
  intros N.
  unfold reflect.AppendSlice, reflect.get. rewrite !bind_ret.
  cbn [reflect.flagRO orb]. rewrite ty_eqb_refl. cbn [negb].
  unfold reflect.grow. cbn [reflect.hdr_len reflect.hdr_cap slen scap].
  assert (Ef : forall E', reflect.elems (Some hdf) (h ++ E')
                          = Ok (firstn (slen hdf) (skipn (soff hdf) vs)) (h ++ E')).
  { intros E'. unfold reflect.elems.
    step (read_arr_ok _ _ _ (nth_error_old h E' _ _ N)). reflexivity. }
  destruct (Nat.leb (n + slen hdf) c).
  - rewrite bind_ret. step (Ef [OArr cur]). cbn [sarr soff Nat.add].
    step (blit_last h cur n (firstn (slen hdf) (skipn (soff hdf) vs))).
    eexists _, _. reflexivity.
  - rewrite !bind_assoc. unfold reflect.elems at 1. cbn [sarr].
    rewrite bind_assoc.
    step (read_arr_ok _ _ _ (nth_error_last h (OArr cur))). rewrite bind_ret.
    rewrite bind_assoc.
    erewrite bind_ok by (unfold alloc; reflexivity).
    rewrite bind_ret. rewrite <- app_assoc. step (Ef ([OArr cur] ++
      [OArr (firstn n (skipn 0 cur) ++ repeat (zero env t) (slen hdf))])).
    cbn [sarr soff slen].
    rewrite app_assoc.
    step (blit_last (h ++ [OArr cur])
            (firstn n (skipn 0 cur) ++ repeat (zero env t) (slen hdf))
            (0 + n) (firstn (slen hdf) (skipn (soff hdf) vs))).
    rewrite <- app_assoc. eexists _, _. reflexivity.
Qed.

Lemma remove_out_of_range env p q t hd es h node pos :
  load h q = Some (VSlice t (Some hd)) ->
  slice_holds h (Some hd) es ->
  es <> [] ->
  Str.Atoi node = Some pos ->
  pos < 0 \/ Z.of_nat (List.length es) <= pos ->
  jsonpatch.remove env node p (handle (TSlice t) q) h = Panic PIndexRange.
Proof.
  intros Hq Hs Ne Ha R.
  pose proof (slice_holds_length _ _ _ Hs) as HL. cbn [reflect.hdr_len] in HL.
  assert (Lpos : (0 < List.length es)%nat) by (destruct es; [congruence | simpl; lia]).
  set (L := List.length es) in *.
  assert (Hq1 : forall E, load (h ++ E) q = Some (VSlice t (Some hd)))
    by (intros; apply load_app; exact Hq).
  unfold jsonpatch.remove.
  destruct (if_ptr_handle (TSlice t) q h _ Hq) as (_ & E2 & E3).
  step E2. step E3. cbn [kind_of_ty type_of]. rewrite Ha.
  step (Type_var _ false _ _ Hq). cbn [type_of].
  step (Len_slice _ false _ _ _ Hq). cbn [reflect.hdr_len]. rewrite <- HL.
  erewrite bind_ok by (apply MakeSlice_ok; lia).
  change (Z.to_nat 0) with 0%nat.
  destruct (Z.ltb_spec pos 0) as [Neg|Pos];
    [|destruct (Z.ltb_spec (Z.of_nat (scap hd)) pos) as [Big|Small]].
  - unfold bind at 1.
    rewrite (Slice_out _ _ t (Some hd) 0 pos (get_var _ false _ _ (Hq1 _))); [reflexivity|].
    right. left. lia.
  - unfold bind at 1.
    rewrite (Slice_out _ _ t (Some hd) 0 pos (get_var _ false _ _ (Hq1 _))); [reflexivity|].
    right. right. cbn [reflect.hdr_cap]. lia.
  - erewrite bind_ok.
    2:{ apply (Slice_ok _ _ t hd); [apply get_var; apply Hq1 | reflexivity | lia | lia]. }
    destruct Hs as (vs & N & _).
    destruct (AppendSlice_returns env h (repeat (zero env t) (Z.to_nat (Z.of_nat L - 1)))
                t 0 (Z.to_nat (Z.of_nat L - 1))
                (mkSlice (sarr hd) (soff hd + Z.to_nat 0) (Z.to_nat (pos - 0))
                   (scap hd - Z.to_nat 0)) vs N) as (r & E & A).
    step A.
    stepby (apply (Len_slice _ false q t (Some hd)); apply Hq1).
    cbn [reflect.hdr_len]. rewrite <- HL.
    unfold bind at 1.
    rewrite (Slice_out _ _ t (Some hd) (pos + 1) (Z.of_nat L)
               (get_var _ false _ _ (Hq1 _))); [reflexivity|].
    right. left. lia.
Qed.

(** [remove] on a slice.  A segment that is not a number gives
    [ErrIncorrectIndex]; on an empty or nil slice every index panics,
    [MakeSlice] being asked for a negative capacity; an index that is
    negative or not below the length panics in [v.Slice]; an index [i] in
    range makes the variable a slice of the elements without the one at
    [i], in a fresh array, and changes nothing else. *)
Theorem remove_on_slice env node p q t s es h :
  load h q = Some (VSlice t s) ->
  slice_holds h s es ->
  (Str.Atoi node = None ->
   jsonpatch.remove env node p (handle (TSlice t) q) h = Err ErrIncorrectIndex h)
  /\ (forall pos, Str.Atoi node = Some pos ->
        (es = [] ->
         jsonpatch.remove env node p (handle (TSlice t) q) h = Panic PMakeSlice)
        /\ (es <> [] -> pos < 0 \/ Z.of_nat (List.length es) <= pos ->
            jsonpatch.remove env node p (handle (TSlice t) q) h = Panic PIndexRange)
        /\ (forall i, pos = Z.of_nat i -> (i < List.length es)%nat ->
              exists h' s',
                jsonpatch.remove env node p (handle (TSlice t) q) h = Ok tt h'
                /\ load h' q = Some (VSlice t (Some s'))
                /\ slice_holds h' (Some s') (firstn i es ++ skipn (S i) es)
                /\ (forall l, (l < List.length h)%nat -> l <> ploc q ->
                              nth_error h' l = nth_error h l))).
Proof.
  intros Hq Hs.
  pose proof (slice_holds_length _ _ _ Hs) as HL.
  destruct (if_ptr_handle (TSlice t) q h _ Hq) as (_ & E2 & E3).
  split.
  - intros Ha. unfold jsonpatch.remove. step E2. step E3.
    cbn [kind_of_ty type_of]. now rewrite Ha.
  - intros pos Ha. split; [|split].
    + intros ->. cbn [List.length] in HL.
      unfold jsonpatch.remove. step E2. step E3. cbn [kind_of_ty type_of]. rewrite Ha.
      step (Type_var _ false _ _ Hq). cbn [type_of].
      step (Len_slice _ false _ _ _ Hq). rewrite <- HL. reflexivity.
    + intros Ne R. destruct s as [hd|]; [|cbn [slice_holds] in Hs; congruence].
      eapply remove_out_of_range; eauto.
    + intros i -> Hi. destruct s as [hd|]; [|cbn [slice_holds] in Hs; subst; simpl in Hi; lia].
      destruct (remove_in_range env p q t hd es h node i Hq Hs Ha Hi) as (h0 & Hst & R).
      pose proof (store_length _ _ _ _ Hst) as Hlen.
      assert (Le : List.length (firstn i es ++ skipn (S i) es) = (List.length es - 1)%nat).
      { rewrite length_app, length_firstn, length_skipn. lia. }
      exists (h0 ++ [OArr (firstn i es ++ skipn (S i) es)]),
             (mkSlice (List.length h) 0 (List.length es - 1) (List.length es - 1)).
      split; [exact R|]. split; [|split].
      * apply load_app. eapply load_store_same; eauto.
      * exists (firstn i es ++ skipn (S i) es). cbn [sarr soff slen scap].
        rewrite <- Hlen. split; [apply nth_error_last|].
        split; [rewrite Le; lia|]. split; [lia|].
        cbn [skipn]. rewrite <- Le. now rewrite firstn_all.
      * intros l Hl Hne. rewrite nth_error_app1 by lia.
        eapply nth_error_store_other; eauto.
Qed.

(** The remove of [TestRemove] on [u.Phones]: the only element goes and
    an empty slice is left; on that slice a further remove panics. *)
Lemma remove_on_slice_witness :
  let h := Ex.hobbes "12830921" in
  let q := mkPlace 0 [4%nat] in
  let p := Ex.op "remove" "/phones/0" None in
  load h q = Some (VSlice TString (Some (mkSlice 1 0 1 1)))
  /\ slice_holds h (Some (mkSlice 1 0 1 1)) [VString "12830921"]
  /\ (exists h' s',
        jsonpatch.remove Ex.env "0" p (handle (TSlice TString) q) h = Ok tt h'
        /\ load h' q = Some (VSlice TString (Some s'))
        /\ slice_holds h' (Some s') [])
  /\ jsonpatch.remove Ex.env "1" p (handle (TSlice TString) q) h = Panic PIndexRange.
Proof.
  cbv zeta.
  assert (Hs : slice_holds (Ex.hobbes "12830921") (Some (mkSlice 1 0 1 1))
                 [VString "12830921"]).
  { exists [VString "12830921"]. cbn. repeat split; lia. }
  pose proof (fun node =>
    proj2 (remove_on_slice Ex.env node (Ex.op "remove" "/phones/0" None)
             (mkPlace 0 [4%nat]) TString (Some (mkSlice 1 0 1 1)) [VString "12830921"]
             (Ex.hobbes "12830921") eq_refl Hs)) as T.
  split; [reflexivity|]. split; [exact Hs|]. split.
  - destruct (T "0" 0 eq_refl) as (_ & _ & T0).
    destruct (T0 0%nat eq_refl) as (h' & s' & R & Lq & Sh & _); [simpl; lia|].
    exists h', s'. auto.
  - destruct (T "1" 1 eq_refl) as (_ & T1 & _).
    apply T1; [discriminate | right; simpl; lia].
Defined.

(* ================================================================== *)
(** ** replace on a slice element                                      *)
(* ================================================================== *)

Lemma list_set_window {A} (vs vs' : list A) off n i w :
  list_set vs (off + i) w = Some vs' ->
  (i < n)%nat ->
  exists es', list_set (firstn n (skipn off vs)) i w = Some es'
              /\ es' = firstn n (skipn off vs').
Proof.
  intros S I.
  pose proof (list_set_lt _ _ _ _ S) as B.
  destruct (list_set_some (firstn n (skipn off vs)) i w) as [es' E].
  { rewrite length_firstn, length_skipn. lia. }
  exists es'. split; [exact E|].
  apply nth_error_ext. intros k.
  rewrite (nth_error_list_set _ _ _ _ k E), !nth_error_firstn, !nth_error_skipn.
  rewrite (nth_error_list_set _ _ _ _ (off + k)%nat S).
  destruct (Nat.eqb_spec k i) as [->|D].
  - rewrite Nat.eqb_refl. destruct (Nat.ltb_spec i n); [reflexivity | lia].
  - destruct (Nat.eqb_spec (off + k) (off + i)); [lia | reflexivity].
Qed.

(** [replace] on a slice at an index in range, the element there not
    being a pointer.  A literal whose generic decoding has the type of the
    element is stored in place: the slice header is the one it was, it
    denotes the elements with the one at the index replaced, and no other
    object changes.  A literal whose generic decoding has another type (a
    JSON number for an [int] element: the decoding is a [float64]) panics
    in [Set], and so does [null], whose decoding is the zero [Value]. *)
Theorem replace_on_slice_element env node p q t hd es h i old j :
  load h q = Some (VSlice t (Some hd)) ->
  slice_holds h (Some hd) es ->
  Str.Atoi node = Some (Z.of_nat i) ->
  nth_error es i = Some old ->
  (forall a b, old <> VPtr a (Some b)) ->
  jsonpatch.Value p = Some j ->
  (json.generic j = None ->
   jsonpatch.replace env node p (handle (TSlice t) q) h = Panic PZeroValue)
  /\ (forall e, json.generic j = Some e -> type_of e <> type_of old ->
        jsonpatch.replace env node p (handle (TSlice t) q) h = Panic PTypeMismatch)
  /\ (forall e, json.generic j = Some e -> type_of e = type_of old ->
        exists h' es',
          jsonpatch.replace env node p (handle (TSlice t) q) h = Ok tt h'
          /\ list_set es i e = Some es'
          /\ slice_holds h' (Some hd) es'
          /\ (forall l, l <> sarr hd -> nth_error h' l = nth_error h l)).
Proof.
  intros Hq Hs Ha Ho Np Hv.
  pose proof (slice_holds_length _ _ _ Hs) as HL. cbn [reflect.hdr_len] in HL.
  assert (Hi : (i < slen hd)%nat).
  { rewrite <- HL. apply nth_error_Some. congruence. }
  destruct (slice_holds_nth _ _ _ _ Hs Hi) as (v & Nv & Le).
  rewrite Ho in Nv. injection Nv as <-.
  set (c := mkPlace (sarr hd) [(soff hd + i)%nat]) in *.
  assert (Head : forall k,
    json.UnmarshalIface env (Some j) (Some old) h = Ok k h ->
    jsonpatch.replace env node p (handle (TSlice t) q) h
    = reflect.Set_ (reflect.Var false c) (reflect.ValueOf k) h).
  { intros k U. unfold jsonpatch.replace.
    destruct (if_ptr_handle (TSlice t) q h _ Hq) as (E1 & _ & E2).
    step E1. step E2. cbn [kind_of_ty type_of]. rewrite Ha.
    step (Len_slice _ false _ _ _ Hq). cbn [reflect.hdr_len].
    destruct (Z.ltb_spec (Z.of_nat (slen hd)) (Z.of_nat i)); [lia|].
    step (Index_ok h false _ t hd i (get_var _ false _ _ Hq) eq_refl Hi).
    fold c. step (Interface_var h c old Le). rewrite Hv. step U. reflexivity. }
  split; [|split].
  - intros G. rewrite (Head None).
    + reflexivity.
    + unfold json.UnmarshalIface.
      destruct old as [| | | |a [b|]| | | |]; try (rewrite <- G; reflexivity).
      now destruct (Np a b).
  - intros e G T. rewrite (Head (Some e) (UnmarshalIface_scalar env j e old h G Np)).
    unfold reflect.Set_, reflect.ValueOf. cbn [reflect.flagRO].
    step (read_ok _ _ _ Le). unfold reflect.get. rewrite bind_ret.
    destruct (ty_eqb (type_of old) (type_of e)) eqn:Q; [|reflexivity].
    apply ty_eqb_eq in Q. congruence.
  - intros e G T. rewrite (Head (Some e) (UnmarshalIface_scalar env j e old h G Np)).
    destruct Hs as (vs & N & B & C & Es).
    destruct (list_set_some vs (soff hd + i) e) as [vs' Sv]; [lia|].
    destruct (store_arr_elem h (sarr hd) vs (soff hd + i) e vs' N Sv) as (h' & St & Sl).
    destruct (list_set_window vs vs' (soff hd) (slen hd) i e Sv Hi) as (es' & Se & Ee).
    exists h', es'. split; [|split; [|split]].
    + apply (Set_var h c old e h' Le); [congruence | exact St].
    + rewrite Es. exact Se.
    + exists vs'. rewrite (nth_error_list_set _ _ _ _ (sarr hd) Sl), Nat.eqb_refl.
      split; [reflexivity|]. rewrite (list_set_length _ _ _ _ Sv).
      split; [exact B|]. split; [exact C | exact Ee].
    + intros l D. rewrite (nth_error_list_set _ _ _ _ l Sl).
      destruct (Nat.eqb_spec l (sarr hd)); [contradiction | reflexivity].
Qed.

(** The replace of [TestReplace] on [u.Phones]; the same index with a
    number and with [null]. *)
Lemma replace_on_slice_element_witness :
  let h := Ex.hobbes "12830921" in
  let q := mkPlace 0 [4%nat] in
  let hd := mkSlice 1 0 1 1 in
  load h q = Some (VSlice TString (Some hd))
  /\ slice_holds h (Some hd) [VString "12830921"]
  /\ (exists h',
        jsonpatch.replace Ex.env "0" (Ex.op "replace" "/phones/0" (Ex.str "8390240670"))
          (handle (TSlice TString) q) h = Ok tt h'
        /\ slice_holds h' (Some hd) [VString "8390240670"])
  /\ jsonpatch.replace Ex.env "0" (Ex.op "replace" "/phones/0" (Some (json.Number 7)))
       (handle (TSlice TString) q) h = Panic PTypeMismatch
  /\ jsonpatch.replace Ex.env "0" (Ex.op "replace" "/phones/0" (Some json.Null))
       (handle (TSlice TString) q) h = Panic PZeroValue.
Proof.
  cbv zeta.
  assert (Hs : slice_holds (Ex.hobbes "12830921") (Some (mkSlice 1 0 1 1))
                 [VString "12830921"]).
  { exists [VString "12830921"]. cbn. repeat split; lia. }
  pose proof (fun p j =>
    replace_on_slice_element Ex.env "0" p (mkPlace 0 [4%nat]) TString (mkSlice 1 0 1 1)
      [VString "12830921"] (Ex.hobbes "12830921") 0%nat (VString "12830921") j
      eq_refl Hs eq_refl eq_refl ltac:(discriminate)) as T.
  split; [reflexivity|]. split; [exact Hs|]. split; [|split].
  - destruct (T (Ex.op "replace" "/phones/0" (Ex.str "8390240670"))
                (json.Str "8390240670") eq_refl) as (_ & _ & T3).
    destruct (T3 (VString "8390240670") eq_refl eq_refl) as (h' & es' & R & Se & Sh & _).
    injection Se as <-. exists h'. auto.
  - destruct (T (Ex.op "replace" "/phones/0" (Some (json.Number 7)))
                (json.Number 7) eq_refl) as (_ & T2 & _).
    apply (T2 (VFloat 7)); [reflexivity | discriminate].
  - destruct (T (Ex.op "replace" "/phones/0" (Some json.Null))
                json.Null eq_refl) as (T1 & _).
    apply T1. reflexivity.
Defined.

(* ================================================================== *)
(** ** Keys that are not there, and pointers to pointers               *)
(* ================================================================== *)

(** [remove] and [test] on a map, with a key the map does not hold (or on
    the nil map): both panic.  [MapIndex] gives the zero [Value], of which
    [remove] takes the [Type] and [test] the [Interface]. *)
Theorem remove_and_test_absent_key_panic env fuel node p q t m kvs h :
  load h q = Some (VMap t m) ->
  map_holds h m kvs ->
  alist_get kvs node = None ->
  jsonpatch.remove env node p (handle (TMap t) q) h = Panic PZeroValue
  /\ jsonpatch.test env fuel node p (handle (TMap t) q) h = Panic PZeroValue.
Proof.
  intros L Mh G.
  destruct (if_ptr_handle (TMap t) q h _ L) as (_ & E2 & E3).
  assert (Mi : reflect.MapIndex (reflect.Var false q) node h = Ok reflect.Invalid h).
  { destruct m as [l|]; cbn [map_holds] in Mh.
    - rewrite (MapIndex_var h false q t l kvs node L Mh), G. reflexivity.
    - unfold reflect.MapIndex. step (get_var _ false _ _ L). reflexivity. }
  split.
  - unfold jsonpatch.remove. step E2. step E3. cbn [kind_of_ty type_of].
    step Mi. reflexivity.
  - unfold jsonpatch.test. step E2. unfold jsonpatch.test_child.
    rewrite bind_assoc. step E3. cbn [kind_of_ty type_of].
    rewrite bind_assoc. step Mi. reflexivity.
Qed.

(** On [u.M] of [TestRemove], which holds the key ["a"] only. *)
Lemma remove_and_test_absent_key_witness :
  let h := Ex.hobbes "12830921" in
  let q := mkPlace 0 [5%nat] in
  load h q = Some (VMap TString (Some 3%nat))
  /\ jsonpatch.remove Ex.env "b" (Ex.op "remove" "/m/b" None) (handle (TMap TString) q) h
     = Panic PZeroValue
  /\ jsonpatch.test Ex.env Ex.fuel "b" (Ex.op "test" "/m/b" (Ex.str "x"))
       (handle (TMap TString) q) h
     = Panic PZeroValue.
Proof.
  cbv zeta. split; [reflexivity|]. split.
  - apply (proj1 (remove_and_test_absent_key_panic Ex.env Ex.fuel "b"
                    (Ex.op "remove" "/m/b" None) (mkPlace 0 [5%nat]) TString (Some 3%nat)
                    [("a", VString "hello")] (Ex.hobbes "12830921")
                    eq_refl eq_refl eq_refl)).
  - apply (proj2 (remove_and_test_absent_key_panic Ex.env Ex.fuel "b"
                    (Ex.op "test" "/m/b" (Ex.str "x")) (mkPlace 0 [5%nat]) TString
                    (Some 3%nat) [("a", VString "hello")] (Ex.hobbes "12830921")
                    eq_refl eq_refl eq_refl)).
Defined.

(** The operations on a variable that is itself a pointer (the last
    segment of the path names nothing below it).  [replace], [remove] and
    [test] return [ErrNotImplemented] and leave the heap alone.  [add]
    panics once the literal is decoded, whether the pointer is nil or
    points to a value that is not a pointer: it takes the address of
    [reflect.ValueOf(el)], which is never addressable. *)
Theorem operations_on_a_pointer env fuel node p q u x h :
  load h q = Some (VPtr u x) ->
  jsonpatch.replace env node p (handle (TPtr u) q) h = Err ErrNotImplemented h
  /\ jsonpatch.remove env node p (handle (TPtr u) q) h = Err ErrNotImplemented h
  /\ jsonpatch.test env fuel node p (handle (TPtr u) q) h = Err ErrNotImplemented h
  /\ (forall j,
        jsonpatch.Value p = Some j ->
        match x with
        | None => True
        | Some q' => exists w, load h q' = Some w /\ forall a b, w <> VPtr a (Some b)
        end ->
        jsonpatch.add env node p (handle (TPtr u) q) h = Panic PUnaddressable).
Proof.
  intros L.
  destruct (if_ptr_handle (TPtr u) q h _ L) as (E1 & E2 & E3).
  split; [|split; [|split]].
  - unfold jsonpatch.replace. step E1. step E3. reflexivity.
  - unfold jsonpatch.remove. step E2. step E3. reflexivity.
  - unfold jsonpatch.test. step E2. unfold jsonpatch.test_child.
    rewrite bind_assoc. step E3. reflexivity.
  - intros j Hv Hx. unfold jsonpatch.add.
    stepby (apply (fresh_if_nil_handle env _ q h _ L)).
    step E3. cbn [kind_of_ty type_of].
    assert (Tail : forall H c w,
      load H c = Some w -> (forall a b, w <> VPtr a (Some b)) ->
      (el <- reflect.Interface (reflect.Var false c) ;;
       el <- json.UnmarshalIface env (jsonpatch.Value p) el ;;
       a <- reflect.Addr (reflect.ValueOf el) ;;
       reflect.Set_ (reflect.Var false q) a)%go H = Panic PUnaddressable).
    { intros H c w Lc Nw.
      step (Interface_var H c _ Lc). rewrite Hv.
      unfold json.UnmarshalIface.
      destruct w as [| | | |a [b|]| | | |];
        try (rewrite bind_ret; now destruct j).
      now destruct (Nw a b). }
    destruct x as [q'|].
    + destruct Hx as (w & Lw & Nw).
      unfold reflect.IsNil. rewrite !bind_assoc. step (get_var _ false _ _ L).
      rewrite !bind_ret.
      unfold reflect.Elem. rewrite bind_assoc. step (get_var _ false _ _ L).
      rewrite bind_ret. cbn [reflect.flagRO]. now apply (Tail h q' w).
    + destruct (store_some (h ++ [OVar (zero env u)]) q (VPtr u None)
                  (VPtr u (Some (mkPlace (List.length h) []))) (load_app _ _ _ _ L))
        as [h1 S1].
      unfold reflect.IsNil. rewrite !bind_assoc. step (get_var _ false _ _ L).
      rewrite !bind_ret, !bind_assoc.
      step (Type_var _ false _ _ L). cbn [type_of ty_elem].
      rewrite bind_assoc, bind_ret, bind_assoc.
      step (New_ok env u h).
      step (Set_var (h ++ [OVar (zero env u)]) q (VPtr u None)
              (VPtr u (Some (mkPlace (List.length h) []))) h1
              (load_app _ _ _ _ L) eq_refl S1).
      unfold reflect.Elem. rewrite bind_assoc.
      step (get_var _ false _ _ (load_store_same _ _ _ _ S1)).
      rewrite bind_ret. cbn [reflect.flagRO].
      apply (Tail h1 _ (zero env u)); [|apply zero_not_pointer].
      destruct (Nat.eq_dec (ploc q) (List.length h)) as [Eq|Ne].
      * apply load_lt in L. lia.
      * rewrite (load_store_other _ _ _ _ _ S1); [apply (load_fresh_var h _ [])|].
        cbn [ploc]. congruence.
Qed.

(** On the field [B] of [s{A: "hello", B: &s{A: "world"}}], taken as the
    variable to operate on. *)
Lemma operations_on_a_pointer_witness :
  let h := Ex.nested in
  let q := mkPlace 0 [1%nat] in
  let v := handle (TPtr (TStruct "s")) q in
  load h q = Some (VPtr (TStruct "s") (Some (mkPlace 1 [])))
  /\ jsonpatch.replace Ex.env "x" (Ex.op "replace" "/x" (Ex.str "y")) v h
     = Err ErrNotImplemented h
  /\ jsonpatch.remove Ex.env "x" (Ex.op "replace" "/x" (Ex.str "y")) v h
     = Err ErrNotImplemented h
  /\ jsonpatch.test Ex.env Ex.fuel "x" (Ex.op "replace" "/x" (Ex.str "y")) v h
     = Err ErrNotImplemented h
  /\ jsonpatch.add Ex.env "x" (Ex.op "replace" "/x" (Ex.str "y")) v h
     = Panic PUnaddressable.
Proof.
  cbv zeta.
  destruct (operations_on_a_pointer Ex.env Ex.fuel "x" (Ex.op "replace" "/x" (Ex.str "y"))
              (mkPlace 0 [1%nat]) (TStruct "s") (Some (mkPlace 1 [])) Ex.nested eq_refl)
    as (R1 & R2 & R3 & R4).
  split; [reflexivity|]. split; [exact R1|]. split; [exact R2|]. split; [exact R3|].
  apply (R4 (json.Str "y")); [reflexivity|].
  eexists. split; [reflexivity | discriminate].
Defined.

(* ================================================================== *)
(** ** add on a nil pointer field                                      *)
(* ================================================================== *)

(** [add] on an exported struct field that is a nil pointer.  A new
    variable of the pointed-to type is allocated and the literal decoded
    into it.  The literal of a scalar value of that type makes the field
    point to a variable holding the value.  The literal [null] leaves the
    new variable at its zero value, and the field points to it: the field
    is no longer nil.  Any other literal, the pointed-to type not being a
    pointer, is refused with a type error of [encoding/json], and the
    struct is left as it was. *)
Theorem add_on_nil_pointer_field env node p q n fs i fd u h :
  load h q = Some (VStruct n fs) ->
  reflect.field_index (fields_of env n) (Str.Title node) 0 = Some i ->
  nth_error (fields_of env n) i = Some fd ->
  reflect.exported (fname fd) = true ->
  nth_error fs i = Some (VPtr u None) ->
  let c := mkPlace (List.length h) [] in
  (forall w j,
     literal w = Some j -> type_of w = u -> jsonpatch.Value p = Some j ->
     exists h',
       jsonpatch.add env node p (handle (TStruct n) q) h = Ok tt h'
       /\ field_set h q n fs i (VPtr u (Some c)) h'
       /\ load h' c = Some w)
  /\ (jsonpatch.Value p = Some json.Null ->
      exists h',
        jsonpatch.add env node p (handle (TStruct n) q) h = Ok tt h'
        /\ field_set h q n fs i (VPtr u (Some c)) h'
        /\ load h' c = Some (zero env u))
  /\ (forall j,
        jsonpatch.Value p = Some j -> j <> json.Null ->
        (forall a, u <> TPtr a) ->
        (forall w, literal w = Some j -> type_of w <> u) ->
        exists h',
          jsonpatch.add env node p (handle (TStruct n) q) h = Err JsonTypeError h'
          /\ load h' q = Some (VStruct n fs)).
Proof.
  intros L Fi Nf Ex Nv c.
  assert (Lc : load h (sub q i) = Some (VPtr u None))
    by (rewrite (load_sub _ _ _ _ i L); exact Nv).
  assert (Head : forall j,
    jsonpatch.Value p = Some j ->
    jsonpatch.add env node p (handle (TStruct n) q) h
    = (json.store_at env u c j ;;
       reflect.Set_ (reflect.Var false (sub q i))
         (reflect.Imm false (VPtr u (Some c))))%go (h ++ [OVar (zero env u)])).
  { intros j Hv. unfold jsonpatch.add.
    destruct (if_ptr_handle (TStruct n) q h _ L) as (_ & _ & E2).
    step (fresh_if_nil_handle env (TStruct n) q h _ L).
    step E2. cbn [kind_of_ty type_of].
    step (FieldByName_var env h q n fs _ i fd _ L Fi Nf Nv Ex).
    step (Kind_var _ false _ _ Lc). cbn [kind_of_ty type_of].
    step (IsNil_ptr_var false _ _ _ _ Lc).
    step (Type_var _ false _ _ Lc). cbn [type_of ty_elem]. rewrite bind_ret.
    step (New_ok env u h).
    step (Interface_imm (VPtr u (Some c)) (h ++ [OVar (zero env u)])).
    rewrite Hv. reflexivity. }
  assert (Tail : forall w,
    exists h',
      reflect.Set_ (reflect.Var false (sub q i)) (reflect.Imm false (VPtr u (Some c)))
        (h ++ [OVar w]) = Ok tt h'
      /\ field_set h q n fs i (VPtr u (Some c)) h'
      /\ load h' c = Some w).
  { intros w.
    destruct (store_some h (sub q i) _ (VPtr u (Some c)) Lc) as [h1 S].
    exists (h1 ++ [OVar w]). split; [|split].
    - apply (Set_var _ _ (VPtr u None)); [now apply load_app | reflexivity |].
      now apply store_app.
    - now apply field_set_by_store.
    - unfold c. rewrite <- (store_length _ _ _ _ S). apply (load_fresh_var h1 w []). }
  split; [|split].
  - intros w j Lw Tw Hv. rewrite (Head j Hv).
    destruct (Tail w) as (h' & R & Fs). exists h'. split; [|exact Fs].
    rewrite <- Tw. unfold c.
    step (store_at_literal env w j h (zero env (type_of w)) Lw).
    rewrite Tw. exact R.
  - intros Hv. rewrite (Head _ Hv).
    destruct (Tail (zero env u)) as (h' & R & Fs).
    exists h'. split; [|exact Fs]. unfold c. step (store_at_null env u h). exact R.
  - intros j Hv Nn Np Nl. rewrite (Head j Hv).
    exists (h ++ [OVar (zero env u)]). split; [|now apply load_app].
    unfold bind.
    pose proof (store_at_mismatch env (zero env u) j h) as Mm.
    rewrite type_of_zero in Mm. unfold c. rewrite Mm; [reflexivity| |exact Nn|exact Nl].
    intros a b Z. apply (Np a). rewrite <- (type_of_zero env u), Z. reflexivity.
Qed.

(** On [u.Child] of [TestAdd], which is nil: [null] makes it a pointer to
    a zero [testUser], a string is refused.  And a string added to the nil
    [*string] field of a struct [t]. *)
Lemma add_on_nil_pointer_field_witness :
  let q := mkPlace 0 [] in
  let c := mkPlace 2 [] in
  (load Ex.calvin q
   = Some (Ex.user "" 0 "" None (Some (mkSlice 1 0 1 1)) None)
   /\ (exists h',
         jsonpatch.add Ex.env "child" (Ex.op "add" "/child" (Some json.Null))
           (handle (TStruct "testUser") q) Ex.calvin = Ok tt h'
         /\ load h' q
            = Some (Ex.user "" 0 "" (Some c) (Some (mkSlice 1 0 1 1)) None)
         /\ load h' c = Some (Ex.user "" 0 "" None None None))
   /\ (exists h',
         jsonpatch.add Ex.env "child" (Ex.op "add" "/child" (Ex.str "x"))
           (handle (TStruct "testUser") q) Ex.calvin = Err JsonTypeError h'
         /\ load h' q
            = Some (Ex.user "" 0 "" None (Some (mkSlice 1 0 1 1)) None)))
  /\ (let env := [("t", [mkField "P" "" (TPtr TString) false])] in
      let h := [OVar (VStruct "t" [VPtr TString None])] in
      exists h',
        jsonpatch.add env "p" (Ex.op "add" "/p" (Ex.str "x"))
          (handle (TStruct "t") q) h = Ok tt h'
        /\ load h' q = Some (VStruct "t" [VPtr TString (Some (mkPlace 1 []))])
        /\ load h' (mkPlace 1 []) = Some (VString "x")).
Proof.
  cbv zeta. split; [split; [reflexivity|split]|].
  - destruct (add_on_nil_pointer_field Ex.env "child"
                (Ex.op "add" "/child" (Some json.Null)) (mkPlace 0 []) "testUser" _
                3%nat (mkField "Child" "" (TPtr (TStruct "testUser")) false)
                (TStruct "testUser") Ex.calvin
                eq_refl eq_refl eq_refl eq_refl eq_refl) as (_ & T & _).
    destruct (T eq_refl) as (h' & R & (fs' & Ls & Lq & _) & Lc).
    exists h'. split; [exact R|]. split; [|exact Lc].
    injection Ls as <-. exact Lq.
  - destruct (add_on_nil_pointer_field Ex.env "child"
                (Ex.op "add" "/child" (Ex.str "x")) (mkPlace 0 []) "testUser" _
                3%nat (mkField "Child" "" (TPtr (TStruct "testUser")) false)
                (TStruct "testUser") Ex.calvin
                eq_refl eq_refl eq_refl eq_refl eq_refl) as (_ & _ & T).
    apply (T (json.Str "x")); [reflexivity | discriminate | discriminate |].
    intros w Lw. destruct w; try discriminate Lw; discriminate.
  - destruct (add_on_nil_pointer_field [("t", [mkField "P" "" (TPtr TString) false])] "p"
                (Ex.op "add" "/p" (Ex.str "x")) (mkPlace 0 []) "t" _
                0%nat (mkField "P" "" (TPtr TString) false) TString
                [OVar (VStruct "t" [VPtr TString None])]
                eq_refl eq_refl eq_refl eq_refl eq_refl) as (T & _).
    destruct (T (VString "x") (json.Str "x") eq_refl eq_refl eq_refl)
      as (h' & R & (fs' & Ls & Lq & _) & Lc).
    exists h'. split; [exact R|]. split; [|exact Lc].
    injection Ls as <-. exact Lq.
Defined.

(* ================================================================== *)
(** ** [Apply]: its checks, and the empty document                     *)
(* ================================================================== *)

(** [Copy] into a fresh zero variable, as [Apply] calls it, leaves a
    clone there. *)
Lemma Copy_into_fresh env h g t p v fv tr :
  load h p = Some v ->
  type_of v = t ->
  clonable env (S g) h v = true ->
  view fv h v = Some tr ->
  exists cv H',
    deep.Copy env (S g) (Some (VPtr t (Some p)))
      (Some (VPtr t (Some (mkPlace (List.length h) []))))
      (h ++ [OVar (zero env t)]) = Ok tt H'
    /\ cloned (h ++ [OVar (zero env t)]) H' (mkPlace (List.length h) []) cv tr fv
    /\ type_of cv = type_of v.
Proof.
  intros L T C V.
  destruct (rcopy_clones env h g v C fv tr p (mkPlace (List.length h) [])
              (h ++ [OVar (zero env t)]) (zero env t) V L)
    as (cv & H' & R & Cl & Tc).
  - now exists [OVar (zero env t)].
  - cbn [ploc]. lia.
  - apply load_fresh_var.
  - rewrite type_of_zero. now symmetry.
  - intros u E. eapply zero_nil_map; eauto.
  - exists cv, H'. split; [|split; [exact Cl | exact Tc]].
    unfold deep.Copy, reflect.ValueOf.
    step (Kind_imm false (VPtr t (Some p)) (h ++ [OVar (zero env t)])).
    cbn [kind_of_ty type_of].
    erewrite bind_ok; [|reflexivity]. cbv iota.
    step (Kind_imm false (VPtr t (Some (mkPlace (List.length h) [])))
            (h ++ [OVar (zero env t)])).
    cbn [kind_of_ty type_of kind_eqb negb].
    rewrite rcopy_unfold. stepby (apply if_ptr_imm_Elem).
    erewrite bind_ok; [exact R | reflexivity].
Qed.

(** [Apply] with the empty document, on a pointer to a clonable value:
    it returns nil and the target denotes the tree it denoted, the objects
    of the heap other than the target variable are as they were, and the
    target variable now holds the clone: its tree is fixed by the objects
    [Apply] has allocated, whatever happens to the old ones. *)
Theorem Apply_empty_document env h g t p v fv tr :
  load h p = Some v ->
  type_of v = t ->
  clonable env (S g) h v = true ->
  view fv h v = Some tr ->
  exists h',
    jsonpatch.Apply env (S g) (Some []) (Some (VPtr t (Some p))) h = Ok tt h'
    /\ target fv h' (Some (VPtr t (Some p))) = Some tr
    /\ (forall l, l <> ploc p -> nth_error h l <> None ->
                  nth_error h' l = nth_error h l)
    /\ (forall X, load X p = load h' p ->
                  agree (S (List.length h)) (List.length h') X h' ->
                  target fv X (Some (VPtr t (Some p))) = Some tr).
Proof.
  intros L T C V.
  destruct (Copy_into_fresh env h g t p v fv tr L T C V) as (cv & H' & R & Cl & Tc).
  set (c := mkPlace (List.length h) []) in *.
  destruct Cl as [(H1 & S1 & P1) St].
  assert (LH : List.length (h ++ [OVar (zero env t)]) = S (List.length h))
    by (rewrite length_app; simpl; lia).
  rewrite LH in St.
  assert (Lp : (ploc p < List.length h)%nat) by (eapply load_lt; eauto).
  assert (Lc' : load H' c = Some cv).
  { eapply prefix_load; [exact P1|]. eapply load_store_same; eauto. }
  assert (Lp' : load H' p = Some v).
  { eapply prefix_load; [exact P1|].
    rewrite (load_store_other _ _ _ _ p S1) by (unfold c; cbn [ploc]; lia).
    now apply load_app. }
  destruct (store_some H' p v cv Lp') as [H2 S2].
  assert (Len2 : List.length H2 = List.length H') by (eapply store_length; eauto).
  assert (Stab : forall X, load X p = Some cv ->
                   agree (S (List.length h)) (List.length H2) X H2 ->
                   target fv X (Some (VPtr t (Some p))) = Some tr).
  { intros X Lx A. unfold target. rewrite Lx. apply St.
    intros l Hl. rewrite A by lia.
    apply (nth_error_store_other _ _ _ _ l S2). lia. }
  exists H2. split; [|split; [|split]].
  - unfold jsonpatch.Apply, reflect.ValueOf.
    step (Kind_imm false (VPtr t (Some p)) h). cbn [kind_of_ty type_of].
    erewrite bind_ok; [|reflexivity]. cbv iota.
    step (Elem_imm false t p h).
    step (Type_var _ false _ _ L). rewrite T.
    step (New_ok env t h).
    step (Interface_imm (VPtr t (Some c)) (h ++ [OVar (zero env t)])).
    erewrite bind_ok; [|unfold try; fold c; rewrite R; reflexivity].
    cbn [for_each]. rewrite bind_ret.
    step (Elem_imm false t p H'). step (Elem_imm false t c H').
    apply (Set_from_var H' p v c cv H2 Lp' Lc'); [now symmetry | exact S2].
  - apply Stab; [eapply load_store_same; eauto | apply agree_refl].
  - intros l Nl Some_l.
    rewrite (nth_error_store_other _ _ _ _ l S2 Nl).
    assert (Ll : (l < List.length h)%nat) by (now apply nth_error_Some).
    destruct P1 as [E ->]. rewrite nth_error_app1
      by (rewrite (store_length _ _ _ _ S1), length_app; simpl; lia).
    rewrite (nth_error_store_other _ _ _ _ l S1) by (unfold c; cbn [ploc]; lia).
    apply nth_error_app1. lia.
  - intros X Lx A. apply Stab; [|exact A].
    rewrite Lx. eapply load_store_same; eauto.
Qed.

(** The theorem at [&s{A: "hello", B: &s{A: "world"}}] of [TestStruct]. *)
Lemma Apply_empty_document_witness :
  let a := VStruct "s" [VString "hello"; VPtr (TStruct "s") (Some (mkPlace 1%nat []))] in
  let tr := NStruct "s" [NString "hello";
              NRef (TStruct "s") (NStruct "s" [NString "world"; NNil (TPtr (TStruct "s"))])] in
  let x := Some (VPtr (TStruct "s") (Some (mkPlace 0 []))) in
  (load Ex.nested (mkPlace 0 []) = Some a
   /\ clonable Ex.env 3 Ex.nested a = true
   /\ view Ex.fuel Ex.nested a = Some tr)
  /\ exists h',
       jsonpatch.Apply Ex.env 3 (Some []) x Ex.nested = Ok tt h'
       /\ target Ex.fuel h' x = Some tr.
Proof.
  cbv zeta. split.
  - repeat split; vm_compute; reflexivity.
  - destruct (Apply_empty_document Ex.env Ex.nested 2 (TStruct "s") (mkPlace 0 [])
                (VStruct "s" [VString "hello";
                              VPtr (TStruct "s") (Some (mkPlace 1%nat []))])
                Ex.fuel
                (NStruct "s" [NString "hello";
                   NRef (TStruct "s")
                     (NStruct "s" [NString "world"; NNil (TPtr (TStruct "s"))])])
                eq_refl eq_refl eq_refl eq_refl) as (h' & R & Tg & _).
    exists h'. split; [exact R | exact Tg].
Defined.

(** [Apply] looks at its target first: anything but a non-nil pointer
    gives [ErrNonPointer], whatever the document, and nothing is touched.
    A document that does not parse is reported next. *)
Theorem Apply_checks_target_then_document env fuel data x h :
  ((forall t q, x <> Some (VPtr t (Some q))) ->
   jsonpatch.Apply env fuel data x h = Err ErrNonPointer h)
  /\ (forall t q, x = Some (VPtr t (Some q)) -> data = None ->
        jsonpatch.Apply env fuel data x h = Err JsonSyntaxError h).
Proof.
  split.
  - intros N. destruct x as [[b|z|z|s|t [q|]|t sl|t m|n fs|t]|]; try reflexivity.
    now destruct (N t q).
  - intros t q -> ->. reflexivity.
Qed.

(** With a string in place of the pointer, and with a document that is
    not JSON. *)
Lemma Apply_checks_witness :
  jsonpatch.Apply Ex.env Ex.fuel None (Some (VString "u")) Ex.calvin
  = Err ErrNonPointer Ex.calvin
  /\ jsonpatch.Apply Ex.env Ex.fuel None Ex.u Ex.calvin = Err JsonSyntaxError Ex.calvin.
Proof.
  split.
  - apply (proj1 (Apply_checks_target_then_document Ex.env Ex.fuel None
                    (Some (VString "u")) Ex.calvin)). discriminate.
  - apply (proj2 (Apply_checks_target_then_document Ex.env Ex.fuel None Ex.u Ex.calvin)
             (TStruct "testUser") (mkPlace 0 [])); reflexivity.
Defined.

(** [Apply] on a pointer to a nil pointer ([var u *T; Apply(data, &u)])
    panics, whatever the document: the deep copy that comes first takes
    the [Type] of what the nil pointer points to. *)
Theorem Apply_on_pointer_to_nil_panics env g patches p u h :
  load h p = Some (VPtr u None) ->
  jsonpatch.Apply env (S g) (Some patches) (Some (VPtr (TPtr u) (Some p))) h
  = Panic PZeroValue.
Proof.
  intros L.
  set (c := mkPlace (List.length h) []).
  set (h1 := h ++ [OVar (zero env (TPtr u))]).
  assert (L1 : load h1 p = Some (VPtr u None)) by (now apply load_app).
  assert (Lc : load h1 c = Some (VPtr u None)).
  { unfold h1, c. rewrite zero_ptr. apply (load_fresh_var h _ []). }
  assert (Cp : deep.Copy env (S g) (Some (VPtr (TPtr u) (Some p)))
                 (Some (VPtr (TPtr u) (Some c))) h1 = Panic PZeroValue).
  { unfold deep.Copy, reflect.ValueOf.
    step (Kind_imm false (VPtr (TPtr u) (Some p)) h1). cbn [kind_of_ty type_of].
    erewrite bind_ok; [|reflexivity]. cbv iota.
    step (Kind_imm false (VPtr (TPtr u) (Some c)) h1).
    cbn [kind_of_ty type_of kind_eqb negb].
    rewrite rcopy_unfold. stepby (apply if_ptr_imm_Elem).
    erewrite bind_ok; [|reflexivity].
    unfold rcopy_switch. step (Kind_var _ false _ _ L1). cbn [kind_of_ty type_of].
    step (Elem_var false _ _ _ _ L1). reflexivity. }
  unfold jsonpatch.Apply, reflect.ValueOf.
  step (Kind_imm false (VPtr (TPtr u) (Some p)) h). cbn [kind_of_ty type_of].
  erewrite bind_ok; [|reflexivity]. cbv iota.
  step (Elem_imm false (TPtr u) p h).
  step (Type_var _ false _ _ L). cbn [type_of].
  step (New_ok env (TPtr u) h). fold c h1.
  step (Interface_imm (VPtr (TPtr u) (Some c)) h1).
  unfold bind at 1, try. now rewrite Cp.
Qed.

(** On the nil [Child] of [u] in [TestAdd], taken as the target. *)
Lemma Apply_on_pointer_to_nil_witness :
  load Ex.calvin (mkPlace 0 [3%nat]) = Some (VPtr (TStruct "testUser") None)
  /\ jsonpatch.Apply Ex.env Ex.fuel (Some [])
       (Some (VPtr (TPtr (TStruct "testUser")) (Some (mkPlace 0 [3%nat])))) Ex.calvin
     = Panic PZeroValue.
Proof.
  split; [reflexivity|].
  exact (Apply_on_pointer_to_nil_panics Ex.env 15 [] (mkPlace 0 [3%nat])
           (TStruct "testUser") Ex.calvin eq_refl).
Defined.

(* ================================================================== *)
(** ** What [Apply] reads of a patch                                   *)
(* ================================================================== *)

Lemma findNode_descend_ext env r root node p p' child h :
  (forall x h', r node p x h' = r node p' x h') ->
  findNode_descend env r root node p child h
  = findNode_descend env r root node p' child h.
Proof.
  intros E. unfold findNode_descend.
  apply bind_ext. intros kc h1.
  destruct kc;
    try (apply bind_ext; intros [] h2;
         destruct (reflect.CanAddr child); [|reflexivity];
         apply bind_ext; intros a h3; apply E).
  apply bind_ext. intros isnil h2. destruct isnil; cbn [negb]; [|apply E].
  repeat (apply bind_ext; intros). apply E.
Qed.

Lemma findNode_ext env r root node p p' x h :
  (forall y h', r node p y h' = r node p' y h') ->
  jsonpatch.findNode env r root node p x h = jsonpatch.findNode env r root node p' x h.
Proof.
  intros E. rewrite !findNode_unfold.
  apply bind_ext. intros x1 h1. apply bind_ext. intros k h2.
  apply bind_ext. intros child h3. now apply findNode_descend_ext.
Qed.

Lemma rapply_n_core env fuel n path p x h :
  jsonpatch.rapply_n env fuel n path p x h
  = jsonpatch.rapply_n env fuel n path (patch_core p) x h.
Proof.
  revert path x h. induction n as [|n IH]; intros path x h; [reflexivity|].
  cbn [jsonpatch.rapply_n]. destruct (Str.SplitN2 path) as [root [node|]].
  - apply findNode_ext. intros y h'. apply IH.
  - reflexivity.
Qed.

Lemma for_each_ext {A} (l l' : list A) (R : A -> A -> Prop) (f g : A -> M unit) h :
  Forall2 R l l' ->
  (forall a b h', R a b -> f a h' = g b h') ->
  for_each l f h = for_each l' g h.
Proof.
  intros F E. revert h. induction F as [|a b l l' Rab F IH]; intros h; [reflexivity|].
  cbn [for_each]. unfold bind. rewrite (E a b h Rab).
  destruct (g b h); try reflexivity. apply IH.
Qed.

(** Of each patch [Apply] reads the operation, the value and the path
    without the slashes at its ends, and nothing else: two documents whose
    patches agree on these have the same outcome.  In particular [from]
    is never read. *)
Theorem Apply_reads_op_value_and_trimmed_path env fuel ps ps' x h :
  Forall2 same_request ps ps' ->
  jsonpatch.Apply env fuel (Some ps) x h = jsonpatch.Apply env fuel (Some ps') x h.
Proof.
  intros F. unfold jsonpatch.Apply.
  apply bind_ext. intros k h1. apply bind_ext. intros isnil h2.
  destruct isnil; [reflexivity|].
  apply bind_ext. intros e h3. apply bind_ext. intros t h4.
  apply bind_ext. intros ry h5. apply bind_ext. intros y h6.
  apply bind_ext. intros [u|err] h7; [|reflexivity].
  unfold bind at 1 3.
  rewrite (for_each_ext ps ps' same_request
             (fun p => jsonpatch.rapply env fuel (Str.Trim (jsonpatch.Path p)) p ry)
             (fun p => jsonpatch.rapply env fuel (Str.Trim (jsonpatch.Path p)) p ry)
             h7 F); [reflexivity|].
  intros a b h' (Eo & Ev & Ep). rewrite Ep. unfold jsonpatch.rapply.
  rewrite rapply_n_core, (rapply_n_core env fuel _ _ b).
  unfold patch_core. now rewrite Eo, Ev.
Qed.

(** The replace of [TestReplace] on [u.Name], with the path written
    ["name/"] and a [from]. *)
Lemma Apply_reads_witness :
  let p := Ex.op "replace" "/name" (Ex.str "Calvin") in
  let p' := jsonpatch.mkPatch "replace" "name/" "/age" (Ex.str "Calvin") in
  Forall2 same_request [p] [p']
  /\ jsonpatch.Apply Ex.env Ex.fuel (Some [p]) Ex.u (Ex.hobbes "12830921")
     = jsonpatch.Apply Ex.env Ex.fuel (Some [p']) Ex.u (Ex.hobbes "12830921").
Proof.
  cbv zeta.
  assert (F : Forall2 same_request [Ex.op "replace" "/name" (Ex.str "Calvin")]
                [jsonpatch.mkPatch "replace" "name/" "/age" (Ex.str "Calvin")]).
  { constructor; [|constructor]. repeat split. }
  split; [exact F|].
  exact (Apply_reads_op_value_and_trimmed_path Ex.env Ex.fuel _ _ Ex.u
           (Ex.hobbes "12830921") F).
Defined.

(* ================================================================== *)
(** ** Round trips                                                     *)
(* ================================================================== *)

(** An [add] on a slice followed by a [remove] at the same index gives
    the slice its elements back: at an index [i] below the length, or
    with ["-"] and then the old length as index.  The slice is in a new
    array, and no other object that was in the heap has changed. *)
Theorem add_then_remove_restores env nodeA nodeR pA pR q t s es j e i h :
  load h q = Some (VSlice t s) ->
  slice_holds h s es ->
  Forall (fun v => type_of v = t) es ->
  jsonpatch.Value pA = Some j ->
  json.generic j = Some e ->
  type_of e = t ->
  (nodeA = "-" /\ i = List.length es)
  \/ (Str.Atoi nodeA = Some (Z.of_nat i) /\ (i < List.length es)%nat) ->
  Str.Atoi nodeR = Some (Z.of_nat i) ->
  exists h1 h2 s2,
    jsonpatch.add env nodeA pA (handle (TSlice t) q) h = Ok tt h1
    /\ jsonpatch.remove env nodeR pR (handle (TSlice t) q) h1 = Ok tt h2
    /\ load h2 q = Some (VSlice t (Some s2))
    /\ slice_holds h2 (Some s2) es
    /\ (forall l, (l < List.length h)%nat -> l <> ploc q ->
                  nth_error h2 l = nth_error h l).
Proof.
  intros Hq Hs Hty Hv Hg Ht Hi Hr.
  set (es1 := firstn i es ++ e :: skipn i es).
  assert (Li : (i <= List.length es)%nat) by (destruct Hi as [[_ ->]|[_ Hi]]; lia).
  assert (L1 : List.length es1 = S (List.length es)).
  { unfold es1. rewrite length_app, length_firstn. cbn [List.length].
    rewrite length_skipn. lia. }
  assert (Hadd : exists h0,
    store h q (VSlice t (Some (mkSlice (List.length h) 0
                                  (S (List.length es)) (S (List.length es))))) = Some h0
    /\ jsonpatch.add env nodeA pA (handle (TSlice t) q) h = Ok tt (h0 ++ [OArr es1])).
  { destruct Hi as [[-> ->]|[Ha Hi]].
    - unfold es1. rewrite firstn_all, skipn_all.
      exact (add_append env pA q t s es j e h Hq Hs Hv Hg Ht).
    - exact (add_insert env pA q t s es j e h nodeA i Hq Hs Hty Hv Hg Ht Ha Hi). }
  destruct Hadd as (h0 & S0 & A).
  pose proof (store_length _ _ _ _ S0) as Len0.
  set (hd1 := mkSlice (List.length h) 0 (S (List.length es)) (S (List.length es))) in *.
  set (h1 := h0 ++ [OArr es1]) in *.
  assert (Q1 : load h1 q = Some (VSlice t (Some hd1))).
  { apply load_app. eapply load_store_same; eauto. }
  assert (H1s : slice_holds h1 (Some hd1) es1).
  { exists es1. unfold hd1, h1. cbn [sarr soff slen scap]. rewrite <- Len0.
    split; [apply nth_error_last|]. split; [lia|]. split; [lia|].
    cbn [skipn]. rewrite <- L1. now rewrite firstn_all. }
  destruct (remove_in_range env pR q t hd1 es1 h1 nodeR i Q1 H1s Hr ltac:(lia))
    as (h2 & S2 & R).
  pose proof (store_length _ _ _ _ S2) as Len2.
  assert (Back : firstn i es1 ++ skipn (S i) es1 = es).
  { unfold es1.
    rewrite firstn_app, length_firstn, Nat.min_l, Nat.sub_diag by lia.
    rewrite firstn_firstn, Nat.min_id. cbn [firstn]. rewrite app_nil_r.
    replace (S i) with (List.length (firstn i es) + 1)%nat
      by (rewrite length_firstn; lia).
    rewrite skipn_app, length_firstn, Nat.min_l by lia.
    rewrite skipn_all2 by (rewrite length_firstn; lia).
    replace (i + 1 - i)%nat with 1%nat by lia. cbn [skipn app].
    apply firstn_skipn. }
  rewrite Back in R. rewrite L1 in S2.
  replace (S (List.length es) - 1)%nat with (List.length es) in S2 by lia.
  exists h1, (h2 ++ [OArr es]),
         (mkSlice (List.length h1) 0 (List.length es) (List.length es)).
  split; [exact A|]. split; [exact R|]. split; [|split].
  - apply load_app. eapply load_store_same; eauto.
  - exists es. cbn [sarr soff slen scap]. rewrite <- Len2.
    split; [apply nth_error_last|]. split; [lia|]. split; [lia|].
    cbn [skipn]. now rewrite firstn_all.
  - intros l Hl Hne.
    rewrite nth_error_app1 by (rewrite Len2; unfold h1; rewrite length_app; lia).
    rewrite (nth_error_store_other _ _ _ _ l S2 Hne).
    unfold h1. rewrite nth_error_app1 by lia.
    eapply nth_error_store_other; eauto.
Qed.

(** The add ["-"] of [TestAdd] on [u.Phones], then a remove at index 1;
    and an add at index 0, then a remove at index 0. *)
Lemma add_then_remove_witness :
  let q := mkPlace 0 [4%nat] in
  let pA := Ex.op "add" "/phones/-" (Ex.str "8390240670") in
  let pR := Ex.op "remove" "/phones/1" None in
  load Ex.calvin q = Some (VSlice TString (Some (mkSlice 1 0 1 1)))
  /\ slice_holds Ex.calvin (Some (mkSlice 1 0 1 1)) [VString "37489239"]
  /\ (exists h1 h2 s2,
        jsonpatch.add Ex.env "-" pA (handle (TSlice TString) q) Ex.calvin = Ok tt h1
        /\ jsonpatch.remove Ex.env "1" pR (handle (TSlice TString) q) h1 = Ok tt h2
        /\ load h2 q = Some (VSlice TString (Some s2))
        /\ slice_holds h2 (Some s2) [VString "37489239"])
  /\ (exists h1 h2 s2,
        jsonpatch.add Ex.env "0" pA (handle (TSlice TString) q) Ex.calvin = Ok tt h1
        /\ jsonpatch.remove Ex.env "0" pR (handle (TSlice TString) q) h1 = Ok tt h2
        /\ load h2 q = Some (VSlice TString (Some s2))
        /\ slice_holds h2 (Some s2) [VString "37489239"]).
Proof.
  cbv zeta.
  assert (Hs : slice_holds Ex.calvin (Some (mkSlice 1 0 1 1)) [VString "37489239"]).
  { exists [VString "37489239"]. cbn. repeat split; lia. }
  pose proof (fun nodeA nodeR i =>
    add_then_remove_restores Ex.env nodeA nodeR
      (Ex.op "add" "/phones/-" (Ex.str "8390240670")) (Ex.op "remove" "/phones/1" None)
      (mkPlace 0 [4%nat]) TString (Some (mkSlice 1 0 1 1)) [VString "37489239"]
      (json.Str "8390240670") (VString "8390240670") i Ex.calvin
      eq_refl Hs ltac:(repeat constructor) eq_refl eq_refl eq_refl) as T.
  split; [reflexivity|]. split; [exact Hs|]. split.
  - destruct (T "-" "1" 1%nat) as (h1 & h2 & s2 & A & R & Lq & Sh & _);
      [left; split; reflexivity | reflexivity |].
    exists h1, h2, s2. auto.
  - destruct (T "0" "0" 0%nat) as (h1 & h2 & s2 & A & R & Lq & Sh & _);
      [right; split; [reflexivity | simpl; lia] | reflexivity |].
    exists h1, h2, s2. auto.
Defined.

(** A [replace] on a map key followed by a [test] of the same key with
    the same literal: the test returns nil and changes nothing. *)
Theorem replace_then_test_passes env fuel node p p' q t l kvs old j e h :
  load h q = Some (VMap t (Some l)) ->
  nth_error h l = Some (OMap kvs) ->
  alist_get kvs node = Some old ->
  (forall a b, old <> VPtr a (Some b)) ->
  jsonpatch.Value p = Some j ->
  jsonpatch.Value p' = Some j ->
  json.generic j = Some e ->
  type_of e = t ->
  exists h',
    jsonpatch.replace env node p (handle (TMap t) q) h = Ok tt h'
    /\ jsonpatch.test env (S fuel) node p' (handle (TMap t) q) h' = Ok tt h'.
Proof.
  intros L Nl G Ne Hv Hv' Gj T.
  destruct (list_set_some h l (OMap (alist_put kvs node e))) as [h' S].
  { apply nth_error_Some. congruence. }
  assert (Dq : ploc q <> l).
  { intros <-. unfold load in L. rewrite Nl in L. discriminate. }
  assert (L' : load h' q = Some (VMap t (Some l))).
  { unfold load. rewrite (nth_error_list_set _ _ _ _ (ploc q) S).
    destruct (Nat.eqb_spec (ploc q) l); [contradiction | exact L]. }
  assert (Nl' : nth_error h' l = Some (OMap (alist_put kvs node e))).
  { rewrite (nth_error_list_set _ _ _ _ l S). now rewrite Nat.eqb_refl. }
  assert (Pe : forall a b, e <> VPtr a (Some b)).
  { intros a b ->. destruct j; discriminate Gj. }
  exists h'. split.
  - destruct (if_ptr_handle (TMap t) q h _ L) as (E1 & _ & E2).
    unfold jsonpatch.replace. step E1. step E2. cbn [kind_of_ty type_of].
    step (MapIndex_var h false q t l kvs node L Nl). rewrite G.
    cbn [reflect.IsValid negb]. step (Interface_imm old h). rewrite Hv.
    step (UnmarshalIface_scalar env j e old h Gj Ne).
    exact (SetMapIndex_var h q t l kvs node e h' L Nl T S).
  - destruct (if_ptr_handle (TMap t) q h' _ L') as (_ & E2 & E3).
    unfold jsonpatch.test. step E2. unfold jsonpatch.test_child.
    rewrite bind_assoc. step E3. cbn [kind_of_ty type_of]. rewrite bind_assoc.
    step (MapIndex_var h' false q t l _ node L' Nl').
    rewrite alist_get_put_same, bind_ret.
    rewrite (test_compare env fuel p' _ e j h' (Interface_imm e h') Pe Hv'), Gj.
    now rewrite (proj2 (deep_eq_generic fuel h' j e e Gj Pe) eq_refl).
Qed.

(** The replace of [TestReplace] on [u.M], then the test of [TestTest]. *)
Lemma replace_then_test_witness :
  let h := Ex.hobbes "12830921" in
  let q := mkPlace 0 [5%nat] in
  exists h',
    jsonpatch.replace Ex.env "a" (Ex.op "replace" "/m/a" (Ex.str "hello world"))
      (handle (TMap TString) q) h = Ok tt h'
    /\ jsonpatch.test Ex.env Ex.fuel "a" (Ex.op "test" "/m/a" (Ex.str "hello world"))
         (handle (TMap TString) q) h' = Ok tt h'.
Proof.
  cbv zeta.
  exact (replace_then_test_passes Ex.env 15 "a"
           (Ex.op "replace" "/m/a" (Ex.str "hello world"))
           (Ex.op "test" "/m/a" (Ex.str "hello world"))
           (mkPlace 0 [5%nat]) TString 3%nat [("a", VString "hello")]
           (VString "hello") (json.Str "hello world") (VString "hello world")
           (Ex.hobbes "12830921")
           eq_refl eq_refl eq_refl ltac:(discriminate) eq_refl eq_refl eq_refl eq_refl).
Defined.

(* ================================================================== *)
(** ** Deep copy: a nil slice                                          *)
(* ================================================================== *)

(** [Copy] of a nil slice into a fresh zero variable, as [Apply] calls
    it: it returns nil, and the destination holds an empty slice that is
    not nil, [copyArray] having made one of length 0.  The source is
    untouched, and [reflect.DeepEqual] tells the two apart. *)
Theorem Copy_makes_nil_slice_empty env g fq t p h :
  load h p = Some (VSlice t None) ->
  let c := mkPlace (List.length h) [] in
  let x := Some (VPtr (TSlice t) (Some p)) in
  let y := Some (VPtr (TSlice t) (Some c)) in
  exists H',
    deep.Copy env (S g) x y (h ++ [OVar (zero env (TSlice t))]) = Ok tt H'
    /\ prefix h H'
    /\ load H' c = Some (VSlice t (Some (mkSlice (S (List.length h)) 0 0 0)))
    /\ target (S fq) H' x = Some (NNil (TSlice t))
    /\ target (S fq) H' y = Some (NSlice t [])
    /\ DeepEqual (S (S fq)) x y H' = Ok false H'.
Proof.
  intros L c x y.
  set (sl := VSlice t (Some (mkSlice (S (List.length h)) 0 0 0))).
  set (h1 := h ++ [OVar (zero env (TSlice t))]).
  set (H' := h ++ [OVar sl; OArr []]).
  assert (L1 : load h1 p = Some (VSlice t None)) by (now apply load_app).
  assert (Lc : load h1 c = Some (VSlice t None)).
  { unfold h1, c. rewrite zero_slice. apply (load_fresh_var h _ []). }
  assert (Len1 : List.length h1 = S (List.length h)).
  { unfold h1. rewrite length_app. simpl. lia. }
  assert (Lp' : load H' p = Some (VSlice t None)) by (now apply load_app).
  assert (Lc' : load H' c = Some sl) by (apply (load_fresh_var h sl [OArr []])).
  assert (Dp : place_eqb p c = false).
  { unfold place_eqb, c. cbn [ploc]. apply load_lt in L.
    destruct (Nat.eqb_spec (ploc p) (List.length h)); [lia | reflexivity]. }
  exists H'. split; [|split; [|split; [|split; [|split]]]].
  - unfold deep.Copy, x, y, reflect.ValueOf.
    step (Kind_imm false (VPtr (TSlice t) (Some p)) h1). cbn [kind_of_ty type_of].
    erewrite bind_ok; [|reflexivity]. cbv iota.
    step (Kind_imm false (VPtr (TSlice t) (Some c)) h1).
    cbn [kind_of_ty type_of kind_eqb negb].
    rewrite rcopy_unfold. stepby (apply if_ptr_imm_Elem).
    erewrite bind_ok; [|reflexivity].
    unfold rcopy_switch. step (Kind_var _ false _ _ L1). cbn [kind_of_ty type_of].
    step (Addr_var false _ _ _ L1). step (Addr_var false _ _ _ Lc).
    rewrite copyArray_unfold.
    stepby (apply if_ptr_imm_Elem). stepby (apply if_ptr_imm_Elem).
    step (Len_slice _ false _ _ _ L1). cbn [reflect.hdr_len].
    step (Kind_var _ false _ _ L1). cbn [kind_of_ty type_of].
    rewrite ?bind_assoc.
    step (Type_var _ false _ _ L1). cbn [type_of]. rewrite ?bind_assoc.
    stepby (apply MakeSlice_ok; lia). change (Z.to_nat (Z.of_nat 0)) with 0%nat.
    rewrite Len1. fold sl. cbn [repeat].
    erewrite bind_ok.
    2:{ apply (Set_var _ _ (VSlice t None) sl (H')); [now apply load_app | reflexivity |].
        unfold h1, c, H'. rewrite <- app_assoc. rewrite zero_slice.
        apply (store_fresh_var h _ [OArr []] sl). }
    reflexivity.
  - now exists [OVar sl; OArr []].
  - exact Lc'.
  - unfold target, x. rewrite Lp'. reflexivity.
  - unfold target, y. rewrite Lc'. unfold sl. cbn [view].
    unfold slice_elems. cbn [sarr slen soff]. unfold H'.
    replace (S (List.length h)) with (List.length (h ++ [OVar sl]))
      by (rewrite length_app; simpl; lia).
    change (h ++ [OVar sl; OArr []]) with (h ++ [OVar sl] ++ [OArr []]).
    rewrite app_assoc, nth_error_last. reflexivity.
  - unfold DeepEqual, x, y. cbn [deep_eq]. unfold deep_eq_step at 1.
    cbn [type_of]. rewrite ty_eqb_refl. cbn [negb]. rewrite Dp, Lp', Lc'.
    unfold deep_eq_step, sl. cbn [type_of]. rewrite ty_eqb_refl. reflexivity.
Qed.

(** On the nil [Phones] of the child of [u] in [TestReplace]. *)
Lemma Copy_makes_nil_slice_empty_witness :
  let h := Ex.hobbes "12830921" in
  let p := mkPlace 2 [4%nat] in
  load h p = Some (VSlice TString None)
  /\ exists H',
       deep.Copy Ex.env Ex.fuel (Some (VPtr (TSlice TString) (Some p)))
         (Some (VPtr (TSlice TString) (Some (mkPlace 4 []))))
         (h ++ [OVar (VSlice TString None)]) = Ok tt H'
       /\ load H' (mkPlace 4 []) = Some (VSlice TString (Some (mkSlice 5 0 0 0))).
Proof.
  cbv zeta. split; [reflexivity|].
  destruct (Copy_makes_nil_slice_empty Ex.env 15 0 TString (mkPlace 2 [4%nat])
              (Ex.hobbes "12830921") eq_refl) as (H' & R & _ & Lc & _).
  exists H'. split; [exact R | exact Lc].
Defined.
